(** * mpy-workbench: the synchronisation core, embedded and verified

    The development follows the two TypeScript modules that carry the
    synchronisation logic of the extension:

    - the board operations (path mapping, diff check, baseline upload), and
    - the mpremote wrapper (subprocess runner with retries, tree cache,
      mkdir / cp / rm / stat / mv front ends).

    Strings are byte strings ([string] of the Standard Library) that
    hold the UTF-8 encoding of the text; the external tool, the clock
    and the local file system are oracles that see the history of what
    happened so far. *)

From Stdlib Require Import String Ascii List ZArith Lia Bool Arith PeanoNat.
From Stdlib Require Import Sorting.Sorted DecimalString.
Import ListNotations.

Open Scope string_scope.
Open Scope list_scope.

Infix "+++" := String.append (right associativity, at level 60).

(** ** JavaScript string primitives used by the sources *)

Module Js.

Definition isSlash (c : ascii) : bool := Ascii.eqb c "/".

(** [s.startsWith(p)] *)
Definition startsWith (p s : string) : bool := String.prefix p s.

(** [s.slice(n)] for [0 <= n] *)
Fixpoint slice (n : nat) (s : string) : string :=
  match n, s with
  | O, _ => s
  | S _, EmptyString => EmptyString
  | S k, String _ r => slice k r
  end.

(** [s.replace(/^\//, "")] *)
Definition stripLeadingSlash (s : string) : string :=
  match s with
  | String c r => if isSlash c then r else s
  | EmptyString => s
  end.

(** [s.replace(/\/$/, "")] *)
Fixpoint stripTrailingSlash (s : string) : string :=
  match s with
  | EmptyString => EmptyString
  | String c r =>
      match r with
      | EmptyString => if isSlash c then EmptyString else s
      | String _ _ => String c (stripTrailingSlash r)
      end
  end.

(** [s.replace(/\/+/g, "/")] *)
Fixpoint collapseSlashes (s : string) : string :=
  match s with
  | EmptyString => EmptyString
  | String c r =>
      if isSlash c then
        match r with
        | String d _ => if isSlash d then collapseSlashes r
                        else String c (collapseSlashes r)
        | EmptyString => String c EmptyString
        end
      else String c (collapseSlashes r)
  end.

(** [s.includes(p)] *)
Fixpoint includes (p s : string) : bool :=
  if String.prefix p s then true
  else match s with
       | EmptyString => false
       | String _ r => includes p r
       end.

(** No ["/"] occurs in [s]. *)
Fixpoint noSlash (s : string) : bool :=
  match s with
  | EmptyString => true
  | String c r => negb (isSlash c) && noSlash r
  end.

Definition nonEmpty (s : string) : bool :=
  match s with EmptyString => false | String _ _ => true end.

(** Split at every character that satisfies [f] (each one a separator). *)
Fixpoint splitOn (f : ascii -> bool) (s : string) : list string :=
  match s with
  | EmptyString => [EmptyString]
  | String c r =>
      if f c then EmptyString :: splitOn f r
      else match splitOn f r with
           | h :: t => String c h :: t
           | [] => [String c EmptyString]
           end
  end.

(** The white space of the ASCII range: tab, line feed, vertical tab,
    form feed, carriage return and space. *)
Definition isSpace (c : ascii) : bool :=
  let n := nat_of_ascii c in
  Nat.eqb n 9 || Nat.eqb n 10 || Nat.eqb n 11 || Nat.eqb n 12
  || Nat.eqb n 13 || Nat.eqb n 32.

(** The white space beyond the ASCII range, as [\s] and [trim] see it,
    by the bytes of its encoding: U+00A0 takes two bytes, and U+1680,
    U+2000 to U+200A, U+2028, U+2029, U+202F, U+205F, U+3000 and
    U+FEFF take three. *)
Definition isSpace2 (a b : ascii) : bool :=
  Nat.eqb (nat_of_ascii a) 194 && Nat.eqb (nat_of_ascii b) 160.

Definition isSpace3 (a b c : ascii) : bool :=
  let x := nat_of_ascii a in
  let y := nat_of_ascii b in
  let z := nat_of_ascii c in
  Nat.eqb x 225 && Nat.eqb y 154 && Nat.eqb z 128
  || Nat.eqb x 226 && Nat.eqb y 128
     && (Nat.leb 128 z && Nat.leb z 138 || Nat.eqb z 168 || Nat.eqb z 169
         || Nat.eqb z 175)
  || Nat.eqb x 226 && Nat.eqb y 129 && Nat.eqb z 159
  || Nat.eqb x 227 && Nat.eqb y 128 && Nat.eqb z 128
  || Nat.eqb x 239 && Nat.eqb y 187 && Nat.eqb z 191.

Definition revString (s : string) : string :=
  string_of_list_ascii (rev (list_ascii_of_string s)).

(** [s.trimStart()] *)
Fixpoint trimStart (s : string) : string :=
  match s with
  | String a r1 =>
      if isSpace a then trimStart r1
      else
        match r1 with
        | String b r2 =>
            if isSpace2 a b then trimStart r2
            else
              match r2 with
              | String c r3 => if isSpace3 a b c then trimStart r3 else s
              | EmptyString => s
              end
        | EmptyString => s
        end
  | EmptyString => EmptyString
  end.

(** [trimStart] on the reversed string: the bytes of a character come
    last byte first. *)
Fixpoint trimStartReversed (s : string) : string :=
  match s with
  | String a r1 =>
      if isSpace a then trimStartReversed r1
      else
        match r1 with
        | String b r2 =>
            if isSpace2 b a then trimStartReversed r2
            else
              match r2 with
              | String c r3 =>
                  if isSpace3 c b a then trimStartReversed r3 else s
              | EmptyString => s
              end
        | EmptyString => s
        end
  | EmptyString => EmptyString
  end.

(** [s.trimEnd()] *)
Definition trimEnd (s : string) : string :=
  revString (trimStartReversed (revString s)).

(** [s.trim()] *)
Definition trim (s : string) : string := trimEnd (trimStart s).

(** Every white space character beyond the ASCII range replaced by a
    space. *)
Fixpoint asciiSpaces (s : string) : string :=
  match s with
  | String a r1 =>
      match r1 with
      | String b r2 =>
          if isSpace2 a b then String " " (asciiSpaces r2)
          else
            match r2 with
            | String c r3 =>
                if isSpace3 a b c then String " " (asciiSpaces r3)
                else String a (asciiSpaces r1)
            | EmptyString => String a (asciiSpaces r1)
            end
      | EmptyString => s
      end
  | EmptyString => EmptyString
  end.

(** [s.length]: the number of UTF-16 code units of the text, one for
    a character of up to three bytes and two for one of four. *)
Fixpoint codeUnits (s : string) : nat :=
  match s with
  | EmptyString => 0
  | String c r =>
      let n := nat_of_ascii c in
      (if Nat.ltb n 128 then 1
       else if Nat.ltb n 192 then 0
       else if Nat.ltb n 240 then 1 else 2) + codeUnits r
  end.

(** [s.endsWith(p)] *)
Definition endsWith (p s : string) : bool :=
  String.prefix (revString p) (revString s).

Definition lowerChar (c : ascii) : ascii :=
  let n := nat_of_ascii c in
  if Nat.leb 65 n && Nat.leb n 90 then ascii_of_nat (n + 32) else c.

(** [s.toLowerCase()] on the ASCII letters *)
Fixpoint toLowerCase (s : string) : string :=
  match s with
  | EmptyString => EmptyString
  | String c r => String (lowerChar c) (toLowerCase r)
  end.

Fixpoint mapButLast {A : Type} (f : A -> A) (l : list A) : list A :=
  match l with
  | [] => []
  | [x] => [x]
  | x :: r => f x :: mapButLast f r
  end.

Definition stripTrailingCR (s : string) : string :=
  match list_ascii_of_string (revString s) with
  | c :: r => if Nat.eqb (nat_of_ascii c) 13
              then string_of_list_ascii (rev r) else s
  | [] => s
  end.

(** [s.split(/\r?\n/)] *)
Definition splitLines (s : string) : list string :=
  mapButLast stripTrailingCR
    (splitOn (fun c => Nat.eqb (nat_of_ascii c) 10) s).

(** [s.split(/\s+/)]: a run of white space is one separator. *)
Definition splitWs (s : string) : list string :=
  match splitOn isSpace (asciiSpaces s) with
  | [] => []
  | [x] => [x]
  | x :: r => x :: filter nonEmpty (removelast r) ++ [last r EmptyString]
  end.

(** [s.split(/\s+/).filter(part => part.length > 0)] *)
Definition words (s : string) : list string := filter nonEmpty (splitWs s).

Definition digitOf (radix : Z) (c : ascii) : option Z :=
  let n := Z.of_nat (nat_of_ascii c) in
  let v := if (48 <=? n)%Z && (n <=? 57)%Z then Some (n - 48)%Z
           else if (97 <=? n)%Z && (n <=? 122)%Z then Some (n - 87)%Z
           else if (65 <=? n)%Z && (n <=? 90)%Z then Some (n - 55)%Z
           else None in
  match v with
  | Some d => if (d <? radix)%Z then Some d else None
  | None => None
  end.

Fixpoint readDigits (radix : Z) (s : string) (acc : option Z) : option Z :=
  match s with
  | EmptyString => acc
  | String c r =>
      match digitOf radix c with
      | Some d =>
          readDigits radix r
            (Some (match acc with Some a => a * radix + d | None => d end)%Z)
      | None => acc
      end
  end.

(** [parseInt(s)]; [None] is [NaN].  The value is the mathematical
    integer that the digits denote.  The runtime holds it as a double:
    the two agree as long as the value is below [2^53] in absolute
    value, which every run of at most 15 decimal digits is; beyond
    that the runtime rounds to the nearest double. *)
Definition parseInt (s : string) : option Z :=
  let s1 := trimStart s in
  let '(neg, s2) :=
    match s1 with
    | String c r =>
        if Ascii.eqb c "-" then (true, r)
        else if Ascii.eqb c "+" then (false, r) else (false, s1)
    | EmptyString => (false, s1)
    end in
  let '(radix, s3) :=
    if String.prefix "0x" s2 || String.prefix "0X" s2
    then (16%Z, slice 2 s2) else (10%Z, s2) in
  match readDigits radix s3 None with
  | Some v => Some (if neg then (- v)%Z else v)
  | None => None
  end.

(** [parseInt(s) || 0] *)
Definition parseIntOr0 (s : string) : Z :=
  match parseInt s with Some v => v | None => 0%Z end.

(** The index of the last ["/"], as [s.lastIndexOf("/")] finds it. *)
Fixpoint lastSlashIndex (s : string) (i : nat) (found : option nat)
  : option nat :=
  match s with
  | EmptyString => found
  | String c r => lastSlashIndex r (S i) (if isSlash c then Some i else found)
  end.

(** The double quote character, as a one-character string. *)
Definition dquote : string := String (ascii_of_nat 34) EmptyString.

(** Decimal rendering of a length, as template literals print it. *)
Definition showNat (n : nat) : string :=
  DecimalString.NilZero.string_of_uint (Nat.to_uint n).

End Js.

(** ** Path mapping of the board operations *)

Module Paths.
Import Js.

(** [toLocalRelative(devicePath, rootPath)] *)
Definition toLocalRelative (devicePath rootPath : string) : string :=
  let normRoot := if String.eqb rootPath "/" then "/"
                  else stripTrailingSlash rootPath in
  if String.eqb normRoot "/" then stripLeadingSlash devicePath
  else if startsWith (normRoot +++ "/") devicePath
       then slice (String.length normRoot + 1) devicePath
  else if String.eqb devicePath normRoot then ""
  else stripLeadingSlash devicePath.

(** [BoardOperations.relFromDevice] has the same body. *)
Definition relFromDevice (devicePath rootPath : string) : string :=
  let normRoot := if String.eqb rootPath "/" then "/"
                  else stripTrailingSlash rootPath in
  if String.eqb normRoot "/" then stripLeadingSlash devicePath
  else if startsWith (normRoot +++ "/") devicePath
       then slice (String.length normRoot + 1) devicePath
  else if String.eqb devicePath normRoot then ""
  else stripLeadingSlash devicePath.

(** [BoardOperations.toDevicePath(localRel, rootPath)] *)
Definition toDevicePath (localRel rootPath : string) : string :=
  let normalizedLocalPath := stripTrailingSlash (collapseSlashes localRel) in
  let normalizedRootPath := stripTrailingSlash (collapseSlashes rootPath) in
  if String.eqb normalizedRootPath "" then "/" +++ normalizedLocalPath
  else if String.eqb normalizedLocalPath "" then normalizedRootPath
  else normalizedRootPath +++ "/" +++ normalizedLocalPath.

End Paths.

(** ** The diff check ([BoardOperations.checkDiffs], comparison part) *)

Module Diff.
Import Js Paths.

(** A JavaScript [Map<string, V>]: keys in insertion order, [set] on a
    present key replaces the value in place. *)
Fixpoint mapSet {V : Type} (k : string) (v : V) (m : list (string * V))
  : list (string * V) :=
  match m with
  | [] => [(k, v)]
  | (k', v') :: r => if String.eqb k' k then (k, v) :: r
                     else (k', v') :: mapSet k v r
  end.

Fixpoint mapGet {V : Type} (k : string) (m : list (string * V)) : option V :=
  match m with
  | [] => None
  | (k', v') :: r => if String.eqb k' k then Some v' else mapGet k r
  end.

(** A JavaScript [Set<string>]: [add] appends unless present. *)
Fixpoint setHas (k : string) (s : list string) : bool :=
  match s with
  | [] => false
  | x :: r => String.eqb x k || setHas k r
  end.

Definition setAdd (k : string) (s : list string) : list string :=
  if setHas k s then s else s ++ [k].

Record BoardFile := { bf_path : string; bf_size : Z }.

Record DiffResult := {
  diffSet : list string;
  localOnlySet : list string;
  localOnlyDirectories : list string;
  boardOnlySet : list string
}.

(** [v || -1] on the result of [Map.get]: [undefined] and [0] are falsy. *)
Definition orMinusOne (v : option Z) : Z :=
  match v with
  | Some n => if (n =? 0)%Z then (-1)%Z else n
  | None => (-1)%Z
  end.

Section CheckDiffs.
(** The ignore matcher is built by the sync module, which is not among
    the sources: it is a parameter. *)
Variable matcher : string -> bool -> bool.
Variable rootPath : string.
(** [fs.stat(absPath).size] of a manifest entry; [None] when the stat
    fails. *)
Variable localStat : string -> option Z.

(** Board files that the matcher keeps. *)
Definition filteredBoardFiles (boardFiles : list (string * Z))
  : list (string * Z) :=
  fold_left
    (fun acc (e : string * Z) =>
       let (boardPath, size) := e in
       let relPath := relFromDevice boardPath rootPath in
       if negb (matcher relPath false) then mapSet boardPath size acc
       else acc)
    boardFiles [].

(** Reverse mapping, keyed by the path relative to the root. *)
Definition boardFileByRelPath (filtered : list (string * Z))
  : list (string * BoardFile) :=
  fold_left
    (fun acc (e : string * Z) =>
       let (boardPath, size) := e in
       let relPath := relFromDevice boardPath rootPath in
       mapSet relPath {| bf_path := boardPath; bf_size := size |} acc)
    filtered [].

(** [localFileSizes]: the stat'ed size, or [-1] when the stat failed. *)
Definition localFileSizes (localFiles : list string) : list (string * Z) :=
  fold_left
    (fun acc localRel =>
       mapSet localRel
         (match localStat localRel with Some n => n | None => (-1)%Z end)
         acc)
    localFiles [].

(** The loop "Compare files". *)
Definition compareFiles (byRel : list (string * BoardFile))
    (sizes : list (string * Z)) (localFiles : list string)
  : list string * list string :=
  fold_left
    (fun (acc : list string * list string) localRel =>
       let (diffs, localOnly) := acc in
       let boardFile := mapGet localRel byRel in
       let localSize := orMinusOne (mapGet localRel sizes) in
       match boardFile with
       | Some bf =>
           if negb (localSize =? bf_size bf)%Z
           then (setAdd (bf_path bf) diffs, localOnly)
           else (diffs, localOnly)
       | None =>
           let devicePath := toDevicePath localRel rootPath in
           (diffs, setAdd devicePath localOnly)
       end)
    localFiles ([], []).

(** The loop "Find files that exist on board but not locally". *)
Definition boardOnlyFiles (byRel : list (string * BoardFile))
    (localFiles : list string) : list string :=
  fold_left
    (fun acc (e : string * BoardFile) =>
       let (relPath, boardFile) := e in
       if negb (setHas relPath localFiles)
       then setAdd (bf_path boardFile) acc else acc)
    byRel [].

(** The loop "Find directories that exist locally but not on board". *)
Definition localOnlyDirs (localDirectories boardDirectories : list string)
  : list string :=
  fold_left
    (fun acc localDir =>
       let devicePath := toDevicePath localDir rootPath in
       if negb (setHas devicePath boardDirectories)
       then setAdd devicePath acc else acc)
    localDirectories [].

(** The four sets that [checkDiffs] hands to the decorations, from the
    manifest keys, the local directories and the board listing. *)
Definition checkDiffs (localFiles localDirectories : list string)
    (boardFiles : list (string * Z)) (boardDirectories : list string)
  : DiffResult :=
  let byRel := boardFileByRelPath (filteredBoardFiles boardFiles) in
  let sizes := localFileSizes localFiles in
  let (diffs, localOnly) := compareFiles byRel sizes localFiles in
  {| diffSet := diffs;
     localOnlySet := localOnly;
     localOnlyDirectories := localOnlyDirs localDirectories boardDirectories;
     boardOnlySet := boardOnlyFiles byRel localFiles |}.
End CheckDiffs.

(** Stat oracle of a local tree given as (relative path, size) pairs. *)
Definition statOf (tree : list (string * Z)) (rel : string) : option Z :=
  mapGet rel tree.

End Diff.

(** ** [path.posix] of the Node runtime

    [join] and [dirname] belong to the runtime, not to the repository;
    they are modelled after the runtime's documented algorithm. *)

Module NodePath.
Import Js.

(** [s.split("/")] *)
Definition splitSlash (s : string) : list string := splitOn isSlash s.

(** [s.endsWith("/")] *)
Fixpoint endsWithSlash (s : string) : bool :=
  match s with
  | EmptyString => false
  | String c r =>
      match r with
      | EmptyString => isSlash c
      | String _ _ => endsWithSlash r
      end
  end.

(** The segment machine of [normalizeString]: empty and ["."] segments
    are dropped, [".."] removes the previous segment when there is one
    that is not itself [".."], and is kept only above a relative root.
    [stack] holds the segments kept so far, last first. *)
Fixpoint normSegs (allowAboveRoot : bool) (todo stack : list string)
  : list string :=
  match todo with
  | [] => rev stack
  | seg :: rest =>
      if String.eqb seg "" || String.eqb seg "." then
        normSegs allowAboveRoot rest stack
      else if String.eqb seg ".." then
        match stack with
        | top :: below =>
            if String.eqb top ".." then
              normSegs allowAboveRoot rest
                (if allowAboveRoot then seg :: stack else stack)
            else normSegs allowAboveRoot rest below
        | [] =>
            normSegs allowAboveRoot rest
              (if allowAboveRoot then [seg] else [])
        end
      else normSegs allowAboveRoot rest (seg :: stack)
  end.

(** [path.posix.normalize] *)
Definition normalize (path : string) : string :=
  if String.eqb path "" then "." else
  let isAbsolute := startsWith "/" path in
  let trailingSeparator := endsWithSlash path in
  let p := String.concat "/"
             (normSegs (negb isAbsolute) (splitSlash path) []) in
  if String.eqb p "" then
    if isAbsolute then "/" else if trailingSeparator then "./" else "."
  else
    let p' := if trailingSeparator then p +++ "/" else p in
    if isAbsolute then "/" +++ p' else p'.

(** [path.posix.join(a, b)] *)
Definition join (a b : string) : string :=
  match nonEmpty a, nonEmpty b with
  | false, false => "."
  | true, false => normalize a
  | false, true => normalize b
  | true, true => normalize (a +++ "/" +++ b)
  end.

Fixpoint dropWhile {A : Type} (f : A -> bool) (l : list A) : list A :=
  match l with
  | [] => []
  | x :: r => if f x then dropWhile f r else l
  end.

(** [path.posix.dirname]: the scan runs from the last character down to
    index 1, first over trailing slashes, then over the last component,
    and stops on the slash in front of it. *)
Definition dirname (path : string) : string :=
  match path with
  | EmptyString => "."
  | String c0 rest =>
      let hasRoot := isSlash c0 in
      let scan := dropWhile (fun c => negb (isSlash c))
                    (dropWhile isSlash (rev (list_ascii_of_string rest))) in
      match scan with
      | [] => if hasRoot then "/" else "."
      | _ :: before =>
          match before with
          | [] => if hasRoot then "//" else String c0 EmptyString
          | _ :: _ => String c0 (string_of_list_ascii (rev before))
          end
      end
  end.

End NodePath.

(** ** The directory plan of the baseline upload ([syncBaseline]) *)

Module Plan.
Import Js NodePath Diff.

(** [p.split("/").filter(p => p)] *)
Definition segments (p : string) : list string :=
  filter nonEmpty (splitSlash p).

(** [a.split("/").filter(p => p).length] *)
Definition depth (p : string) : nat := List.length (segments p).

(** The loop [while (currentDir !== rootPath && currentDir !== "/")].
    [fuel] bounds the number of iterations; [None] is a loop that is
    still running when the fuel is spent. *)
Fixpoint climb (fuel : nat) (rootPath currentDir : string)
    (allDirectories : list string) : option (list string) :=
  if negb (String.eqb currentDir rootPath) && negb (String.eqb currentDir "/")
  then match fuel with
       | O => None
       | S fuel' =>
           climb fuel' rootPath (dirname currentDir)
             (setAdd currentDir allDirectories)
       end
  else Some allDirectories.

(** One round of the loop over the manifest keys.  The directory
    chain of a path shrinks at every step until it reaches ["/"] or
    ["."], so a loop that ends at all ends within the given fuel. *)
Definition addFileDirs (rootPath : string) (allDirectories : list string)
    (relativePath : string) : option (list string) :=
  let devicePath := join rootPath relativePath in
  let deviceDir := dirname devicePath in
  if negb (String.eqb deviceDir ".") && negb (String.eqb deviceDir rootPath)
  then climb (S (String.length deviceDir)) rootPath deviceDir allDirectories
  else Some allDirectories.

Fixpoint collectDirectories (rootPath : string) (files : list string)
    (allDirectories : list string) : option (list string) :=
  match files with
  | [] => Some allDirectories
  | relativePath :: rest =>
      match addFileDirs rootPath allDirectories relativePath with
      | Some s => collectDirectories rootPath rest s
      | None => None
      end
  end.

(** [Array.prototype.sort] with the comparator [depthA - depthB]: the
    sort is stable, so it is the insertion sort that puts an element
    after the elements of equal depth. *)
Fixpoint insertByDepth (d : string) (sorted : list string) : list string :=
  match sorted with
  | [] => [d]
  | x :: r => if Nat.leb (depth x) (depth d) then x :: insertByDepth d r
              else d :: sorted
  end.

Definition sortByDepth (dirs : list string) : list string :=
  fold_left (fun acc d => insertByDepth d acc) dirs [].

(** [sortedDirectories] *)
Definition sortedDirectories (rootPath : string) (files : list string)
  : option (list string) :=
  option_map sortByDepth (collectDirectories rootPath files []).

(** A directory with the segments [l] under the device root. *)
Definition mkAbs (l : list string) : string := "/" +++ String.concat "/" l.

(** A path segment: non-empty and without a slash. *)
Definition goodSeg (s : string) : bool := nonEmpty s && noSlash s.


(** [a] is listed before [b]. *)
Definition before (a b : string) (l : list string) : Prop :=
  exists l1 l2 l3, l = l1 ++ a :: l2 ++ b :: l3.

(** A list of path segments. *)
Definition good (l : list string) : Prop :=
  Forall (fun s => goodSeg s = true) l.

(** [a] is at most as deep as [b]: the order of the sort. *)
Definition shallower (a b : string) : Prop := depth a <= depth b.

End Plan.

(** ** The mpremote wrapper: effects

    Every call of the wrapper runs against an environment: the
    configuration, the external tool, the clock and the local file
    system.  The oracles answer from the history of what happened so
    far, so nothing is assumed about how the board reacts. *)

Module Mp.
Import Js.

(** What the callback of [exec] receives. *)
Inductive ExecResult :=
| ExecOk (stdout stderr : string)
| ExecErr (message stderr : string).

(** An entry of [parseTreeLines]. *)
Record ParsedLine := {
  pl_fullPath : string;
  pl_name : string;
  pl_isDir : bool;
  pl_depth : nat
}.

Inductive Event :=
| EvProbe (candidate : string) (found : bool)
| EvExec (args : list string) (result : ExecResult)
| EvSleep (ms : Z)
| EvAccess (path : string) (ok : bool)
| EvSaveTreePaths (lines : list ParsedLine)
| EvWarning (message : string)
| EvErrorMessage (message : string).

Record Env := {
  (** the setting [mpyWorkbench.connect] *)
  connectSetting : string;
  homedir : string;
  (** [exec(candidate + " --version")] finds the tool *)
  probe : list Event -> string -> bool;
  (** the tool, called with an argument vector *)
  tool : list Event -> list string -> ExecResult;
  (** [Date.now()] *)
  clock : list Event -> Z;
  (** [fs.access(path)] succeeds *)
  localAccess : list Event -> string -> bool;
  (** the content of [tree-paths.json] when the file exists, is less
      than 30 seconds old and parses *)
  freshTreePaths : list Event -> option (list ParsedLine)
}.

(** An entry of the connection manager. *)
Record Conn := {
  lastUsed : Z;
  isHealthy : bool;
  operationInProgress : bool
}.

(** A node of the cached tree.  The cache is an object graph: nodes
    live in a store and name their children by index; index 0 is the
    root. *)
Record TreeNode := {
  tn_name : string;
  tn_isDir : bool;
  tn_children : list nat;
  tn_fullPath : string
}.

Record St := {
  history : list Event;
  mpremotePathCache : option string;
  globalFileTreeCache : option (list TreeNode);
  lastTreeUpdate : Z;
  activeConnections : list (string * Conn)
}.

Definition initialState : St :=
  {| history := [];
     mpremotePathCache := None;
     globalFileTreeCache := None;
     lastTreeUpdate := 0%Z;
     activeConnections := [] |}.

Definition withHistory (h : list Event) (st : St) : St :=
  {| history := h;
     mpremotePathCache := mpremotePathCache st;
     globalFileTreeCache := globalFileTreeCache st;
     lastTreeUpdate := lastTreeUpdate st;
     activeConnections := activeConnections st |}.

Definition withPathCache (c : option string) (st : St) : St :=
  {| history := history st;
     mpremotePathCache := c;
     globalFileTreeCache := globalFileTreeCache st;
     lastTreeUpdate := lastTreeUpdate st;
     activeConnections := activeConnections st |}.

Definition withTreeCache (c : option (list TreeNode)) (t : Z) (st : St) : St :=
  {| history := history st;
     mpremotePathCache := mpremotePathCache st;
     globalFileTreeCache := c;
     lastTreeUpdate := t;
     activeConnections := activeConnections st |}.

Definition withConnections (m : list (string * Conn)) (st : St) : St :=
  {| history := history st;
     mpremotePathCache := mpremotePathCache st;
     globalFileTreeCache := globalFileTreeCache st;
     lastTreeUpdate := lastTreeUpdate st;
     activeConnections := m |}.

(** How a promise ends: resolved, rejected with an [Error] (its
    message), or never settled. *)
Inductive Res (A : Type) :=
| Resolve (a : A)
| Reject (message : string)
| Pending.
Arguments Resolve {A} a.
Arguments Reject {A} message.
Arguments Pending {A}.

Definition M (A : Type) : Type := Env -> St -> St * Res A.

Definition ret {A : Type} (a : A) : M A := fun _ st => (st, Resolve a).

Definition bind {A B : Type} (m : M A) (k : A -> M B) : M B :=
  fun env st =>
    match m env st with
    | (st', Resolve a) => k a env st'
    | (st', Reject e) => (st', Reject e)
    | (st', Pending) => (st', Pending)
    end.

(** [throw new Error(message)] *)
Definition throw {A : Type} (message : string) : M A :=
  fun _ st => (st, Reject message).

(** [try { m } catch (error) { handler error }] *)
Definition tryCatch {A : Type} (m : M A) (handler : string -> M A) : M A :=
  fun env st =>
    match m env st with
    | (st', Reject e) => handler e env st'
    | other => other
    end.

Definition never {A : Type} : M A := fun _ st => (st, Pending).

Declare Scope mp_scope.
Delimit Scope mp_scope with mp.
Notation "x <- m ;; k" := (bind m (fun x => k))
  (at level 61, m at next level, right associativity) : mp_scope.
Notation "m ;;; k" := (bind m (fun _ => k))
  (at level 61, right associativity) : mp_scope.
Open Scope mp_scope.

Definition log (e : Event) : M unit :=
  fun _ st => (withHistory (history st ++ [e]) st, Resolve tt).

Definition getState : M St := fun _ st => (st, Resolve st).

Definition getEnv : M Env := fun env st => (st, Resolve env).

Definition modify (f : St -> St) : M unit := fun _ st => (f st, Resolve tt).

(** [Date.now()] *)
Definition now : M Z := fun env st => (st, Resolve (clock env (history st))).

(** [setTimeout(resume, ms)] *)
Definition sleep (ms : Z) : M unit := log (EvSleep ms).

(** One run of the tool. *)
Definition exec (args : list string) : M ExecResult :=
  fun env st =>
    let r := tool env (history st) args in
    (withHistory (history st ++ [EvExec args r]) st, Resolve r).

(** [fs.access(path)] *)
Definition access (path : string) : M bool :=
  fun env st =>
    let ok := localAccess env (history st) path in
    (withHistory (history st ++ [EvAccess path ok]) st, Resolve ok).

(** [String(error?.message || error)] of an [Error]. *)
Definition errorText (message : string) : string :=
  if nonEmpty message then message else "Error".

(** *** [getMpremotePath] *)

Fixpoint findCandidate (candidates : list string) : M string :=
  match candidates with
  | [] => throw "mpremote not found. Please install mpremote: pip install mpremote or pipx install mpremote"
  | candidate :: rest =>
      found <- (fun env st =>
                  let ok := probe env (history st) candidate in
                  (withHistory (history st ++ [EvProbe candidate ok]) st,
                   Resolve ok)) ;;
      if found then
        modify (withPathCache (Some candidate)) ;;;
        ret candidate
      else findCandidate rest
  end.

Definition getMpremotePath : M string :=
  st <- getState ;;
  match mpremotePathCache st with
  | Some p => if nonEmpty p then ret p
              else env <- getEnv ;;
                   findCandidate ["mpremote"; homedir env +++ "/.local/bin/mpremote"]
  | None => env <- getEnv ;;
            findCandidate ["mpremote"; homedir env +++ "/.local/bin/mpremote"]
  end.

(** *** [normalizeConnect] *)

Definition normalizeConnect (c : string) : string :=
  if startsWith "serial://" c then slice 9 c
  else if startsWith "serial:/" c then slice 8 c
  else if startsWith "cu." c && negb (startsWith "/dev/" c) then "/dev/" +++ c
  else c.

(** [normalizeConnect(get("mpyWorkbench.connect", "auto") || "auto")] *)
Definition configuredConnect (env : Env) : string :=
  normalizeConnect
    (if nonEmpty (connectSetting env) then connectSetting env else "auto").

(** [!connect || connect === "auto"] *)
Definition noConcretePort (connect : string) : bool :=
  negb (nonEmpty connect) || String.eqb connect "auto".

(** *** The connection manager

    The periodic sweep that drops entries unused for 30 seconds runs
    from a timer and is not part of any operation; it only removes
    entries. *)

Definition CONNECTION_TIMEOUT : Z := 30000.

Definition connGet (port : string) (m : list (string * Conn)) : option Conn :=
  Diff.mapGet port m.

Definition connSet (port : string) (c : Conn) (m : list (string * Conn))
  : list (string * Conn) := Diff.mapSet port c m.

Definition getConnection (port : string) : M bool :=
  t <- now ;;
  st <- getState ;;
  match connGet port (activeConnections st) with
  | Some existing =>
      if (t - lastUsed existing <? CONNECTION_TIMEOUT)%Z && isHealthy existing
      then
        modify (withConnections
                  (connSet port {| lastUsed := t;
                                   isHealthy := isHealthy existing;
                                   operationInProgress :=
                                     operationInProgress existing |}
                     (activeConnections st))) ;;;
        ret true
      else
        modify (withConnections
                  (connSet port {| lastUsed := t; isHealthy := true;
                                   operationInProgress := false |}
                     (activeConnections st))) ;;;
        ret false
  | None =>
      modify (withConnections
                (connSet port {| lastUsed := t; isHealthy := true;
                                 operationInProgress := false |}
                   (activeConnections st))) ;;;
      ret false
  end.

Definition updateConn (port : string) (f : Conn -> Conn) : M unit :=
  st <- getState ;;
  match connGet port (activeConnections st) with
  | Some c => modify (withConnections (connSet port (f c) (activeConnections st)))
  | None => ret tt
  end.

Definition markUnhealthy (port : string) : M unit :=
  updateConn port (fun c => {| lastUsed := lastUsed c; isHealthy := false;
                               operationInProgress := operationInProgress c |}).

Definition markHealthy (port : string) : M unit :=
  t <- now ;;
  updateConn port (fun c => {| lastUsed := t; isHealthy := true;
                               operationInProgress := false |}).

Definition markOperationStarted (port : string) : M unit :=
  updateConn port (fun c => {| lastUsed := lastUsed c; isHealthy := isHealthy c;
                               operationInProgress := true |}).

Definition markOperationCompleted (port : string) : M unit :=
  updateConn port (fun c => {| lastUsed := lastUsed c; isHealthy := isHealthy c;
                               operationInProgress := false |}).

Definition isOperationInProgress (port : string) : M bool :=
  st <- getState ;;
  ret (match connGet port (activeConnections st) with
       | Some c => operationInProgress c
       | None => false
       end).

(** *** [runMpremote] *)

(** The port that follows ["connect"] in the argument vector, [""]
    when there is none. *)
Fixpoint portOf (args : list string) : string :=
  match args with
  | [] => ""
  | a :: rest =>
      if String.eqb a "connect" then
        match rest with
        | p :: _ => p
        | [] => ""
        end
      else portOf rest
  end.

(** Whether [args.indexOf("connect")] has a successor in [args]. *)
Fixpoint hasPort (args : list string) : bool :=
  match args with
  | [] => false
  | a :: rest =>
      if String.eqb a "connect" then
        match rest with _ :: _ => true | [] => false end
      else hasPort rest
  end.

(** The errors after which the command is run again. *)
Definition transientError (errorStr : string) : bool :=
  includes "device not configured" errorStr
  || includes "connection timeout" errorStr
  || includes "serial read failed" errorStr
  || includes "failed to access" errorStr
  || includes "it may be in use by another program" errorStr.

(** The errors that mark the connection unhealthy. *)
Definition unhealthyError (errorStr : string) : bool :=
  includes "device not configured" errorStr
  || includes "serial port not found" errorStr
  || includes "connection failed" errorStr.

(** [String(stderr || err?.message || "")] *)
Definition emsgOf (message stderr : string) : string :=
  if nonEmpty stderr then stderr else message.

Record Output := { stdout : string; stderr : string }.

(** [executeCommand].  A round that finds the port busy comes back
    after 100 ms; nothing else runs in between in this model, so such a
    wait never ends: the promise stays pending.  [fuel] counts the
    rounds that may still start; [runMpremote] gives one more than
    [maxRetries], which the retry test [attempt <= maxRetries] never
    exceeds. *)
Fixpoint executeCommand (fuel : nat) (args : list string)
    (maxRetries attempt : nat) : M Output :=
  match fuel with
  | O => never
  | S fuel' =>
      let attempt := S attempt in
      let port := if hasPort args then portOf args else "" in
      busy <- (if hasPort args then isOperationInProgress port else ret false) ;;
      if busy then sleep 100 ;;; never
      else
        (if hasPort args then
           getConnection port ;;;
           markOperationStarted port ;;;
           markHealthy port
         else ret tt) ;;;
        r <- exec args ;;
        match r with
        | ExecErr message err =>
            let emsg := emsgOf message err in
            let errorStr := toLowerCase emsg in
            (if nonEmpty port && unhealthyError errorStr
             then markUnhealthy port else ret tt) ;;;
            (if nonEmpty port then markOperationCompleted port else ret tt) ;;;
            if Nat.leb attempt maxRetries && transientError errorStr then
              sleep (500 * Z.of_nat attempt) ;;;
              executeCommand fuel' args maxRetries attempt
            else
              throw (if nonEmpty emsg then emsg else "mpremote error")
        | ExecOk out err =>
            (if nonEmpty port then markHealthy port else ret tt) ;;;
            ret {| stdout := out; stderr := err |}
        end
  end.

(** [runMpremote(args, { retryOnFailure })]; the option defaults to
    retrying. *)
Definition runMpremote (args : list string) (retryOnFailure : bool)
  : M Output :=
  getMpremotePath ;;;
  let maxRetries := if retryOnFailure then 2 else 0 in
  executeCommand (S maxRetries) args maxRetries 0.

End Mp.

(** ** The mpremote wrapper: tree parsing and the tree cache *)

Module Tree.
Import Js Mp.

Record Entry := { e_name : string; e_isDir : bool }.

Definition boxTee : string := "├──".
Definition boxElbow : string := "└──".
Definition boxPipe : string := "│   ".
Definition fourSpaces : string := "    ".

(** The loop of [parseTreeLine]: [remaining] is [line.substring(pos)];
    every round that continues consumes a whole indentation unit, so
    the length of the line bounds the rounds. *)
Fixpoint parseTreeLineFrom (fuel : nat) (line remaining : string)
    (level : nat) : option (nat * string) :=
  match fuel with
  | O => None
  | S fuel' =>
      if nonEmpty remaining then
        if startsWith boxTee remaining || startsWith boxElbow remaining then
          Some (level, trim (slice (String.length boxTee) remaining))
        else if startsWith boxPipe remaining then
          parseTreeLineFrom fuel' line
            (slice (String.length boxPipe) remaining) (S level)
        else if startsWith fourSpaces remaining then
          parseTreeLineFrom fuel' line (slice 4 remaining) (S level)
        else
          let stripped := trim line in
          if nonEmpty stripped && negb (String.eqb stripped line) then
            let indent := codeUnits line - codeUnits stripped in
            Some (indent / 4, stripped)
          else None
      else None
  end.

(** [parseTreeLine(line)] *)
Definition parseTreeLine (line : string) : option (nat * string) :=
  if negb (nonEmpty (trim line)) then None
  else parseTreeLineFrom (S (String.length line)) line line 0.

Definition fileExtensions : list string :=
  ["py"; "txt"; "log"; "md"; "html"; "css"; "js"; "json";
   "ico"; "png"; "jpg"; "jpeg"; "gif"; "svg"; "csv"; "xml";
   "yml"; "yaml"; "toml"; "ini"; "cfg"; "conf"].

Definition specialFiles : list string :=
  ["main"; "boot"; "README"; "LICENSE"; "Makefile"].

Definition isDot (c : ascii) : bool := Ascii.eqb c ".".

(** The look-ahead of [determineIsDirectory] over the lines that
    follow; [Some true] is the early [return true], [None] the end of
    the loop (by [break] or by running out of lines). *)
Fixpoint lookAhead (next : list string) : option bool :=
  match next with
  | [] => None
  | l :: rest =>
      let nextLine := trim l in
      if negb (nonEmpty nextLine) || includes "tree" nextLine
         || String.eqb nextLine ":" then None
      else match parseTreeLine nextLine with
           | Some (level, _) => if Nat.ltb 0 level then Some true else None
           | None => lookAhead rest
           end
  end.

(** [determineIsDirectory(name, allLines, currentIndex)] *)
Definition determineIsDirectory (name : string) (allLines : list string)
    (currentIndex : nat) : bool :=
  let knownExtension :=
    if includes "." name then
      let parts := splitOn isDot name in
      if Nat.leb 2 (List.length parts) then
        Diff.setHas (toLowerCase (last parts "")) fileExtensions
      else false
    else false in
  if knownExtension then false
  else if Diff.setHas name specialFiles then false
  else match lookAhead (firstn 9 (skipn (S currentIndex) allLines)) with
       | Some b => b
       | None =>
           negb (includes "." name) && negb (String.eqb name "tree")
           && nonEmpty name && negb (startsWith "." name)
       end.

(** [lines.indexOf(line)] of a line that occurs in [lines]. *)
Fixpoint indexOf (line : string) (lines : list string) : nat :=
  match lines with
  | [] => 0
  | l :: rest => if String.eqb l line then 0 else S (indexOf line rest)
  end.

(** The body of the loop of [parseTreeLines]; the state is the result
    so far and the directory stack. *)
Definition parseTreeStep (lines : list string)
    (acc : list ParsedLine * list string) (line : string)
  : list ParsedLine * list string :=
  let (result, dirStack) := acc in
  if negb (nonEmpty (trim line)) || includes "tree" line
     || String.eqb line ":/" || String.eqb line ":" then acc
  else match parseTreeLine line with
       | None => acc
       | Some (level, name) =>
           let dirStack := firstn level dirStack in
           let fullPath :=
             match dirStack with
             | [] => "/" +++ name
             | _ :: _ => last dirStack "" +++ "/" +++ name
             end in
           let isDir := determineIsDirectory name lines (indexOf line lines) in
           (result ++ [{| pl_fullPath := fullPath; pl_name := name;
                          pl_isDir := isDir; pl_depth := level |}],
            if isDir then dirStack ++ [fullPath] else dirStack)
       end.

(** [parseTreeLines(treeOutput)] *)
Definition parseTreeLines (treeOutput : string) : list ParsedLine :=
  let lines := filter (fun line => nonEmpty (trim line))
                 (splitLines treeOutput) in
  fst (fold_left (parseTreeStep lines) lines ([], [])).

(** [s.split("/").filter(p => p)] *)
Definition pathParts (p : string) : list string :=
  filter nonEmpty (splitOn isSlash p).

Fixpoint updateNth {A : Type} (n : nat) (f : A -> A) (l : list A) : list A :=
  match l, n with
  | [], _ => []
  | x :: r, O => f x :: r
  | x :: r, S k => x :: updateNth k f r
  end.

Definition addChild (child : nat) (n : TreeNode) : TreeNode :=
  {| tn_name := tn_name n; tn_isDir := tn_isDir n;
     tn_children := tn_children n ++ [child];
     tn_fullPath := tn_fullPath n |}.

(** The body of the loop of [buildTreeFromParsedLines]: the store of
    nodes and [nodeMap]. *)
Definition buildTreeStep (acc : list TreeNode * list (string * nat))
    (item : ParsedLine) : list TreeNode * list (string * nat) :=
  let (store, nodeMap) := acc in
  let parts := pathParts (pl_fullPath item) in
  let parentPath :=
    if Nat.ltb 1 (List.length parts)
    then "/" +++ String.concat "/" (removelast parts) else "/" in
  match Diff.mapGet parentPath nodeMap with
  | Some parent =>
      let id := List.length store in
      let newNode := {| tn_name := pl_name item; tn_isDir := pl_isDir item;
                        tn_children := []; tn_fullPath := pl_fullPath item |} in
      (updateNth parent (addChild id) store ++ [newNode],
       if pl_isDir item then Diff.mapSet (pl_fullPath item) id nodeMap
       else nodeMap)
  | None => acc
  end.

(** [buildTreeFromParsedLines(parsedLines)] *)
Definition buildTreeFromParsedLines (parsedLines : list ParsedLine)
  : list TreeNode :=
  let root := {| tn_name := ""; tn_isDir := true; tn_children := [];
                 tn_fullPath := "/" |} in
  fst (fold_left buildTreeStep parsedLines ([root], [("/", 0)])).

Definition entriesOf (store : list TreeNode) (n : TreeNode) : list Entry :=
  flat_map (fun id => match nth_error store id with
                      | Some c => [{| e_name := tn_name c; e_isDir := tn_isDir c |}]
                      | None => []
                      end) (tn_children n).

(** [currentNode.children.find(child => child.name === part)] *)
Fixpoint findChild (store : list TreeNode) (children : list nat)
    (part : string) : option TreeNode :=
  match children with
  | [] => None
  | id :: rest =>
      match nth_error store id with
      | Some c => if String.eqb (tn_name c) part then Some c
                  else findChild store rest part
      | None => findChild store rest part
      end
  end.

Fixpoint walk (store : list TreeNode) (currentNode : TreeNode)
    (parts : list string) : option TreeNode :=
  match parts with
  | [] => Some currentNode
  | part :: rest =>
      match findChild store (tn_children currentNode) part with
      | Some found => walk store found rest
      | None => None
      end
  end.

(** [getEntriesFromCache(targetPath)]; [None] is [null]. *)
Definition getEntriesFromCache (cache : option (list TreeNode))
    (targetPath : string) : option (list Entry) :=
  match cache with
  | None => None
  | Some store =>
      match nth_error store 0 with
      | None => None
      | Some root =>
          if String.eqb targetPath "/" then Some (entriesOf store root)
          else match walk store root (pathParts targetPath) with
               | Some node => Some (entriesOf store node)
               | None => None
               end
      end
  end.

Fixpoint samePrefix (target item : list string) : bool :=
  match target, item with
  | [], _ => true
  | t :: tr, i :: ir => String.eqb i t && samePrefix tr ir
  | _ :: _, [] => false
  end.

(** [parseTreeForPath(treeOutput, targetPath)] *)
Definition parseTreeForPath (treeOutput targetPath : string) : list Entry :=
  let parsedLines := parseTreeLines treeOutput in
  let targetItems :=
    filter (fun item =>
              if String.eqb targetPath "/" then Nat.eqb (pl_depth item) 0
              else
                let targetPathParts := pathParts targetPath in
                let itemPathParts := pathParts (pl_fullPath item) in
                Nat.eqb (List.length itemPathParts)
                        (List.length targetPathParts + 1)
                && samePrefix targetPathParts itemPathParts)
      parsedLines in
  map (fun item => {| e_name := pl_name item; e_isDir := pl_isDir item |})
    targetItems.

(** The parser of the [fs ls] fallback of [lsTyped]. *)
Definition parseLsLine (line : string) : list Entry :=
  let trimmed := trim line in
  if negb (nonEmpty trimmed) || includes "ls" trimmed then []
  else
    let parts := words trimmed in
    match parts with
    | sizeText :: (_ :: _) as names =>
        let size := parseIntOr0 sizeText in
        let filename := String.concat " " names in
        if nonEmpty filename then
          [{| e_name := stripTrailingSlash filename;
              e_isDir := (size =? 0)%Z && endsWith "/" filename |}]
        else []
    | _ => []
    end.

Definition parseLsOutput (lsOutput : string) : list Entry :=
  flat_map parseLsLine
    (filter (fun line => nonEmpty (trim line)) (splitLines lsOutput)).

End Tree.

(** ** The mpremote wrapper: operations *)

Module Ops.
Import Js Mp Tree.

Definition noPortMessage : string := "Select a specific serial port first".

(** [p && p !== "/" ? p : "/"] *)
Definition pathArgOf (p : string) : string :=
  if nonEmpty p && negb (String.eqb p "/") then p else "/".

(** [deviceArg === "/" ? ":" : ":" + deviceArg] *)
Definition withPrefix (deviceArg : string) : string :=
  if String.eqb deviceArg "/" then ":" else ":" +++ deviceArg.

(** [deviceArg.substring(0, deviceArg.lastIndexOf("/"))] *)
Definition parentDirOf (deviceArg : string) : string :=
  match lastSlashIndex deviceArg 0 None with
  | Some i => String.substring 0 i deviceArg
  | None => ""
  end.

(** [clearFileTreeCache()] *)
Definition clearFileTreeCache : M unit := modify (withTreeCache None 0%Z).

(** [populateFileTreeCache()].  The parsed lines are also written to
    [tree-paths.json] when a workspace folder is open; a failure of
    that write is ignored. *)
Definition populateFileTreeCache : M unit :=
  env <- getEnv ;;
  let connect := configuredConnect env in
  out <- runMpremote ["connect"; connect; "fs"; "tree"] true ;;
  let parsedLines := parseTreeLines (stdout out) in
  log (EvSaveTreePaths parsedLines) ;;;
  let treeRoot := buildTreeFromParsedLines parsedLines in
  t <- now ;;
  modify (withTreeCache (Some treeRoot) t).

(** [refreshFileTreeCache()] *)
Definition refreshFileTreeCache : M unit :=
  modify (withTreeCache None 0%Z) ;;;
  populateFileTreeCache.

Definition TREE_CACHE_DURATION : Z := 30000.

(** [isCacheValid()] *)
Definition isCacheValid : M bool :=
  st <- getState ;;
  match globalFileTreeCache st with
  | None => ret false
  | Some _ =>
      t <- now ;;
      ret (t - lastTreeUpdate st <? TREE_CACHE_DURATION)%Z
  end.

(** [lsTyped(p)] *)
Definition lsTyped (p : string) : M (list Entry) :=
  env <- getEnv ;;
  let connect := configuredConnect env in
  valid <- isCacheValid ;;
  (if valid then ret tt else populateFileTreeCache) ;;;
  st <- getState ;;
  let cachedResult := getEntriesFromCache (globalFileTreeCache st) p in
  match cachedResult with
  | Some (e :: r) => ret (e :: r)
  | _ =>
      out <- runMpremote ["connect"; connect; "fs"; "tree"] true ;;
      let result := parseTreeForPath (stdout out) p in
      match result with
      | [] =>
          tryCatch
            (let pathArg := if nonEmpty p && negb (String.eqb p "/")
                            then p else "" in
             let args := ["connect"; connect; "fs"; "ls"]
                         ++ (if nonEmpty pathArg then [pathArg] else []) in
             lsOut <- runMpremote args true ;;
             ret (parseLsOutput (stdout lsOut)))
            (fun _ => ret result)
      | _ :: _ => ret result
      end
  end.

(** [mkdir(p)] *)
Definition mkdir (p : string) : M unit :=
  env <- getEnv ;;
  let connect := configuredConnect env in
  if noConcretePort connect then throw noPortMessage else
  getConnection connect ;;;
  tryCatch
    (runMpremote ["connect"; connect; "fs"; "mkdir"; pathArgOf p] true ;;;
     clearFileTreeCache)
    (fun error => markUnhealthy connect ;;; throw error).

(** [cpFromDevice(devicePath, localPath)] *)
Definition cpFromDevice (devicePath localPath : string) : M unit :=
  env <- getEnv ;;
  let connect := configuredConnect env in
  if noConcretePort connect then throw noPortMessage else
  getConnection connect ;;;
  let deviceArg := if nonEmpty devicePath && negb (String.eqb devicePath "/")
                   then stripLeadingSlash devicePath else "/" in
  tryCatch
    (runMpremote ["connect"; connect; "fs"; "cp"; withPrefix deviceArg;
                  localPath] true ;;;
     ret tt)
    (fun error =>
       markUnhealthy connect ;;;
       throw ("Failed to copy from device: " +++ errorText error
              +++ String "010" "Command: mpremote connect " +++ connect
              +++ " fs cp " +++ dquote +++ deviceArg +++ dquote +++ " "
              +++ dquote +++ localPath +++ dquote
              +++ String "010" "Original device path: " +++ devicePath
              +++ String "010" "Normalized device path: " +++ deviceArg
              +++ String "010" "Local path: " +++ localPath)).

(** [try { await m } catch { }]: the error is logged and dropped. *)
Definition attempt {A : Type} (m : M A) : M unit :=
  tryCatch (m ;;; ret tt) (fun _ => ret tt).

(** The loop "Create each directory level step by step": one plain
    [mkdir] per proper prefix of the path, failures ignored. *)
Fixpoint mkdirLevels (connect : string) (done todo : list string) : M unit :=
  match todo with
  | [] => ret tt
  | [_] => ret tt
  | part :: rest =>
      let done' := done ++ [part] in
      attempt (runMpremote ["connect"; connect; "fs"; "mkdir";
                            "/" +++ String.concat "/" done'] false) ;;;
      mkdirLevels connect done' rest
  end.

(** The first part of both upload functions: [mkdir -p] of the parent
    directory, any failure ignored. *)
Definition ensureParent (connect deviceArg : string) : M unit :=
  let parentDir := parentDirOf deviceArg in
  if nonEmpty parentDir && negb (String.eqb parentDir "")
     && negb (String.eqb parentDir "/")
  then attempt (runMpremote ["connect"; connect; "fs"; "mkdir"; "-p";
                             parentDir] true)
  else ret tt.

Definition missingPathError (errorStr : string) : bool :=
  includes "no such file or directory" errorStr
  || includes "file not found" errorStr.

(** [resolved m]: [Some tt] when [m] resolves, [None] when it throws;
    the error is logged and dropped. *)
Definition resolved {A : Type} (m : M A) : M bool :=
  tryCatch (m ;;; ret true) (fun _ => ret false).

(** [cpToDevice(localPath, devicePath)] *)
Definition cpToDevice (localPath devicePath : string) : M unit :=
  env <- getEnv ;;
  let connect := configuredConnect env in
  if noConcretePort connect then throw noPortMessage else
  getConnection connect ;;;
  let deviceArg := pathArgOf devicePath in
  let copyArgs := ["connect"; connect; "fs"; "cp"; localPath;
                   withPrefix deviceArg] in
  tryCatch
    (ensureParent connect deviceArg ;;;
     runMpremote copyArgs true ;;;
     clearFileTreeCache)
    (fun error =>
       markUnhealthy connect ;;;
       let errorStr := toLowerCase (errorText error) in
       recovered <-
         (if missingPathError errorStr then
            mkdirLevels connect [] (pathParts deviceArg) ;;;
            ok <- resolved (runMpremote copyArgs false) ;;
            if ok then clearFileTreeCache ;;; ret true else ret false
          else ret false) ;;
       if recovered then ret tt else
       recovered <-
         (if includes "read-only file system" errorStr then
            attempt (runMpremote ["connect"; connect; "fs"; "stat"; "/"] false) ;;;
            ok <- resolved
                    (runMpremote ["connect"; connect; "reset"] false ;;;
                     sleep 2000 ;;;
                     runMpremote copyArgs false) ;;
            if ok then clearFileTreeCache ;;; ret true else
            ok <- resolved
                    (runMpremote
                       ["connect"; connect; "exec";
                        "import os; os.umount('/'); os.mount(os.VfsFat(os.sdcard()), '/')"]
                       false ;;;
                     runMpremote copyArgs false) ;;
            if ok then clearFileTreeCache ;;; ret true else
            attempt (runMpremote
                       ["connect"; connect; "exec";
                        "f = open('test_write.tmp', 'w'); f.write('test'); f.close()"]
                       false) ;;;
            ret false
          else ret false) ;;
       if recovered then ret tt else
       markUnhealthy connect ;;;
       throw error).

(** [uploadReplacing(localPath, devicePath)] *)
Definition uploadReplacing (localPath devicePath : string) : M unit :=
  env <- getEnv ;;
  let connect := configuredConnect env in
  if noConcretePort connect then throw noPortMessage else
  getConnection connect ;;;
  let deviceArg := pathArgOf devicePath in
  let copyArgs := ["connect"; connect; "fs"; "cp"; "-f"; localPath;
                   withPrefix deviceArg] in
  tryCatch
    (ensureParent connect deviceArg ;;;
     runMpremote copyArgs true ;;;
     clearFileTreeCache)
    (fun error =>
       markUnhealthy connect ;;;
       let errorStr := toLowerCase (errorText error) in
       recovered <-
         (if missingPathError errorStr then
            mkdirLevels connect [] (pathParts deviceArg) ;;;
            ok <- resolved (runMpremote copyArgs false) ;;
            if ok then clearFileTreeCache ;;; ret true else ret false
          else ret false) ;;
       if recovered then ret tt else
       markUnhealthy connect ;;;
       throw error).

(** [deleteFile(p)] *)
Definition deleteFile (p : string) : M unit :=
  env <- getEnv ;;
  let connect := configuredConnect env in
  if noConcretePort connect then throw noPortMessage else
  let pythonCode := "import os; os.remove('" +++ p +++ "')" in
  runMpremote ["connect"; connect; "exec"; pythonCode] true ;;;
  ret tt.

Record FileInfo := {
  fi_mode : option Z;
  fi_size : option Z;
  fi_isDir : bool;
  fi_isReadonly : bool
}.

Definition notFoundError (errorStr : string) : bool :=
  includes "no such file" errorStr
  || includes "file not found" errorStr
  || includes "does not exist" errorStr.

(** [mode & mask], where [NaN] counts as 0.  The runtime takes the
    operands modulo [2^32]; for a mask below [2^31], as the masks of
    [getFileInfo] are, and a mode that the double holds exactly, the
    result is the bitwise and of the integers. *)
Definition maskOf (mode : option Z) (mask : Z) : Z :=
  match mode with Some m => Z.land m mask | None => 0%Z end.

(** [getFileInfo(p)]; [None] is [null]. *)
Definition getFileInfo (p : string) : M (option FileInfo) :=
  env <- getEnv ;;
  let connect := configuredConnect env in
  if noConcretePort connect then throw noPortMessage else
  tryCatch
    (out <- runMpremote ["connect"; connect; "fs"; "stat"; pathArgOf p] true ;;
     let parts := splitWs (trim (stdout out)) in
     if Nat.leb 4 (List.length parts) then
       let mode := parseInt (nth 1 parts "") in
       let size := parseInt (nth 2 parts "") in
       ret (Some {| fi_mode := mode; fi_size := size;
                    fi_isDir := negb (maskOf mode 16384 =? 0)%Z;
                    fi_isReadonly := (maskOf mode 128 =? 0)%Z |})
     else ret None)
    (fun error =>
       let errorStr := toLowerCase (errorText error) in
       if notFoundError errorStr then ret None else throw error).

(** [fileExists(p)] *)
Definition fileExists (p : string) : M bool :=
  env <- getEnv ;;
  let connect := configuredConnect env in
  if noConcretePort connect then throw noPortMessage else
  tryCatch
    (runMpremote ["connect"; connect; "fs"; "stat"; pathArgOf p] true ;;;
     ret true)
    (fun error =>
       let errorStr := toLowerCase (errorText error) in
       if notFoundError errorStr then ret false
       else if includes "serialexception" errorStr
               || includes "device not configured" errorStr
               || includes "connection failed" errorStr
       then ret false
       else ret false).

(** One line of the listing inside [deleteDirectoryRecursive]:
    [Some (itemPath, isDir)] for an entry, [None] for a line that is
    skipped. *)
Definition lsItem (p line : string) : option (string * bool) :=
  if negb (nonEmpty (trim line)) || includes "ls" line then None
  else
    match words (trim line) with
    | sizeText :: (_ :: _) as names =>
        let size := parseIntOr0 sizeText in
        let filename := String.concat " " names in
        let isDir := (size =? 0)%Z && endsWith "/" filename in
        let itemPath :=
          if String.eqb p "/" then "/" +++ stripTrailingSlash filename
          else p +++ "/" +++ stripTrailingSlash filename in
        Some (itemPath, isDir)
    | _ => None
    end.

(** [deleteDirectoryRecursive(p, connect)].  The recursion follows
    what the board lists; [fuel] bounds its depth, and a walk deeper
    than that has not settled. *)
Fixpoint deleteDirectoryRecursive (fuel : nat) (p connect : string) : M unit :=
  match fuel with
  | O => never
  | S fuel' =>
      out <- runMpremote ["connect"; connect; "fs"; "ls"; p] true ;;
      let lines := filter (fun line => nonEmpty (trim line))
                     (splitLines (stdout out)) in
      (fix items (ls : list string) : M unit :=
         match ls with
         | [] => ret tt
         | line :: rest =>
             match lsItem p line with
             | Some (itemPath, true) =>
                 deleteDirectoryRecursive fuel' itemPath connect ;;;
                 items rest
             | Some (itemPath, false) =>
                 attempt (runMpremote ["connect"; connect; "fs"; "rm"; itemPath]
                            true) ;;;
                 items rest
             | None => items rest
             end
         end) lines ;;;
      runMpremote ["connect"; connect; "fs"; "rmdir"; p] true ;;;
      ret tt
  end.

Definition dirNotEmptyError (errorMessage : string) : bool :=
  includes "oserror: 39" errorMessage
  || includes "directory not empty" errorMessage.

(** [deleteAny(p)] *)
Definition deleteAny (fuel : nat) (p : string) : M unit :=
  env <- getEnv ;;
  let connect := configuredConnect env in
  if noConcretePort connect then throw noPortMessage else
  getConnection connect ;;;
  tryCatch
    (fileInfo <- getFileInfo p ;;
     let isDirectory := match fileInfo with
                        | Some fi => fi_isDir fi
                        | None => false
                        end in
     let args := ["connect"; connect; "fs"; "rm"]
                 ++ (if isDirectory then ["-r"] else [])
                 ++ [pathArgOf p] in
     runMpremote args true ;;;
     clearFileTreeCache)
    (fun error =>
       let errorMessage := toLowerCase (errorText error) in
       if dirNotEmptyError errorMessage then
         tryCatch
           (deleteDirectoryRecursive fuel p connect ;;;
            clearFileTreeCache)
           (fun recursiveError =>
              markUnhealthy connect ;;;
              throw ("Failed to delete directory " +++ p +++ ": "
                     +++ errorText recursiveError))
       else
         markUnhealthy connect ;;;
         throw error).

Record TreeStat := { ts_path : string; ts_isDir : bool; ts_size : Z }.

(** One line of the tree output as [listTreeStats] reads it. *)
Definition treeStatOfLine (line : string) : list TreeStat :=
  let trimmed := trim line in
  if negb (nonEmpty trimmed) || includes "tree" trimmed then []
  else
    match words trimmed with
    | sizeText :: (_ :: _) as names =>
        let filename := String.concat " " names in
        [{| ts_path := stripTrailingSlash filename;
            ts_isDir := endsWith "/" filename;
            ts_size := parseIntOr0 sizeText |}]
    | _ => []
    end.

(** [listTreeStats(root)]; the [mtime] field, a clock reading, is not
    kept. *)
Definition listTreeStats (root : string) : M (list TreeStat) :=
  env <- getEnv ;;
  let connect := configuredConnect env in
  if noConcretePort connect then throw noPortMessage else
  getConnection connect ;;;
  tryCatch
    (st <- getState ;;
     match freshTreePaths env (history st) with
     | Some cachedData =>
         ret (map (fun item => {| ts_path := pl_fullPath item;
                                  ts_isDir := pl_isDir item;
                                  ts_size := 0%Z |}) cachedData)
     | None =>
         let rootArg := if nonEmpty root && negb (String.eqb root "/")
                        then root else "" in
         out <- runMpremote (["connect"; connect; "fs"; "tree"]
                             ++ (if nonEmpty rootArg then [rootArg] else []))
                  true ;;
         ret (flat_map treeStatOfLine
                (filter (fun line => nonEmpty (trim line))
                   (splitLines (stdout out))))
     end)
    (fun error => markUnhealthy connect ;;; throw error).

(** [mvOnDevice(src, dst)] *)
Definition mvOnDevice (src dst : string) : M unit :=
  env <- getEnv ;;
  let connect := configuredConnect env in
  if noConcretePort connect then throw noPortMessage else
  let quoted (s : string) :=
    if nonEmpty s && negb (String.eqb s "/") then dquote +++ s +++ dquote
    else "/" in
  tryCatch
    (runMpremote ["connect"; connect; "fs"; "mv"; quoted src; quoted dst]
       true ;;;
     clearFileTreeCache)
    (fun error => throw ("Move/rename failed: " +++ errorText error)).

End Ops.

(** ** The baseline upload ([BoardOperations.syncBaseline])

    The part that runs under the progress notification, from the keys
    of the manifest.  Progress reports, console output and the
    in-memory view of the tree ([tree.addNode]) are left out. *)

Module Sync.
Import Js Mp Tree Ops.

(** The loop [while (!created && attempts < maxAttempts)] for one
    directory; [remaining] is [maxAttempts - attempts].  The result
    tells whether the directory was created. *)
Fixpoint createDirectory (remaining : nat) (deviceDir : string) : M bool :=
  match remaining with
  | O => ret false
  | S remaining' =>
      ok <- resolved (mkdir deviceDir) ;;
      if ok then ret true
      else
        match remaining' with
        | O => ret false
        | S _ => sleep 100 ;;; createDirectory remaining' deviceDir
        end
  end.

(** The loop over [sortedDirectories]; the result is
    [failedDirectories]. *)
Fixpoint createDirectories (dirs : list string) : M (list string) :=
  match dirs with
  | [] => ret []
  | deviceDir :: rest =>
      created <- createDirectory 3 deviceDir ;;
      failed <- createDirectories rest ;;
      ret (if created then failed else deviceDir :: failed)
  end.

(** The verification loops: the directories that [fileExists] does not
    confirm. *)
Fixpoint verifyDirectories (dirs : list string) : M (list string) :=
  match dirs with
  | [] => ret []
  | deviceDir :: rest =>
      exists_ <- tryCatch (fileExists deviceDir) (fun _ => ret false) ;;
      failures <- verifyDirectories rest ;;
      ret (if exists_ then failures else deviceDir :: failures)
  end.

(** The loop "Try to create the missing directories one more time". *)
Fixpoint recreateDirectories (dirs : list string) : M unit :=
  match dirs with
  | [] => ret tt
  | missingDir :: rest =>
      attempt (mkdir missingDir) ;;;
      recreateDirectories rest
  end.

(** The loop "Verify all local files exist": [validFiles] and
    [missingFiles]. *)
Fixpoint checkLocalFiles (wsPath : string) (files : list string)
  : M (list string * list string) :=
  match files with
  | [] => ret ([], [])
  | relativePath :: rest =>
      ok <- access (NodePath.join wsPath relativePath) ;;
      r <- checkLocalFiles wsPath rest ;;
      let (validFiles, missingFiles) := r in
      ret (if ok then (relativePath :: validFiles, missingFiles)
           else (validFiles, relativePath :: missingFiles))
  end.

(** The body of the upload loop for one file: [true] when the file
    counts as uploaded, [false] when it counts as failed. *)
Definition uploadOne (wsPath rootPath relativePath : string) : M bool :=
  let localPath := NodePath.join wsPath relativePath in
  let devicePath := NodePath.join rootPath relativePath in
  present <- access localPath ;;
  if present then resolved (cpToDevice localPath devicePath)
  else ret false.

Record Report := { uploaded : nat; failed : nat }.

(** The upload loop over [validFiles]. *)
Fixpoint uploadFiles (wsPath rootPath : string) (validFiles : list string)
    (report : Report) : M Report :=
  match validFiles with
  | [] => ret report
  | relativePath :: rest =>
      ok <- uploadOne wsPath rootPath relativePath ;;
      uploadFiles wsPath rootPath rest
        (if ok then {| uploaded := S (uploaded report); failed := failed report |}
         else {| uploaded := uploaded report; failed := S (failed report) |})
  end.

Definition missingFilesWarning (missingFiles : list string) : string :=
  "Found " +++ showNat (List.length missingFiles)
  +++ " files in manifest that don't exist locally. These will be skipped. Consider rebuilding the manifest.".

(** The file part of the upload: local check, warning, upload loop. *)
Definition uploadPhase (wsPath rootPath : string) (files : list string)
  : M Report :=
  r <- checkLocalFiles wsPath files ;;
  let (validFiles, missingFiles) := r in
  (match missingFiles with
   | [] => ret tt
   | _ :: _ => log (EvWarning (missingFilesWarning missingFiles))
   end) ;;;
  uploadFiles wsPath rootPath validFiles {| uploaded := 0; failed := 0 |}.

(** The directory part: plan, creation with retries, verification, one
    more creation pass, and the error when directories are still
    missing. *)
Definition directoryPhase (rootPath : string) (files : list string) : M unit :=
  match Plan.sortedDirectories rootPath files with
  | None => never
  | Some sortedDirectories =>
      createDirectories sortedDirectories ;;;
      verificationFailures <- verifyDirectories sortedDirectories ;;
      match verificationFailures with
      | [] => ret tt
      | _ :: _ =>
          recreateDirectories verificationFailures ;;;
          stillMissing <- verifyDirectories verificationFailures ;;
          match stillMissing with
          | [] => ret tt
          | _ :: _ =>
              throw ("Missing directories after retry: "
                     +++ String.concat ", " stillMissing)
          end
      end
  end.

(** What runs under the progress notification. *)
Definition baselineUpload (wsPath rootPath : string) (files : list string)
  : M Report :=
  match files with
  | [] => ret {| uploaded := 0; failed := 0 |}
  | _ :: _ =>
      directoryPhase rootPath files ;;;
      uploadPhase wsPath rootPath files
  end.

(** [syncBaseline()], from the manifest on: any error ends in an error
    message, never in a rejection. *)
Definition syncBaseline (wsPath rootPath : string) (files : list string)
  : M unit :=
  tryCatch
    (baselineUpload wsPath rootPath files ;;; ret tt)
    (fun error => log (EvErrorMessage ("Upload failed: " +++ error))).

End Sync.

(** ** The upload of the diff sync ([BoardOperations.syncDiffsLocalToBoard])

    The loop over [allFilesToSync] that runs under the progress
    notification.  Progress reports, console output and the in-memory
    view of the tree are left out, as for the baseline upload. *)

Module DiffSync.
Import Js Mp Tree Ops.


Section Loop.

(** [(await fs.stat(path)).isDirectory()], [None] when [fs.stat]
    throws: an oracle of the local file system, like [localAccess]. *)
Variable isDirectory : list Event -> string -> option bool.




End Loop.

End DiffSync.

(** ** Environments for concrete runs *)

Module Boards.
Import Js Mp.

Definition newline : string := String "010" EmptyString.

(** A workstation where the tool is installed and the clock advances
    by a second per event; the board answers by the argument vector
    alone. *)
Definition board (connect : string) (answer : list string -> ExecResult)
  : Env :=
  {| connectSetting := connect;
     homedir := "/home/user";
     probe := fun _ _ => true;
     tool := fun _ args => answer args;
     clock := fun h => (1000 * Z.of_nat (List.length h))%Z;
     localAccess := fun _ _ => true;
     freshTreePaths := fun _ => None |}.

(** The command word of an argument vector ["connect" port ...]. *)
Definition commandOf (args : list string) : list string :=
  match args with
  | _ :: _ :: rest => rest
  | _ => []
  end.

(** Whether the history holds a run of the tool. *)
Definition invoked (h : list Event) : bool :=
  existsb (fun e => match e with EvExec _ _ => true | _ => false end) h.

(** The argument vectors of the runs of the tool, in order. *)
Definition runsOf (h : list Event) : list (list string) :=
  flat_map (fun e => match e with EvExec args _ => [args] | _ => [] end) h.

(** The waits, in order. *)
Definition waitsOf (h : list Event) : list Z :=
  flat_map (fun e => match e with EvSleep ms => [ms] | _ => [] end) h.

End Boards.

(** ** Boards of the concrete runs *)

Module Runs.
Import Js Mp Boards.

(** No port is selected; the board lists a small tree. *)
Definition autoBoard : Env :=
  board "auto" (fun args =>
    match commandOf args with
    | ["fs"; "tree"] =>
        ExecOk ("├── lib" +++ newline +++ "│   └── utils.py" +++ newline
                +++ "└── main.py" +++ newline) ""
    | _ => ExecErr "Command failed" "mpremote: no device found"
    end).

(** A port is selected, and every command succeeds silently. *)
Definition obligingBoard : Env :=
  board "/dev/ttyUSB0" (fun _ => ExecOk "" "").

(** A port is selected, but the transport is dead. *)
Definition deadBoard : Env :=
  board "/dev/ttyUSB0" (fun _ =>
    ExecErr "Command failed"
      "serial.serialutil.SerialException: device not configured").

(** A tree cache as a listing has left it. *)
Definition staleCache : St :=
  withTreeCache
    (Some [{| tn_name := ""; tn_isDir := true; tn_children := [1];
              tn_fullPath := "/" |};
           {| tn_name := "main.py"; tn_isDir := false; tn_children := [];
              tn_fullPath := "/main.py" |}])
    1000%Z initialState.

End Runs.

(** ** Shapes of commands *)

Module Shapes.
Import Js Mp.

(** A copy command of the tool: ["connect" port "fs" "cp" ...]. *)
Definition isCopy (args : list string) : bool :=
  match args with
  | c :: _ :: f :: cmd :: _ =>
      String.eqb c "connect" && String.eqb f "fs" && String.eqb cmd "cp"
  | _ => false
  end.

(** The copy commands of a history. *)
Definition copiesOf (h : list Event) : list (list string) :=
  filter isCopy (Boards.runsOf h).

(** Every copy command among the events is [expected]. *)
Definition copyShape (expected : list string) (e : Event) : Prop :=
  match e with
  | EvExec args _ => isCopy args = true -> args = expected
  | _ => True
  end.


(** The plain copy command. *)
Definition plainCopy (connect localPath deviceArg : string) : list string :=
  ["connect"; connect; "fs"; "cp"; localPath; Ops.withPrefix deviceArg].


End Shapes.

(** ** The retry discipline, as a trace *)

Module Retry.
Import Js Mp.

(** The rejection message of a failed run. *)
Definition rejection (message err : string) : string :=
  if nonEmpty (emsgOf message err) then emsgOf message err
  else "mpremote error".

(** Whether a failed run is transient. *)
Definition transientFailure (message err : string) : bool :=
  transientError (toLowerCase (emsgOf message err)).

(** [retryTrace args maxRetries attempt evs r]: the events and the
    outcome of running [args], [attempt] runs having failed before.
    A run is followed by another one only when it failed with a
    transient error and no more than [maxRetries] runs have failed,
    and then after a wait of 500 ms times the number of failed runs. *)
Inductive retryTrace (args : list string) (maxRetries : nat)
  : nat -> list Event -> Res Output -> Prop :=
| retry_ok attempt out err :
    retryTrace args maxRetries attempt
      [EvExec args (ExecOk out err)]
      (Resolve {| stdout := out; stderr := err |})
| retry_give_up attempt message err :
    Nat.leb (S attempt) maxRetries && transientFailure message err = false ->
    retryTrace args maxRetries attempt
      [EvExec args (ExecErr message err)]
      (Reject (rejection message err))
| retry_again attempt message err evs r :
    S attempt <= maxRetries ->
    transientFailure message err = true ->
    retryTrace args maxRetries (S attempt) evs r ->
    retryTrace args maxRetries attempt
      (EvExec args (ExecErr message err)
       :: EvSleep (500 * Z.of_nat (S attempt)) :: evs)
      r.

(** The last run of the tool among some events. *)
Fixpoint lastRun (evs : list Event) : option (list string * ExecResult) :=
  match evs with
  | [] => None
  | e :: rest =>
      match lastRun rest with
      | Some x => Some x
      | None => match e with
                | EvExec args r => Some (args, r)
                | _ => None
                end
      end
  end.

Definition failedRun (x : option (list string * ExecResult)) : bool :=
  match x with
  | Some (_, ExecErr _ _) => true
  | _ => false
  end.

Definition isProbe (e : Event) : Prop :=
  match e with EvProbe _ _ => True | _ => False end.

Definition toolNotFound : string :=
  "mpremote not found. Please install mpremote: pip install mpremote or pipx install mpremote".

(** The waits of [n] retries: 500 ms, 1000 ms, ... *)
Definition backoff (n : nat) : list Z :=
  map (fun k => (500 * Z.of_nat k)%Z) (seq 1 n).

(** An [fs ls] command. *)
Definition isLs (args : list string) : bool :=
  match args with
  | c :: _ :: f :: cmd :: _ =>
      String.eqb c "connect" && String.eqb f "fs" && String.eqb cmd "ls"
  | _ => false
  end.

(** The tree listing answers with an empty tree; the plain listing
    fails with a transient error however often it is tried. *)
Definition flakyBoard : Env :=
  Boards.board "/dev/ttyUSB0" (fun args =>
    match Boards.commandOf args with
    | ["fs"; "tree"] => ExecOk "" ""
    | _ => ExecErr "Command failed" "mpremote: failed to access /dev/ttyUSB0 (it may be in use by another program)"
    end).

End Retry.

(** ** A board with a directory to delete *)

Module Dirs.
Import Js Mp Boards.

(** Whether the history holds a successful [fs rm path]. *)
Definition removed (h : list Event) (path : string) : bool :=
  existsb (fun e =>
             match e with
             | EvExec args (ExecOk _ _) =>
                 match commandOf args with
                 | ["fs"; "rm"; p] => String.eqb p path
                 | _ => false
                 end
             | _ => false
             end) h.

(** The listing line of a file, size first. *)
Definition lsLine (size name : string) : string :=
  "         " +++ size +++ " " +++ name +++ newline.

(** A board with the directory [/lib] that holds the files [names]
    (10 bytes each).  The tool's own recursive remove gives up on the
    non-empty directory; [fs ls] lists what is still there; [fs rm]
    removes a file; [fs rmdir] succeeds once the directory is empty. *)
Definition libBoard (names : list string) : Env :=
  {| connectSetting := "/dev/ttyUSB0";
     homedir := "/home/user";
     probe := fun _ _ => true;
     tool := fun h args =>
       let left := filter (fun n => negb (removed h ("/lib/" +++ n))) names in
       match commandOf args with
       | ["fs"; "stat"; "/lib"] => ExecOk ("/lib 16384 0 0" +++ newline) ""
       | ["fs"; "rm"; "-r"; "/lib"] =>
           ExecErr "Command failed" "OSError: [Errno 39] Directory not empty"
       | ["fs"; "ls"; "/lib"] =>
           ExecOk ("ls :/lib" +++ newline
                   +++ String.concat "" (map (lsLine "10") left)) ""
       | ["fs"; "rm"; _] => ExecOk "" ""
       | ["fs"; "rmdir"; "/lib"] =>
           match left with
           | [] => ExecOk "" ""
           | _ :: _ =>
               ExecErr "Command failed" "OSError: [Errno 39] Directory not empty"
           end
       | _ => ExecErr "Command failed" "unexpected command"
       end;
     clock := fun h => (1000 * Z.of_nat (List.length h))%Z;
     localAccess := fun _ _ => true;
     freshTreePaths := fun _ => None |}.

End Dirs.

(** ** The upload loop, as a run *)

Module Batch.
Import Js Mp Sync.

(** The files whose local check answered [true] ([validFiles]), the
    others ([missingFiles]), and the events of the checks. *)
Fixpoint passed (files : list string) (checks : list bool) : list string :=
  match files, checks with
  | f :: fr, c :: cr => if c then f :: passed fr cr else passed fr cr
  | _, _ => []
  end.

Fixpoint notPassed (files : list string) (checks : list bool) : list string :=
  match files, checks with
  | f :: fr, c :: cr => if c then notPassed fr cr else f :: notPassed fr cr
  | _, _ => []
  end.

Fixpoint accessEvents (wsPath : string) (files : list string)
    (checks : list bool) : list Event :=
  match files, checks with
  | f :: fr, c :: cr =>
      EvAccess (NodePath.join wsPath f) c :: accessEvents wsPath fr cr
  | _, _ => []
  end.

(** Five files; [c.py] is there when the files are checked and gone
    once the first upload has run. *)
Definition fiveFiles : list string :=
  ["a.py"; "b.py"; "c.py"; "d.py"; "e.py"].

Definition vanishingBoard : Env :=
  {| connectSetting := "/dev/ttyUSB0";
     homedir := "/home/user";
     probe := fun _ _ => true;
     tool := fun _ _ => ExecOk "" "";
     clock := fun h => (1000 * Z.of_nat (List.length h))%Z;
     localAccess := fun h path =>
       negb (String.eqb path "/ws/c.py" && Boards.invoked h);
     freshTreePaths := fun _ => None |}.

(** Five files; the board refuses the copy of [c.py]. *)
Definition refusingBoard : Env :=
  Boards.board "/dev/ttyUSB0" (fun args =>
    match Boards.commandOf args with
    | ["fs"; "cp"; "/ws/c.py"; _] => ExecErr "Command failed" "OSError: 28"
    | _ => ExecOk "" ""
    end).

(** Five files; [c.py] is gone before the upload starts. *)
Definition missingBoard : Env :=
  {| connectSetting := "/dev/ttyUSB0";
     homedir := "/home/user";
     probe := fun _ _ => true;
     tool := fun _ _ => ExecOk "" "";
     clock := fun h => (1000 * Z.of_nat (List.length h))%Z;
     localAccess := fun _ path => negb (String.eqb path "/ws/c.py");
     freshTreePaths := fun _ => None |}.

End Batch.

(** ** Path mapping of the command module ([mpremoteCommands])

    The command module exports its own pair of path mappings; its
    [toDevicePath] joins without normalising. *)

Module Commands.
Import Js.

(** [toLocalRelative(devicePath, rootPath)] *)
Definition toLocalRelative (devicePath rootPath : string) : string :=
  let normRoot := if String.eqb rootPath "/" then "/"
                  else stripTrailingSlash rootPath in
  if String.eqb normRoot "/" then stripLeadingSlash devicePath
  else if startsWith (normRoot +++ "/") devicePath
       then slice (String.length normRoot + 1) devicePath
  else if String.eqb devicePath normRoot then ""
  else stripLeadingSlash devicePath.

(** [toDevicePath(localRel, rootPath)] *)
Definition toDevicePath (localRel rootPath : string) : string :=
  let normRoot := if String.eqb rootPath "/" then "/"
                  else stripTrailingSlash rootPath in
  if String.eqb normRoot "/" then "/" +++ localRel
  else normRoot +++ "/" +++ localRel.

End Commands.

(** ** The tree view of the board ([Esp32Tree])

    The node cache of the view: per directory, the nodes listed under
    it.  [localeCompare], which orders the siblings, belongs to the
    runtime and depends on the locale: the sort is a parameter. *)

Module View.
Import Js Diff.

Inductive Kind := KDir | KFile.

Record Esp32Node := { kind : Kind; name : string; path : string }.

(** [path.replace(/\/[^\/]+$/, "")]: the last slash and the non-empty
    rest after it are dropped; a path that ends in a slash, or has
    none, is left as it is. *)
Definition dropLastSegment (path : string) : string :=
  match lastSlashIndex path 0 None with
  | Some i => if Nat.ltb (S i) (String.length path)
              then String.substring 0 i path else path
  | None => path
  end.

(** [path.includes("/") ? path.replace(/\/[^\/]+$/, "") || "/" : "/"] *)
Definition parentPathOf (path : string) : string :=
  if includes "/" path then
    let p := dropLastSegment path in
    if nonEmpty p then p else "/"
  else "/".

(** [path.split("/").pop()] *)
Definition nameOf (path : string) : string :=
  last (splitOn isSlash path) "".

(** The path that [getChildNodes] gives to the entry [name] of the
    directory [path]. *)
Definition childPathOf (path name : string) : string :=
  if String.eqb path "/" then "/" +++ name else path +++ "/" +++ name.

Definition hasName (n : string) (siblings : list Esp32Node) : bool :=
  existsb (fun x => String.eqb (name x) n) siblings.

Section NodeCache.
(** [siblings.sort(...)], folders first, then by [localeCompare]. *)
Variable sortNodes : list Esp32Node -> list Esp32Node.

(** [addNode(path, isDir)] on [_nodeCache] *)
Definition addNode (path : string) (isDir : bool)
    (nodeCache : list (string * list Esp32Node))
  : list (string * list Esp32Node) :=
  let parentPath := parentPathOf path in
  let name := nameOf path in
  let node := {| kind := if isDir then KDir else KFile;
                 name := name; path := path |} in
  let siblings := match mapGet parentPath nodeCache with
                  | Some s => s
                  | None => []
                  end in
  mapSet parentPath
    (if negb (hasName name siblings) then sortNodes (siblings ++ [node])
     else siblings)
    nodeCache.

(** [siblings.splice(idx, 1)] for the first node called [n]. *)
Fixpoint dropFirstNamed (n : string) (siblings : list Esp32Node)
  : list Esp32Node :=
  match siblings with
  | [] => []
  | x :: r => if String.eqb (name x) n then r else x :: dropFirstNamed n r
  end.

(** [Map.delete] *)
Fixpoint mapDelete {V : Type} (k : string) (m : list (string * V))
  : list (string * V) :=
  match m with
  | [] => []
  | (k', v) :: r => if String.eqb k' k then r else (k', v) :: mapDelete k r
  end.

(** [removeNode(path)] on [_nodeCache] *)
Definition removeNode (path : string)
    (nodeCache : list (string * list Esp32Node))
  : list (string * list Esp32Node) :=
  let parentPath := parentPathOf path in
  let name := nameOf path in
  let nodeCache :=
    match mapGet parentPath nodeCache with
    | Some siblings => mapSet parentPath (dropFirstNamed name siblings) nodeCache
    | None => nodeCache
    end in
  mapDelete path nodeCache.

End NodeCache.

End View.

(** ** The mpremote wrapper: checks *)

Module Checks.
Import Js Mp Tree Ops.

(** [fileExistsSha256(p)] *)
Definition fileExistsSha256 (p : string) : M bool :=
  env <- getEnv ;;
  let connect := configuredConnect env in
  if noConcretePort connect then throw noPortMessage else
  tryCatch
    (out <- runMpremote ["connect"; connect; "fs"; "sha256sum"; pathArgOf p]
              false ;;
     let output := trim (stdout out) in
     if nonEmpty output && negb (includes "no such file" output)
        && negb (includes "file not found" output)
     then ret true
     else ret false)
    (fun error =>
       let errorStr := toLowerCase (errorText error) in
       if includes "no such file" errorStr
          || includes "file not found" errorStr
          || includes "does not exist" errorStr
          || includes "mpremote: no device found" errorStr
          || includes "device not found" errorStr
       then ret false
       else if includes "serialexception" errorStr
               || includes "device not configured" errorStr
               || includes "connection failed" errorStr
       then ret false
       else ret false).

(** [reset()] *)
Definition reset : M unit :=
  env <- getEnv ;;
  let connect := configuredConnect env in
  if noConcretePort connect then ret tt else
  tryCatch
    (runMpremote ["connect"; connect; "reset"] true ;;; ret tt)
    (fun _ => ret tt).

Record Health := {
  healthy : bool;
  hc_port : string;
  responseTime : option Z
}.

(** [healthCheck(port)]; [None] is a call without argument. *)
Definition healthCheck (port : option string) : M Health :=
  startTime <- now ;;
  env <- getEnv ;;
  let connect := match port with
                 | Some p => if nonEmpty p then p else configuredConnect env
                 | None => configuredConnect env
                 end in
  tryCatch
    (runMpremote ["connect"; connect; "fs"; "tree"] false ;;;
     t <- now ;;
     let responseTime := (t - startTime)%Z in
     markHealthy connect ;;;
     ret {| healthy := true; hc_port := connect;
            responseTime := Some responseTime |})
    (fun _ =>
       markUnhealthy connect ;;;
       ret {| healthy := false; hc_port := connect; responseTime := None |}).

End Checks.

(** ** The mpremote wrapper: serial ports *)

Module Ports.
Import Js Mp.

Record Device := { d_port : string; d_name : string }.

(** The body of [lines.map(...)]: the device of one line of
    [mpremote connect list], or nothing ([null], filtered out). *)
Definition deviceOfLine (line : string) : list Device :=
  let parts := splitWs line in
  if Nat.leb 2 (List.length parts) then
    let port := nth 0 parts "" in
    let deviceName := if Nat.leb 4 (List.length parts)
                      then String.concat " " (skipn 3 parts) else "" in
    if nonEmpty port && negb (includes "None" port) then
      let cleanName := if nonEmpty deviceName
                          && negb (includes "None" deviceName)
                       then deviceName else "Serial Port" in
      [{| d_port := port; d_name := cleanName |}]
    else []
  else [].

Definition noDevicesWarning : string :=
  "No ESP32 devices detected. Make sure mpremote is installed and available in PATH (pip install mpremote or pipx install mpremote).".

Definition portsErrorWarning (message : string) : string :=
  "Error executing mpremote to detect ports: " +++ errorText message
  +++ " Make sure mpremote is installed (pip install mpremote or pipx install mpremote).".

(** [listSerialPorts()] *)
Definition listSerialPorts : M (list Device) :=
  tryCatch
    (out <- runMpremote ["connect"; "list"] true ;;
     let lines := filter nonEmpty (map trim (splitLines (stdout out))) in
     let devices := flat_map deviceOfLine lines in
     (match devices with
      | [] => log (EvWarning noDevicesWarning)
      | _ :: _ => ret tt
      end) ;;;
     ret devices)
    (fun err => log (EvWarning (portsErrorWarning err)) ;;; ret []).

End Ports.

(** ** The mpremote wrapper: wiping a directory *)

Module Wipe.
Import Js Mp Tree Ops.

(** [{ deleted, errors }]; [deleted_count] and [error_count] are the
    lengths of the two lists. *)
Record Report := { deleted : list string; errors : list string }.




End Wipe.

(** ** The mpremote wrapper: the listing with sizes *)

Module Sizes.
Import Js Mp Tree Ops Diff.

(** The indentation loop of [getBoardFilesAndSizes]: the level and
    [line.substring(pos)] when the loop ends.  A round that goes on
    consumes a whole indentation unit, four characters of which the
    vertical bar takes three bytes. *)
Fixpoint indentOf (remaining : string) (level : nat) : nat * string :=
  if startsWith boxTee remaining || startsWith boxElbow remaining
  then (level, slice (String.length boxTee) remaining)
  else
    match remaining with
    | String _ (String _ (String _ (String _ rest4))) =>
        if startsWith boxPipe remaining then
          match rest4 with
          | String _ (String _ rest6) => indentOf rest6 (S level)
          | _ => (level, remaining)
          end
        else if startsWith fourSpaces remaining then indentOf rest4 (S level)
        else (level, remaining)
    | _ => (level, remaining)
    end.

Definition isDigit (c : ascii) : bool :=
  let n := nat_of_ascii c in Nat.leb 48 n && Nat.leb n 57.

(** The longest prefix of digits, and the rest. *)
Fixpoint spanDigits (s : string) : string * string :=
  match s with
  | String c r =>
      if isDigit c then let (d, rest) := spanDigits r in (String c d, rest)
      else (EmptyString, s)
  | EmptyString => (EmptyString, EmptyString)
  end.

(** U+2028 and U+2029, by the bytes of their encoding. *)
Definition lineSeparator : string :=
  String (ascii_of_nat 226) (String (ascii_of_nat 128)
    (String (ascii_of_nat 168) EmptyString)).

Definition paragraphSeparator : string :=
  String (ascii_of_nat 226) (String (ascii_of_nat 128)
    (String (ascii_of_nat 169) EmptyString)).

(** No line terminator, which [.] does not match: line feed, carriage
    return, U+2028 and U+2029. *)
Fixpoint noLineTerminator (s : string) : bool :=
  match s with
  | EmptyString => true
  | String c r =>
      negb (Nat.eqb (nat_of_ascii c) 10) && negb (Nat.eqb (nat_of_ascii c) 13)
      && negb (startsWith lineSeparator s)
      && negb (startsWith paragraphSeparator s)
      && noLineTerminator r
  end.

(** [/^\[\s*(\d+)\s*\]\s+(.+)$/.exec(s)]: the two groups. *)
Definition fileRe (s : string) : option (string * string) :=
  match s with
  | String c r =>
      if Ascii.eqb c "[" then
        let (digits, r2) := spanDigits (trimStart r) in
        if nonEmpty digits then
          match trimStart r2 with
          | String c3 r3 =>
              if Ascii.eqb c3 "]" then
                let r4 := trimStart r3 in
                if Nat.ltb (String.length r4) (String.length r3)
                   && nonEmpty r4 && noLineTerminator r4
                then Some (digits, r4) else None
              else None
          | EmptyString => None
          end
        else None
      else None
  | EmptyString => None
  end.

(** The path of an entry under [pathStack], with a leading slash. *)
Definition stackedPath (pathStack : list string) (name : string) : string :=
  let fullPath := match pathStack with
                  | [] => name
                  | _ :: _ => String.concat "/" pathStack +++ "/" +++ name
                  end in
  if startsWith "/" fullPath then fullPath else "/" +++ fullPath.

Record Listing := {
  files : list (string * Z);
  directories : list string;
  pathStack : list string
}.

(** The body of the loop over the lines. *)
Definition listingStep (acc : Listing) (line : string) : Listing :=
  if negb (nonEmpty (trim line)) || includes "tree" line
     || String.eqb line ":/" then acc
  else
    let (level, rest) := indentOf line 0 in
    let remaining := trim rest in
    match fileRe remaining with
    | Some (digits, group2) =>
        let size := parseIntOr0 digits in
        let name := trim group2 in
        let stack := firstn level (pathStack acc) in
        {| files := mapSet (stackedPath stack name) size (files acc);
           directories := directories acc;
           pathStack := stack |}
    | None =>
        let dirName := trim remaining in
        if nonEmpty dirName then
          let stack := firstn level (pathStack acc) in
          {| files := files acc;
             directories := setAdd (stackedPath stack dirName)
                              (directories acc);
             pathStack := stack ++ [dirName] |}
        else acc
    end.

(** The parser of [getBoardFilesAndSizes]: the map of the files (every
    entry has [isDir: false]) and the set of the directories. *)
Definition parseListing (treeOutput : string) : Listing :=
  fold_left listingStep
    (filter (fun line => nonEmpty (trim line)) (splitLines treeOutput))
    {| files := []; directories := []; pathStack := [] |}.

(** [getBoardFilesAndSizes(rootPath)]; the argument is not used. *)
Definition getBoardFilesAndSizes (rootPath : string)
  : M (list (string * Z) * list string) :=
  env <- getEnv ;;
  let connect := configuredConnect env in
  if noConcretePort connect then throw noPortMessage else
  tryCatch
    (out <- runMpremote ["connect"; connect; "fs"; "tree"; "-s"] true ;;
     let listing := parseListing (stdout out) in
     ret (files listing, directories listing))
    (fun error => throw error).

(** [getBoardFileSizes(rootPath)] *)
Definition getBoardFileSizes (rootPath : string) : M (list (string * Z)) :=
  result <- getBoardFilesAndSizes rootPath ;;
  ret (fold_left (fun acc (e : string * Z) => mapSet (fst e) (snd e) acc)
         (fst result) []).

End Sizes.

(* ================================================================== *)
(** * Properties *)

Import Js Paths Diff NodePath Plan Mp Tree Ops Sync Boards Runs Shapes Retry Dirs Batch.


(** ** Strings *)


Lemma append_nil_r (s : string) : s +++ "" = s.
Proof. induction s; simpl; congruence. Qed.

Lemma append_assoc (a b c : string) : (a +++ b) +++ c = a +++ b +++ c.
Proof. induction a; simpl; congruence. Qed.

Lemma prefix_nil (s : string) : String.prefix "" s = true.
Proof. destruct s; reflexivity. Qed.

Lemma prefix_append (p s : string) : String.prefix p (p +++ s) = true.
Proof.
  induction p as [|c p IH]; simpl.
  - apply prefix_nil.
  - destruct (ascii_dec c c); congruence.
Qed.

Lemma slice_append (p s : string) : slice (String.length p) (p +++ s) = s.
Proof. induction p; simpl; auto. Qed.

Lemma noSlash_append (a b : string) :
  noSlash (a +++ b) = noSlash a && noSlash b.
Proof.
  induction a as [|c a IH]; simpl; auto.
  rewrite IH. apply andb_assoc.
Qed.

Lemma collapse_noSlash (s : string) :
  noSlash s = true -> collapseSlashes s = s.
Proof.
  induction s as [|c s IH]; simpl; auto.
  intros H. apply andb_prop in H as [Hc Hs].
  apply negb_true_iff in Hc. rewrite Hc, IH; auto.
Qed.

Lemma collapse_cons (c : ascii) (r : string) :
  isSlash c = false ->
  collapseSlashes (String c r) = String c (collapseSlashes r).
Proof. intros H. simpl. now rewrite H. Qed.

Lemma collapse_slash_cons (d : ascii) (r : string) :
  isSlash d = false ->
  collapseSlashes (String "/" (String d r))
  = String "/" (collapseSlashes (String d r)).
Proof.
  intros H. change (collapseSlashes (String "/" (String d r)))
    with (if isSlash d then collapseSlashes (String d r)
          else String "/" (collapseSlashes (String d r))).
  now rewrite H.
Qed.

(** A single slash between two slash-free pieces is kept as it is. *)
Lemma collapse_two_segments (x s : string) :
  noSlash x = true -> noSlash s = true -> s <> "" ->
  collapseSlashes (x +++ "/" +++ s) = x +++ "/" +++ s.
Proof.
  intros Hx Hs Hne.
  induction x as [|c x IH].
  - destruct s as [|d s]; [congruence|].
    assert (Hd : isSlash d = false).
    { simpl in Hs. apply andb_prop in Hs as [Hd _].
      now apply negb_true_iff in Hd. }
    change ("" +++ "/" +++ String d s) with (String "/" (String d s)).
    rewrite collapse_slash_cons by assumption.
    now rewrite (collapse_noSlash (String d s)).
  - simpl in Hx. apply andb_prop in Hx as [Hc Hx].
    apply negb_true_iff in Hc.
    change (String c x +++ "/" +++ s) with (String c (x +++ "/" +++ s)).
    rewrite collapse_cons by assumption. now rewrite IH.
Qed.

Lemma stripTrailing_noSlash_end (s t : string) :
  noSlash t = true -> t <> "" ->
  stripTrailingSlash (s +++ t) = s +++ t.
Proof.
  intros Ht Hne. induction s as [|c s IH]; simpl.
  - clear Hne. induction t as [|d t IHt]; simpl; auto.
    simpl in Ht. apply andb_prop in Ht as [Hd Ht].
    apply negb_true_iff in Hd.
    destruct t as [|e t]; [rewrite Hd; reflexivity|].
    rewrite IHt; auto.
  - destruct (s +++ t) eqn:E.
    + destruct s; simpl in E; [congruence | discriminate].
    + rewrite IH. reflexivity.
Qed.


(** ** Path mapping *)


(** The three roots of the round-trip property. *)
Definition sampleRoots : list string := ["/"; "/app"; "/app/"].

Lemma rel_shape (x y : string) :
  noSlash x = true -> noSlash y = true ->
  stripTrailingSlash (collapseSlashes (x +++ "/" +++ y +++ ".py"))
  = x +++ "/" +++ y +++ ".py".
Proof.
  intros Hx Hy.
  rewrite collapse_two_segments; auto.
  - replace (x +++ "/" +++ y +++ ".py") with ((x +++ "/" +++ y) +++ ".py")
      by (now rewrite !append_assoc).
    apply stripTrailing_noSlash_end; [reflexivity | discriminate].
  - rewrite noSlash_append, Hy. reflexivity.
  - destruct y; discriminate.
Qed.

(** C4.  For the roots ["/"], ["/app"] and ["/app/"] and a relative
    path [x/y.py], the device path of the file maps to the relative
    path and back to the same device path. *)
Theorem path_mapping_round_trip (x y root : string) :
  noSlash x = true -> noSlash y = true -> In root sampleRoots ->
  let rel := x +++ "/" +++ y +++ ".py" in
  let devicePath := stripTrailingSlash root +++ "/" +++ rel in
  toDevicePath rel root = devicePath
  /\ toLocalRelative devicePath root = rel
  /\ toDevicePath (toLocalRelative devicePath root) root = devicePath.
Proof.
  intros Hx Hy Hroot rel devicePath.
  assert (Hrel : stripTrailingSlash (collapseSlashes rel) = rel)
    by (apply rel_shape; assumption).
  assert (Hne : String.eqb rel "" = false).
  { unfold rel. destruct x; reflexivity. }
  assert (Hdev : toDevicePath rel root = devicePath).
  { unfold toDevicePath. rewrite Hrel, Hne.
    destruct Hroot as [<-|[<-|[<-|[]]]]; reflexivity. }
  assert (Hloc : toLocalRelative devicePath root = rel).
  { unfold devicePath.
    destruct Hroot as [<-|[<-|[<-|[]]]]; unfold toLocalRelative; simpl.
    - reflexivity.
    - destruct (ascii_dec "/" "/"), (ascii_dec "a" "a"), (ascii_dec "p" "p");
        try congruence.
      fold rel. now rewrite prefix_nil.
    - destruct (ascii_dec "/" "/"), (ascii_dec "a" "a"), (ascii_dec "p" "p");
        try congruence.
      fold rel. now rewrite prefix_nil. }
  repeat split; auto. rewrite Hloc. exact Hdev.
Qed.

Lemma path_mapping_round_trip_witness :
  toDevicePath (toLocalRelative "/app/x/y.py" "/app/") "/app/" = "/app/x/y.py".
Proof.
  exact (proj2 (proj2 (path_mapping_round_trip "x" "y" "/app/"
                         eq_refl eq_refl (or_intror (or_intror (or_introl eq_refl)))))).
Defined.


(** ** The diff check *)


(** The scenario of the specification: the changed file is the one
    whose sizes differ, the file that only the board has is
    board-only, nothing is local-only. *)
Lemma checkDiffs_scenario (matcher : string -> bool -> bool) :
  matcher "main.py" false = false ->
  matcher "lib/a.py" false = false ->
  matcher "extra.py" false = false ->
  let local := [("main.py", 10%Z); ("lib/a.py", 5%Z)] in
  let board := [("/main.py", 10%Z); ("/lib/a.py", 7%Z); ("/extra.py", 3%Z)] in
  let r := checkDiffs matcher "/" (statOf local) (map fst local) ["lib"]
             board ["/lib"] in
  diffSet r = ["/lib/a.py"] /\ boardOnlySet r = ["/extra.py"]
  /\ localOnlySet r = [] /\ localOnlyDirectories r = [].
Proof.
  intros H1 H2 H3. cbv zeta.
  unfold checkDiffs, filteredBoardFiles. cbn.
  rewrite H1, H2, H3. cbn. repeat split; reflexivity.
Qed.

(** A board file that the matcher keeps and that the manifest has too,
    alone on both sides: it is reported as changed exactly when the
    local size, read through [|| -1], differs from the board size. *)
Lemma checkDiffs_single (matcher : string -> bool -> bool)
    (name : string) (localSize boardSize : Z) :
  matcher name false = false ->
  let r := checkDiffs matcher "/" (statOf [(name, localSize)]) [name] []
             [("/" +++ name, boardSize)] [] in
  diffSet r = if (orMinusOne (Some localSize) =? boardSize)%Z then []
              else ["/" +++ name].
Proof.
  intros Hm. cbv zeta.
  unfold checkDiffs, filteredBoardFiles, boardFileByRelPath, localFileSizes,
    compareFiles, statOf. cbn.
  rewrite Hm. cbn. rewrite !String.eqb_refl. cbn.
  destruct (if (localSize =? 0)%Z then (-1)%Z else localSize) eqn:E;
    destruct boardSize; cbn; try reflexivity;
    match goal with
    | |- context [Pos.eqb ?a ?b] => destruct (Pos.eqb a b); reflexivity
    end.
Qed.

(** C1.  An empty file that is present on both sides, 0 bytes here and
    0 bytes there, is reported as changed: the local size 0 is read as
    [-1]. *)
Theorem checkDiffs_empty_file_reported_changed :
  let local := [("empty.py", 0%Z)] in
  let board := [("/empty.py", 0%Z)] in
  let r := checkDiffs (fun _ _ => false) "/" (statOf local) (map fst local) []
             board [] in
  diffSet r = ["/empty.py"] /\ localOnlySet r = [] /\ boardOnlySet r = [].
Proof. repeat split; reflexivity. Qed.


(** ** Effects: frames and settled promises *)


(** No connection is marked as having an operation in progress. *)
Definition idle (st : St) : bool :=
  forallb (fun pc : string * Conn => negb (operationInProgress (snd pc)))
    (activeConnections st).

(** [extends phi st st']: the history grew by events that satisfy
    [phi]. *)
Definition extends (phi : Event -> Prop) (st st' : St) : Prop :=
  exists evs, history st' = history st ++ evs /\ Forall phi evs.

(** The tree cache is as it was. *)
Definition sameCache (st st' : St) : Prop :=
  globalFileTreeCache st' = globalFileTreeCache st
  /\ lastTreeUpdate st' = lastTreeUpdate st.

(** [keeps R m]: whatever the environment and however [m] ends, the
    final state is related to the initial one. *)
Definition keeps {A : Type} (R : St -> St -> Prop) (m : M A) : Prop :=
  forall env st, R st (fst (m env st)).

(** [safe m]: from an idle state, [m] settles and leaves an idle
    state. *)
Definition safe {A : Type} (m : M A) : Prop :=
  forall env st, idle st = true ->
    idle (fst (m env st)) = true /\ snd (m env st) <> Pending.

Lemma extends_refl phi st : extends phi st st.
Proof. exists []. split; [now rewrite app_nil_r | constructor]. Qed.

Lemma extends_trans phi a b c :
  extends phi a b -> extends phi b c -> extends phi a c.
Proof.
  intros (e1 & H1 & F1) (e2 & H2 & F2). exists (e1 ++ e2). split.
  - now rewrite H2, H1, app_assoc.
  - apply Forall_app. now split.
Qed.

Lemma extends_weaken (phi psi : Event -> Prop) a b :
  (forall e, phi e -> psi e) -> extends phi a b -> extends psi a b.
Proof.
  intros H (e & H1 & F). exists e. split; auto.
  eapply Forall_impl; eauto.
Qed.

Lemma sameCache_refl st : sameCache st st.
Proof. now split. Qed.

Lemma sameCache_trans a b c :
  sameCache a b -> sameCache b c -> sameCache a c.
Proof. intros [H1 H2] [H3 H4]. split; congruence. Qed.

(** The relations that are threaded through a computation. *)
Class Threaded (R : St -> St -> Prop) : Prop := {
  threaded_refl : forall st, R st st;
  threaded_trans : forall a b c, R a b -> R b c -> R a c
}.

#[global] Instance extends_threaded phi : Threaded (extends phi).
Proof. split; [apply extends_refl | apply extends_trans]. Qed.

#[global] Instance sameCache_threaded : Threaded sameCache.
Proof. split; [apply sameCache_refl | apply sameCache_trans]. Qed.

(** Only the connection manager (and the cached tool path) changed. *)
Definition quiet (st st' : St) : Prop :=
  history st' = history st /\ sameCache st st'.

#[global] Instance quiet_threaded : Threaded quiet.
Proof.
  split.
  - intros st. split; [reflexivity | apply sameCache_refl].
  - intros a b c [H1 H2] [H3 H4]. split; [congruence|].
    eapply sameCache_trans; eauto.
Qed.

Section Keeps.
Context (R : St -> St -> Prop) `{Threaded R}.

Lemma keeps_ret {A} (a : A) : keeps R (ret a).
Proof. intros env st. apply threaded_refl. Qed.

Lemma keeps_throw {A} e : keeps R (@throw A e).
Proof. intros env st. apply threaded_refl. Qed.

Lemma keeps_never {A} : keeps R (@never A).
Proof. intros env st. apply threaded_refl. Qed.

Lemma keeps_getState : keeps R getState.
Proof. intros env st. apply threaded_refl. Qed.

Lemma keeps_getEnv : keeps R getEnv.
Proof. intros env st. apply threaded_refl. Qed.

Lemma keeps_now : keeps R now.
Proof. intros env st. apply threaded_refl. Qed.

Lemma keeps_bind {A B} (m : M A) (k : A -> M B) :
  keeps R m -> (forall a, keeps R (k a)) -> keeps R (bind m k).
Proof.
  intros Hm Hk env st. unfold bind.
  specialize (Hm env st). destruct (m env st) as [st' [a|e|]]; simpl in *; auto.
  eapply threaded_trans; [exact Hm | apply Hk].
Qed.

Lemma keeps_tryCatch {A} (m : M A) (h : string -> M A) :
  keeps R m -> (forall e, keeps R (h e)) -> keeps R (tryCatch m h).
Proof.
  intros Hm Hh env st. unfold tryCatch.
  specialize (Hm env st). destruct (m env st) as [st' [a|e|]]; simpl in *; auto.
  eapply threaded_trans; [exact Hm | apply Hh].
Qed.

Lemma keeps_modify (f : St -> St) :
  (forall st, R st (f st)) -> keeps R (modify f).
Proof. intros Hf env st. apply Hf. Qed.

End Keeps.

Lemma keeps_weaken {A} (R R' : St -> St -> Prop) (m : M A) :
  (forall a b, R a b -> R' a b) -> keeps R m -> keeps R' m.
Proof. intros HR Hm env st. apply HR, Hm. Qed.

Lemma quiet_extends phi a b : quiet a b -> extends phi a b.
Proof.
  intros [Hh _]. exists []. split; [now rewrite app_nil_r | constructor].
Qed.

Lemma quiet_sameCache a b : quiet a b -> sameCache a b.
Proof. now intros [_ Hc]. Qed.

Lemma safe_ret {A} (a : A) : safe (ret a).
Proof. intros env st H. split; [exact H | discriminate]. Qed.

Lemma safe_throw {A} e : safe (@throw A e).
Proof. intros env st H. split; [exact H | discriminate]. Qed.

Lemma safe_getState : safe getState.
Proof. intros env st H. split; [exact H | discriminate]. Qed.

Lemma safe_getEnv : safe getEnv.
Proof. intros env st H. split; [exact H | discriminate]. Qed.

Lemma safe_now : safe now.
Proof. intros env st H. split; [exact H | discriminate]. Qed.

Lemma safe_bind {A B} (m : M A) (k : A -> M B) :
  safe m -> (forall a, safe (k a)) -> safe (bind m k).
Proof.
  intros Hm Hk env st Hi. unfold bind.
  destruct (Hm env st Hi) as [H1 H2].
  destruct (m env st) as [st' [a|e|]]; simpl in *.
  - apply Hk, H1.
  - split; [exact H1 | discriminate].
  - congruence.
Qed.

Lemma safe_tryCatch {A} (m : M A) (h : string -> M A) :
  safe m -> (forall e, safe (h e)) -> safe (tryCatch m h).
Proof.
  intros Hm Hh env st Hi. unfold tryCatch.
  destruct (Hm env st Hi) as [H1 H2].
  destruct (m env st) as [st' [a|e|]]; simpl in *.
  - split; [exact H1 | discriminate].
  - apply Hh, H1.
  - congruence.
Qed.

Lemma safe_modify (f : St -> St) :
  (forall st, idle st = true -> idle (f st) = true) -> safe (modify f).
Proof. intros H env st Hi. split; [now apply H | discriminate]. Qed.

Lemma safe_log e : safe (log e).
Proof. intros env st H. split; [exact H | discriminate]. Qed.

Lemma safe_exec args : safe (exec args).
Proof. intros env st H. split; [exact H | discriminate]. Qed.

Lemma safe_access p : safe (access p).
Proof. intros env st H. split; [exact H | discriminate]. Qed.

Lemma keeps_log phi e : phi e -> keeps (extends phi) (log e).
Proof.
  intros H env st. exists [e]. split; [reflexivity | now constructor].
Qed.

Lemma keeps_exec phi args :
  (forall r, phi (EvExec args r)) -> keeps (extends phi) (exec args).
Proof.
  intros H env st. eexists [_]. split; [reflexivity | now constructor].
Qed.


Lemma sameCache_log e : keeps sameCache (log e).
Proof. intros env st. now split. Qed.

Lemma sameCache_exec args : keeps sameCache (exec args).
Proof. intros env st. now split. Qed.

Lemma sameCache_access p : keeps sameCache (access p).
Proof. intros env st. now split. Qed.

(** *** The connection manager *)

Lemma forallb_mapSet {V} (f : string * V -> bool) k v (m : list (string * V)) :
  forallb f m = true -> f (k, v) = true -> forallb f (mapSet k v m) = true.
Proof.
  intros Hm Hv. induction m as [|[k' v'] m IH]; simpl in *.
  - now rewrite Hv.
  - apply andb_prop in Hm as [H1 H2].
    destruct (String.eqb k' k); simpl.
    + now rewrite Hv, H2.
    + now rewrite H1, IH.
Qed.

Lemma forallb_mapGet {V} (f : string * V -> bool) k v (m : list (string * V)) :
  forallb f m = true -> mapGet k m = Some v -> f (k, v) = true.
Proof.
  intros Hm Hg. induction m as [|[k' v'] m IH]; simpl in *; [discriminate|].
  apply andb_prop in Hm as [H1 H2].
  destruct (String.eqb k' k) eqn:E.
  - apply String.eqb_eq in E. subst. now inversion Hg; subst.
  - auto.
Qed.

Lemma mapGet_mapSet {V} k (v : V) m : mapGet k (mapSet k v m) = Some v.
Proof.
  induction m as [|[k' v'] m IH]; simpl.
  - now rewrite String.eqb_refl.
  - destruct (String.eqb k' k) eqn:E; simpl.
    + now rewrite String.eqb_refl.
    + now rewrite E.
Qed.

Lemma mapSet_mapSet {V} k (v w : V) m :
  mapSet k v (mapSet k w m) = mapSet k v m.
Proof.
  induction m as [|[k' v'] m IH]; simpl.
  - now rewrite String.eqb_refl.
  - destruct (String.eqb k' k) eqn:E; simpl.
    + now rewrite String.eqb_refl.
    + now rewrite E, IH.
Qed.

Lemma safe_getConnection port : safe (getConnection port).
Proof.
  intros env st Hi. unfold getConnection, bind, now, getState, modify, ret.
  simpl. unfold connGet.
  destruct (mapGet port (activeConnections st)) as [c|] eqn:E.
  - pose proof (forallb_mapGet _ _ _ _ Hi E) as Hc. simpl in Hc.
    destruct ((_ <? _)%Z && isHealthy c); simpl; (split; [|discriminate]);
      unfold idle, connSet; simpl; apply forallb_mapSet; auto.
  - simpl. split; [|discriminate].
    unfold idle, connSet; simpl; apply forallb_mapSet; auto.
Qed.

Lemma safe_updateConn port (f : Conn -> Conn) :
  (forall c, operationInProgress c = false -> operationInProgress (f c) = false) ->
  safe (updateConn port f).
Proof.
  intros Hf env st Hi. unfold updateConn, bind, getState, modify, ret.
  simpl. unfold connGet.
  destruct (mapGet port (activeConnections st)) as [c|] eqn:E; simpl.
  - split; [|discriminate].
    pose proof (forallb_mapGet _ _ _ _ Hi E) as Hc. simpl in Hc.
    unfold idle, connSet; simpl. apply forallb_mapSet; auto. simpl.
    rewrite Hf; auto. now apply negb_true_iff in Hc.
  - split; [exact Hi | discriminate].
Qed.

Lemma safe_markUnhealthy port : safe (markUnhealthy port).
Proof. apply safe_updateConn. auto. Qed.

Lemma safe_markOperationCompleted port : safe (markOperationCompleted port).
Proof. apply safe_updateConn. auto. Qed.

Lemma safe_markHealthy port : safe (markHealthy port).
Proof.
  unfold markHealthy. apply safe_bind; [apply safe_now|].
  intros t. apply safe_updateConn. auto.
Qed.

(** [markHealthy] clears the flag that [markOperationStarted] has just
    set: the pair leaves an idle state idle. *)
Lemma safe_started_healthy port :
  safe (markOperationStarted port ;;; markHealthy port).
Proof.
  intros env st Hi.
  unfold markOperationStarted, markHealthy, updateConn, bind, getState,
    modify, ret, now. simpl. unfold connGet.
  destruct (mapGet port (activeConnections st)) as [c|] eqn:E; simpl.
  - unfold connSet. rewrite mapGet_mapSet. simpl.
    split; [|discriminate]. unfold idle. simpl.
    rewrite mapSet_mapSet. apply forallb_mapSet; auto.
  - rewrite E. simpl. split; [exact Hi | discriminate].
Qed.

Lemma busy_idle port env st :
  idle st = true ->
  isOperationInProgress port env st = (st, Resolve false).
Proof.
  intros Hi. unfold isOperationInProgress, bind, getState, ret. simpl.
  unfold connGet.
  destruct (mapGet port (activeConnections st)) as [c|] eqn:E; auto.
  pose proof (forallb_mapGet _ _ _ _ Hi E) as Hc. simpl in Hc.
  apply negb_true_iff in Hc. now rewrite Hc.
Qed.


(** ** The subprocess runner *)


(** Structural decomposition of a goal [keeps R m] or [safe m]. *)
Ltac frame1 :=
  lazymatch goal with
  | |- Threaded _ => typeclasses eauto
  | |- keeps _ (ret _) => apply keeps_ret
  | |- keeps _ (throw _) => apply keeps_throw
  | |- keeps _ never => apply keeps_never
  | |- keeps _ getState => apply keeps_getState
  | |- keeps _ getEnv => apply keeps_getEnv
  | |- keeps _ now => apply keeps_now
  | |- keeps _ (bind _ _) => refine (keeps_bind _ _ _ _ (fun _ => _))
  | |- keeps _ (tryCatch _ _) => refine (keeps_tryCatch _ _ _ _ (fun _ => _))
  | |- keeps _ (if ?b then _ else _) => destruct b
  | |- keeps _ (match ?x with _ => _ end) => destruct x
  | |- safe (ret _) => apply safe_ret
  | |- safe (throw _) => apply safe_throw
  | |- safe getState => apply safe_getState
  | |- safe getEnv => apply safe_getEnv
  | |- safe now => apply safe_now
  | |- safe (bind _ _) => apply safe_bind; [| intros ?]
  | |- safe (tryCatch _ _) => apply safe_tryCatch; [| intros ?]
  | |- safe (if ?b then _ else _) => destruct b
  | |- safe (match ?x with _ => _ end) => destruct x
  end.

Ltac frame := repeat frame1.

Lemma quiet_withConnections m st : quiet st (withConnections m st).
Proof. split; [reflexivity | now split]. Qed.

Lemma quiet_withPathCache c st : quiet st (withPathCache c st).
Proof. split; [reflexivity | now split]. Qed.

Lemma quiet_getConnection port : keeps quiet (getConnection port).
Proof.
  unfold getConnection. frame; apply keeps_modify; intros;
    apply quiet_withConnections.
Qed.

Lemma quiet_updateConn port f : keeps quiet (updateConn port f).
Proof.
  unfold updateConn. frame. apply keeps_modify; intros.
  apply quiet_withConnections.
Qed.

Lemma quiet_markUnhealthy port : keeps quiet (markUnhealthy port).
Proof. apply quiet_updateConn. Qed.

Lemma quiet_markHealthy port : keeps quiet (markHealthy port).
Proof. unfold markHealthy. frame. apply quiet_updateConn. Qed.

Lemma quiet_markOperationStarted port : keeps quiet (markOperationStarted port).
Proof. apply quiet_updateConn. Qed.

Lemma quiet_markOperationCompleted port :
  keeps quiet (markOperationCompleted port).
Proof. apply quiet_updateConn. Qed.

Lemma quiet_isOperationInProgress port :
  keeps quiet (isOperationInProgress port).
Proof. unfold isOperationInProgress. frame. Qed.

(** What one call of the runner adds to the history: probes for the
    tool, runs of the tool with the given argument vector, waits. *)
Definition runnerEvent (args : list string) (e : Event) : Prop :=
  match e with
  | EvProbe _ _ => True
  | EvSleep _ => True
  | EvExec a _ => a = args
  | _ => False
  end.

Lemma runner_sleep args ms : keeps (extends (runnerEvent args)) (sleep ms).
Proof. apply keeps_log. exact I. Qed.

Lemma runner_exec args : keeps (extends (runnerEvent args)) (exec args).
Proof. apply keeps_exec. reflexivity. Qed.

Lemma sameCache_sleep ms : keeps sameCache (sleep ms).
Proof. apply sameCache_log. Qed.

Lemma safe_sleep ms : safe (sleep ms).
Proof. apply safe_log. Qed.


Create HintDb frames.

#[global] Hint Resolve
  quiet_getConnection quiet_updateConn quiet_markUnhealthy quiet_markHealthy
  quiet_markOperationStarted quiet_markOperationCompleted
  quiet_isOperationInProgress
  runner_sleep runner_exec sameCache_sleep sameCache_exec sameCache_log
  sameCache_access
  safe_getConnection safe_markUnhealthy safe_markHealthy
  safe_markOperationCompleted safe_sleep safe_exec safe_log safe_access
  : frames.

(** Leaves of the decomposition: a known frame, possibly through
    [quiet]. *)
Ltac leaf :=
  solve
    [ auto with frames
    | eapply keeps_weaken; [apply quiet_extends | auto with frames]
    | eapply keeps_weaken; [apply quiet_sameCache | auto with frames] ].

Ltac frames := frame; try leaf.

Lemma runner_executeCommand fuel args maxRetries attempt :
  keeps (extends (runnerEvent args))
    (executeCommand fuel args maxRetries attempt).
Proof.
  revert attempt. induction fuel as [|fuel IH]; intros attempt;
    cbn [executeCommand].
  - frames.
  - frames; try apply IH.
Qed.

Lemma sameCache_executeCommand fuel args maxRetries attempt :
  keeps sameCache (executeCommand fuel args maxRetries attempt).
Proof.
  revert attempt. induction fuel as [|fuel IH]; intros attempt;
    cbn [executeCommand].
  - frames.
  - frames; try apply IH.
Qed.

(** [safe] with a promise about the value. *)
Lemma safe_bind_value {A B} (P : A -> Prop) (m : M A) (k : A -> M B) :
  (forall env st, idle st = true ->
     idle (fst (m env st)) = true
     /\ match snd (m env st) with
        | Resolve a => P a
        | Reject _ => True
        | Pending => False
        end) ->
  (forall a, P a -> safe (k a)) -> safe (bind m k).
Proof.
  intros Hm Hk env st Hi. unfold bind.
  destruct (Hm env st Hi) as [H1 H2].
  destruct (m env st) as [st' [a|e|]]; simpl in *.
  - now apply Hk.
  - split; [exact H1 | discriminate].
  - contradiction.
Qed.

(** With enough fuel for the retries that the test allows, the runner
    settles from an idle state: the wait for a busy port is never
    entered. *)
Lemma safe_executeCommand fuel args maxRetries attempt :
  0 < fuel -> maxRetries < fuel + attempt ->
  safe (executeCommand fuel args maxRetries attempt).
Proof.
  revert attempt. induction fuel as [|fuel IH]; intros attempt Hpos Hf.
  - lia.
  - cbn [executeCommand]. apply (safe_bind_value (fun b => b = false)).
    + intros env st Hi. destruct (hasPort args).
      * rewrite busy_idle by assumption. now split.
      * now split.
    + intros busy ->. apply safe_bind.
      * destruct (hasPort args); [|apply safe_ret].
        apply safe_bind; [apply safe_getConnection|].
        intros _. apply safe_started_healthy.
      * intros _. apply safe_bind; [apply safe_exec|].
        intros [out err|message err].
        -- frames.
        -- apply safe_bind; [frames|]. intros _.
           apply safe_bind; [frames|]. intros _.
           destruct (Nat.leb (S attempt) maxRetries) eqn:E; cbn [andb].
           ++ destruct (transientError _); [|apply safe_throw].
              apply safe_bind; [apply safe_sleep|]. intros _.
              apply Nat.leb_le in E. apply IH; lia.
           ++ apply safe_throw.
Qed.

Lemma safe_findCandidate candidates : safe (findCandidate candidates).
Proof.
  induction candidates as [|c rest IH]; simpl.
  - apply safe_throw.
  - apply safe_bind.
    + intros env st Hi. split; [exact Hi | discriminate].
    + intros found. destruct found; [|exact IH].
      apply safe_bind; [|intros; apply safe_ret].
      apply safe_modify. auto.
Qed.

Lemma safe_getMpremotePath : safe getMpremotePath.
Proof.
  unfold getMpremotePath. frames; apply safe_findCandidate.
Qed.

Lemma safe_runMpremote args retry : safe (runMpremote args retry).
Proof.
  unfold runMpremote. apply safe_bind; [apply safe_getMpremotePath|].
  intros _. apply safe_executeCommand; lia.
Qed.

Lemma quiet_probe_event phi candidate :
  (forall b, phi (EvProbe candidate b)) ->
  keeps (extends phi)
    (fun (env : Env) (st : St) =>
       (withHistory (history st ++ [EvProbe candidate (probe env (history st) candidate)]) st,
        Resolve (probe env (history st) candidate))).
Proof.
  intros H env st. eexists [_]. split; [reflexivity | now constructor].
Qed.

Lemma runner_findCandidate args candidates :
  keeps (extends (runnerEvent args)) (findCandidate candidates).
Proof.
  induction candidates as [|c rest IH]; simpl.
  - frames.
  - apply keeps_bind; [typeclasses eauto | |].
    + apply quiet_probe_event. intros; exact I.
    + intros found. destruct found; [|exact IH].
      frames. apply keeps_modify. intros st. apply quiet_extends.
      apply quiet_withPathCache.
Qed.

Lemma sameCache_findCandidate candidates :
  keeps sameCache (findCandidate candidates).
Proof.
  induction candidates as [|c rest IH]; simpl.
  - frames.
  - apply keeps_bind; [typeclasses eauto | |].
    + intros env st. now split.
    + intros found. destruct found; [|exact IH].
      frames. apply keeps_modify. intros st. now split.
Qed.

Lemma runner_runMpremote args retry :
  keeps (extends (runnerEvent args)) (runMpremote args retry).
Proof.
  unfold runMpremote, getMpremotePath.
  frames; first [apply runner_findCandidate | apply runner_executeCommand].
Qed.

Lemma sameCache_runMpremote args retry :
  keeps sameCache (runMpremote args retry).
Proof.
  unfold runMpremote, getMpremotePath.
  frames; first [apply sameCache_findCandidate | apply sameCache_executeCommand].
Qed.

#[global] Hint Resolve safe_runMpremote sameCache_runMpremote : frames.

(** ** The port guard *)

(** The operations that test the port reject at once when none is
    selected: the state, and with it the history, is untouched. *)
Lemma guarded_operations_fail_fast (env : Env) (st : St) :
  noConcretePort (configuredConnect env) = true ->
  (forall p, mkdir p env st = (st, Reject noPortMessage))
  /\ (forall d l, cpFromDevice d l env st = (st, Reject noPortMessage))
  /\ (forall l d, cpToDevice l d env st = (st, Reject noPortMessage))
  /\ (forall l d, uploadReplacing l d env st = (st, Reject noPortMessage))
  /\ (forall p, deleteFile p env st = (st, Reject noPortMessage))
  /\ (forall fuel p, deleteAny fuel p env st = (st, Reject noPortMessage))
  /\ (forall p, fileExists p env st = (st, Reject noPortMessage))
  /\ (forall p, getFileInfo p env st = (st, Reject noPortMessage))
  /\ (forall root, listTreeStats root env st = (st, Reject noPortMessage))
  /\ (forall s d, mvOnDevice s d env st = (st, Reject noPortMessage)).
Proof.
  intros H.
  repeat split; intros;
    [ unfold mkdir | unfold cpFromDevice | unfold cpToDevice
    | unfold uploadReplacing | unfold deleteFile | unfold deleteAny
    | unfold fileExists | unfold getFileInfo | unfold listTreeStats
    | unfold mvOnDevice ];
    unfold bind at 1, getEnv; cbv beta iota zeta; rewrite H; reflexivity.
Qed.

(** C8.  With the port setting ["auto"] the directory listing does not
    reject: it runs the tool with the port ["auto"] and resolves to
    what the tool listed. *)
Theorem lsTyped_auto_runs_the_tool :
  let r := lsTyped "/" autoBoard initialState in
  noConcretePort (configuredConnect autoBoard) = true
  /\ snd r = Resolve [{| e_name := "lib"; e_isDir := true |};
                      {| e_name := "main.py"; e_isDir := false |}]
  /\ runsOf (history (fst r)) = [["connect"; "auto"; "fs"; "tree"]].
Proof. vm_compute. repeat split; reflexivity. Qed.

(** ** [fileExists] *)

(** Without a selected port [fileExists] throws. *)
Lemma fileExists_throws_without_port :
  fileExists "/main.py" autoBoard initialState
  = (initialState, Reject noPortMessage).
Proof. reflexivity. Qed.

(** C10 (amended).  With a port selected, [fileExists] never throws:
    it resolves to [true] when the stat run resolves, and to [false]
    when the stat run is rejected, whatever the message. *)
Theorem fileExists_resolves_with_port (p : string) (env : Env) (st : St) :
  noConcretePort (configuredConnect env) = false ->
  idle st = true ->
  let stat := runMpremote ["connect"; configuredConnect env; "fs"; "stat";
                           pathArgOf p] true env st in
  exists b,
    fileExists p env st = (fst stat, Resolve b)
    /\ (b = true <-> exists out, snd stat = Resolve out)
    /\ (b = false <-> exists message, snd stat = Reject message).
Proof.
  intros Hport Hi stat.
  destruct (safe_runMpremote
              ["connect"; configuredConnect env; "fs"; "stat"; pathArgOf p]
              true env st Hi) as [_ Hsettled].
  fold stat in Hsettled.
  unfold fileExists. unfold bind at 1, getEnv. cbv beta iota zeta.
  rewrite Hport. unfold tryCatch, bind. fold stat.
  destruct stat as [st' [out|message|]]; cbn [fst snd] in *.
  - exists true. split; [reflexivity|]. split; split; intros; eauto.
    + discriminate.
    + destruct H as [m Hm]. discriminate.
  - exists false. split.
    + destruct (notFoundError _); [reflexivity|].
      destruct (_ || _); reflexivity.
    + split; split; intros; eauto.
      * discriminate.
      * destruct H as [o Ho]. discriminate.
  - congruence.
Qed.

Lemma fileExists_resolves_with_port_witness :
  exists st', fileExists "/boot.py" deadBoard initialState
              = (st', Resolve false).
Proof.
  destruct (fileExists_resolves_with_port "/boot.py" deadBoard initialState
              eq_refl eq_refl) as (b & Hrun & _ & Hfalse).
  eexists. rewrite Hrun. f_equal. f_equal.
  apply Hfalse. eexists. vm_compute. reflexivity.
Defined.

(** ** Cache invalidation *)

(** [ensures P m Q]: from a state with [P], a run of [m] that resolves
    to [a] ends in a state with [Q a]. *)
Definition ensures {A : Type} (P : St -> Prop) (m : M A)
    (Q : A -> St -> Prop) : Prop :=
  forall env st, P st ->
    match m env st with
    | (st', Resolve a) => Q a st'
    | _ => True
    end.

Definition anyState (_ : St) : Prop := True.

(** The tree cache is empty. *)
Definition cleared (st : St) : Prop := globalFileTreeCache st = None.

Lemma ensures_ret {A} (P : St -> Prop) (a : A) (Q : A -> St -> Prop) :
  (forall st, P st -> Q a st) -> ensures P (ret a) Q.
Proof. intros H env st HP. now apply H. Qed.

Lemma ensures_throw {A} P e (Q : A -> St -> Prop) : ensures P (throw e) Q.
Proof. intros env st HP. exact I. Qed.

Lemma ensures_bind {A B} P (m : M A) (k : A -> M B) Q1 Q :
  ensures P m Q1 -> (forall a, ensures (Q1 a) (k a) Q) ->
  ensures P (bind m k) Q.
Proof.
  intros Hm Hk env st HP. unfold bind. specialize (Hm env st HP).
  destruct (m env st) as [st' [a|e|]]; auto. now apply Hk.
Qed.

Lemma ensures_tryCatch {A} P (m : M A) (h : string -> M A) Q :
  ensures P m Q -> (forall e, ensures anyState (h e) Q) ->
  ensures P (tryCatch m h) Q.
Proof.
  intros Hm Hh env st HP. unfold tryCatch. specialize (Hm env st HP).
  destruct (m env st) as [st' [a|e|]]; auto. now apply Hh.
Qed.

Lemma ensures_any {A} P (m : M A) : ensures P m (fun _ _ => True).
Proof. intros env st HP. destruct (m env st) as [st' [a|e|]]; exact I. Qed.

Lemma ensures_pre {A} (P P' : St -> Prop) (m : M A) Q :
  (forall st, P' st -> P st) -> ensures P m Q -> ensures P' m Q.
Proof. intros H Hm env st HP. apply Hm. now apply H. Qed.

Lemma ensures_clear : ensures anyState clearFileTreeCache (fun _ => cleared).
Proof. intros env st _. reflexivity. Qed.

(** After [m], which may do anything, [k] clears the cache. *)
Lemma ensures_then {A B} P (m : M A) (k : A -> M B) Q :
  (forall a, ensures anyState (k a) Q) -> ensures P (bind m k) Q.
Proof.
  intros Hk. eapply ensures_bind; [apply ensures_any|].
  intros a. eapply ensures_pre; [|apply Hk]. intros; exact I.
Qed.

(** The recovery blocks of the upload functions resolve to [true] only
    after clearing the cache. *)
Lemma ensures_recover_then (recover : M bool) (rest : M unit) :
  ensures anyState recover (fun b st => b = true -> cleared st) ->
  ensures anyState rest (fun _ => cleared) ->
  ensures anyState
    (recovered <- recover ;; if recovered then ret tt else rest)
    (fun _ => cleared).
Proof.
  intros Hr Hrest. eapply ensures_bind; [exact Hr|].
  intros [|].
  - apply ensures_ret. auto.
  - eapply ensures_pre; [|exact Hrest]. intros; exact I.
Qed.

Lemma ensures_copy_retry (m : M Output) :
  ensures anyState
    (ok <- resolved m ;; if ok then clearFileTreeCache ;;; ret true else ret false)
    (fun b st => b = true -> cleared st).
Proof.
  apply ensures_then. intros [|].
  - eapply ensures_bind; [apply ensures_clear|].
    intros ?. apply ensures_ret. auto.
  - apply ensures_ret. discriminate.
Qed.

Lemma mkdir_clears p : ensures anyState (mkdir p) (fun _ => cleared).
Proof.
  unfold mkdir. apply ensures_then. intros env.
  destruct (noConcretePort _); [apply ensures_throw|].
  apply ensures_then. intros ?. apply ensures_tryCatch.
  - apply ensures_then. intros ?. apply ensures_clear.
  - intros e. apply ensures_then. intros ?. apply ensures_throw.
Qed.

Lemma uploadReplacing_clears l d :
  ensures anyState (uploadReplacing l d) (fun _ => cleared).
Proof.
  unfold uploadReplacing. apply ensures_then. intros env.
  destruct (noConcretePort _); [apply ensures_throw|].
  apply ensures_then. intros ?. cbv zeta. apply ensures_tryCatch.
  - apply ensures_then. intros ?. apply ensures_then. intros ?.
    apply ensures_clear.
  - intros e. apply ensures_then. intros ?. apply ensures_recover_then.
    + destruct (missingPathError _).
      * apply ensures_then. intros ?. apply ensures_copy_retry.
      * apply ensures_ret. discriminate.
    + apply ensures_then. intros ?. apply ensures_throw.
Qed.

Lemma cpToDevice_clears l d :
  ensures anyState (cpToDevice l d) (fun _ => cleared).
Proof.
  unfold cpToDevice. apply ensures_then. intros env.
  destruct (noConcretePort _); [apply ensures_throw|].
  apply ensures_then. intros ?. cbv zeta. apply ensures_tryCatch.
  - apply ensures_then. intros ?. apply ensures_then. intros ?.
    apply ensures_clear.
  - intros e. apply ensures_then. intros ?. apply ensures_recover_then.
    + destruct (missingPathError _).
      * apply ensures_then. intros ?. apply ensures_copy_retry.
      * apply ensures_ret. discriminate.
    + apply ensures_recover_then.
      * destruct (includes "read-only file system" _);
          [|apply ensures_ret; discriminate].
        apply ensures_then. intros ?. apply ensures_then. intros [|].
        -- eapply ensures_bind; [apply ensures_clear|].
           intros ?. apply ensures_ret. auto.
        -- apply ensures_then. intros [|].
           ++ eapply ensures_bind; [apply ensures_clear|].
              intros ?. apply ensures_ret. auto.
           ++ apply ensures_then. intros ?. apply ensures_ret. discriminate.
      * apply ensures_then. intros ?. apply ensures_throw.
Qed.

Lemma deleteAny_clears fuel p :
  ensures anyState (deleteAny fuel p) (fun _ => cleared).
Proof.
  unfold deleteAny. apply ensures_then. intros env.
  destruct (noConcretePort _); [apply ensures_throw|].
  apply ensures_then. intros ?. apply ensures_tryCatch.
  - apply ensures_then. intros fi. apply ensures_then. intros ?.
    apply ensures_clear.
  - intros e. cbv zeta. destruct (dirNotEmptyError _).
    + apply ensures_tryCatch.
      * apply ensures_then. intros ?. apply ensures_clear.
      * intros e'. apply ensures_then. intros ?. apply ensures_throw.
    + apply ensures_then. intros ?. apply ensures_throw.
Qed.

Lemma mvOnDevice_clears s d :
  ensures anyState (mvOnDevice s d) (fun _ => cleared).
Proof.
  unfold mvOnDevice. apply ensures_then. intros env.
  destruct (noConcretePort _); [apply ensures_throw|].
  cbv zeta. apply ensures_tryCatch.
  - apply ensures_then. intros ?. apply ensures_clear.
  - intros e. apply ensures_throw.
Qed.

(** The mutating operations other than [deleteFile] leave an empty
    tree cache whenever they resolve. *)
Lemma mutations_clear_cache (env : Env) (st : St) :
  (forall p st', mkdir p env st = (st', Resolve tt) -> cleared st')
  /\ (forall l d st', cpToDevice l d env st = (st', Resolve tt) -> cleared st')
  /\ (forall l d st', uploadReplacing l d env st = (st', Resolve tt) -> cleared st')
  /\ (forall fuel p st', deleteAny fuel p env st = (st', Resolve tt) -> cleared st')
  /\ (forall s d st', mvOnDevice s d env st = (st', Resolve tt) -> cleared st').
Proof.
  repeat split; intros.
  - pose proof (mkdir_clears p env st I) as E. now rewrite H in E.
  - pose proof (cpToDevice_clears l d env st I) as E. now rewrite H in E.
  - pose proof (uploadReplacing_clears l d env st I) as E. now rewrite H in E.
  - pose proof (deleteAny_clears fuel p env st I) as E. now rewrite H in E.
  - pose proof (mvOnDevice_clears s d env st I) as E. now rewrite H in E.
Qed.

(** C5.  [deleteFile] removes a file from the board and resolves, and
    the tree cache still holds the tree that lists the file. *)
Theorem deleteFile_keeps_the_cached_tree :
  let r := deleteFile "/main.py" obligingBoard staleCache in
  snd r = Resolve tt
  /\ runsOf (history (fst r))
     = [["connect"; "/dev/ttyUSB0"; "exec"; "import os; os.remove('/main.py')"]]
  /\ globalFileTreeCache (fst r) = globalFileTreeCache staleCache
  /\ getEntriesFromCache (globalFileTreeCache (fst r)) "/"
     = Some [{| e_name := "main.py"; e_isDir := false |}].
Proof. vm_compute. repeat split; reflexivity. Qed.

(** ** The copy command of the uploads *)

Lemma runner_shape (phi : Event -> Prop) args retry :
  (forall r, phi (EvExec args r)) ->
  (forall c b, phi (EvProbe c b)) ->
  (forall ms, phi (EvSleep ms)) ->
  keeps (extends phi) (runMpremote args retry).
Proof.
  intros He Hp Hs. eapply keeps_weaken; [|apply runner_runMpremote].
  intros a b. apply extends_weaken. intros [] Hr; simpl in Hr; subst; auto;
    contradiction.
Qed.

Lemma shape_clear phi : keeps (extends phi) clearFileTreeCache.
Proof.
  apply keeps_modify. intros st. exists []. split; [|constructor].
  simpl. now rewrite app_nil_r.
Qed.

Lemma shape_attempt {A} phi (m : M A) :
  keeps (extends phi) m -> keeps (extends phi) (attempt m).
Proof. intros H. unfold attempt. frames. Qed.

Lemma shape_resolved {A} phi (m : M A) :
  keeps (extends phi) m -> keeps (extends phi) (resolved m).
Proof. intros H. unfold resolved. frames. Qed.

(** A command that is not a copy fits every copy shape. *)
Lemma shape_other expected args retry :
  isCopy args = false ->
  keeps (extends (copyShape expected)) (runMpremote args retry).
Proof.
  intros H. apply runner_shape; simpl; auto. intros _ Hc. congruence.
Qed.

Lemma shape_same expected retry :
  keeps (extends (copyShape expected)) (runMpremote expected retry).
Proof. apply runner_shape; simpl; auto. Qed.

Lemma shape_mkdirLevels expected connect done todo :
  keeps (extends (copyShape expected)) (mkdirLevels connect done todo).
Proof.
  revert done. induction todo as [|part rest IH]; intros done.
  - simpl. frames.
  - destruct rest as [|next rest].
    + simpl. frames.
    + change (mkdirLevels connect done (part :: next :: rest))
        with (attempt (runMpremote ["connect"; connect; "fs"; "mkdir";
                                    "/" +++ String.concat "/" (done ++ [part])]
                         false) ;;;
              mkdirLevels connect (done ++ [part]) (next :: rest)).
      frames; try apply IH.
      apply shape_attempt, shape_other. reflexivity.
Qed.

Lemma shape_ensureParent expected connect deviceArg :
  keeps (extends (copyShape expected)) (ensureParent connect deviceArg).
Proof.
  unfold ensureParent. frames.
  apply shape_attempt, shape_other. reflexivity.
Qed.

(** Turns a goal about one run into a goal [keeps R m]. *)
Ltac as_keeps :=
  match goal with
  | |- ?R ?st (fst (?m ?env ?st)) => refine ((_ : keeps R m) env st)
  end.

(** Reads the environment at the head of an operation. *)
Ltac enter op :=
  unfold op; unfold bind at 1, getEnv; cbv beta iota zeta.

Ltac enter_in op E :=
  unfold op in E; unfold bind at 1, getEnv in E; cbv beta iota zeta in E.

#[global] Hint Resolve shape_clear shape_ensureParent shape_mkdirLevels
  shape_same : frames.


(** Every copy that [cpToDevice] runs is the plain variant. *)
Lemma shape_cpToDevice l d env st :
  extends (copyShape (plainCopy (configuredConnect env) l (pathArgOf d)))
    st (fst (cpToDevice l d env st)).
Proof.
  enter cpToDevice. set (c := configuredConnect env). clearbody c.
  as_keeps. frames;
    try (apply shape_attempt, shape_other; reflexivity);
    try (apply shape_resolved; frames; try (apply shape_other; reflexivity));
    try (apply shape_resolved, shape_same).
  all: try (apply shape_same).
  all: try (apply keeps_log; exact I).
Qed.

Lemma copies_of_shape expected evs :
  Forall (copyShape expected) evs ->
  forall args, In args (copiesOf evs) -> args = expected.
Proof.
  intros HF args Hin. unfold copiesOf in Hin.
  apply filter_In in Hin as [Hin Hc]. unfold runsOf in Hin.
  apply in_flat_map in Hin as (e & He & Hin).
  rewrite Forall_forall in HF. specialize (HF e He).
  destruct e; simpl in *; try contradiction.
  destruct Hin as [<-|[]]. auto.
Qed.


(** ** The retry discipline *)

(** [steady m]: [m] always resolves, touches neither the history nor
    the tree cache, and leaves an idle state idle. *)
Definition steady {A : Type} (m : M A) : Prop :=
  forall env st, exists st' a,
    m env st = (st', Resolve a) /\ quiet st st'
    /\ (idle st = true -> idle st' = true).

Lemma steady_ret {A} (a : A) : steady (ret a).
Proof.
  intros env st. exists st, a. repeat split; auto.
Qed.

Lemma steady_bind {A B} (m : M A) (k : A -> M B) :
  steady m -> (forall a, steady (k a)) -> steady (bind m k).
Proof.
  intros Hm Hk env st. destruct (Hm env st) as (st1 & a & E & Q & I).
  destruct (Hk a env st1) as (st2 & b & E2 & Q2 & I2).
  exists st2, b. unfold bind. rewrite E, E2. repeat split; auto.
  - destruct Q, Q2. congruence.
  - destruct Q as [_ [? _]], Q2 as [_ [? _]]. congruence.
  - destruct Q as [_ [_ ?]], Q2 as [_ [_ ?]]. congruence.
Qed.

Lemma steady_modify_connections (f : St -> list (string * Conn)) :
  (forall st, idle st = true ->
     idle (withConnections (f st) st) = true) ->
  steady (fun _ st => (withConnections (f st) st, Resolve tt)).
Proof.
  intros H env st. exists (withConnections (f st) st), tt.
  repeat split; auto.
Qed.

Lemma steady_of_safe_quiet {A} (m : M A) :
  (forall env st, exists st' a, m env st = (st', Resolve a)) ->
  keeps quiet m -> safe m -> steady m.
Proof.
  intros Hr Hq Hs env st. destruct (Hr env st) as (st' & a & E).
  exists st', a. split; [exact E|]. split.
  - specialize (Hq env st). now rewrite E in Hq.
  - intros Hi. destruct (Hs env st Hi) as [H _]. now rewrite E in H.
Qed.

Lemma resolves_updateConn port f env st :
  exists st' a, updateConn port f env st = (st', Resolve a).
Proof.
  unfold updateConn, bind, getState, modify, ret.
  destruct (connGet port (activeConnections st)); eauto.
Qed.

Lemma steady_markUnhealthy port : steady (markUnhealthy port).
Proof.
  apply steady_of_safe_quiet; auto with frames.
  intros. apply resolves_updateConn.
Qed.

Lemma steady_markOperationCompleted port : steady (markOperationCompleted port).
Proof.
  apply steady_of_safe_quiet; auto with frames.
  intros. apply resolves_updateConn.
Qed.

Lemma steady_markHealthy port : steady (markHealthy port).
Proof.
  apply steady_of_safe_quiet; auto with frames.
  intros. unfold markHealthy, bind at 1, now. apply resolves_updateConn.
Qed.

Lemma steady_getConnection port : steady (getConnection port).
Proof.
  apply steady_of_safe_quiet; auto with frames.
  intros. unfold getConnection, bind, now, getState, modify, ret.
  destruct (connGet port (activeConnections st)) as [c|]; eauto.
  destruct (_ && _); eauto.
Qed.

Lemma steady_started_healthy port :
  steady (markOperationStarted port ;;; markHealthy port).
Proof.
  apply steady_of_safe_quiet.
  - intros. unfold bind at 1.
    destruct (resolves_updateConn port
                (fun c => {| lastUsed := lastUsed c; isHealthy := isHealthy c;
                             operationInProgress := true |}) env st)
      as (st1 & a & E).
    unfold markOperationStarted. rewrite E.
    unfold markHealthy, bind at 1, now. apply resolves_updateConn.
  - frames.
  - apply safe_started_healthy.
Qed.

(** One round of the runner up to the run of the tool, from an idle
    state: the port is not busy, the bookkeeping is steady. *)
Lemma steady_open_connection args :
  steady (if hasPort args then
            getConnection (if hasPort args then portOf args else "") ;;;
            markOperationStarted (if hasPort args then portOf args else "") ;;;
            markHealthy (if hasPort args then portOf args else "")
          else ret tt).
Proof.
  destruct (hasPort args); [|apply steady_ret].
  apply steady_bind; [apply steady_getConnection|].
  intros _. apply steady_started_healthy.
Qed.

Lemma steady_if {A} (b : bool) (m1 m2 : M A) :
  steady m1 -> steady m2 -> steady (if b then m1 else m2).
Proof. destruct b; auto. Qed.

(** The events and the outcome of the retry loop, from an idle state. *)
Lemma executeCommand_trace fuel args maxRetries attempt env st st' r :
  0 < fuel -> maxRetries < fuel + attempt -> idle st = true ->
  executeCommand fuel args maxRetries attempt env st = (st', r) ->
  exists evs,
    history st' = history st ++ evs
    /\ retryTrace args maxRetries attempt evs r
    /\ idle st' = true.
Proof.
  revert attempt st.
  induction fuel as [|fuel IH]; intros attempt st Hpos Hfuel Hi E; [lia|].
  cbn [executeCommand] in E. unfold bind at 1 in E.
  replace ((if hasPort args
            then isOperationInProgress (if hasPort args then portOf args else "")
            else ret false) env st) with (st, Resolve false : Res bool) in E
    by (destruct (hasPort args); [now rewrite busy_idle | reflexivity]).
  cbv iota beta in E. unfold bind at 1 in E.
  destruct (steady_open_connection args env st) as (st1 & [] & E1 & Q1 & I1).
  rewrite E1 in E. cbv iota beta in E. specialize (I1 Hi).
  destruct Q1 as [Hh1 _].
  unfold bind at 1 in E. unfold exec at 1 in E. cbv iota beta in E.
  remember (withHistory (history st1 ++ [EvExec args (tool env (history st1) args)]) st1)
    as st2 eqn:Est2.
  assert (I2 : idle st2 = true) by (subst st2; exact I1).
  assert (Hh2 : history st2
                = history st ++ [EvExec args (tool env (history st1) args)]).
  { subst st2. cbn [history withHistory]. now rewrite Hh1. }
  destruct (tool env (history st1) args) as [out err|message err].
  - (* the run succeeded *)
    unfold bind at 1 in E.
    destruct (steady_if (nonEmpty (if hasPort args then portOf args else ""))
                _ _ (steady_markHealthy (if hasPort args then portOf args else ""))
                (steady_ret tt) env st2) as (st3 & [] & E3 & Q3 & I3).
    rewrite E3 in E. cbv iota beta in E. unfold ret in E.
    inversion E; subst st' r. destruct Q3 as [Hh3 _].
    exists [EvExec args (ExecOk out err)].
    repeat split; [congruence | constructor | auto].
  - (* the run failed *)
    unfold bind at 1 in E.
    destruct (steady_if
                (nonEmpty (if hasPort args then portOf args else "")
                 && unhealthyError (toLowerCase (emsgOf message err)))
                _ _ (steady_markUnhealthy (if hasPort args then portOf args else ""))
                (steady_ret tt) env st2) as (st3 & [] & E3 & Q3 & I3).
    rewrite E3 in E. cbv iota beta in E. unfold bind at 1 in E.
    destruct (steady_if (nonEmpty (if hasPort args then portOf args else ""))
                _ _ (steady_markOperationCompleted
                       (if hasPort args then portOf args else ""))
                (steady_ret tt) env st3) as (st4 & [] & E4 & Q4 & I4).
    rewrite E4 in E. cbv iota beta in E.
    destruct Q3 as [Hh3 _], Q4 as [Hh4 _].
    assert (Hh : history st4 = history st ++ [EvExec args (ExecErr message err)])
      by congruence.
    fold (transientFailure message err) in E.
    destruct (Nat.leb (S attempt) maxRetries && transientFailure message err)
      eqn:Eretry.
    + apply andb_prop in Eretry as [Hle Htr]. apply Nat.leb_le in Hle.
      unfold bind at 1 in E. unfold sleep at 1, log at 1 in E.
      cbv iota beta in E.
      apply IH in E; [| lia | lia | exact (I4 (I3 I2))].
      destruct E as (evs & Hev & Htrace & Hidle).
      exists (EvExec args (ExecErr message err)
              :: EvSleep (500 * Z.of_nat (S attempt)) :: evs).
      repeat split; auto.
      * rewrite Hev. cbn [history withHistory]. rewrite Hh.
        now rewrite <- !app_assoc.
      * now apply retry_again.
    + unfold throw in E. inversion E; subst st' r.
      exists [EvExec args (ExecErr message err)].
      repeat split; auto.
      now apply retry_give_up.
Qed.

Lemma lastRun_app a b :
  lastRun (a ++ b) = match lastRun b with
                     | Some x => Some x
                     | None => lastRun a
                     end.
Proof.
  induction a as [|e a IH]; simpl.
  - now destruct (lastRun b).
  - rewrite IH. destruct (lastRun b); auto.
Qed.

Lemma lastRun_probes evs : Forall isProbe evs -> lastRun evs = None.
Proof.
  induction 1 as [|e evs He _ IH]; simpl; auto.
  rewrite IH. destruct e; simpl in He; auto; contradiction.
Qed.

Lemma runsOf_app a b : runsOf (a ++ b) = runsOf a ++ runsOf b.
Proof. unfold runsOf. apply flat_map_app. Qed.

Lemma waitsOf_app a b : waitsOf (a ++ b) = waitsOf a ++ waitsOf b.
Proof. unfold waitsOf. apply flat_map_app. Qed.

Lemma runsOf_probes evs : Forall isProbe evs -> runsOf evs = [].
Proof.
  induction 1 as [|e evs He _ IH]; simpl; auto.
  destruct e; simpl in *; auto; contradiction.
Qed.

Lemma waitsOf_probes evs : Forall isProbe evs -> waitsOf evs = [].
Proof.
  induction 1 as [|e evs He _ IH]; simpl; auto.
  destruct e; simpl in *; auto; contradiction.
Qed.

(** What a retry trace says in numbers: at most [maxRetries + 1] runs,
    all of the same command, one wait between two runs, the waits
    growing by 500 ms; the outcome is that of the last run. *)
Lemma retryTrace_facts args maxRetries attempt evs r :
  retryTrace args maxRetries attempt evs r ->
  attempt <= maxRetries ->
  1 <= List.length (runsOf evs)
  /\ List.length (runsOf evs) + attempt <= S maxRetries
  /\ Forall (fun a => a = args) (runsOf evs)
  /\ waitsOf evs
     = map (fun k => (500 * Z.of_nat k)%Z)
         (seq (S attempt) (List.length (runsOf evs) - 1))
  /\ match r with
     | Resolve out =>
         lastRun evs = Some (args, ExecOk (stdout out) (stderr out))
     | Reject e =>
         exists message err,
           lastRun evs = Some (args, ExecErr message err)
           /\ e = rejection message err
     | Pending => False
     end.
Proof.
  induction 1 as [attempt out err | attempt message err Hstop
                 | attempt message err evs r Hle Htr Htrace IH]; intros Hatt.
  - simpl. repeat split; auto; lia.
  - simpl. repeat split; eauto; lia.
  - destruct (IH Hle) as (H1 & H2 & H3 & H4 & H5).
    cbn [runsOf waitsOf flat_map app List.length].
    fold (runsOf evs). fold (waitsOf evs).
    repeat split.
    + lia.
    + lia.
    + constructor; auto.
    + rewrite H4. cbn [Nat.sub].
      destruct (List.length (runsOf evs)) as [|n] eqn:En; [lia|].
      cbn [Nat.sub]. rewrite Nat.sub_0_r. reflexivity.
    + cbn [lastRun].
      destruct r as [out|e|]; auto.
      * now rewrite H5.
      * destruct H5 as (m & s & Hl & He). rewrite Hl. eauto.
Qed.

Lemma findCandidate_outcome candidates env st st' r :
  findCandidate candidates env st = (st', r) ->
  (exists probes,
     history st' = history st ++ probes /\ Forall isProbe probes)
  /\ sameCache st st'
  /\ activeConnections st' = activeConnections st
  /\ (r = Reject toolNotFound \/ exists p, r = Resolve p).
Proof.
  revert st. induction candidates as [|c rest IH]; intros st E.
  - simpl in E. inversion E; subst. split; [|split; [|split]]; auto.
    + exists []. split; [now rewrite app_nil_r | constructor].
    + apply sameCache_refl.
  - cbn [findCandidate] in E. unfold bind at 1 in E.
    destruct (probe env (history st) c) eqn:Ep.
    + unfold bind, modify, ret in E. inversion E; subst.
      split; [|split; [|split]]; eauto.
      * exists [EvProbe c true]. split; [reflexivity|].
        constructor; [exact I | constructor].
      * now split.
    + apply IH in E. destruct E as ((probes & Hh & HF) & Hc & Ha & Hr).
      split; [|split; [|split]]; auto.
      exists (EvProbe c false :: probes). split.
      * rewrite Hh. cbn [history withHistory]. now rewrite <- app_assoc.
      * constructor; [exact I | exact HF].
Qed.

Lemma getMpremotePath_outcome env st st' r :
  getMpremotePath env st = (st', r) ->
  (exists probes,
     history st' = history st ++ probes /\ Forall isProbe probes)
  /\ sameCache st st'
  /\ activeConnections st' = activeConnections st
  /\ (r = Reject toolNotFound \/ exists p, r = Resolve p).
Proof.
  unfold getMpremotePath, bind at 1, getState. cbv iota beta.
  intros E.
  destruct (mpremotePathCache st) as [p|].
  - destruct (nonEmpty p).
    + unfold ret in E. inversion E; subst.
      split; [|split; [|split]]; eauto.
      * exists []. split; [now rewrite app_nil_r | constructor].
      * apply sameCache_refl.
    + unfold bind, getEnv in E. now apply findCandidate_outcome in E.
  - unfold bind, getEnv in E. now apply findCandidate_outcome in E.
Qed.

(** The runner, from an idle state: probes for the tool, then the
    retry trace of the command; without the tool, no run at all. *)
Lemma runMpremote_trace args retry env st st' r :
  idle st = true ->
  runMpremote args retry env st = (st', r) ->
  idle st' = true
  /\ exists probes evs,
       history st' = history st ++ probes ++ evs
       /\ Forall isProbe probes
       /\ ((evs = [] /\ r = Reject toolNotFound)
           \/ retryTrace args (if retry then 2 else 0) 0 evs r).
Proof.
  intros Hi E. unfold runMpremote, bind at 1 in E.
  destruct (getMpremotePath env st) as [st1 r1] eqn:E1.
  apply getMpremotePath_outcome in E1.
  destruct E1 as ((probes & Hh & HF) & Hc & Ha & Hr).
  assert (Hi1 : idle st1 = true) by (unfold idle in *; now rewrite Ha).
  destruct Hr as [-> | [p ->]].
  - inversion E; subst. split; [exact Hi1|].
    exists probes, []. rewrite app_nil_r. auto.
  - apply executeCommand_trace in E; [| lia | destruct retry; lia | exact Hi1].
    destruct E as (evs & Hev & Htrace & Hidle). split; [exact Hidle|].
    exists probes, evs. rewrite Hev, Hh, app_assoc. auto.
Qed.

(** The outcome of the runner is that of its last run. *)
Lemma runMpremote_outcome args retry env st st' r :
  idle st = true ->
  runMpremote args retry env st = (st', r) ->
  idle st' = true
  /\ exists evs,
       history st' = history st ++ evs
       /\ match r with
          | Resolve out =>
              lastRun evs = Some (args, ExecOk (stdout out) (stderr out))
          | Reject e =>
              lastRun evs = None
              \/ exists message err,
                   lastRun evs = Some (args, ExecErr message err)
                   /\ e = rejection message err
          | Pending => False
          end.
Proof.
  intros Hi E. apply runMpremote_trace in E; auto.
  destruct E as (Hidle & probes & evs & Hh & HF & Hcase).
  split; [exact Hidle|]. exists (probes ++ evs). split; [exact Hh|].
  rewrite lastRun_app.
  destruct Hcase as [[-> ->] | Htrace].
  - left. simpl. now apply lastRun_probes.
  - apply retryTrace_facts in Htrace; [|lia].
    destruct Htrace as (_ & _ & _ & _ & Hout).
    destruct r as [out|e|]; auto.
    + now rewrite Hout.
    + destruct Hout as (m & s & Hl & He). rewrite Hl. eauto.
Qed.

(** ** Listings *)

Lemma isCacheValid_resolves env st :
  exists b, isCacheValid env st = (st, Resolve b).
Proof.
  unfold isCacheValid, bind, getState, now, ret.
  destruct (globalFileTreeCache st); eauto.
Qed.

(** A run that resolves leaves a last run that did not fail. *)
Lemma resolved_run_not_failed args retry env st st' out :
  idle st = true ->
  runMpremote args retry env st = (st', Resolve out) ->
  idle st' = true
  /\ exists evs, history st' = history st ++ evs
                 /\ failedRun (lastRun evs) = false.
Proof.
  intros Hi E. apply runMpremote_outcome in E; auto.
  destruct E as (Hidle & evs & Hh & Hl). split; auto.
  exists evs. split; auto. now rewrite Hl.
Qed.

Lemma populate_resolved env st st' :
  idle st = true ->
  populateFileTreeCache env st = (st', Resolve tt) ->
  idle st' = true
  /\ exists evs, history st' = history st ++ evs
                 /\ failedRun (lastRun evs) = false.
Proof.
  intros Hi E. enter_in populateFileTreeCache E.
  unfold bind at 1 in E.
  destruct (runMpremote _ true env st) as [st1 [out|e|]] eqn:E1;
    try discriminate.
  apply resolved_run_not_failed in E1; auto.
  destruct E1 as (Hi1 & evs & Hh & Hl).
  unfold bind, log, now, modify, ret in E. inversion E; subst.
  split; [exact Hi1|].
  exists (evs ++ [EvSaveTreePaths (parseTreeLines (stdout out))]). split.
  - cbn [history withTreeCache withHistory]. now rewrite Hh, app_assoc.
  - rewrite lastRun_app. simpl. exact Hl.
Qed.

(** [listTreeStats] resolves only when its last run of the tool, if
    it made one, succeeded. *)
Lemma listTreeStats_resolved root env st st' v :
  idle st = true ->
  listTreeStats root env st = (st', Resolve v) ->
  exists evs, history st' = history st ++ evs
              /\ failedRun (lastRun evs) = false.
Proof.
  intros Hi E. enter_in listTreeStats E.
  destruct (noConcretePort _); [discriminate|].
  unfold bind at 1 in E.
  destruct (steady_getConnection (configuredConnect env) env st)
    as (st1 & b & E1 & [Hh1 _] & I1).
  rewrite E1 in E. cbv iota beta in E. specialize (I1 Hi).
  unfold tryCatch, bind at 1, getState in E. cbv iota beta in E.
  destruct (freshTreePaths env (history st1)).
  - unfold ret in E. inversion E; subst.
    exists []. split; [now rewrite app_nil_r, Hh1 | reflexivity].
  - unfold bind at 1 in E.
    destruct (runMpremote _ true env st1) as [st2 [out|e|]] eqn:E2.
    + apply resolved_run_not_failed in E2; auto.
      destruct E2 as (_ & evs & Hh & Hl).
      unfold ret in E. inversion E; subst.
      exists evs. split; [congruence | exact Hl].
    + unfold bind at 1 in E.
      destruct (steady_markUnhealthy (configuredConnect env) env st2)
        as (st3 & [] & E3 & _).
      rewrite E3 in E. discriminate.
    + discriminate.
Qed.

Lemma not_failed_app a b :
  failedRun (lastRun a) = false -> failedRun (lastRun b) = false ->
  failedRun (lastRun (a ++ b)) = false.
Proof.
  intros Ha Hb. rewrite lastRun_app. now destruct (lastRun b).
Qed.

(** [lsTyped] resolves either when its last run of the tool, if any,
    succeeded, or, with the empty list, when the last run is the plain
    listing of the fallback and failed. *)
Lemma lsTyped_resolved p env st st' v :
  idle st = true ->
  lsTyped p env st = (st', Resolve v) ->
  exists evs,
    history st' = history st ++ evs
    /\ (failedRun (lastRun evs) = false
        \/ (v = []
            /\ exists args message err,
                 lastRun evs = Some (args, ExecErr message err)
                 /\ isLs args = true)).
Proof.
  intros Hi E. enter_in lsTyped E.
  unfold bind at 1 in E.
  destruct (isCacheValid_resolves env st) as [valid Ev].
  rewrite Ev in E. cbv iota beta in E. unfold bind at 1 in E.
  assert (Hpop : exists st1 evs1,
            (if valid then ret tt else populateFileTreeCache) env st
            = (st1, Resolve tt)
            /\ idle st1 = true
            /\ history st1 = history st ++ evs1
            /\ failedRun (lastRun evs1) = false).
  { destruct valid.
    - exists st, []. repeat split; auto. now rewrite app_nil_r.
    - destruct (populateFileTreeCache env st) as [st1 [[]|e|]] eqn:Ep;
        try discriminate.
      destruct (populate_resolved _ _ _ Hi Ep) as (Hi1 & evs & Hh & Hl).
      exists st1, evs. auto. }
  destruct Hpop as (st1 & evs1 & Ep & Hi1 & Hh1 & Hl1).
  rewrite Ep in E. cbv iota beta in E.
  unfold bind at 1, getState in E. cbv iota beta in E.
  destruct (getEntriesFromCache (globalFileTreeCache st1) p) as [[|e0 r0]|].
  2: { unfold ret in E. inversion E; subst. exists evs1. auto. }
  - (* the cache has no entry: direct listing *)
    unfold bind at 1 in E.
    destruct (runMpremote _ true env st1) as [st2 [out|e|]] eqn:E2;
      try discriminate.
    apply resolved_run_not_failed in E2; auto.
    destruct E2 as (Hi2 & evs2 & Hh2 & Hl2).
    destruct (parseTreeForPath (stdout out) p) as [|e1 r1].
    + unfold tryCatch, bind at 1 in E.
      match type of E with
      | context [runMpremote ?a true env st2] =>
          destruct (runMpremote a true env st2) as [st3 [lsOut|e|]] eqn:E3;
          [| | discriminate];
          assert (Hls : isLs a = true)
            by (destruct (nonEmpty (if nonEmpty p && negb (String.eqb p "/")
                                    then p else "")); reflexivity)
      end.
      * apply resolved_run_not_failed in E3; auto.
        destruct E3 as (_ & evs3 & Hh3 & Hl3).
        unfold ret in E. inversion E; subst.
        exists (evs1 ++ evs2 ++ evs3). split.
        -- rewrite Hh3, Hh2, Hh1. now rewrite <- !app_assoc.
        -- left. repeat apply not_failed_app; auto.
      * apply runMpremote_outcome in E3; auto.
        destruct E3 as (_ & evs3 & Hh3 & Hl3).
        unfold ret in E. inversion E; subst.
        exists (evs1 ++ evs2 ++ evs3). split.
        -- rewrite Hh3, Hh2, Hh1. now rewrite <- !app_assoc.
        -- destruct Hl3 as [Hnone | (m & s & Hsome & _)].
           ++ left. repeat apply not_failed_app; auto. now rewrite Hnone.
           ++ right. rewrite !lastRun_app, Hsome. split; eauto.
    + unfold ret in E. inversion E; subst.
      exists (evs1 ++ evs2). split.
      * rewrite Hh2, Hh1. now rewrite <- app_assoc.
      * left. apply not_failed_app; auto.
  - (* the cache does not know the path: direct listing *)
    unfold bind at 1 in E.
    destruct (runMpremote _ true env st1) as [st2 [out|e|]] eqn:E2;
      try discriminate.
    apply resolved_run_not_failed in E2; auto.
    destruct E2 as (Hi2 & evs2 & Hh2 & Hl2).
    destruct (parseTreeForPath (stdout out) p) as [|e1 r1].
    + unfold tryCatch, bind at 1 in E.
      match type of E with
      | context [runMpremote ?a true env st2] =>
          destruct (runMpremote a true env st2) as [st3 [lsOut|e|]] eqn:E3;
          [| | discriminate];
          assert (Hls : isLs a = true)
            by (destruct (nonEmpty (if nonEmpty p && negb (String.eqb p "/")
                                    then p else "")); reflexivity)
      end.
      * apply resolved_run_not_failed in E3; auto.
        destruct E3 as (_ & evs3 & Hh3 & Hl3).
        unfold ret in E. inversion E; subst.
        exists (evs1 ++ evs2 ++ evs3). split.
        -- rewrite Hh3, Hh2, Hh1. now rewrite <- !app_assoc.
        -- left. repeat apply not_failed_app; auto.
      * apply runMpremote_outcome in E3; auto.
        destruct E3 as (_ & evs3 & Hh3 & Hl3).
        unfold ret in E. inversion E; subst.
        exists (evs1 ++ evs2 ++ evs3). split.
        -- rewrite Hh3, Hh2, Hh1. now rewrite <- !app_assoc.
        -- destruct Hl3 as [Hnone | (m & s & Hsome & _)].
           ++ left. repeat apply not_failed_app; auto. now rewrite Hnone.
           ++ right. rewrite !lastRun_app, Hsome. split; eauto.
    + unfold ret in E. inversion E; subst.
      exists (evs1 ++ evs2). split.
      * rewrite Hh2, Hh1. now rewrite <- app_assoc.
      * left. apply not_failed_app; auto.
Qed.

(** The claim as stated fails for the directory listing: the tree
    listing finds nothing under [/lib], the plain listing of the
    fallback fails three times with a transient error, and [lsTyped]
    resolves to the empty list. *)
Lemma lsTyped_swallows_failed_listing :
  let r := lsTyped "/lib" flakyBoard initialState in
  snd r = Resolve []
  /\ map commandOf (runsOf (history (fst r)))
     = [["fs"; "tree"]; ["fs"; "tree"];
        ["fs"; "ls"; "/lib"]; ["fs"; "ls"; "/lib"]; ["fs"; "ls"; "/lib"]]
  /\ waitsOf (history (fst r)) = [500%Z; 1000%Z]
  /\ failedRun (lastRun (history (fst r))) = true.
Proof. vm_compute. repeat split; reflexivity. Qed.

(** The tree command of [listTreeStats]. *)
Definition treeStatsCommand (connect root : string) : list string :=
  ["connect"; connect; "fs"; "tree"]
  ++ (if nonEmpty (if nonEmpty root && negb (String.eqb root "/")
                   then root else "")
      then [if nonEmpty root && negb (String.eqb root "/") then root else ""]
      else []).

(** What [listTreeStats] makes of the output of the tree command. *)
Definition treeStatsOf (out : Output) : list TreeStat :=
  flat_map treeStatOfLine
    (filter (fun line => nonEmpty (trim line)) (splitLines (stdout out))).

(** [listTreeStats], when it lists from the board, ends as the run of
    the tree command ends: a rejection of the run is the rejection of
    the listing. *)
Lemma listTreeStats_follows_the_run root env st :
  idle st = true ->
  noConcretePort (configuredConnect env) = false ->
  freshTreePaths env (history st) = None ->
  let connect := configuredConnect env in
  let run := runMpremote (treeStatsCommand connect root) true env
               (fst (getConnection connect env st)) in
  history (fst (listTreeStats root env st)) = history (fst run)
  /\ (forall e, snd run = Reject e ->
        snd (listTreeStats root env st) = Reject e)
  /\ (forall out, snd run = Resolve out ->
        snd (listTreeStats root env st) = Resolve (treeStatsOf out)).
Proof.
  intros Hi Hport Hfresh. cbv zeta.
  remember (listTreeStats root env st) as res eqn:Eres.
  enter_in listTreeStats Eres. set (connect := configuredConnect env) in *.
  set (run := runMpremote (treeStatsCommand connect root) true env
                (fst (getConnection connect env st))).
  rewrite Hport in Eres. unfold bind at 1 in Eres.
  destruct (steady_getConnection connect env st)
    as (st1 & b & E1 & [Hh1 _] & I1).
  assert (Erun : run = runMpremote (treeStatsCommand connect root) true env st1)
    by (unfold run; now rewrite E1).
  rewrite E1 in Eres. cbv iota beta in Eres.
  unfold tryCatch, bind at 1, getState in Eres. cbv iota beta in Eres.
  rewrite Hh1, Hfresh in Eres. unfold bind at 1 in Eres.
  fold (treeStatsCommand connect root) in Eres. rewrite <- Erun in Eres.
  destruct run as [st2 [out|e|]] eqn:Er; cbn [fst snd].
  - unfold ret in Eres. subst res. cbn [fst snd].
    split; [reflexivity|]. split; [discriminate|].
    intros out' H. inversion H; subst. reflexivity.
  - unfold bind at 1 in Eres.
    destruct (steady_markUnhealthy connect env st2)
      as (st3 & [] & E3 & [Hh3 _] & _).
    rewrite E3 in Eres. unfold throw in Eres. subst res. cbn [fst snd].
    split; [exact Hh3|].
    split; [|discriminate]. intros e' H. inversion H; subst. reflexivity.
  - exfalso. specialize (I1 Hi).
    destruct (safe_runMpremote (treeStatsCommand connect root) true env st1 I1)
      as [_ Hn].
    rewrite <- Erun in Hn. exact (Hn eq_refl).
Qed.

(** The tree command of [lsTyped] and of its cache. *)
Definition treeCommand (connect : string) : list string :=
  ["connect"; connect; "fs"; "tree"].

(** The command of the fallback of [lsTyped]. *)
Definition lsCommand (connect p : string) : list string :=
  ["connect"; connect; "fs"; "ls"]
  ++ (if nonEmpty (if nonEmpty p && negb (String.eqb p "/") then p else "")
      then [if nonEmpty p && negb (String.eqb p "/") then p else ""]
      else []).

(** The cache has nothing to list for the path. *)
Definition noEntries (cached : option (list Entry)) : Prop :=
  cached = None \/ cached = Some [].

(** Filling the cache fails as the run of the tree command fails. *)
Lemma populate_follows_the_run env st e :
  snd (runMpremote (treeCommand (configuredConnect env)) true env st)
  = Reject e ->
  populateFileTreeCache env st
  = (fst (runMpremote (treeCommand (configuredConnect env)) true env st),
     Reject e).
Proof.
  intros H. enter populateFileTreeCache. unfold bind at 1.
  fold (treeCommand (configuredConnect env)).
  destruct (runMpremote (treeCommand (configuredConnect env)) true env st)
    as [st1 [out|e'|]]; cbn [fst snd] in *; try discriminate.
  now inversion H.
Qed.

(** [lsTyped] by cases: a failure to fill the cache and a failure of
    the direct tree listing are rejections of [lsTyped]; a failure of
    the plain listing of the fallback is dropped. *)
Lemma lsTyped_follows_the_runs p env st valid :
  isCacheValid env st = (st, Resolve valid) ->
  let connect := configuredConnect env in
  let pre := (if valid then ret tt else populateFileTreeCache) env st in
  (forall e, snd pre = Reject e -> lsTyped p env st = (fst pre, Reject e))
  /\ (snd pre = Resolve tt ->
      noEntries (getEntriesFromCache (globalFileTreeCache (fst pre)) p) ->
      let run := runMpremote (treeCommand connect) true env (fst pre) in
      (forall e, snd run = Reject e -> lsTyped p env st = (fst run, Reject e))
      /\ (forall out,
            snd run = Resolve out -> parseTreeForPath (stdout out) p = [] ->
            let fallback :=
              runMpremote (lsCommand connect p) true env (fst run) in
            forall e, snd fallback = Reject e ->
              lsTyped p env st = (fst fallback, Resolve []))).
Proof.
  intros Ev. cbv zeta.
  set (connect := configuredConnect env).
  set (pre := (if valid then ret tt else populateFileTreeCache) env st).
  assert (E : lsTyped p env st
              = match pre with
                | (st1, Resolve _) =>
                    match getEntriesFromCache (globalFileTreeCache st1) p with
                    | Some (e :: r) => (st1, Resolve (e :: r))
                    | _ =>
                        match runMpremote (treeCommand connect) true env st1 with
                        | (st2, Resolve out) =>
                            match parseTreeForPath (stdout out) p with
                            | [] =>
                                match runMpremote (lsCommand connect p) true
                                        env st2 with
                                | (st3, Resolve lsOut) =>
                                    (st3, Resolve (parseLsOutput (stdout lsOut)))
                                | (st3, Reject _) => (st3, Resolve [])
                                | (st3, Pending) => (st3, Pending)
                                end
                            | e :: r => (st2, Resolve (e :: r))
                            end
                        | (st2, Reject e) => (st2, Reject e)
                        | (st2, Pending) => (st2, Pending)
                        end
                    end
                | (st1, Reject e) => (st1, Reject e)
                | (st1, Pending) => (st1, Pending)
                end).
  { enter lsTyped. fold connect. unfold bind at 1. rewrite Ev.
    cbv iota beta. unfold bind at 1. fold pre.
    destruct pre as [st1 [[]|e|]]; try reflexivity.
    unfold bind at 1, getState. cbv iota beta.
    fold (treeCommand connect). fold (lsCommand connect p).
    destruct (getEntriesFromCache (globalFileTreeCache st1) p) as [[|e0 r0]|];
      try reflexivity.
    - unfold bind at 1.
      destruct (runMpremote (treeCommand connect) true env st1)
        as [st2 [out|e|]]; try reflexivity.
      destruct (parseTreeForPath (stdout out) p); [|reflexivity].
      unfold tryCatch, bind at 1.
      destruct (runMpremote (lsCommand connect p) true env st2)
        as [st3 [lsOut|e|]]; reflexivity.
    - unfold bind at 1.
      destruct (runMpremote (treeCommand connect) true env st1)
        as [st2 [out|e|]]; try reflexivity.
      destruct (parseTreeForPath (stdout out) p); [|reflexivity].
      unfold tryCatch, bind at 1.
      destruct (runMpremote (lsCommand connect p) true env st2)
        as [st3 [lsOut|e|]]; reflexivity. }
  rewrite E. clear E. split.
  - intros e H. destruct pre as [st1 [[]|e'|]]; cbn [fst snd] in *;
      try discriminate. now inversion H.
  - intros Hpre Hnone.
    destruct pre as [st1 [[]|e'|]]; cbn [fst snd] in *; try discriminate.
    assert (Hlook : match getEntriesFromCache (globalFileTreeCache st1) p with
                    | Some (_ :: _) => False
                    | _ => True
                    end)
      by (destruct Hnone as [-> | ->]; exact I).
    split.
    + intros e H.
      destruct (getEntriesFromCache (globalFileTreeCache st1) p)
        as [[|e0 r0]|]; try contradiction;
        destruct (runMpremote (treeCommand connect) true env st1)
          as [st2 [out|e'|]]; cbn [fst snd] in *; try discriminate;
        now inversion H.
    + intros out H Hparse e Hfall.
      destruct (getEntriesFromCache (globalFileTreeCache st1) p)
        as [[|e0 r0]|]; try contradiction;
        destruct (runMpremote (treeCommand connect) true env st1)
          as [st2 [out'|e'|]]; cbn [fst snd] in *; try discriminate;
        inversion H; subst out'; rewrite Hparse;
        destruct (runMpremote (lsCommand connect p) true env st2)
          as [st3 [lsOut|e''|]]; cbn [fst snd] in *; try discriminate;
        reflexivity.
Qed.

(** C7 (amended).  From an idle state:
    - the runner runs a command at most three times (once when retries
      are off), waits 500 ms and then 1000 ms between the runs, and
      runs again only after a transient error; its outcome is that of
      the last run;
    - when the run of the tree command ends in a rejection,
      [listTreeStats], listing from the board, rejects with the same
      error;
    - so does [lsTyped], both when the run fills its cache and when it
      lists the path directly; only a rejection of the plain listing
      of its fallback is dropped, and [lsTyped] resolves to the empty
      list;
    - the other way round, [listTreeStats] resolves only when its last
      run succeeded, and [lsTyped] resolves only when its last run
      succeeded or was the dropped plain listing. *)
Theorem bounded_retries_and_listing_failures (env : Env) (st : St) :
  idle st = true ->
  let connect := configuredConnect env in
  (forall st0 args retry st' r,
     idle st0 = true ->
     runMpremote args retry env st0 = (st', r) ->
     exists probes evs,
       history st' = history st0 ++ probes ++ evs
       /\ Forall isProbe probes
       /\ List.length (runsOf evs) <= (if retry then 3 else 1)
       /\ waitsOf evs = backoff (List.length (runsOf evs) - 1)
       /\ ((evs = [] /\ r = Reject toolNotFound)
           \/ retryTrace args (if retry then 2 else 0) 0 evs r))
  /\ (forall root e,
        noConcretePort connect = false ->
        freshTreePaths env (history st) = None ->
        snd (runMpremote (treeStatsCommand connect root) true env
               (fst (getConnection connect env st))) = Reject e ->
        snd (listTreeStats root env st) = Reject e)
  /\ (forall e,
        snd (runMpremote (treeCommand connect) true env st) = Reject e ->
        populateFileTreeCache env st
        = (fst (runMpremote (treeCommand connect) true env st), Reject e))
  /\ (forall p valid,
        isCacheValid env st = (st, Resolve valid) ->
        let pre := (if valid then ret tt else populateFileTreeCache) env st in
        (forall e, snd pre = Reject e ->
           lsTyped p env st = (fst pre, Reject e))
        /\ (snd pre = Resolve tt ->
            noEntries (getEntriesFromCache (globalFileTreeCache (fst pre)) p) ->
            let run := runMpremote (treeCommand connect) true env (fst pre) in
            (forall e, snd run = Reject e ->
               lsTyped p env st = (fst run, Reject e))
            /\ (forall out,
                  snd run = Resolve out ->
                  parseTreeForPath (stdout out) p = [] ->
                  let fallback :=
                    runMpremote (lsCommand connect p) true env (fst run) in
                  forall e, snd fallback = Reject e ->
                    lsTyped p env st = (fst fallback, Resolve []))))
  /\ (forall root st' v,
        listTreeStats root env st = (st', Resolve v) ->
        exists evs, history st' = history st ++ evs
                    /\ failedRun (lastRun evs) = false)
  /\ (forall p st' v,
        lsTyped p env st = (st', Resolve v) ->
        exists evs,
          history st' = history st ++ evs
          /\ (failedRun (lastRun evs) = false
              \/ (v = []
                  /\ exists args message err,
                       lastRun evs = Some (args, ExecErr message err)
                       /\ isLs args = true))).
Proof.
  intros Hi connect. split; [|split; [|split; [|split; [|split]]]].
  - intros st0 args retry st' r Hi0 E.
    apply runMpremote_trace in E; auto.
    destruct E as (_ & probes & evs & Hh & HF & Hcase).
    exists probes, evs. split; [exact Hh|]. split; [exact HF|].
    destruct Hcase as [[-> ->] | Htrace].
    + simpl. repeat split; auto. destruct retry; lia.
    + pose proof (retryTrace_facts _ _ _ _ _ Htrace (Nat.le_0_l _))
        as (H1 & H2 & _ & H4 & _).
      repeat split; auto. destruct retry; lia.
  - intros root e Hport Hfresh Hrun.
    destruct (listTreeStats_follows_the_run root env st Hi Hport Hfresh)
      as (_ & Hreject & _).
    now apply Hreject.
  - intros e. apply populate_follows_the_run.
  - intros p valid Ev. now apply lsTyped_follows_the_runs.
  - intros root st' v E. eapply listTreeStats_resolved; eauto.
  - intros p st' v E. eapply lsTyped_resolved; eauto.
Qed.

(** On a board whose transport is dead, the tree command fails three
    times with a transient error, and both listings reject with it. *)
Lemma bounded_retries_and_listing_failures_witness :
  snd (listTreeStats "/" deadBoard initialState)
  = Reject "serial.serialutil.SerialException: device not configured"
  /\ snd (lsTyped "/lib" deadBoard initialState)
     = Reject "serial.serialutil.SerialException: device not configured"
  /\ map commandOf (runsOf (history (fst (lsTyped "/lib" deadBoard initialState))))
     = [["fs"; "tree"]; ["fs"; "tree"]; ["fs"; "tree"]]
  /\ waitsOf (history (fst (lsTyped "/lib" deadBoard initialState)))
     = [500%Z; 1000%Z].
Proof.
  destruct (bounded_retries_and_listing_failures deadBoard initialState
              eq_refl) as (_ & Hlist & _ & Hls & _).
  split; [|split].
  - apply Hlist; reflexivity.
  - destruct (Hls "/lib" false eq_refl) as [Hreject _].
    rewrite (Hreject
               "serial.serialutil.SerialException: device not configured"
               eq_refl).
    reflexivity.
  - destruct (Hls "/lib" false eq_refl) as [Hreject _].
    rewrite (Hreject
               "serial.serialutil.SerialException: device not configured"
               eq_refl).
    split; reflexivity.
Defined.

(** ** Deletion *)

(** A listing line that contains ["ls"] is skipped, entry or not. *)
Lemma lsItem_skips_ls p line :
  includes "ls" line = true -> lsItem p line = None.
Proof.
  intros H. unfold lsItem. rewrite H. now rewrite orb_true_r.
Qed.

(** The fallback deletes a directory whose entries have no ["ls"] in
    their listing lines. *)
Lemma deleteAny_fallback_run :
  let r := deleteAny 5 "/lib" (libBoard ["b.py"; "a.py"]) initialState in
  snd r = Resolve tt
  /\ map commandOf (runsOf (history (fst r)))
     = [["fs"; "stat"; "/lib"]; ["fs"; "rm"; "-r"; "/lib"];
        ["fs"; "ls"; "/lib"]; ["fs"; "rm"; "/lib/b.py"];
        ["fs"; "rm"; "/lib/a.py"]; ["fs"; "rmdir"; "/lib"]].
Proof. vm_compute. split; reflexivity. Qed.

(** C6.  The fallback of [deleteAny] does not delete every child: the
    listing line of [utils.py] contains ["ls"] and is skipped like the
    header line, the file stays, the final [rmdir] finds the directory
    not empty, and the deletion fails. *)
Theorem deleteAny_leaves_children_with_ls_in_name :
  let r := deleteAny 5 "/lib" (libBoard ["utils.py"; "a.py"]) initialState in
  lsItem "/lib" (lsLine "10" "utils.py") = None
  /\ map commandOf (runsOf (history (fst r)))
     = [["fs"; "stat"; "/lib"]; ["fs"; "rm"; "-r"; "/lib"];
        ["fs"; "ls"; "/lib"]; ["fs"; "rm"; "/lib/a.py"];
        ["fs"; "rmdir"; "/lib"]]
  /\ removed (history (fst r)) "/lib/utils.py" = false
  /\ snd r = Reject
       "Failed to delete directory /lib: OSError: [Errno 39] Directory not empty".
Proof. vm_compute. repeat split; reflexivity. Qed.

(** ** The baseline upload *)

Lemma safe_clear : safe clearFileTreeCache.
Proof. apply safe_modify. auto. Qed.

Lemma safe_attempt {A} (m : M A) : safe m -> safe (attempt m).
Proof. intros H. unfold attempt. frames. Qed.

Lemma safe_resolved {A} (m : M A) : safe m -> safe (resolved m).
Proof. intros H. unfold resolved. frames. Qed.

#[global] Hint Resolve safe_clear safe_attempt safe_resolved : frames.

Lemma safe_mkdirLevels connect done todo :
  safe (mkdirLevels connect done todo).
Proof.
  revert done. induction todo as [|part rest IH]; intros done.
  - simpl. frames.
  - destruct rest as [|next rest].
    + simpl. frames.
    + change (mkdirLevels connect done (part :: next :: rest))
        with (attempt (runMpremote ["connect"; connect; "fs"; "mkdir";
                                    "/" +++ String.concat "/" (done ++ [part])]
                         false) ;;;
              mkdirLevels connect (done ++ [part]) (next :: rest)).
      frames; try apply IH.
Qed.

Lemma safe_ensureParent connect deviceArg :
  safe (ensureParent connect deviceArg).
Proof. unfold ensureParent. frames. Qed.

#[global] Hint Resolve safe_mkdirLevels safe_ensureParent : frames.

Lemma safe_cpToDevice l d : safe (cpToDevice l d).
Proof.
  unfold cpToDevice. frames;
    try (apply safe_resolved; frames).
Qed.

Lemma safe_mkdir p : safe (mkdir p).
Proof. unfold mkdir. frames. Qed.

Lemma safe_fileExists p : safe (fileExists p).
Proof. unfold fileExists. frames. Qed.

#[global] Hint Resolve safe_cpToDevice safe_mkdir safe_fileExists : frames.

(** The local check sorts the files into valid and missing ones, by
    what [fs.access] answers, and nothing else happens. *)
Lemma checkLocalFiles_run wsPath files env st :
  exists st1 checks,
    List.length checks = List.length files
    /\ checkLocalFiles wsPath files env st
       = (st1, Resolve (passed files checks, notPassed files checks))
    /\ history st1 = history st ++ accessEvents wsPath files checks
    /\ activeConnections st1 = activeConnections st.
Proof.
  revert st. induction files as [|f rest IH]; intros st.
  - exists st, []. repeat split; auto. simpl. now rewrite app_nil_r.
  - cbn [checkLocalFiles]. unfold bind at 1. unfold access at 1.
    cbv beta iota zeta.
    set (c := localAccess env (history st) (NodePath.join wsPath f)).
    set (st0 := withHistory _ st).
    destruct (IH st0) as (st1 & checks & Hlen & E & Hh & Ha).
    exists st1, (c :: checks). split; [simpl; congruence|].
    split; [|split].
    + unfold bind. rewrite E. unfold ret. destruct c; reflexivity.
    + rewrite Hh. unfold st0. cbn [history withHistory accessEvents].
      now rewrite <- app_assoc.
    + rewrite Ha. reflexivity.
Qed.

Lemma safe_createDirectory n deviceDir : safe (createDirectory n deviceDir).
Proof.
  induction n as [|n IH]; [simpl; frames|].
  cbn [createDirectory]. frames; try (destruct n; frames).
Qed.

Lemma safe_createDirectories dirs : safe (createDirectories dirs).
Proof.
  induction dirs as [|d rest IH]; cbn [createDirectories]; frames;
    try apply safe_createDirectory.
Qed.

Lemma safe_verifyDirectories dirs : safe (verifyDirectories dirs).
Proof. induction dirs as [|d rest IH]; cbn [verifyDirectories]; frames. Qed.

Lemma safe_recreateDirectories dirs : safe (recreateDirectories dirs).
Proof. induction dirs as [|d rest IH]; cbn [recreateDirectories]; frames. Qed.

#[global] Hint Resolve safe_createDirectories safe_verifyDirectories
  safe_recreateDirectories : frames.

Lemma safe_directoryPhase rootPath files plan :
  sortedDirectories rootPath files = Some plan ->
  safe (directoryPhase rootPath files).
Proof.
  intros E. unfold directoryPhase. rewrite E. frames.
Qed.

Lemma safe_checkLocalFiles wsPath files : safe (checkLocalFiles wsPath files).
Proof.
  induction files as [|f rest IH]; cbn [checkLocalFiles]; frames.
Qed.

Lemma safe_uploadFiles wsPath rootPath validFiles report :
  safe (uploadFiles wsPath rootPath validFiles report).
Proof.
  revert report.
  induction validFiles as [|f rest IH]; intros report; cbn [uploadFiles].
  - frames.
  - unfold uploadOne. frames; try apply IH; try (apply safe_resolved; frames).
Qed.

#[global] Hint Resolve safe_checkLocalFiles safe_uploadFiles : frames.

Lemma safe_uploadPhase wsPath rootPath files :
  safe (uploadPhase wsPath rootPath files).
Proof. unfold uploadPhase. frames. Qed.

(** Whatever happens under the progress notification, [syncBaseline]
    does not reject. *)
Lemma syncBaseline_never_rejects wsPath rootPath files env st e :
  snd (syncBaseline wsPath rootPath files env st) <> Reject e.
Proof.
  unfold syncBaseline, tryCatch.
  destruct ((baselineUpload wsPath rootPath files ;;; ret tt) env st)
    as [st' [a|e'|]]; cbn; discriminate.
Qed.

(** ** Uploads: what is run, and what counts as uploaded *)

(** An event other than a copy command. *)
Definition notCopy (e : Event) : Prop :=
  match e with
  | EvExec args _ => isCopy args = false
  | _ => True
  end.

Lemma notCopy_run args retry :
  isCopy args = false -> keeps (extends notCopy) (runMpremote args retry).
Proof. intros H. apply runner_shape; simpl; auto. Qed.

Lemma notCopy_sleep ms : keeps (extends notCopy) (sleep ms).
Proof. apply keeps_log. exact I. Qed.









(** [m] does not reject. *)
Definition neverRejects {A : Type} (m : M A) : Prop :=
  forall env st message, snd (m env st) <> Reject message.

Lemma neverRejects_ret {A} (a : A) : neverRejects (ret a).
Proof. intros env st message. discriminate. Qed.

Lemma neverRejects_bind {A B} (m : M A) (k : A -> M B) :
  neverRejects m -> (forall a, neverRejects (k a)) -> neverRejects (bind m k).
Proof.
  intros Hm Hk env st message. unfold bind.
  specialize (Hm env st). destruct (m env st) as [st' [a|e|]]; cbn in *.
  - apply Hk.
  - now specialize (Hm e).
  - discriminate.
Qed.

Lemma neverRejects_catch {A} (m : M A) (h : string -> M A) :
  (forall e, neverRejects (h e)) -> neverRejects (tryCatch m h).
Proof.
  intros Hh env st message. unfold tryCatch.
  destruct (m env st) as [st' [a|e|]]; cbn; try discriminate. apply Hh.
Qed.

Lemma neverRejects_resolved {A} (m : M A) : neverRejects (resolved m).
Proof. apply neverRejects_catch. intros e. apply neverRejects_ret. Qed.

Lemma neverRejects_attempt {A} (m : M A) : neverRejects (attempt m).
Proof. apply neverRejects_catch. intros e. apply neverRejects_ret. Qed.


(** An event of the tool: a probe for it, a run of it, or a wait. *)
Definition toolEvent (e : Event) : Prop :=
  match e with
  | EvProbe _ _ | EvExec _ _ | EvSleep _ => True
  | _ => False
  end.

Lemma tool_run args retry : keeps (extends toolEvent) (runMpremote args retry).
Proof. apply runner_shape; simpl; auto. Qed.

Lemma tool_sleep ms : keeps (extends toolEvent) (sleep ms).
Proof. apply keeps_log. exact I. Qed.

Lemma tool_mkdirLevels connect done todo :
  keeps (extends toolEvent) (mkdirLevels connect done todo).
Proof.
  revert done. induction todo as [|part rest IH]; intros done.
  - simpl. frames.
  - destruct rest as [|next rest].
    + simpl. frames.
    + change (mkdirLevels connect done (part :: next :: rest))
        with (attempt (runMpremote ["connect"; connect; "fs"; "mkdir";
                                    "/" +++ String.concat "/" (done ++ [part])]
                         false) ;;;
              mkdirLevels connect (done ++ [part]) (next :: rest)).
      frames; try apply IH.
      apply shape_attempt, tool_run.
Qed.

(** What the recovery of [cpToDevice] adds to the history, whatever
    the error and the copy command. *)
Lemma tool_cpToDevice l d : keeps (extends toolEvent) (cpToDevice l d).
Proof.
  unfold cpToDevice, ensureParent. frames;
    try (apply shape_attempt, tool_run);
    try (apply shape_resolved; frames;
         try apply tool_run; try apply tool_sleep);
    try apply tool_run; try apply tool_mkdirLevels; try apply shape_clear.
Qed.


(** *** The events are the answers of the environment *)

(** An event that records an answer of the environment records the
    answer that the environment gives at that point of the history. *)
Definition answered (env : Env) (h : list Event) (e : Event) : Prop :=
  match e with
  | EvExec args r => r = tool env h args
  | EvProbe candidate ok => ok = probe env h candidate
  | EvAccess path ok => ok = localAccess env h path
  | _ => True
  end.

Fixpoint genuine (env : Env) (h evs : list Event) : Prop :=
  match evs with
  | [] => True
  | e :: rest => answered env h e /\ genuine env (h ++ [e]) rest
  end.

Lemma genuine_app env h a b :
  genuine env h a -> genuine env (h ++ a) b -> genuine env h (a ++ b).
Proof.
  revert h. induction a as [|e a IH]; intros h Ha Hb; cbn [app genuine] in *.
  - now rewrite app_nil_r in Hb.
  - destruct Ha as [He Ha]. split; [exact He|]. apply IH; [exact Ha|].
    now rewrite <- app_assoc.
Qed.

Lemma genuine_split env h a b :
  genuine env h (a ++ b) -> genuine env h a /\ genuine env (h ++ a) b.
Proof.
  revert h. induction a as [|e a IH]; intros h H; cbn [app genuine] in *.
  - rewrite app_nil_r. now split.
  - destruct H as [He H]. destruct (IH _ H) as [Ha Hb].
    rewrite <- app_assoc in Hb. now repeat split.
Qed.

(** [honest m]: the history grows, and what [m] adds to it are the
    answers of the environment. *)
Definition truthful (env : Env) (st st' : St) : Prop :=
  exists evs, history st' = history st ++ evs /\ genuine env (history st) evs.

Definition honest {A : Type} (m : M A) : Prop :=
  forall env st, truthful env st (fst (m env st)).

Lemma truthful_refl env st : truthful env st st.
Proof. exists []. split; [now rewrite app_nil_r | exact I]. Qed.

Lemma truthful_trans env a b c :
  truthful env a b -> truthful env b c -> truthful env a c.
Proof.
  intros (e1 & H1 & G1) (e2 & H2 & G2). exists (e1 ++ e2). split.
  - now rewrite H2, H1, app_assoc.
  - apply genuine_app; [exact G1 | now rewrite <- H1].
Qed.

Lemma truthful_same env st st' : history st' = history st -> truthful env st st'.
Proof. intros H. exists []. split; [now rewrite app_nil_r | exact I]. Qed.

Section Honest.

Lemma honest_ret {A} (a : A) : honest (ret a).
Proof. intros env st. apply truthful_refl. Qed.

Lemma honest_throw {A} e : honest (@throw A e).
Proof. intros env st. apply truthful_refl. Qed.

Lemma honest_never {A} : honest (@never A).
Proof. intros env st. apply truthful_refl. Qed.

Lemma honest_getState : honest getState.
Proof. intros env st. apply truthful_refl. Qed.

Lemma honest_getEnv : honest getEnv.
Proof. intros env st. apply truthful_refl. Qed.

Lemma honest_now : honest now.
Proof. intros env st. apply truthful_refl. Qed.

Lemma honest_bind {A B} (m : M A) (k : A -> M B) :
  honest m -> (forall a, honest (k a)) -> honest (bind m k).
Proof.
  intros Hm Hk env st. unfold bind. specialize (Hm env st).
  destruct (m env st) as [st' [a|e|]]; cbn [fst] in *; auto.
  eapply truthful_trans; [exact Hm | apply Hk].
Qed.

Lemma honest_tryCatch {A} (m : M A) (h : string -> M A) :
  honest m -> (forall e, honest (h e)) -> honest (tryCatch m h).
Proof.
  intros Hm Hh env st. unfold tryCatch. specialize (Hm env st).
  destruct (m env st) as [st' [a|e|]]; cbn [fst] in *; auto.
  eapply truthful_trans; [exact Hm | apply Hh].
Qed.

Lemma honest_quiet {A} (m : M A) : keeps quiet m -> honest m.
Proof. intros H env st. apply truthful_same, H. Qed.

Lemma honest_modify (f : St -> St) :
  (forall st, history (f st) = history st) -> honest (modify f).
Proof. intros H env st. apply truthful_same, H. Qed.

Lemma honest_log e : (forall env h, answered env h e) -> honest (log e).
Proof.
  intros H env st. exists [e]. split; [reflexivity|].
  split; [apply H | exact I].
Qed.

Lemma honest_sleep ms : honest (sleep ms).
Proof. apply honest_log. intros; exact I. Qed.

Lemma honest_exec args : honest (exec args).
Proof.
  intros env st. eexists [_]. split; [reflexivity|]. now split.
Qed.

Lemma honest_access p : honest (access p).
Proof.
  intros env st. eexists [_]. split; [reflexivity|]. now split.
Qed.

End Honest.

Ltac honest1 :=
  lazymatch goal with
  | |- honest (ret _) => apply honest_ret
  | |- honest (throw _) => apply honest_throw
  | |- honest never => apply honest_never
  | |- honest getState => apply honest_getState
  | |- honest getEnv => apply honest_getEnv
  | |- honest now => apply honest_now
  | |- honest (sleep _) => apply honest_sleep
  | |- honest (exec _) => apply honest_exec
  | |- honest (access _) => apply honest_access
  | |- honest (bind _ _) => apply honest_bind; [| intros ?]
  | |- honest (tryCatch _ _) => apply honest_tryCatch; [| intros ?]
  | |- honest (if ?b then _ else _) => destruct b
  | |- honest (match ?x with _ => _ end) => destruct x
  end.

Ltac honestly :=
  repeat honest1;
  try solve [ apply honest_quiet; auto with frames
            | apply honest_modify; intros; reflexivity ].

Lemma honest_executeCommand fuel args maxRetries attempt :
  honest (executeCommand fuel args maxRetries attempt).
Proof.
  revert attempt. induction fuel as [|fuel IH]; intros attempt;
    cbn [executeCommand].
  - honestly.
  - honestly; try apply IH.
Qed.

Lemma honest_findCandidate candidates : honest (findCandidate candidates).
Proof.
  induction candidates as [|c rest IH]; simpl.
  - honestly.
  - apply honest_bind.
    + intros env st. eexists [_]. split; [reflexivity|]. now split.
    + intros found. destruct found; [|exact IH]. honestly.
Qed.

Lemma honest_runMpremote args retry : honest (runMpremote args retry).
Proof.
  unfold runMpremote, getMpremotePath.
  honestly; first [apply honest_findCandidate | apply honest_executeCommand].
Qed.

Lemma honest_attempt {A} (m : M A) : honest m -> honest (attempt m).
Proof. intros H. unfold attempt. honestly. exact H. Qed.

Lemma honest_resolved {A} (m : M A) : honest m -> honest (resolved m).
Proof. intros H. unfold resolved. honestly. exact H. Qed.

Lemma honest_clear : honest clearFileTreeCache.
Proof. apply honest_modify. reflexivity. Qed.

Lemma honest_mkdirLevels connect done todo :
  honest (mkdirLevels connect done todo).
Proof.
  revert done. induction todo as [|part rest IH]; intros done.
  - simpl. honestly.
  - destruct rest as [|next rest].
    + simpl. honestly.
    + change (mkdirLevels connect done (part :: next :: rest))
        with (attempt (runMpremote ["connect"; connect; "fs"; "mkdir";
                                    "/" +++ String.concat "/" (done ++ [part])]
                         false) ;;;
              mkdirLevels connect (done ++ [part]) (next :: rest)).
      honestly; try apply IH.
      apply honest_attempt, honest_runMpremote.
Qed.

Lemma honest_cpToDevice l d : honest (cpToDevice l d).
Proof.
  unfold cpToDevice, ensureParent. honestly;
    try (apply honest_attempt, honest_runMpremote);
    try (apply honest_resolved; honestly; apply honest_runMpremote);
    try apply honest_runMpremote; try apply honest_mkdirLevels;
    try apply honest_clear.
Qed.


(** What an honest computation has added to a history. *)
Lemma honest_added {A} (m : M A) env st evs :
  honest m -> history (fst (m env st)) = history st ++ evs ->
  genuine env (history st) evs.
Proof.
  intros H E. destruct (H env st) as (evs' & E' & G).
  rewrite E' in E. apply app_inv_head in E. now subst.
Qed.

(** A successful run of a copy command. *)
Definition copyDone (e : Event) : bool :=
  match e with
  | EvExec args (ExecOk _ _) => isCopy args
  | _ => false
  end.

(** No copy command has succeeded. *)
Definition noCopyDone (evs : list Event) : Prop :=
  Forall (fun e => copyDone e = false) evs.

(** The events end with the first copy command that succeeded, a run
    of [expected]. *)
Definition justCopied (expected : list string) (evs : list Event) : Prop :=
  exists before out err,
    evs = before ++ [EvExec expected (ExecOk out err)] /\ noCopyDone before.

Lemma noCopyDone_app a b : noCopyDone a -> noCopyDone b -> noCopyDone (a ++ b).
Proof. intros Ha Hb. apply Forall_app. now split. Qed.

Lemma justCopied_after expected a b :
  noCopyDone a -> justCopied expected b -> justCopied expected (a ++ b).
Proof.
  intros Ha (before & out & err & -> & Hb).
  exists (a ++ before), out, err. split; [now rewrite app_assoc|].
  now apply noCopyDone_app.
Qed.

Lemma noCopyDone_notCopy evs : Forall notCopy evs -> noCopyDone evs.
Proof.
  apply Forall_impl. intros [] H; simpl in *; auto.
  destruct result; auto.
Qed.

Lemma noCopyDone_probes evs : Forall isProbe evs -> noCopyDone evs.
Proof. apply Forall_impl. intros [] H; simpl in *; auto; contradiction. Qed.

(** [copying env expected done m]: from an idle state, [m] settles
    and leaves an idle state; when it resolves to a value that is
    [done], the last event is the first successful copy, a run of
    [expected]; in every other case no copy has succeeded. *)
Definition copying {A : Type} (env : Env) (expected : list string)
    (done : A -> bool) (m : M A) : Prop :=
  forall st, idle st = true ->
    idle (fst (m env st)) = true
    /\ exists evs,
         history (fst (m env st)) = history st ++ evs
         /\ match snd (m env st) with
            | Resolve a =>
                if done a then justCopied expected evs else noCopyDone evs
            | Reject _ => noCopyDone evs
            | Pending => False
            end.

(** [finished done m]: [m] resolves without an event, to a value that
    is [done]. *)
Definition finished {A : Type} (env : Env) (done : A -> bool) (m : M A)
  : Prop :=
  forall st, exists st' a,
    m env st = (st', Resolve a) /\ history st' = history st
    /\ (idle st = true -> idle st' = true) /\ done a = true.

Section Copying.
Variable env : Env.
Variable expected : list string.

Lemma copying_calm {A} (done : A -> bool) (m : M A) :
  safe m -> keeps (extends notCopy) m -> (forall a, done a = false) ->
  copying env expected done m.
Proof.
  intros Hs Hk Hd st Hi. destruct (Hs env st Hi) as [H1 H2].
  split; [exact H1|]. destruct (Hk env st) as (evs & Hh & HF).
  exists evs. split; [exact Hh|]. apply noCopyDone_notCopy in HF.
  destruct (snd (m env st)) as [a|e|]; auto. now rewrite Hd.
Qed.

Lemma copying_bind {A B} (d : A -> bool) (d' : B -> bool)
    (m : M A) (k : A -> M B) :
  copying env expected d m ->
  (forall a, d a = false -> copying env expected d' (k a)) ->
  (forall a, d a = true -> finished env d' (k a)) ->
  copying env expected d' (bind m k).
Proof.
  intros Hm Hk Hf st Hi. destruct (Hm st Hi) as (H1 & evs & Hh & Hr).
  unfold bind. destruct (m env st) as [st1 [a|e|]]; cbn [fst snd] in *.
  - destruct (d a) eqn:Ed.
    + destruct (Hf a Ed st1) as (st2 & b & E & Hh2 & Hi2 & Hd).
      rewrite E. cbn [fst snd]. split; [auto|].
      exists evs. split; [congruence|]. now rewrite Hd.
    + destruct (Hk a Ed st1 H1) as (H2 & evs2 & Hh2 & Hr2).
      split; [exact H2|]. exists (evs ++ evs2). split.
      * now rewrite Hh2, Hh, app_assoc.
      * destruct (snd (k a env st1)) as [b|e|]; auto.
        -- destruct (d' b); [now apply justCopied_after
                            | now apply noCopyDone_app].
        -- now apply noCopyDone_app.
  - split; [exact H1|]. exists evs. auto.
  - contradiction.
Qed.

Lemma copying_getEnv {A} (d : A -> bool) (k : Env -> M A) :
  copying env expected d (k env) -> copying env expected d (bind getEnv k).
Proof. intros H st Hi. exact (H st Hi). Qed.

Lemma copying_tryCatch {A} (d : A -> bool) (m : M A) (h : string -> M A) :
  copying env expected d m ->
  (forall e, copying env expected d (h e)) ->
  copying env expected d (tryCatch m h).
Proof.
  intros Hm Hh st Hi. destruct (Hm st Hi) as (H1 & evs & Hh1 & Hr).
  unfold tryCatch. destruct (m env st) as [st1 [a|e|]]; cbn [fst snd] in *.
  - split; [exact H1|]. exists evs. auto.
  - destruct (Hh e st1 H1) as (H2 & evs2 & Hh2 & Hr2).
    split; [exact H2|]. exists (evs ++ evs2). split.
    + now rewrite Hh2, Hh1, app_assoc.
    + destruct (snd (h e env st1)) as [b|e'|]; auto.
      * destruct (d b); [now apply justCopied_after
                        | now apply noCopyDone_app].
      * now apply noCopyDone_app.
  - contradiction.
Qed.

Lemma copying_throw {A} (d : A -> bool) e :
  copying env expected d (throw e).
Proof.
  intros st Hi. split; [exact Hi|]. exists []. split.
  - now rewrite app_nil_r.
  - constructor.
Qed.

Lemma copying_ret {A} (d : A -> bool) (a : A) :
  d a = false -> copying env expected d (ret a).
Proof.
  intros Hd st Hi. split; [exact Hi|]. exists []. split.
  - now rewrite app_nil_r.
  - cbn. rewrite Hd. constructor.
Qed.

Lemma finished_ret {A} (d : A -> bool) (a : A) :
  d a = true -> finished env d (ret a).
Proof. intros Hd st. exists st, a. auto. Qed.

(** After a copy, the cache is cleared and the value returned. *)
Lemma finished_clear {A} (d : A -> bool) (a : A) :
  d a = true -> finished env d (clearFileTreeCache ;;; ret a).
Proof.
  intros Hd st. eexists _, a. split; [reflexivity|]. auto.
Qed.

Lemma retryTrace_copying maxRetries attempt evs (r : Res Output) :
  retryTrace expected maxRetries attempt evs r ->
  match r with
  | Resolve _ => justCopied expected evs
  | Reject _ => noCopyDone evs
  | Pending => False
  end.
Proof.
  induction 1 as [attempt out err | attempt message err Hstop
                 | attempt message err evs r Hle Htr Htrace IH].
  - exists [], out, err. split; [reflexivity | constructor].
  - constructor; [reflexivity | constructor].
  - assert (Hhead : noCopyDone [EvExec expected (ExecErr message err);
                                EvSleep (500 * Z.of_nat (S attempt))])
      by (repeat constructor).
    destruct r as [out|e|]; auto.
    + apply (justCopied_after expected _ evs Hhead IH).
    + apply (noCopyDone_app _ evs Hhead IH).
Qed.

(** A run of the copy command, retried or not. *)
Lemma copying_run retry :
  copying env expected (fun _ => true) (runMpremote expected retry).
Proof.
  intros st Hi.
  destruct (runMpremote expected retry env st) as [st' r] eqn:E.
  destruct (runMpremote_trace _ _ _ _ _ _ Hi E)
    as (Hidle & probes & evs & Hh & HF & Hcase).
  cbn [fst snd]. split; [exact Hidle|].
  exists (probes ++ evs). split; [exact Hh|].
  apply noCopyDone_probes in HF.
  destruct Hcase as [[-> ->] | Htrace].
  - now rewrite app_nil_r.
  - apply retryTrace_copying in Htrace.
    destruct r as [out|e|]; auto.
    + now apply justCopied_after.
    + now apply noCopyDone_app.
Qed.

(** [resolved m]: the copy is done exactly when the result is
    [true]. *)
Lemma copying_resolved {A} (m : M A) :
  copying env expected (fun _ => true) m ->
  copying env expected (fun b : bool => b) (resolved m).
Proof.
  intros Hm. unfold resolved. apply copying_tryCatch.
  - eapply copying_bind; [exact Hm | discriminate|].
    intros a _. now apply finished_ret.
  - intros e. now apply copying_ret.
Qed.

(** The pattern of the recovery blocks: a copy that is tried once
    more clears the cache when it succeeds. *)
Lemma copying_retry {A} (m : M A) :
  copying env expected (fun _ => true) m ->
  copying env expected (fun b : bool => b)
    (ok <- resolved m ;;
     if ok then clearFileTreeCache ;;; ret true else ret false).
Proof.
  intros Hm. eapply copying_bind; [apply copying_resolved, Hm | |].
  - intros [] H; [discriminate|]. now apply copying_ret.
  - intros [] H; [|discriminate]. now apply finished_clear.
Qed.

(** A block that recovers or not, followed by what is done when it
    did not. *)
Lemma copying_recover (recover : M bool) (rest : M unit) :
  copying env expected (fun b : bool => b) recover ->
  copying env expected (fun _ => true) rest ->
  copying env expected (fun _ => true)
    (recovered <- recover ;; if recovered then ret tt else rest).
Proof.
  intros Hr Hrest. eapply copying_bind; [exact Hr | |].
  - intros [] H; [discriminate | exact Hrest].
  - intros [] H; [|discriminate]. now apply finished_ret.
Qed.

(** Something that runs no copy, and then [k]. *)
Lemma copying_after {A B} (d : B -> bool) (m : M A) (k : A -> M B) :
  safe m -> keeps (extends notCopy) m ->
  (forall a, copying env expected d (k a)) ->
  copying env expected d (bind m k).
Proof.
  intros Hs Hk Hrest.
  apply (copying_bind (fun _ => false) d); [|auto|discriminate].
  now apply copying_calm.
Qed.

End Copying.

Lemma notCopy_mkdirLevels connect done todo :
  keeps (extends notCopy) (mkdirLevels connect done todo).
Proof.
  revert done. induction todo as [|part rest IH]; intros done.
  - simpl. frames.
  - destruct rest as [|next rest].
    + simpl. frames.
    + change (mkdirLevels connect done (part :: next :: rest))
        with (attempt (runMpremote ["connect"; connect; "fs"; "mkdir";
                                    "/" +++ String.concat "/" (done ++ [part])]
                         false) ;;;
              mkdirLevels connect (done ++ [part]) (next :: rest)).
      frames; try apply IH.
      apply shape_attempt, notCopy_run. reflexivity.
Qed.

Lemma notCopy_ensureParent connect deviceArg :
  keeps (extends notCopy) (ensureParent connect deviceArg).
Proof.
  unfold ensureParent. frames. apply shape_attempt, notCopy_run. reflexivity.
Qed.

(** Side conditions of [copying_after]: the step settles and runs no
    copy command. *)
Ltac calm :=
  first
    [ solve [auto with frames]
    | solve [frames]
    | apply notCopy_ensureParent
    | apply notCopy_mkdirLevels
    | apply notCopy_sleep
    | solve [apply notCopy_run; reflexivity]
    | solve [apply shape_attempt, notCopy_run; reflexivity]
    | solve [apply safe_attempt; auto with frames] ].

(** The first block of both upload functions: the parent directory,
    the copy, the cache. *)
Lemma copying_first_try env expected connect deviceArg retry :
  copying env expected (fun _ => true)
    (ensureParent connect deviceArg ;;;
     runMpremote expected retry ;;;
     clearFileTreeCache).
Proof.
  apply copying_after; [calm | calm | intros _].
  eapply copying_bind; [apply copying_run | discriminate|].
  intros out _ st. eexists _, tt. split; [reflexivity|]. auto.
Qed.

(** [cpToDevice] resolves exactly when a run of the plain copy
    command has succeeded, which is then the last thing it did. *)
Lemma copying_cpToDevice env l d :
  copying env (plainCopy (configuredConnect env) l (pathArgOf d))
    (fun _ => true) (cpToDevice l d).
Proof.
  unfold cpToDevice. apply copying_getEnv. cbv zeta.
  set (connect := configuredConnect env).
  destruct (noConcretePort connect); [apply copying_throw|].
  apply copying_after; [calm | calm | intros _].
  fold (plainCopy connect l (pathArgOf d)).
  set (copy := plainCopy connect l (pathArgOf d)).
  apply copying_tryCatch; [apply copying_first_try|].
  intros error. apply copying_after; [calm | calm | intros _].
  apply copying_recover.
  { destruct (missingPathError _); [|now apply copying_ret].
    apply copying_after; [calm | calm | intros _].
    apply copying_retry, copying_run. }
  apply copying_recover.
  { destruct (includes "read-only file system" _); [|now apply copying_ret].
    apply copying_after; [calm | calm | intros _].
    eapply copying_bind.
    - apply copying_resolved.
      apply copying_after; [calm | calm | intros _].
      apply copying_after; [calm | calm | intros _].
      apply copying_run.
    - intros [] H; [discriminate|].
      eapply copying_bind.
      + apply copying_resolved.
        apply copying_after; [calm | calm | intros _].
        apply copying_run.
      + intros [] H'; [discriminate|].
        apply copying_after; [calm | calm | intros _].
        now apply copying_ret.
      + intros [] H'; [|discriminate]. now apply finished_clear.
    - intros [] H; [|discriminate]. now apply finished_clear. }
  apply copying_after; [calm | calm | intros _]. apply copying_throw.
Qed.


(** The tool was looked for and not found. *)
Definition toolMissing (evs : list Event) : Prop :=
  In (EvProbe "mpremote" false) evs.

Lemma findCandidate_missing candidate rest env st e :
  snd (findCandidate (candidate :: rest) env st) = Reject e ->
  exists probes,
    history (fst (findCandidate (candidate :: rest) env st))
    = history st ++ probes
    /\ In (EvProbe candidate false) probes.
Proof.
  intros H. cbn [findCandidate] in *. unfold bind at 1 in H. unfold bind at 1.
  destruct (probe env (history st) candidate) eqn:Ep.
  - unfold bind, modify, ret in H. discriminate.
  - destruct (findCandidate rest env
                (withHistory (history st ++ [EvProbe candidate false]) st))
      as [st' r] eqn:E.
    apply findCandidate_outcome in E. destruct E as ((probes & Hh & _) & _).
    exists (EvProbe candidate false :: probes). split; [|now left].
    cbn [fst]. rewrite Hh. cbn [history withHistory].
    now rewrite <- app_assoc.
Qed.

Lemma lastRun_In evs args r :
  lastRun evs = Some (args, r) -> In (EvExec args r) evs.
Proof.
  induction evs as [|e evs IH]; [discriminate|]. cbn [lastRun].
  destruct (lastRun evs) as [x|].
  - intros H. right. now apply IH.
  - destruct e; try discriminate. intros H. inversion H; subst. now left.
Qed.

(** What a call of the runner leaves behind: a run of the command,
    unless the tool was not found; and when it rejects, the error of a
    failed run of the command. *)
Definition ran (args : list string) (evs : list Event) (r : Res Output)
  : Prop :=
  (In args (runsOf evs) \/ toolMissing evs)
  /\ forall e, r = Reject e ->
       e = toolNotFound
       \/ exists message err,
            In (EvExec args (ExecErr message err)) evs
            /\ e = rejection message err.

Lemma runMpremote_ran args retry env st :
  idle st = true ->
  exists evs,
    history (fst (runMpremote args retry env st)) = history st ++ evs
    /\ ran args evs (snd (runMpremote args retry env st)).
Proof.
  intros Hi. unfold runMpremote, bind at 1. unfold bind at 1.
  destruct (getMpremotePath env st) as [st1 r1] eqn:E1.
  pose proof (getMpremotePath_outcome _ _ _ _ E1)
    as ((probes & Hh & HF) & _ & Ha & Hr).
  assert (Hi1 : idle st1 = true) by (unfold idle in *; now rewrite Ha).
  destruct Hr as [-> | [p ->]].
  - exists probes. cbn [fst snd]. split; [exact Hh|]. split.
    + right. unfold getMpremotePath, bind at 1, getState in E1.
      cbv iota beta in E1.
      assert (Hfind : findCandidate
                        ["mpremote"; homedir env +++ "/.local/bin/mpremote"]
                        env st = (st1, Reject toolNotFound)).
      { destruct (mpremotePathCache st) as [p|].
        - destruct (nonEmpty p); [discriminate | exact E1].
        - exact E1. }
      destruct (findCandidate_missing "mpremote"
                  [homedir env +++ "/.local/bin/mpremote"] env st toolNotFound)
        as (probes' & Hh' & Hin); [now rewrite Hfind|].
      rewrite Hfind in Hh'. cbn [fst] in Hh'.
      rewrite Hh in Hh'. apply app_inv_head in Hh'. subst probes'.
      exact Hin.
    + intros e H. inversion H. now left.
  - destruct (executeCommand (S (if retry then 2 else 0)) args
                (if retry then 2 else 0) 0 env st1) as [st' r] eqn:E.
    apply executeCommand_trace in E; [| lia | destruct retry; lia | exact Hi1].
    destruct E as (evs & Hev & Htrace & _).
    apply retryTrace_facts in Htrace; [|lia].
    destruct Htrace as (H1 & _ & H3 & _ & Hout).
    exists (probes ++ evs). cbn [fst snd]. split.
    + now rewrite Hev, Hh, app_assoc.
    + split.
      * left. rewrite runsOf_app. apply in_or_app. right.
        destruct (runsOf evs) as [|a rest]; [simpl in H1; lia|].
        inversion H3; subst. now left.
      * intros e ->. destruct Hout as (m & s & Hl & He). right.
        exists m, s. split; [|exact He].
        apply in_or_app. right. now apply lastRun_In.
Qed.

Lemma ran_between args a evs b r :
  ran args evs r -> ran args (a ++ evs ++ b) r.
Proof.
  intros [H1 H2]. split.
  - destruct H1 as [H | H].
    + left. rewrite !runsOf_app. apply in_or_app. right.
      apply in_or_app. now left.
    + right. apply in_or_app. right. apply in_or_app. now left.
  - intros e He. destruct (H2 e He) as [H | (m & s & H & E)]; [now left|].
    right. exists m, s. split; [|exact E].
    apply in_or_app. right. apply in_or_app. now left.
Qed.

(** [m], when it rejects, rejects with [e]. *)
Definition rethrows {A : Type} (e : string) (m : M A) : Prop :=
  forall env st e', snd (m env st) = Reject e' -> e' = e.

Lemma rethrows_throw {A} e : rethrows e (@throw A e).
Proof. intros env st e' H. now inversion H. Qed.

Lemma rethrows_quiet {A} e (m : M A) : neverRejects m -> rethrows e m.
Proof. intros H env st e' E. now apply H in E. Qed.

Lemma rethrows_bind {A B} e (m : M A) (k : A -> M B) :
  neverRejects m -> (forall a, rethrows e (k a)) -> rethrows e (bind m k).
Proof.
  intros Hm Hk env st e'. unfold bind.
  specialize (Hm env st). destruct (m env st) as [st' [a|e0|]]; cbn.
  - apply Hk.
  - intros _. now specialize (Hm e0).
  - discriminate.
Qed.

Lemma neverRejects_steady {A} (m : M A) : steady m -> neverRejects m.
Proof.
  intros H env st message. destruct (H env st) as (st' & a & E & _).
  rewrite E. discriminate.
Qed.

Lemma neverRejects_clear : neverRejects clearFileTreeCache.
Proof. intros env st message. discriminate. Qed.

Lemma neverRejects_mkdirLevels connect done todo :
  neverRejects (mkdirLevels connect done todo).
Proof.
  revert done. induction todo as [|part rest IH]; intros done.
  - apply neverRejects_ret.
  - destruct rest as [|next rest]; [apply neverRejects_ret|].
    change (mkdirLevels connect done (part :: next :: rest))
      with (attempt (runMpremote ["connect"; connect; "fs"; "mkdir";
                                  "/" +++ String.concat "/" (done ++ [part])]
                       false) ;;;
            mkdirLevels connect (done ++ [part]) (next :: rest)).
    apply neverRejects_bind; [apply neverRejects_attempt | intros _; apply IH].
Qed.

Lemma neverRejects_ensureParent connect deviceArg :
  neverRejects (ensureParent connect deviceArg).
Proof.
  unfold ensureParent.
  destruct (_ && _); [apply neverRejects_attempt | apply neverRejects_ret].
Qed.

(** The block that tries a copy once more never rejects. *)
Lemma neverRejects_retry {A} (m : M A) :
  neverRejects
    (ok <- resolved m ;;
     if ok then clearFileTreeCache ;;; ret true else ret false).
Proof.
  apply neverRejects_bind; [apply neverRejects_resolved|].
  intros []; [|apply neverRejects_ret].
  apply neverRejects_bind; [apply neverRejects_clear|].
  intros _. apply neverRejects_ret.
Qed.

(** The second part of both upload functions gives up with the error
    it was given. *)
Lemma rethrows_recover e (recover : M bool) (rest : M unit) :
  neverRejects recover -> rethrows e rest ->
  rethrows e (recovered <- recover ;; if recovered then ret tt else rest).
Proof.
  intros Hr Hrest. apply rethrows_bind; [exact Hr|].
  intros []; [apply rethrows_quiet, neverRejects_ret | exact Hrest].
Qed.

(** The common frame of both upload functions: the first block with
    its copy command, and a handler that adds events of the tool and
    gives up with the error of the first block. *)
Lemma first_try_ran env st connect deviceArg expected retry
    (handler : string -> M unit) :
  idle st = true ->
  (forall e, keeps (extends toolEvent) (handler e)) ->
  (forall e, rethrows e (handler e)) ->
  let m := tryCatch (ensureParent connect deviceArg ;;;
                     runMpremote expected retry ;;;
                     clearFileTreeCache) handler in
  exists evs,
    history (fst (m env st)) = history st ++ evs
    /\ (In expected (runsOf evs) \/ toolMissing evs)
    /\ forall e, snd (m env st) = Reject e ->
         e = toolNotFound
         \/ exists message err,
              In (EvExec expected (ExecErr message err)) evs
              /\ e = rejection message err.
Proof.
  intros Hi Hgrow Hre. cbv zeta.
  remember (tryCatch (ensureParent connect deviceArg ;;;
                      runMpremote expected retry ;;;
                      clearFileTreeCache) handler env st) as res eqn:Eres.
  unfold tryCatch, bind at 1 in Eres.
  destruct (safe_ensureParent connect deviceArg env st Hi) as [Hi1 Hn1].
  destruct (shape_ensureParent [] connect deviceArg env st) as (e1 & Hh1 & _).
  pose proof (neverRejects_ensureParent connect deviceArg env st) as Hr1.
  destruct (ensureParent connect deviceArg env st) as [st1 [[]|e|]];
    cbn [fst snd] in *; [| now specialize (Hr1 e) | congruence].
  clear Hr1 Hn1. unfold bind at 1 in Eres.
  destruct (runMpremote_ran expected retry env st1 Hi1) as (e2 & Hh2 & Hran).
  destruct (runMpremote expected retry env st1) as [st2 [out|e|]];
    cbn [fst snd] in *.
  - exists (e1 ++ e2 ++ []).
    apply (ran_between expected e1 e2 []) in Hran. destruct Hran as [Ha Hb].
    unfold clearFileTreeCache, modify in Eres. subst res.
    cbn [fst snd history withTreeCache].
    split; [now rewrite app_nil_r, Hh2, Hh1, app_assoc|].
    split; [exact Ha | discriminate].
  - destruct (Hgrow e env st2) as (e3 & Hh3 & _).
    exists (e1 ++ e2 ++ e3).
    apply (ran_between expected e1 e2 e3) in Hran. destruct Hran as [Ha Hb].
    subst res.
    split; [now rewrite Hh3, Hh2, Hh1, <- !app_assoc|].
    split; [exact Ha|]. intros e' He'.
    apply Hre in He'. subst e'. now apply Hb.
  - exists (e1 ++ e2 ++ []).
    apply (ran_between expected e1 e2 []) in Hran. destruct Hran as [Ha Hb].
    subst res. cbn [fst snd].
    split; [now rewrite app_nil_r, Hh2, Hh1, app_assoc|].
    split; [exact Ha | discriminate].
Qed.

(** The handler of [cpToDevice], by itself. *)
Definition cpRecovery (connect deviceArg : string) (copyArgs : list string)
    (error : string) : M unit :=
  markUnhealthy connect ;;;
  let errorStr := toLowerCase (errorText error) in
  recovered <-
    (if missingPathError errorStr then
       mkdirLevels connect [] (pathParts deviceArg) ;;;
       ok <- resolved (runMpremote copyArgs false) ;;
       if ok then clearFileTreeCache ;;; ret true else ret false
     else ret false) ;;
  if recovered then ret tt else
  recovered <-
    (if includes "read-only file system" errorStr then
       attempt (runMpremote ["connect"; connect; "fs"; "stat"; "/"] false) ;;;
       ok <- resolved
               (runMpremote ["connect"; connect; "reset"] false ;;;
                sleep 2000 ;;;
                runMpremote copyArgs false) ;;
       if ok then clearFileTreeCache ;;; ret true else
       ok <- resolved
               (runMpremote
                  ["connect"; connect; "exec";
                   "import os; os.umount('/'); os.mount(os.VfsFat(os.sdcard()), '/')"]
                  false ;;;
                runMpremote copyArgs false) ;;
       if ok then clearFileTreeCache ;;; ret true else
       attempt (runMpremote
                  ["connect"; connect; "exec";
                   "f = open('test_write.tmp', 'w'); f.write('test'); f.close()"]
                  false) ;;;
       ret false
     else ret false) ;;
  if recovered then ret tt else
  markUnhealthy connect ;;;
  throw error.


Lemma cpToDevice_eq l d env st :
  noConcretePort (configuredConnect env) = false ->
  cpToDevice l d env st
  = tryCatch
      (ensureParent (configuredConnect env) (pathArgOf d) ;;;
       runMpremote (plainCopy (configuredConnect env) l (pathArgOf d)) true ;;;
       clearFileTreeCache)
      (cpRecovery (configuredConnect env) (pathArgOf d)
         (plainCopy (configuredConnect env) l (pathArgOf d)))
      env (fst (getConnection (configuredConnect env) env st)).
Proof.
  intros Hport. enter cpToDevice. rewrite Hport. unfold bind at 1.
  destruct (steady_getConnection (configuredConnect env) env st)
    as (st1 & b & E1 & _).
  rewrite E1. reflexivity.
Qed.


Lemma cpToDevice_without_port l d env st :
  noConcretePort (configuredConnect env) = true ->
  cpToDevice l d env st = (st, Reject noPortMessage).
Proof. intros Hport. enter cpToDevice. now rewrite Hport. Qed.


Lemma tool_cpRecovery connect deviceArg copyArgs error :
  keeps (extends toolEvent) (cpRecovery connect deviceArg copyArgs error).
Proof.
  unfold cpRecovery. frames;
    try (apply shape_attempt, tool_run);
    try (apply shape_resolved; frames;
         try apply tool_run; try apply tool_sleep);
    try apply tool_run; try apply tool_mkdirLevels; try apply shape_clear.
Qed.


Lemma neverRejects_markUnhealthy port : neverRejects (markUnhealthy port).
Proof. apply neverRejects_steady, steady_markUnhealthy. Qed.

Lemma rethrows_cpRecovery connect deviceArg copyArgs error :
  rethrows error (cpRecovery connect deviceArg copyArgs error).
Proof.
  unfold cpRecovery.
  apply rethrows_bind; [apply neverRejects_markUnhealthy | intros _].
  cbv zeta. apply rethrows_recover.
  { destruct (missingPathError _); [|apply neverRejects_ret].
    apply neverRejects_bind; [apply neverRejects_mkdirLevels | intros _].
    apply neverRejects_retry. }
  apply rethrows_recover.
  { destruct (includes "read-only file system" _); [|apply neverRejects_ret].
    apply neverRejects_bind; [apply neverRejects_attempt | intros _].
    apply neverRejects_bind; [apply neverRejects_resolved | intros ok].
    destruct ok.
    { apply neverRejects_bind; [apply neverRejects_clear | intros _].
      apply neverRejects_ret. }
    apply neverRejects_bind; [apply neverRejects_resolved | intros ok].
    destruct ok.
    { apply neverRejects_bind; [apply neverRejects_clear | intros _].
      apply neverRejects_ret. }
    apply neverRejects_bind; [apply neverRejects_attempt | intros _].
    apply neverRejects_ret. }
  apply rethrows_bind; [apply neverRejects_markUnhealthy | intros _].
  apply rethrows_throw.
Qed.


(** What a call of an upload function leaves behind:
    - events of the tool only, and among them no copy command other
      than [expected];
    - when it resolves, the last event is the first successful copy;
      when it rejects, no copy has succeeded;
    - without a port, nothing at all;
    - with a port, a run of [expected], unless the tool was not found,
      and a rejection carries the error of a failed run of
      [expected]. *)
Definition uploadFacts (connect : string) (expected : list string)
    (evs : list Event) (r : Res unit) : Prop :=
  Forall toolEvent evs
  /\ (forall args, In args (copiesOf evs) -> args = expected)
  /\ match r with
     | Resolve _ => justCopied expected evs
     | Reject _ => noCopyDone evs
     | Pending => False
     end
  /\ (noConcretePort connect = true -> evs = [] /\ r = Reject noPortMessage)
  /\ (noConcretePort connect = false ->
      (In expected (runsOf evs) \/ toolMissing evs)
      /\ forall e, r = Reject e ->
           e = toolNotFound
           \/ exists message err,
                In (EvExec expected (ExecErr message err)) evs
                /\ e = rejection message err).

Lemma cpToDevice_run l d env st :
  idle st = true ->
  idle (fst (cpToDevice l d env st)) = true
  /\ exists evs,
       history (fst (cpToDevice l d env st)) = history st ++ evs
       /\ uploadFacts (configuredConnect env)
            (plainCopy (configuredConnect env) l (pathArgOf d)) evs
            (snd (cpToDevice l d env st)).
Proof.
  intros Hi.
  destruct (copying_cpToDevice env l d st Hi) as (Hidle & evs & Hh & Hout).
  split; [exact Hidle|]. exists evs. split; [exact Hh|].
  destruct (tool_cpToDevice l d env st) as (evs1 & Hh1 & Htool).
  rewrite Hh in Hh1. apply app_inv_head in Hh1. subst evs1.
  destruct (shape_cpToDevice l d env st) as (evs2 & Hh2 & Hshape).
  rewrite Hh in Hh2. apply app_inv_head in Hh2. subst evs2.
  split; [exact Htool|]. split; [now apply copies_of_shape|].
  split; [exact Hout|]. split.
  - intros Hport. rewrite (cpToDevice_without_port l d env st Hport) in *.
    cbn [fst snd] in *. split; [|reflexivity].
    rewrite <- (app_nil_r (history st)) in Hh at 1.
    apply app_inv_head in Hh. now subst evs.
  - intros Hport. rewrite (cpToDevice_eq l d env st Hport) in *.
    destruct (steady_getConnection (configuredConnect env) env st)
      as (st1 & b & E1 & [Hq _] & Hi1).
    rewrite E1 in *. cbn [fst] in *.
    destruct (first_try_ran env st1 (configuredConnect env) (pathArgOf d)
                (plainCopy (configuredConnect env) l (pathArgOf d)) true
                (cpRecovery (configuredConnect env) (pathArgOf d)
                   (plainCopy (configuredConnect env) l (pathArgOf d)))
                (Hi1 Hi)
                (tool_cpRecovery _ _ _) (rethrows_cpRecovery _ _ _))
      as (evs3 & Hh3 & Hran).
    rewrite Hq, Hh in Hh3. apply app_inv_head in Hh3. subst evs3.
    exact Hran.
Qed.


(** What the upload loop of the baseline sync does with one valid
    file: the answer of the second local check, the events of the
    copy, and whether the file counts as uploaded. *)
Record FileRun := {
  fr_file : string;
  fr_present : bool;
  fr_events : list Event;
  fr_uploaded : bool
}.

Definition eventsOf (wsPath : string) (r : FileRun) : list Event :=
  EvAccess (NodePath.join wsPath (fr_file r)) (fr_present r) :: fr_events r.

(** The plain copy command of the baseline sync for a manifest key. *)
Definition baselineCopy (env : Env) (wsPath rootPath relativePath : string)
  : list string :=
  plainCopy (configuredConnect env) (NodePath.join wsPath relativePath)
    (pathArgOf (NodePath.join rootPath relativePath)).

(** A file that is gone by the time of its upload is not copied and
    does not count as uploaded.  For a file that is still there, the
    copy command of the file is run, unless no port is selected or the
    tool is not found; no other copy command is run; and the file
    counts as uploaded exactly when a run of its copy command has
    succeeded, which is then the last event. *)
Definition fileRunOk (env : Env) (wsPath rootPath : string) (r : FileRun)
  : Prop :=
  let expected := baselineCopy env wsPath rootPath (fr_file r) in
  if fr_present r then
    Forall toolEvent (fr_events r)
    /\ (forall args, In args (copiesOf (fr_events r)) -> args = expected)
    /\ (if fr_uploaded r then justCopied expected (fr_events r)
        else noCopyDone (fr_events r))
    /\ (noConcretePort (configuredConnect env) = true -> fr_events r = [])
    /\ (noConcretePort (configuredConnect env) = false ->
        In expected (runsOf (fr_events r)) \/ toolMissing (fr_events r))
  else fr_events r = [] /\ fr_uploaded r = false.

Definition uploadedCount (runs : list FileRun) : nat :=
  List.length (filter fr_uploaded runs).

Definition failedCount (runs : list FileRun) : nat :=
  List.length (filter (fun r => negb (fr_uploaded r)) runs).

(** The warning about the files that the first local check did not
    find. *)
Definition warningEvents (missingFiles : list string) : list Event :=
  match missingFiles with
  | [] => []
  | _ :: _ => [EvWarning (missingFilesWarning missingFiles)]
  end.

(** The body of the upload loop, for one file. *)
Lemma uploadOne_run wsPath rootPath relativePath env st :
  idle st = true ->
  exists st' r,
    uploadOne wsPath rootPath relativePath env st
    = (st', Resolve (fr_uploaded r))
    /\ idle st' = true
    /\ fr_file r = relativePath
    /\ history st' = history st ++ eventsOf wsPath r
    /\ fileRunOk env wsPath rootPath r.
Proof.
  intros Hi. unfold uploadOne. unfold bind at 1. unfold access at 1.
  cbv beta iota zeta.
  set (l := NodePath.join wsPath relativePath).
  set (d := NodePath.join rootPath relativePath).
  destruct (localAccess env (history st) l) eqn:Ea.
  - set (st1 := withHistory (history st ++ [EvAccess l true]) st).
    assert (Hi1 : idle st1 = true) by exact Hi.
    destruct (cpToDevice_run l d env st1 Hi1)
      as (Hidle & evs & Hh & Htool & Hshape & Hout & Hnone & Hport).
    unfold resolved, tryCatch, bind.
    destruct (cpToDevice l d env st1) as [st2 [[]|e|]] eqn:Ecp;
      cbn [fst snd] in *; [| |contradiction].
    + exists st2, {| fr_file := relativePath; fr_present := true;
                     fr_events := evs; fr_uploaded := true |}.
      unfold ret. split; [reflexivity|]. split; [exact Hidle|].
      split; [reflexivity|]. split.
      * rewrite Hh. unfold st1, eventsOf. cbn [history withHistory fr_file
          fr_present fr_events]. now rewrite <- app_assoc.
      * unfold fileRunOk, baselineCopy.
        cbn [fr_file fr_present fr_events fr_uploaded].
        repeat split; auto.
        -- intros H. now destruct (Hnone H).
        -- intros H. now destruct (Hport H).
    + exists st2, {| fr_file := relativePath; fr_present := true;
                     fr_events := evs; fr_uploaded := false |}.
      unfold ret. split; [reflexivity|]. split; [exact Hidle|].
      split; [reflexivity|]. split.
      * rewrite Hh. unfold st1, eventsOf. cbn [history withHistory fr_file
          fr_present fr_events]. now rewrite <- app_assoc.
      * unfold fileRunOk, baselineCopy.
        cbn [fr_file fr_present fr_events fr_uploaded].
        repeat split; auto.
        -- intros H. now destruct (Hnone H).
        -- intros H. now destruct (Hport H).
  - eexists _, {| fr_file := relativePath; fr_present := false;
                  fr_events := []; fr_uploaded := false |}.
    unfold ret. split; [reflexivity|]. split; [exact Hi|].
    split; [reflexivity|]. split; [reflexivity|]. now split.
Qed.

(** The upload loop runs its body for every file it is given, in
    order and whatever the outcome of the files before, and counts
    the outcomes. *)
Lemma uploadFiles_runs wsPath rootPath validFiles report env st :
  idle st = true ->
  exists st' runs,
    uploadFiles wsPath rootPath validFiles report env st
    = (st', Resolve {| uploaded := uploaded report + uploadedCount runs;
                       failed := failed report + failedCount runs |})
    /\ idle st' = true
    /\ map fr_file runs = validFiles
    /\ history st' = history st ++ flat_map (eventsOf wsPath) runs
    /\ Forall (fileRunOk env wsPath rootPath) runs.
Proof.
  revert report st. induction validFiles as [|f rest IH]; intros report st Hi.
  - exists st, []. unfold uploadedCount, failedCount. simpl.
    rewrite !Nat.add_0_r, app_nil_r. unfold ret.
    repeat split; auto. now destruct report.
  - destruct (uploadOne_run wsPath rootPath f env st Hi)
      as (st1 & r & E1 & Hi1 & Hf & Hh1 & Hok).
    cbn [uploadFiles]. unfold bind at 1. rewrite E1.
    destruct (IH (if fr_uploaded r
                  then {| uploaded := S (uploaded report);
                          failed := failed report |}
                  else {| uploaded := uploaded report;
                          failed := S (failed report) |})
                st1 Hi1) as (st' & runs & E & Hi' & Hfiles & Hh & Hall).
    exists st', (r :: runs). rewrite E. split.
    + unfold uploadedCount, failedCount. cbn [filter].
      destruct (fr_uploaded r); cbn [negb uploaded failed List.length];
        do 2 f_equal; f_equal; lia.
    + split; [exact Hi'|]. split; [cbn [map]; congruence|]. split.
      * rewrite Hh, Hh1. cbn [flat_map]. now rewrite <- app_assoc.
      * now constructor.
Qed.

Lemma honest_uploadOne wsPath rootPath relativePath :
  honest (uploadOne wsPath rootPath relativePath).
Proof.
  unfold uploadOne. honestly. apply honest_resolved, honest_cpToDevice.
Qed.

Lemma honest_uploadFiles wsPath rootPath validFiles report :
  honest (uploadFiles wsPath rootPath validFiles report).
Proof.
  revert report. induction validFiles as [|f rest IH]; intros report;
    cbn [uploadFiles].
  - honestly.
  - apply honest_bind; [apply honest_uploadOne | intros ok; apply IH].
Qed.

Lemma honest_checkLocalFiles wsPath files :
  honest (checkLocalFiles wsPath files).
Proof.
  induction files as [|f rest IH]; cbn [checkLocalFiles].
  - honestly.
  - apply honest_bind; [apply honest_access | intros ok].
    apply honest_bind; [exact IH | intros [valid missing]].
    apply honest_ret.
Qed.

Lemma honest_uploadPhase wsPath rootPath files :
  honest (uploadPhase wsPath rootPath files).
Proof.
  unfold uploadPhase.
  apply honest_bind; [apply honest_checkLocalFiles | intros [valid missing]].
  apply honest_bind; [|intros _; apply honest_uploadFiles].
  destruct missing; [apply honest_ret|].
  apply honest_log. intros; exact I.
Qed.

(** C2.  From an idle state, for any list of files and whatever the
    tool and the local file system answer, the file part of the
    baseline upload resolves, and its events are those of
    - the local check of every file, after which the files that are
      not found are left out with one warning;
    - then, for every file that was found, in order and whatever
      happened to the files before it: the second local check and, if
      the file is still there, the run of its copy command (unless no
      port is selected or the tool is not found).
    Every check and every run in these events is the answer that the
    local file system or the tool gave at that point.  The file counts
    as uploaded exactly when a run of its copy command succeeded, and
    as failed otherwise; the two counts are those of the report.
    [syncBaseline] itself never rejects: with no file it does nothing,
    once the directories are there it is this file part and resolves,
    and when the directory part rejects it ends with the error
    message. *)
Theorem baseline_upload_tolerates_failures
    (wsPath rootPath : string) (files : list string) (env : Env) (st : St) :
  idle st = true ->
  exists checks runs st',
    List.length checks = List.length files
    /\ map fr_file runs = passed files checks
    /\ Forall (fileRunOk env wsPath rootPath) runs
    /\ uploadPhase wsPath rootPath files env st
       = (st', Resolve {| uploaded := uploadedCount runs;
                          failed := failedCount runs |})
    /\ history st'
       = history st ++ accessEvents wsPath files checks
         ++ warningEvents (notPassed files checks)
         ++ flat_map (eventsOf wsPath) runs
    /\ genuine env (history st)
         (accessEvents wsPath files checks
          ++ warningEvents (notPassed files checks)
          ++ flat_map (eventsOf wsPath) runs)
    /\ (forall e, snd (syncBaseline wsPath rootPath files env st) <> Reject e)
    /\ syncBaseline wsPath rootPath files env st
       = match files with
         | [] => (st, Resolve tt)
         | _ :: _ =>
             let (st1, r) := directoryPhase rootPath files env st in
             match r with
             | Resolve _ =>
                 (fst (uploadPhase wsPath rootPath files env st1), Resolve tt)
             | Reject e =>
                 log (EvErrorMessage ("Upload failed: " +++ e)) env st1
             | Pending => (st1, Pending)
             end
         end.
Proof.
  intros Hi.
  destruct (checkLocalFiles_run wsPath files env st)
    as (st1 & checks & Hlen & Echeck & Hh1 & Ha).
  set (st2 := match notPassed files checks with
              | [] => st1
              | _ :: _ =>
                  withHistory
                    (history st1
                     ++ [EvWarning (missingFilesWarning
                                      (notPassed files checks))]) st1
              end).
  assert (Hi2 : idle st2 = true).
  { unfold st2. destruct (notPassed files checks);
      unfold idle in *; cbn [activeConnections withHistory]; now rewrite Ha. }
  assert (Hh2 : history st2
                = history st1 ++ warningEvents (notPassed files checks)).
  { unfold st2, warningEvents. destruct (notPassed files checks);
      [now rewrite app_nil_r | reflexivity]. }
  destruct (uploadFiles_runs wsPath rootPath (passed files checks)
              {| uploaded := 0; failed := 0 |} env st2 Hi2)
    as (st' & runs & Eup & _ & Hfiles & Hh & Hall).
  exists checks, runs, st'.
  split; [exact Hlen|]. split; [exact Hfiles|]. split; [exact Hall|].
  assert (Ephase : uploadPhase wsPath rootPath files env st
                   = (st', Resolve {| uploaded := uploadedCount runs;
                                      failed := failedCount runs |})).
  { unfold uploadPhase, bind at 1. rewrite Echeck. cbv beta iota.
    unfold bind at 1.
    replace ((match notPassed files checks with
              | [] => ret tt
              | _ :: _ =>
                  log (EvWarning (missingFilesWarning (notPassed files checks)))
              end) env st1)
      with (st2, Resolve tt)
      by (unfold st2; destruct (notPassed files checks); reflexivity).
    cbv beta iota. exact Eup. }
  assert (Ehistory : history st'
                     = history st ++ accessEvents wsPath files checks
                       ++ warningEvents (notPassed files checks)
                       ++ flat_map (eventsOf wsPath) runs).
  { rewrite Hh, Hh2, Hh1. now rewrite <- !app_assoc. }
  split; [exact Ephase|]. split; [exact Ehistory|]. split; [|split].
  - apply (honest_added (uploadPhase wsPath rootPath files) env st);
      [apply honest_uploadPhase|].
    rewrite Ephase. exact Ehistory.
  - intros e. apply syncBaseline_never_rejects.
  - destruct files as [|f0 rest0] eqn:Efiles; [reflexivity|].
    rewrite <- Efiles in *.
    assert (Hne : files <> []) by (rewrite Efiles; discriminate).
    destruct (directoryPhase rootPath files env st) as [s1 [[]|e|]] eqn:Hdir;
      [| unfold syncBaseline, tryCatch, baselineUpload; rewrite Efiles;
         rewrite <- Efiles; unfold bind at 1; unfold bind at 1;
         rewrite Hdir; reflexivity ..].
    assert (Hi1 : idle s1 = true).
    { unfold directoryPhase in Hdir.
      destruct (sortedDirectories rootPath files) as [plan|] eqn:Ep;
        [|discriminate].
      destruct (safe_directoryPhase rootPath files plan Ep env st Hi)
        as [H _].
      unfold directoryPhase in H. rewrite Ep, Hdir in H. exact H. }
    assert (Hup : snd (uploadPhase wsPath rootPath files env s1)
                  <> Pending
                  /\ forall e, snd (uploadPhase wsPath rootPath files env s1)
                               <> Reject e).
    { destruct (safe_uploadPhase wsPath rootPath files env s1 Hi1) as [_ Hn].
      split; [exact Hn|]. intros e.
      unfold uploadPhase, bind at 1.
      destruct (checkLocalFiles_run wsPath files env s1)
        as (s2 & checks' & _ & Echeck' & _ & Ha').
      rewrite Echeck'. cbv beta iota. unfold bind at 1.
      assert (Hw : exists s3,
                (match notPassed files checks' with
                 | [] => ret tt
                 | _ :: _ =>
                     log (EvWarning
                            (missingFilesWarning (notPassed files checks')))
                 end) env s2 = (s3, Resolve tt)
                /\ idle s3 = true).
      { destruct (notPassed files checks'); eexists; (split; [reflexivity|]);
          unfold idle in *; cbn [activeConnections withHistory];
          now rewrite Ha'. }
      destruct Hw as (s3 & Ew & Hi3). rewrite Ew. cbv beta iota.
      destruct (uploadFiles_runs wsPath rootPath (passed files checks')
                  {| uploaded := 0; failed := 0 |} env s3 Hi3)
        as (s4 & runs' & Eup' & _).
      rewrite Eup'. discriminate. }
    destruct Hup as [Hnp Hnr].
    unfold syncBaseline, tryCatch, baselineUpload.
    destruct files as [|f rest]; [contradiction|].
    unfold bind at 1. unfold bind at 1. rewrite Hdir.
    destruct (uploadPhase wsPath rootPath (f :: rest) env s1)
      as [s5 [report|e|]]; cbn [fst snd] in *.
    + reflexivity.
    + now specialize (Hnr e).
    + congruence.
Qed.

(** Five files, of which the board refuses one, and five files, of
    which one is gone by the time of its upload: four files count as
    uploaded and one as failed. *)
Lemma baseline_upload_tolerates_failures_witness :
  (exists st',
     uploadPhase "/ws" "/" fiveFiles refusingBoard initialState
     = (st', Resolve {| uploaded := 4; failed := 1 |}))
  /\ (exists st',
        uploadPhase "/ws" "/" fiveFiles vanishingBoard initialState
        = (st', Resolve {| uploaded := 4; failed := 1 |})).
Proof.
  split.
  - destruct (baseline_upload_tolerates_failures "/ws" "/" fiveFiles
                refusingBoard initialState eq_refl)
      as (checks & runs & st' & _ & _ & _ & Hphase & _).
    exists st'.
    assert (E : snd (uploadPhase "/ws" "/" fiveFiles refusingBoard
                       initialState)
                = Resolve {| uploaded := 4; failed := 1 |})
      by (vm_compute; reflexivity).
    rewrite Hphase in E. cbn [snd] in E. now rewrite Hphase, E.
  - destruct (baseline_upload_tolerates_failures "/ws" "/" fiveFiles
                vanishingBoard initialState eq_refl)
      as (checks & runs & st' & _ & _ & _ & Hphase & _).
    exists st'.
    assert (E : snd (uploadPhase "/ws" "/" fiveFiles vanishingBoard
                       initialState)
                = Resolve {| uploaded := 4; failed := 1 |})
      by (vm_compute; reflexivity).
    rewrite Hphase in E. cbn [snd] in E. now rewrite Hphase, E.
Defined.

(** *** The upload of the diff sync *)

Section DiffSyncFacts.
Variable isDirectory : list Event -> string -> option bool.
Variable env : Env.
Variables wsPath rootPath : string.







End DiffSyncFacts.


(** *** The copy commands of the whole baseline sync *)

Section Among.
Variable env : Env.
Variable allowed : list (list string).












End Among.








(** ** Paths of the runtime *)

Lemma splitOn_sep_char f c r :
  f c = true -> splitOn f (String c r) = "" :: splitOn f r.
Proof. intros H. simpl. now rewrite H. Qed.

Lemma splitOn_other_char f c r :
  f c = false ->
  splitOn f (String c r)
  = match splitOn f r with
    | h :: t => String c h :: t
    | [] => [String c ""]
    end.
Proof. intros H. simpl. now rewrite H. Qed.

Lemma splitOn_noSlash s : noSlash s = true -> splitOn isSlash s = [s].
Proof.
  induction s as [|c s IH]; [reflexivity|].
  intros H. simpl in H. apply andb_prop in H as [Hc Hs].
  apply negb_true_iff in Hc.
  rewrite splitOn_other_char by assumption. now rewrite IH.
Qed.

Lemma splitOn_sep s r :
  noSlash s = true ->
  splitOn isSlash (s +++ "/" +++ r) = s :: splitOn isSlash r.
Proof.
  induction s as [|c s IH]; intros H.
  - change ("" +++ "/" +++ r) with (String "/" r).
    now rewrite splitOn_sep_char.
  - simpl in H. apply andb_prop in H as [Hc Hs].
    apply negb_true_iff in Hc.
    change (String c s +++ "/" +++ r) with (String c (s +++ "/" +++ r)).
    rewrite splitOn_other_char by assumption. now rewrite IH.
Qed.

Lemma splitOn_concat l :
  l <> [] -> Forall (fun s => noSlash s = true) l ->
  splitOn isSlash (String.concat "/" l) = l.
Proof.
  induction l as [|x l IH]; [congruence|]. intros _ HF.
  inversion HF as [|? ? Hx Hl]; subst.
  destruct l as [|y l].
  - simpl. now apply splitOn_noSlash.
  - change (String.concat "/" (x :: y :: l))
      with (x +++ "/" +++ String.concat "/" (y :: l)).
    rewrite splitOn_sep by assumption. f_equal. apply IH; auto. discriminate.
Qed.

Lemma splitOn_parts_noSlash s :
  Forall (fun x => noSlash x = true) (splitOn isSlash s).
Proof.
  induction s as [|c s IH].
  - repeat constructor.
  - destruct (isSlash c) eqn:Ec.
    + rewrite splitOn_sep_char by assumption. constructor; auto.
    + rewrite splitOn_other_char by assumption.
      destruct (splitOn isSlash s) as [|h t]; inversion IH; subst.
      * repeat constructor. simpl. now rewrite Ec.
      * constructor; auto. simpl. now rewrite Ec.
Qed.

Lemma good_noSlash l : good l -> Forall (fun s => noSlash s = true) l.
Proof.
  apply Forall_impl. intros s H. unfold goodSeg in H.
  now apply andb_prop in H as [_ H].
Qed.

Lemma good_nonEmpty l : good l -> filter nonEmpty l = l.
Proof.
  induction 1 as [|s l Hs _ IH]; simpl; auto.
  unfold goodSeg in Hs. apply andb_prop in Hs as [Hs _].
  now rewrite Hs, IH.
Qed.

Lemma good_app a b : good a -> good b -> good (a ++ b).
Proof. intros. apply Forall_app. now split. Qed.


Lemma good_removelast l : good l -> good (removelast l).
Proof.
  intros H. destruct l as [|x l] using rev_ind; auto.
  rewrite removelast_last. apply Forall_app in H. tauto.
Qed.

Lemma concat_last l x :
  l <> [] ->
  String.concat "/" (l ++ [x]) = String.concat "/" l +++ "/" +++ x.
Proof.
  induction l as [|y l IH]; [congruence|]. intros _.
  destruct l as [|z l].
  - reflexivity.
  - change (String.concat "/" ((y :: z :: l) ++ [x]))
      with (y +++ "/" +++ String.concat "/" ((z :: l) ++ [x])).
    rewrite IH by discriminate.
    change (String.concat "/" (y :: z :: l))
      with (y +++ "/" +++ String.concat "/" (z :: l)).
    now rewrite !append_assoc.
Qed.

(** The segments of a directory are the segments it was made of. *)
Lemma segments_mkAbs l : good l -> segments (mkAbs l) = l.
Proof.
  intros H. unfold segments, mkAbs, splitSlash.
  change ("/" +++ String.concat "/" l) with (String "/" (String.concat "/" l)).
  rewrite splitOn_sep_char by reflexivity.
  destruct l as [|x l].
  - reflexivity.
  - rewrite splitOn_concat; [| discriminate | now apply good_noSlash].
    change (filter nonEmpty ("" :: x :: l)) with (filter nonEmpty (x :: l)).
    now apply good_nonEmpty.
Qed.



Lemma normSegs_good todo stack :
  Forall (fun s => noSlash s = true) todo -> good stack ->
  good (normSegs false todo stack).
Proof.
  revert stack. induction todo as [|seg rest IH]; intros stack Htodo Hstack.
  - simpl. now apply Forall_rev.
  - inversion Htodo as [|? ? Hseg Hrest]; subst. cbn [normSegs].
    destruct (String.eqb seg "" || String.eqb seg ".") eqn:E1; [now apply IH|].
    destruct (String.eqb seg "..").
    + destruct stack as [|top below]; [now apply IH|].
      inversion Hstack; subst.
      destruct (String.eqb top ".."); now apply IH.
    + apply IH; auto. constructor; auto.
      unfold goodSeg. rewrite Hseg.
      destruct seg; [discriminate | reflexivity].
Qed.

Lemma concat_good_empty l : good l -> String.concat "/" l = "" -> l = [].
Proof.
  intros H E. destruct l as [|x l]; auto.
  inversion H as [|? ? Hx _]; subst.
  destruct x; [discriminate Hx|].
  destruct l; simpl in E; discriminate E.
Qed.

Lemma startsWith_slash s :
  startsWith "/" s = true -> exists r, s = String "/" r.
Proof.
  unfold startsWith. intros H. destruct s as [|c r]; [discriminate H|].
  cbn [String.prefix] in H.
  destruct (ascii_dec "/" c) as [<-|]; [eauto | discriminate H].
Qed.

(** An absolute path normalizes to a directory made of segments, with
    the trailing slash of the input, if any. *)
Lemma normalize_abs rest :
  exists l, good l
    /\ (normalize (String "/" rest) = mkAbs l
        \/ (l <> [] /\ normalize (String "/" rest) = mkAbs l +++ "/")).
Proof.
  set (l := normSegs false (splitSlash (String "/" rest)) []).
  assert (Hl : good l).
  { apply normSegs_good; [apply splitOn_parts_noSlash | constructor]. }
  exists l. split; [exact Hl|].
  unfold normalize.
  change (String.eqb (String "/" rest) "") with false. cbv iota.
  assert (Habs : startsWith "/" (String "/" rest) = true).
  { unfold startsWith. simpl. destruct (ascii_dec "/" "/"); [|congruence].
    apply prefix_nil. }
  rewrite Habs. cbn [negb]. fold l.
  destruct (String.eqb (String.concat "/" l) "") eqn:E.
  - apply String.eqb_eq in E. apply concat_good_empty in E; auto.
    left. now rewrite E.
  - destruct (endsWithSlash (String "/" rest)).
    + right. split; [|reflexivity].
      intros ->. discriminate.
    + now left.
Qed.

Lemma join_abs root rel :
  startsWith "/" root = true ->
  exists l, good l
    /\ (join root rel = mkAbs l
        \/ (l <> [] /\ join root rel = mkAbs l +++ "/")).
Proof.
  intros H. apply startsWith_slash in H as [r ->].
  unfold join. cbn [nonEmpty].
  destruct (nonEmpty rel); apply normalize_abs.
Qed.

(** *** [dirname] *)

Lemma list_of_append a b :
  list_ascii_of_string (a +++ b)
  = list_ascii_of_string a ++ list_ascii_of_string b.
Proof. induction a; simpl; congruence. Qed.

Lemma dropWhile_all {A} (f : A -> bool) l r :
  Forall (fun x => f x = true) l -> dropWhile f (l ++ r) = dropWhile f r.
Proof.
  induction 1 as [|x l Hx _ IH]; simpl; auto. now rewrite Hx.
Qed.

Lemma dropWhile_stop {A} (f : A -> bool) x l :
  f x = false -> dropWhile f (x :: l) = x :: l.
Proof. intros H. simpl. now rewrite H. Qed.

Lemma noSlash_chars s :
  noSlash s = true ->
  Forall (fun c => negb (isSlash c) = true) (list_ascii_of_string s).
Proof.
  induction s as [|c s IH]; simpl; [constructor|].
  intros H. apply andb_prop in H as [Hc Hs]. constructor; auto.
Qed.

(** The scan of [dirname] over a path that ends in a good segment,
    with or without a trailing slash, passes that segment. *)
Lemma dirname_scan (before : list ascii) (s t : string) :
  goodSeg s = true -> (t = "" \/ t = "/") ->
  dropWhile (fun c => negb (isSlash c))
    (dropWhile isSlash
       (rev (before ++ list_ascii_of_string s ++ list_ascii_of_string t)))
  = dropWhile (fun c => negb (isSlash c)) (rev before).
Proof.
  intros Hs Ht. unfold goodSeg in Hs. apply andb_prop in Hs as [Hne Hns].
  rewrite !rev_app_distr, <- app_assoc.
  assert (Hstop : dropWhile isSlash (rev (list_ascii_of_string s) ++ rev before)
                  = rev (list_ascii_of_string s) ++ rev before).
  { destruct (rev (list_ascii_of_string s)) as [|c r] eqn:E.
    - apply (f_equal (@rev ascii)) in E. rewrite rev_involutive in E.
      destruct s; discriminate.
    - assert (Hin : In c (list_ascii_of_string s)).
      { apply in_rev. rewrite E. now left. }
      pose proof (noSlash_chars s Hns) as HF.
      rewrite Forall_forall in HF. specialize (HF c Hin).
      apply negb_true_iff in HF.
      change ((c :: r) ++ rev before) with (c :: (r ++ rev before)).
      now apply dropWhile_stop. }
  assert (Hdrop : dropWhile isSlash
            (rev (list_ascii_of_string t)
             ++ rev (list_ascii_of_string s) ++ rev before)
          = rev (list_ascii_of_string s) ++ rev before).
  { destruct Ht as [-> | ->].
    - exact Hstop.
    - change (rev (list_ascii_of_string "/")) with ["/"%char].
      change (["/"%char] ++ rev (list_ascii_of_string s) ++ rev before)
        with ("/"%char :: (rev (list_ascii_of_string s) ++ rev before)).
      cbn [dropWhile]. change (isSlash "/") with true. cbv iota.
      exact Hstop. }
  rewrite Hdrop.
  apply (dropWhile_all (fun c => negb (isSlash c))).
  apply Forall_rev. now apply noSlash_chars.
Qed.

(** The parent of a directory made of segments, with or without a
    trailing slash, is the directory made of all but the last. *)
Lemma dirname_mkAbs l s t :
  good l -> goodSeg s = true -> (t = "" \/ t = "/") ->
  dirname (mkAbs (l ++ [s]) +++ t) = mkAbs l.
Proof.
  intros Hl Hs Ht. unfold mkAbs.
  change (("/" +++ String.concat "/" (l ++ [s])) +++ t)
    with (String "/" (String.concat "/" (l ++ [s]) +++ t)).
  unfold dirname. change (isSlash "/") with true. cbv iota.
  destruct l as [|x l].
  - (* a directory of the root *)
    change (String.concat "/" ([] ++ [s])) with s.
    rewrite list_of_append.
    pose proof (dirname_scan [] s t Hs Ht) as Hscan.
    cbn [app] in Hscan. rewrite Hscan. reflexivity.
  - rewrite concat_last by discriminate.
    rewrite !append_assoc, !list_of_append.
    replace (list_ascii_of_string (String.concat "/" (x :: l))
             ++ list_ascii_of_string "/"
             ++ list_ascii_of_string s ++ list_ascii_of_string t)
      with ((list_ascii_of_string (String.concat "/" (x :: l)) ++ ["/"%char])
             ++ list_ascii_of_string s ++ list_ascii_of_string t)
      by (now rewrite <- app_assoc).
    rewrite dirname_scan by assumption.
    rewrite rev_app_distr.
    change (rev ["/"%char] ++ rev (list_ascii_of_string (String.concat "/" (x :: l))))
      with ("/"%char :: rev (list_ascii_of_string (String.concat "/" (x :: l)))).
    rewrite dropWhile_stop by reflexivity.
    destruct (rev (list_ascii_of_string (String.concat "/" (x :: l))))
      as [|c r] eqn:E.
    + apply (f_equal (@rev ascii)) in E. rewrite rev_involutive in E.
      apply (f_equal string_of_list_ascii) in E.
      rewrite string_of_list_ascii_of_string in E.
      apply concat_good_empty in E; [discriminate | exact Hl].
    + rewrite <- E, rev_involutive, string_of_list_ascii_of_string.
      reflexivity.
Qed.

Lemma dirname_root t : (t = "" \/ t = "/") -> dirname (mkAbs [] +++ t) = "/".
Proof. intros [-> | ->]; reflexivity. Qed.

(** ** The directory plan *)

Lemma setHas_In k s : setHas k s = true <-> In k s.
Proof.
  induction s as [|x s IH]; simpl; [split; [discriminate | tauto]|].
  rewrite orb_true_iff, IH, String.eqb_eq. tauto.
Qed.

Lemma setAdd_In x k s : In x (setAdd k s) <-> In x s \/ x = k.
Proof.
  unfold setAdd. destruct (setHas k s) eqn:E.
  - apply setHas_In in E. split; [tauto|]. intros [H | ->]; auto.
  - rewrite in_app_iff. simpl. intuition.
Qed.

Lemma climb_eq fuel root cur acc :
  climb fuel root cur acc
  = if negb (String.eqb cur root) && negb (String.eqb cur "/")
    then match fuel with
         | O => None
         | S fuel' => climb fuel' root (dirname cur) (setAdd cur acc)
         end
    else Some acc.
Proof. destruct fuel; reflexivity. Qed.



Lemma length_append (a b : string) :
  String.length (a +++ b) = String.length a + String.length b.
Proof. induction a; simpl; congruence. Qed.





Lemma insertByDepth_In x d l : In x (insertByDepth d l) <-> x = d \/ In x l.
Proof.
  induction l as [|y l IH]; simpl; [intuition|].
  destruct (Nat.leb (depth y) (depth d)); simpl; rewrite ?IH; intuition.
Qed.

Lemma insertByDepth_sorted d l :
  StronglySorted shallower l -> StronglySorted shallower (insertByDepth d l).
Proof.
  induction 1 as [|y l Hs IH Hy]; simpl.
  - repeat constructor.
  - destruct (Nat.leb (depth y) (depth d)) eqn:E.
    + apply Nat.leb_le in E. constructor; auto.
      rewrite Forall_forall in *. intros x Hx.
      apply insertByDepth_In in Hx as [-> | Hx]; auto.
    + apply Nat.leb_gt in E. constructor.
      * constructor; auto.
      * constructor; [unfold shallower; lia|].
        rewrite Forall_forall in *. intros x Hx.
        specialize (Hy x Hx). unfold shallower in *. lia.
Qed.

Lemma sortByDepth_spec dirs acc :
  StronglySorted shallower acc ->
  StronglySorted shallower
    (fold_left (fun acc d => insertByDepth d acc) dirs acc)
  /\ forall x,
       In x (fold_left (fun acc d => insertByDepth d acc) dirs acc)
       <-> In x dirs \/ In x acc.
Proof.
  revert acc. induction dirs as [|d dirs IH]; intros acc Hacc; simpl.
  - split; [exact Hacc | intuition].
  - destruct (IH (insertByDepth d acc) (insertByDepth_sorted d acc Hacc))
      as [Hs Hin].
    split; [exact Hs|]. intros x. rewrite Hin, insertByDepth_In. intuition.
Qed.


(** Why the root path has to be absolute: below the empty root path
    the chain of a relative directory reaches ["."], which is its own
    parent and neither the root path nor ["/"], so the loop does not
    end, whatever the fuel. *)
Lemma climb_from_dot fuel acc : climb fuel "" "." acc = None.
Proof.
  revert acc. induction fuel as [|fuel IH]; intros acc; [reflexivity|].
  cbn [climb]. change (dirname ".") with ".". apply IH.
Qed.

Lemma climb_below_the_empty_root fuel acc : climb fuel "" "a" acc = None.
Proof.
  destruct fuel as [|fuel]; [reflexivity|].
  cbn [climb]. change (dirname "a") with ".". apply climb_from_dot.
Qed.



(** The example of the specification. *)
Lemma directory_plan_example :
  sortedDirectories "/" ["a/b/c/file.py"; "a/file2.py"]
  = Some ["/a"; "/a/b"; "/a/b/c"]
  /\ sortedDirectories "/app/" ["a/b/c/file.py"; "a/file2.py"; "main.py"; "z/q.py"]
     = Some ["/app"; "/app/a"; "/app/z"; "/app/a/b"; "/app/a/b/c"].
Proof. split; reflexivity. Qed.


(* ================================================================== *)
(** * Further properties of the sources *)

From Stdlib Require Import Sorting.Permutation.

(** ** The path mapping of the command module *)

Lemma length_append_slash (s : string) :
  String.length (s +++ "/") = String.length s + 1.
Proof. rewrite length_append. reflexivity. Qed.

(** The mappings of the command module are inverse to each other on
    every relative path and every root: the device path of [localRel]
    maps back to [localRel]. *)
Theorem commands_path_round_trip (localRel rootPath : string) :
  Commands.toLocalRelative (Commands.toDevicePath localRel rootPath) rootPath
  = localRel.
Proof.
  unfold Commands.toLocalRelative, Commands.toDevicePath.
  set (normRoot := if String.eqb rootPath "/" then "/"
                   else stripTrailingSlash rootPath).
  destruct (String.eqb normRoot "/") eqn:E.
  - reflexivity.
  - rewrite <- (append_assoc normRoot "/" localRel).
    unfold startsWith. rewrite prefix_append.
    rewrite <- length_append_slash. apply slice_append.
Qed.

(** ** The tree view: where a node goes *)

Lemma lastSlashIndex_noSlash (s : string) (i : nat) (found : option nat) :
  noSlash s = true -> lastSlashIndex s i found = found.
Proof.
  revert i found. induction s as [|c r IH]; intros i found H; [reflexivity|].
  simpl in *. apply andb_prop in H as [Hc Hr].
  rewrite IH by assumption. now destruct (isSlash c).
Qed.

Lemma lastSlashIndex_append (a b : string) (i : nat) (found : option nat) :
  lastSlashIndex (a +++ b) i found
  = lastSlashIndex b (i + String.length a) (lastSlashIndex a i found).
Proof.
  revert i found. induction a as [|c r IH]; intros i found; simpl.
  - now rewrite Nat.add_0_r.
  - rewrite IH. now rewrite Nat.add_succ_r.
Qed.

Lemma lastSlashIndex_child (dir name : string) :
  noSlash name = true ->
  lastSlashIndex (dir +++ "/" +++ name) 0 None = Some (String.length dir).
Proof.
  intros H. rewrite lastSlashIndex_append. cbn [String.append lastSlashIndex].
  change (isSlash "/") with true. cbv iota.
  now rewrite lastSlashIndex_noSlash.
Qed.

Lemma substring_append (a b : string) :
  String.substring 0 (String.length a) (a +++ b) = a.
Proof.
  induction a as [|c r IH]; simpl.
  - now destruct b.
  - now rewrite IH.
Qed.

Lemma includes_cons (p : string) (c : ascii) (r : string) :
  includes p (String c r)
  = if String.prefix p (String c r) then true else includes p r.
Proof. reflexivity. Qed.

Lemma includes_append_slash (a b : string) : includes "/" (a +++ "/" +++ b) = true.
Proof.
  induction a as [|c r IH].
  - change ("" +++ "/" +++ b) with (String "/" b). rewrite includes_cons.
    now rewrite (prefix_append "/" b : String.prefix "/" (String "/" b) = true).
  - change (String c r +++ "/" +++ b) with (String c (r +++ "/" +++ b)).
    rewrite includes_cons, IH. now destruct (String.prefix _ _).
Qed.

Lemma splitOn_nonempty (f : ascii -> bool) (s : string) : splitOn f s <> [].
Proof.
  destruct s as [|c r]; simpl; [discriminate|].
  destruct (f c); [discriminate|]. destruct (splitOn f r); discriminate.
Qed.

(** Splitting distributes over a separator. *)
Lemma splitOn_app_sep (f : ascii -> bool) (a : string) (c : ascii) (b : string) :
  f c = true ->
  splitOn f (a +++ String c b) = splitOn f a ++ splitOn f b.
Proof.
  intros Hc. induction a as [|x r IH].
  - cbn [String.append]. rewrite splitOn_sep_char by assumption. reflexivity.
  - cbn [String.append]. destruct (f x) eqn:Ex.
    + rewrite !splitOn_sep_char by assumption. now rewrite IH.
    + rewrite !splitOn_other_char by assumption. rewrite IH.
      destruct (splitOn f r) as [|h t] eqn:Es; [|reflexivity].
      now apply splitOn_nonempty in Es.
Qed.

Lemma last_app_nonempty {A} (l1 l2 : list A) (d : A) :
  l2 <> [] -> last (l1 ++ l2) d = last l2 d.
Proof.
  intros H. induction l1 as [|x l1 IH]; [reflexivity|].
  simpl. rewrite IH. destruct (l1 ++ l2) eqn:E; [|reflexivity].
  apply app_eq_nil in E as [_ E]. contradiction.
Qed.

Lemma last_splitOn_child (dir name : string) :
  noSlash name = true ->
  last (splitOn isSlash (dir +++ "/" +++ name)) "" = name.
Proof.
  intros H. change (dir +++ "/" +++ name) with (dir +++ String "/" name).
  rewrite splitOn_app_sep by reflexivity.
  rewrite last_app_nonempty by apply splitOn_nonempty.
  now rewrite splitOn_noSlash.
Qed.

(** The path that the listing gives to a child and the place where
    [addNode] files a node of that path agree: for a directory [dir]
    and an entry [name], a file name without slash, the parent of the
    child path is [dir] and its last segment is [name]. *)
Theorem addNode_files_under_listed_parent (dir name : string) :
  dir <> "" -> name <> "" -> noSlash name = true ->
  View.parentPathOf (View.childPathOf dir name) = dir
  /\ View.nameOf (View.childPathOf dir name) = name.
Proof.
  intros Hdir Hname Hns.
  assert (Hlen : forall d, Nat.ltb (S (String.length d))
                             (String.length (d +++ "/" +++ name)) = true).
  { intros d. rewrite !length_append. destruct name; [contradiction|].
    apply Nat.ltb_lt. simpl. lia. }
  assert (Hparent : forall d, View.dropLastSegment (d +++ "/" +++ name) = d).
  { intros d. unfold View.dropLastSegment.
    rewrite lastSlashIndex_child by assumption. rewrite Hlen.
    apply substring_append. }
  unfold View.childPathOf. destruct (String.eqb dir "/") eqn:E.
  - apply String.eqb_eq in E. subst dir. split.
    + unfold View.parentPathOf.
      change ("/" +++ name) with ("" +++ "/" +++ name).
      now rewrite includes_append_slash, Hparent.
    + apply (last_splitOn_child "" name Hns).
  - split.
    + unfold View.parentPathOf. rewrite includes_append_slash, Hparent.
      destruct dir; [contradiction|reflexivity].
    + now apply last_splitOn_child.
Qed.

Lemma addNode_files_under_listed_parent_witness :
  View.parentPathOf (View.childPathOf "/lib" "utils.py") = "/lib"
  /\ View.nameOf (View.childPathOf "/lib" "utils.py") = "utils.py".
Proof.
  apply addNode_files_under_listed_parent;
    [discriminate | discriminate | reflexivity].
Defined.

(** ** The tree view: the node cache *)

Lemma mapGet_mapSet_other {V} k k' (v : V) m :
  k' <> k -> mapGet k' (mapSet k v m) = mapGet k' m.
Proof.
  intros Hk. induction m as [|[a b] m IH]; simpl.
  - destruct (String.eqb k k') eqn:E; [|reflexivity].
    apply String.eqb_eq in E. congruence.
  - destruct (String.eqb a k) eqn:E; simpl.
    + apply String.eqb_eq in E. subst a.
      destruct (String.eqb k k') eqn:E'; [|reflexivity].
      apply String.eqb_eq in E'. congruence.
    + destruct (String.eqb a k'); [reflexivity | exact IH].
Qed.

Lemma hasName_In n siblings :
  View.hasName n siblings = true <-> In n (map View.name siblings).
Proof.
  unfold View.hasName. rewrite existsb_exists, in_map_iff. split.
  - intros (x & Hx & E). apply String.eqb_eq in E. eauto.
  - intros (x & E & Hx). exists x. split; [exact Hx|].
    now apply String.eqb_eq.
Qed.

(** [addNode] keeps the names under every directory distinct, and the
    node it was given is listed under its parent afterwards, whatever
    order the sort of the runtime produces. *)
Theorem addNode_keeps_names_distinct
    (sortNodes : list View.Esp32Node -> list View.Esp32Node)
    (path : string) (isDir : bool)
    (nodeCache : list (string * list View.Esp32Node)) :
  (forall l, Permutation (sortNodes l) l) ->
  (forall dir siblings, mapGet dir nodeCache = Some siblings ->
     NoDup (map View.name siblings)) ->
  let nodeCache' := View.addNode sortNodes path isDir nodeCache in
  (forall dir siblings, mapGet dir nodeCache' = Some siblings ->
     NoDup (map View.name siblings))
  /\ exists siblings,
       mapGet (View.parentPathOf path) nodeCache' = Some siblings
       /\ View.hasName (View.nameOf path) siblings = true.
Proof.
  intros Hsort Hinv nodeCache'. subst nodeCache'. unfold View.addNode.
  set (parent := View.parentPathOf path).
  set (node := {| View.kind := if isDir then View.KDir else View.KFile;
                  View.name := View.nameOf path; View.path := path |}).
  set (old := match mapGet parent nodeCache with Some s => s | None => [] end).
  assert (Hold : NoDup (map View.name old)).
  { subst old. destruct (mapGet parent nodeCache) eqn:E; [eauto | constructor]. }
  set (new := if negb (View.hasName (View.nameOf path) old)
              then sortNodes (old ++ [node]) else old).
  assert (Hnew : NoDup (map View.name new)
                 /\ View.hasName (View.nameOf path) new = true).
  { subst new. destruct (View.hasName (View.nameOf path) old) eqn:E; simpl.
    - split; [exact Hold | exact E].
    - assert (Hp : Permutation
                     (map View.name (sortNodes (old ++ [node])))
                     (map View.name (old ++ [node])))
        by (apply Permutation_map, Hsort).
      split.
      + eapply Permutation_NoDup;
          [apply Permutation_sym, Hp|].
        rewrite map_app. simpl.
        apply NoDup_app; [exact Hold | repeat constructor; intros [] |].
        intros x Hx [Hy | []]. subst x.
        apply hasName_In in Hx. simpl in Hx. congruence.
      + apply hasName_In.
        eapply Permutation_in;
          [apply Permutation_sym, Hp|].
        rewrite map_app. apply in_or_app. right. now left. }
  split.
  - intros dir siblings Hget.
    destruct (String.eqb dir parent) eqn:E.
    + apply String.eqb_eq in E. subst dir.
      rewrite mapGet_mapSet in Hget. inversion Hget; subst. apply Hnew.
    + apply String.eqb_neq in E.
      rewrite mapGet_mapSet_other in Hget by assumption. eauto.
  - exists new. split; [apply mapGet_mapSet | apply Hnew].
Qed.

(** A cache that lists [boot.py] and [utils.py] under [/lib]. *)
Definition libCache : list (string * list View.Esp32Node) :=
  [("/lib", [{| View.kind := View.KFile; View.name := "boot.py";
                View.path := "/lib/boot.py" |};
             {| View.kind := View.KFile; View.name := "utils.py";
                View.path := "/lib/utils.py" |}])].

Lemma addNode_keeps_names_distinct_witness :
  (forall dir siblings,
     mapGet dir (View.addNode (fun l => l) "/lib/utils.py" false libCache)
     = Some siblings ->
     NoDup (map View.name siblings))
  /\ exists siblings,
       mapGet "/lib" (View.addNode (fun l => l) "/lib/utils.py" false libCache)
       = Some siblings
       /\ View.hasName "utils.py" siblings = true.
Proof.
  apply (addNode_keeps_names_distinct (fun l => l) "/lib/utils.py" false
           libCache).
  - intros l. apply Permutation_refl.
  - intros dir siblings H. unfold libCache in H. cbn [mapGet] in H.
    destruct (String.eqb "/lib" dir); [|discriminate].
    inversion H; subst. simpl.
    repeat constructor; simpl; intuition discriminate.
Defined.

Lemma mapGet_None_keys {V} k (m : list (string * V)) :
  mapGet k m = None <-> ~ In k (map fst m).
Proof.
  induction m as [|[a b] m IH]; simpl; [tauto|].
  destruct (String.eqb a k) eqn:E.
  - apply String.eqb_eq in E. split; [discriminate | tauto].
  - apply String.eqb_neq in E. rewrite IH. tauto.
Qed.

Lemma keys_mapSet {V} k (v : V) m x :
  In x (map fst (mapSet k v m)) <-> x = k \/ In x (map fst m).
Proof.
  induction m as [|[a b] m IH]; simpl; [intuition|].
  destruct (String.eqb a k) eqn:E; simpl.
  - apply String.eqb_eq in E. subst. intuition.
  - rewrite IH. intuition.
Qed.

Lemma NoDup_keys_mapSet {V} k (v : V) m :
  NoDup (map fst m) -> NoDup (map fst (mapSet k v m)).
Proof.
  induction m as [|[a b] m IH]; simpl; intros H.
  - repeat constructor. intros [].
  - inversion H; subst. destruct (String.eqb a k) eqn:E; simpl.
    + apply String.eqb_eq in E. subst. now constructor.
    + constructor; [|auto]. rewrite keys_mapSet. intros [-> | Hin]; [|auto].
      now rewrite String.eqb_refl in E.
Qed.

Lemma mapGet_mapDelete {V} k (m : list (string * V)) :
  NoDup (map fst m) -> mapGet k (View.mapDelete k m) = None.
Proof.
  induction m as [|[a b] m IH]; simpl; intros H; [reflexivity|].
  inversion H; subst. destruct (String.eqb a k) eqn:E.
  - apply String.eqb_eq in E. subst. now apply mapGet_None_keys.
  - simpl. rewrite E. auto.
Qed.

Lemma mapGet_mapDelete_other {V} k k' (m : list (string * V)) :
  k' <> k -> mapGet k' (View.mapDelete k m) = mapGet k' m.
Proof.
  intros Hk. induction m as [|[a b] m IH]; simpl; [reflexivity|].
  destruct (String.eqb a k) eqn:E; simpl.
  - apply String.eqb_eq in E. subst a.
    destruct (String.eqb k k') eqn:E'; [|reflexivity].
    apply String.eqb_eq in E'. congruence.
  - destruct (String.eqb a k'); [reflexivity | exact IH].
Qed.

Lemma dropFirstNamed_names n siblings :
  NoDup (map View.name siblings) ->
  ~ In n (map View.name (View.dropFirstNamed n siblings)).
Proof.
  induction siblings as [|x r IH]; simpl; intros H; [tauto|].
  inversion H; subst. destruct (String.eqb (View.name x) n) eqn:E.
  - apply String.eqb_eq in E. now subst n.
  - apply String.eqb_neq in E. simpl. intros [Hx | Hin]; [congruence|].
    now apply IH.
Qed.

(** After [removeNode], with distinct names under every directory and
    one cache entry per directory, the node is gone from the listing
    of its parent and the path has no listing of its own. *)
Theorem removeNode_forgets_the_node (path : string)
    (nodeCache : list (string * list View.Esp32Node)) :
  NoDup (map fst nodeCache) ->
  (forall dir siblings, mapGet dir nodeCache = Some siblings ->
     NoDup (map View.name siblings)) ->
  let nodeCache' := View.removeNode path nodeCache in
  mapGet path nodeCache' = None
  /\ forall siblings,
       mapGet (View.parentPathOf path) nodeCache' = Some siblings ->
       View.hasName (View.nameOf path) siblings = false.
Proof.
  intros Hkeys Hinv nodeCache'. subst nodeCache'. unfold View.removeNode.
  set (parent := View.parentPathOf path).
  split.
  - apply mapGet_mapDelete.
    destruct (mapGet parent nodeCache); [now apply NoDup_keys_mapSet | exact Hkeys].
  - intros siblings Hget.
    destruct (String.eqb parent path) eqn:E.
    + apply String.eqb_eq in E. rewrite E in Hget.
      rewrite mapGet_mapDelete in Hget; [discriminate|].
      destruct (mapGet path nodeCache); [now apply NoDup_keys_mapSet | exact Hkeys].
    + apply String.eqb_neq in E.
      rewrite mapGet_mapDelete_other in Hget by assumption.
      destruct (mapGet parent nodeCache) as [old|] eqn:Eold.
      * rewrite mapGet_mapSet in Hget. inversion Hget; subst.
        destruct (View.hasName (View.nameOf path)
                    (View.dropFirstNamed (View.nameOf path) old)) eqn:Eh;
          [|reflexivity].
        apply hasName_In in Eh.
        now apply dropFirstNamed_names in Eh; eauto.
      * congruence.
Qed.

Lemma removeNode_forgets_the_node_witness :
  mapGet "/lib"
    (View.removeNode "/lib"
       [("/", [{| View.kind := View.KDir; View.name := "lib";
                  View.path := "/lib" |}]);
        ("/lib", [])])
  = None.
Proof.
  apply (removeNode_forgets_the_node "/lib").
  - repeat constructor; simpl; intuition discriminate.
  - intros dir siblings H. cbn [mapGet] in H.
    destruct (String.eqb "/" dir);
      [inversion H; subst; simpl; repeat constructor; simpl; tauto|].
    destruct (String.eqb "/lib" dir);
      [inversion H; subst; simpl; constructor | discriminate].
Defined.

(** ** Device paths without doubled slashes *)

(** No slash is followed by a slash. *)
Fixpoint tidy (s : string) : bool :=
  match s with
  | EmptyString => true
  | String c r => negb (isSlash c && startsWith "/" r) && tidy r
  end.

Fixpoint lastIsSlash (s : string) : bool :=
  match s with
  | EmptyString => false
  | String c EmptyString => isSlash c
  | String _ r => lastIsSlash r
  end.

Lemma tidy_cons (c : ascii) (r : string) :
  tidy (String c r) = negb (isSlash c && startsWith "/" r) && tidy r.
Proof. reflexivity. Qed.

Lemma startsWith_slash_cons (c : ascii) (r : string) :
  startsWith "/" (String c r) = isSlash c.
Proof.
  unfold startsWith, isSlash. cbn [String.prefix].
  destruct (Ascii.eqb_spec c "/") as [->|Hne].
  - destruct (ascii_dec "/" "/"); [apply prefix_nil | congruence].
  - destruct (ascii_dec "/" c); [congruence | reflexivity].
Qed.

Lemma prefix_two_slashes (c : ascii) (r : string) :
  String.prefix "//" (String c r) = isSlash c && startsWith "/" r.
Proof.
  cbn [String.prefix]. unfold isSlash.
  destruct (Ascii.eqb_spec c "/") as [->|Hne].
  - destruct (ascii_dec "/" "/"); [reflexivity | congruence].
  - destruct (ascii_dec "/" c); [congruence | reflexivity].
Qed.

Lemma tidy_includes (s : string) : tidy s = negb (includes "//" s).
Proof.
  induction s as [|c r IH]; [reflexivity|].
  rewrite includes_cons, prefix_two_slashes. cbn [tidy]. rewrite IH.
  now destruct (isSlash c && startsWith "/" r).
Qed.

Lemma collapse_starts (s : string) :
  startsWith "/" (collapseSlashes s) = startsWith "/" s.
Proof.
  induction s as [|c r IH]; [reflexivity|].
  destruct (isSlash c) eqn:Ec.
  - cbn [collapseSlashes]. rewrite Ec. destruct r as [|d r'].
    + reflexivity.
    + destruct (isSlash d) eqn:Ed.
      * rewrite IH. now rewrite !startsWith_slash_cons, Ec, Ed.
      * now rewrite !startsWith_slash_cons.
  - rewrite collapse_cons by assumption. now rewrite !startsWith_slash_cons.
Qed.

Lemma tidy_collapse (s : string) : tidy (collapseSlashes s) = true.
Proof.
  induction s as [|c r IH]; [reflexivity|].
  destruct (isSlash c) eqn:Ec.
  - cbn [collapseSlashes]. rewrite Ec. destruct r as [|d r'].
    + cbn. now rewrite Ec.
    + destruct (isSlash d) eqn:Ed; [exact IH|].
      cbn [tidy]. rewrite IH, collapse_starts, startsWith_slash_cons, Ed.
      now rewrite andb_false_r.
  - rewrite collapse_cons by assumption. cbn [tidy]. now rewrite IH, Ec.
Qed.

Lemma strip_cons (c d : ascii) (r : string) :
  stripTrailingSlash (String c (String d r))
  = String c (stripTrailingSlash (String d r)).
Proof. reflexivity. Qed.

Lemma strip_starts (s : string) :
  startsWith "/" s = false -> startsWith "/" (stripTrailingSlash s) = false.
Proof.
  destruct s as [|c [|d r]]; intros H; [reflexivity | |].
  - rewrite startsWith_slash_cons in H. cbn [stripTrailingSlash].
    rewrite H. now rewrite startsWith_slash_cons.
  - rewrite strip_cons. now rewrite startsWith_slash_cons in *.
Qed.

Lemma tidy_strip (s : string) :
  tidy s = true ->
  tidy (stripTrailingSlash s) = true
  /\ lastIsSlash (stripTrailingSlash s) = false.
Proof.
  induction s as [|c r IH]; intros H; [split; reflexivity|].
  rewrite tidy_cons in H. apply andb_prop in H as [Hc Hr].
  destruct r as [|d r'].
  - cbn. destruct (isSlash c) eqn:Ec; cbn; rewrite ?Ec; split; reflexivity.
  - rewrite strip_cons. destruct (IH Hr) as [IH1 IH2].
    rewrite startsWith_slash_cons in Hc.
    destruct (stripTrailingSlash (String d r')) as [|e t] eqn:Es.
    + (* the rest was a lone slash *)
      destruct r'; cbn [stripTrailingSlash] in Es.
      * destruct (isSlash d) eqn:Ed; [|discriminate].
        rewrite andb_true_r in Hc. apply negb_true_iff in Hc.
        cbn. rewrite Hc. split; reflexivity.
      * discriminate.
    + split.
      * rewrite tidy_cons, IH1, andb_true_r.
        rewrite startsWith_slash_cons.
        assert (He : isSlash e = isSlash d).
        { destruct r'; cbn [stripTrailingSlash] in Es.
          - destruct (isSlash d) eqn:Ed; [discriminate|].
            inversion Es; subst. now rewrite Ed.
          - inversion Es; subst. reflexivity. }
        now rewrite He.
      * exact IH2.
Qed.

Lemma tidy_append (a b : string) :
  tidy a = true -> lastIsSlash a = false -> tidy b = true ->
  tidy (a +++ b) = true.
Proof.
  induction a as [|c r IH]; intros Ha Hl Hb; [exact Hb|].
  rewrite tidy_cons in Ha. apply andb_prop in Ha as [Hc Hr].
  cbn [String.append]. rewrite tidy_cons. destruct r as [|d r'].
  - cbn [lastIsSlash] in Hl. cbn [String.append]. now rewrite Hl, Hb.
  - rewrite IH by assumption.
    cbn [String.append]. rewrite startsWith_slash_cons in *. now rewrite Hc.
Qed.

(** Whatever the root looks like, the device path of a relative path,
    one that does not begin with a slash, holds no doubled slash. *)
Theorem toDevicePath_has_no_doubled_slash (localRel rootPath : string) :
  startsWith "/" localRel = false ->
  includes "//" (toDevicePath localRel rootPath) = false.
Proof.
  intros Hrel. apply negb_true_iff. rewrite <- tidy_includes.
  unfold toDevicePath.
  destruct (tidy_strip _ (tidy_collapse localRel)) as [HL _].
  destruct (tidy_strip _ (tidy_collapse rootPath)) as [HR HRl].
  assert (HLs : startsWith "/" (stripTrailingSlash (collapseSlashes localRel))
                = false)
    by (apply strip_starts; now rewrite collapse_starts).
  set (L := stripTrailingSlash (collapseSlashes localRel)) in *.
  set (R := stripTrailingSlash (collapseSlashes rootPath)) in *.
  assert (HsL : tidy ("/" +++ L) = true)
    by (cbn [String.append]; rewrite tidy_cons; now rewrite HLs, HL).
  destruct (String.eqb R ""); [exact HsL|].
  destruct (String.eqb L ""); [exact HR|].
  now apply tidy_append.
Qed.

Lemma toDevicePath_has_no_doubled_slash_witness :
  includes "//" (toDevicePath "lib//utils.py" "//app///") = false.
Proof. apply toDevicePath_has_no_doubled_slash. reflexivity. Defined.

(** ** The diff check: what is flagged *)

Lemma In_mapSet {V} k (v : V) m k' v' :
  In (k', v') (mapSet k v m) -> (k' = k /\ v' = v) \/ In (k', v') m.
Proof.
  induction m as [|[a b] m IH]; simpl.
  - intros [H | []]. inversion H; auto.
  - destruct (String.eqb a k) eqn:E; simpl.
    + intros [H | H]; [inversion H; auto | auto].
    + intros [H | H]; [auto | destruct (IH H); auto].
Qed.

Lemma mapGet_In {V} k (v : V) m : mapGet k m = Some v -> In (k, v) m.
Proof.
  induction m as [|[a b] m IH]; simpl; [discriminate|].
  destruct (String.eqb a k) eqn:E.
  - apply String.eqb_eq in E. intros H. inversion H; subst. now left.
  - auto.
Qed.

Section DiffFacts.
Variable matcher : string -> bool -> bool.
Variable rootPath : string.
Variable localStat : string -> option Z.

(** A board file that the matcher keeps. *)
Definition kept (boardFiles : list (string * Z)) (p : string) : Prop :=
  (exists size, In (p, size) boardFiles)
  /\ matcher (relFromDevice p rootPath) false = false.

Lemma filtered_kept boardFiles p size :
  In (p, size) (filteredBoardFiles matcher rootPath boardFiles) ->
  kept boardFiles p.
Proof.
  unfold filteredBoardFiles.
  assert (G : forall l acc,
             (forall q s, In (q, s) acc -> kept boardFiles q) ->
             (forall q s, In (q, s) l -> In (q, s) boardFiles) ->
             forall q s,
               In (q, s)
                 (fold_left
                    (fun acc (e : string * Z) =>
                       let (boardPath, size) := e in
                       if negb (matcher (relFromDevice boardPath rootPath) false)
                       then mapSet boardPath size acc else acc) l acc) ->
               kept boardFiles q).
  { induction l as [|[bp sz] l IH]; intros acc Hacc Hl q s; simpl; [eauto|].
    apply IH; [|intros; apply Hl; now right].
    intros q' s' Hin.
    destruct (matcher (relFromDevice bp rootPath) false) eqn:Em; simpl in Hin;
      [eauto|].
    apply In_mapSet in Hin as [[-> ->] | Hin]; [|eauto].
    split; [exists sz; apply Hl; now left | exact Em]. }
  apply G; [intros q s [] | auto].
Qed.

Lemma byRel_entries filtered rel bf :
  In (rel, bf) (boardFileByRelPath rootPath filtered) ->
  rel = relFromDevice (bf_path bf) rootPath
  /\ In (bf_path bf, bf_size bf) filtered.
Proof.
  unfold boardFileByRelPath.
  assert (G : forall l acc,
             (forall r b, In (r, b) acc ->
                r = relFromDevice (bf_path b) rootPath
                /\ In (bf_path b, bf_size b) filtered) ->
             (forall q s, In (q, s) l -> In (q, s) filtered) ->
             forall r b,
               In (r, b)
                 (fold_left
                    (fun acc (e : string * Z) =>
                       let (boardPath, size) := e in
                       mapSet (relFromDevice boardPath rootPath)
                         {| bf_path := boardPath; bf_size := size |} acc) l acc) ->
               r = relFromDevice (bf_path b) rootPath
               /\ In (bf_path b, bf_size b) filtered).
  { induction l as [|[bp sz] l IH]; intros acc Hacc Hl r b; simpl; [eauto|].
    apply IH; [|intros; apply Hl; now right].
    intros r' b' Hin.
    apply In_mapSet in Hin as [[-> ->] | Hin]; [|eauto].
    simpl. split; [reflexivity | apply Hl; now left]. }
  apply G; [intros r b [] | auto].
Qed.

Lemma compareFiles_sound byRel sizes localFiles :
  let r := compareFiles rootPath byRel sizes localFiles in
  (forall p, In p (fst r) ->
     exists l bf, In l localFiles /\ mapGet l byRel = Some bf
                  /\ bf_path bf = p)
  /\ (forall p, In p (snd r) ->
        exists l, In l localFiles /\ mapGet l byRel = None
                  /\ p = toDevicePath l rootPath).
Proof.
  unfold compareFiles.
  assert (G : forall l (acc : list string * list string),
             (forall x, In x l -> In x localFiles) ->
             (forall p, In p (fst acc) ->
                exists l bf, In l localFiles /\ mapGet l byRel = Some bf
                             /\ bf_path bf = p) ->
             (forall p, In p (snd acc) ->
                exists l, In l localFiles /\ mapGet l byRel = None
                          /\ p = toDevicePath l rootPath) ->
             let r := fold_left
               (fun (acc : list string * list string) localRel =>
                  let (diffs, localOnly) := acc in
                  match mapGet localRel byRel with
                  | Some bf =>
                      if negb (orMinusOne (mapGet localRel sizes) =? bf_size bf)%Z
                      then (setAdd (bf_path bf) diffs, localOnly)
                      else (diffs, localOnly)
                  | None => (diffs, setAdd (toDevicePath localRel rootPath) localOnly)
                  end) l acc in
             (forall p, In p (fst r) ->
                exists l bf, In l localFiles /\ mapGet l byRel = Some bf
                             /\ bf_path bf = p)
             /\ (forall p, In p (snd r) ->
                   exists l, In l localFiles /\ mapGet l byRel = None
                             /\ p = toDevicePath l rootPath)).
  { induction l as [|x l IH]; intros [diffs localOnly] Hl H1 H2; simpl;
      [split; assumption|].
    apply IH; [intros; apply Hl; now right | |];
      destruct (mapGet x byRel) as [bf|] eqn:Eg;
      try destruct (negb (orMinusOne (mapGet x sizes) =? bf_size bf)%Z);
      simpl; auto; intros p Hp; apply setAdd_In in Hp as [Hp | ->]; auto.
    - exists x, bf. split; [apply Hl; now left | auto].
    - exists x. split; [apply Hl; now left | auto]. }
  apply G; simpl; auto; intros p [].
Qed.

Lemma boardOnlyFiles_sound byRel localFiles p :
  In p (boardOnlyFiles byRel localFiles) ->
  exists rel bf, In (rel, bf) byRel /\ setHas rel localFiles = false
                 /\ bf_path bf = p.
Proof.
  unfold boardOnlyFiles.
  assert (G : forall l acc,
             (forall e, In e l -> In e byRel) ->
             (forall q, In q acc ->
                exists rel bf, In (rel, bf) byRel
                               /\ setHas rel localFiles = false
                               /\ bf_path bf = q) ->
             forall q,
               In q (fold_left
                       (fun acc (e : string * BoardFile) =>
                          let (relPath, boardFile) := e in
                          if negb (setHas relPath localFiles)
                          then setAdd (bf_path boardFile) acc else acc) l acc) ->
               exists rel bf, In (rel, bf) byRel
                              /\ setHas rel localFiles = false
                              /\ bf_path bf = q).
  { induction l as [|[rel bf] l IH]; intros acc Hl Hacc q; simpl; [auto|].
    apply IH; [intros; apply Hl; now right|].
    intros q' Hq. destruct (setHas rel localFiles) eqn:Eh; simpl in Hq; [auto|].
    apply setAdd_In in Hq as [Hq | ->]; [auto|].
    exists rel, bf. split; [apply Hl; now left | auto]. }
  apply G; [auto | intros q []].
Qed.

End DiffFacts.

(** What the diff check flags as changed or as board-only is a board
    file that the ignore matcher keeps.  A path is flagged as changed
    only when its relative path is a key of the manifest, as
    board-only only when it is not: no path is flagged as both. *)
Theorem checkDiffs_flags_kept_board_files
    (matcher : string -> bool -> bool) (rootPath : string)
    (localStat : string -> option Z)
    (localFiles localDirectories : list string)
    (boardFiles : list (string * Z)) (boardDirectories : list string) :
  let r := checkDiffs matcher rootPath localStat localFiles localDirectories
             boardFiles boardDirectories in
  (forall p, In p (diffSet r) ->
     kept matcher rootPath boardFiles p
     /\ In (relFromDevice p rootPath) localFiles)
  /\ (forall p, In p (boardOnlySet r) ->
        kept matcher rootPath boardFiles p
        /\ ~ In (relFromDevice p rootPath) localFiles)
  /\ (forall p, In p (diffSet r) -> In p (boardOnlySet r) -> False).
Proof.
  intros r.
  set (byRel := boardFileByRelPath rootPath
                  (filteredBoardFiles matcher rootPath boardFiles)).
  assert (Hentry : forall rel bf, In (rel, bf) byRel ->
            rel = relFromDevice (bf_path bf) rootPath
            /\ kept matcher rootPath boardFiles (bf_path bf)).
  { intros rel bf Hin. apply byRel_entries in Hin as [-> Hin].
    split; [reflexivity|]. eapply filtered_kept; eauto. }
  assert (Hd : forall p, In p (diffSet r) ->
            kept matcher rootPath boardFiles p
            /\ In (relFromDevice p rootPath) localFiles).
  { intros p Hp. subst r. unfold checkDiffs in Hp. fold byRel in Hp.
    destruct (compareFiles rootPath byRel (localFileSizes localStat localFiles)
                localFiles) as [diffs localOnly] eqn:Ec.
    cbn [diffSet] in Hp.
    pose proof (compareFiles_sound rootPath byRel
                  (localFileSizes localStat localFiles) localFiles) as [H1 _].
    rewrite Ec in H1. destruct (H1 p Hp) as (l & bf & Hl & Hg & <-).
    apply mapGet_In, Hentry in Hg as [E Hk]. split; [exact Hk|].
    now rewrite <- E. }
  assert (Hb : forall p, In p (boardOnlySet r) ->
            kept matcher rootPath boardFiles p
            /\ ~ In (relFromDevice p rootPath) localFiles).
  { intros p Hp. subst r. unfold checkDiffs in Hp. fold byRel in Hp.
    destruct (compareFiles rootPath byRel (localFileSizes localStat localFiles)
                localFiles) as [diffs localOnly].
    cbn [boardOnlySet] in Hp.
    apply boardOnlyFiles_sound in Hp as (rel & bf & Hin & Hh & <-).
    apply Hentry in Hin as [E Hk]. split; [exact Hk|].
    rewrite <- E. intros Hl. apply setHas_In in Hl. congruence. }
  split; [exact Hd|]. split; [exact Hb|].
  intros p H1 H2. destruct (Hd p H1) as [_ Hin]. destruct (Hb p H2) as [_ Hout].
  contradiction.
Qed.

Section DiffComplete.
Variable matcher : string -> bool -> bool.
Variable rootPath : string.

Lemma filtered_complete boardFiles p :
  kept matcher rootPath boardFiles p ->
  In p (map fst (filteredBoardFiles matcher rootPath boardFiles)).
Proof.
  intros [[size Hin] Hm]. unfold filteredBoardFiles.
  assert (G : forall l acc,
             In p (map fst acc) \/ In (p, size) l ->
             In p (map fst
                     (fold_left
                        (fun acc (e : string * Z) =>
                           let (boardPath, size) := e in
                           if negb (matcher (relFromDevice boardPath rootPath) false)
                           then mapSet boardPath size acc else acc) l acc))).
  { induction l as [|[bp sz] l IH]; intros acc H; simpl.
    - destruct H as [H | []]. exact H.
    - apply IH. destruct H as [H | [H | H]]; [| |now right]; left.
      + destruct (matcher (relFromDevice bp rootPath) false); simpl; [exact H|].
        apply keys_mapSet. now right.
      + inversion H; subst. rewrite Hm. simpl. apply keys_mapSet. now left. }
  apply G. now right.
Qed.

Lemma byRel_complete (filtered : list (string * Z)) p :
  In p (map fst filtered) ->
  In (relFromDevice p rootPath)
    (map fst (boardFileByRelPath rootPath filtered)).
Proof.
  intros Hin. unfold boardFileByRelPath.
  assert (G : forall l (acc : list (string * BoardFile)),
             In (relFromDevice p rootPath) (map fst acc) \/ In p (map fst l) ->
             In (relFromDevice p rootPath)
               (map fst
                  (fold_left
                     (fun acc (e : string * Z) =>
                        let (boardPath, size) := e in
                        mapSet (relFromDevice boardPath rootPath)
                          {| bf_path := boardPath; bf_size := size |} acc) l acc))).
  { induction l as [|[bp sz] l IH]; intros acc H; simpl.
    - destruct H as [H | []]. exact H.
    - apply IH. destruct H as [H | [H | H]]; [| |now right]; left;
        apply keys_mapSet; [now right|]. simpl in H. subst. now left. }
  apply G. now right.
Qed.

End DiffComplete.

(** What the diff check flags as local-only is the device path of a
    key of the manifest for which the board holds no file that the
    ignore matcher keeps. *)
Theorem checkDiffs_local_only_has_no_board_file
    (matcher : string -> bool -> bool) (rootPath : string)
    (localStat : string -> option Z)
    (localFiles localDirectories : list string)
    (boardFiles : list (string * Z)) (boardDirectories : list string)
    (p : string) :
  In p (localOnlySet (checkDiffs matcher rootPath localStat localFiles
                        localDirectories boardFiles boardDirectories)) ->
  exists localRel,
    In localRel localFiles
    /\ p = toDevicePath localRel rootPath
    /\ forall boardPath,
         kept matcher rootPath boardFiles boardPath ->
         relFromDevice boardPath rootPath <> localRel.
Proof.
  intros Hp. unfold checkDiffs in Hp.
  set (byRel := boardFileByRelPath rootPath
                  (filteredBoardFiles matcher rootPath boardFiles)) in *.
  destruct (compareFiles rootPath byRel (localFileSizes localStat localFiles)
              localFiles) as [diffs localOnly] eqn:Ec.
  cbn [localOnlySet] in Hp.
  pose proof (compareFiles_sound rootPath byRel
                (localFileSizes localStat localFiles) localFiles) as [_ H2].
  rewrite Ec in H2. destruct (H2 p Hp) as (l & Hl & Hnone & ->).
  exists l. split; [exact Hl|]. split; [reflexivity|].
  intros boardPath Hk E. apply mapGet_None_keys in Hnone. apply Hnone.
  rewrite <- E. apply byRel_complete. now apply filtered_complete.
Qed.

Lemma checkDiffs_local_only_has_no_board_file_witness :
  exists localRel,
    In localRel ["new.py"]
    /\ "/new.py" = toDevicePath localRel "/"
    /\ forall boardPath,
         kept (fun _ _ => false) "/" [("/main.py", 3%Z)] boardPath ->
         relFromDevice boardPath "/" <> localRel.
Proof.
  apply (checkDiffs_local_only_has_no_board_file (fun _ _ => false) "/"
           (fun _ => Some 1%Z) ["new.py"] [] [("/main.py", 3%Z)] []).
  vm_compute. now left.
Defined.

(** ** The directory plan: what it never holds *)

(** Directories collected so far: each one once, none of them the root
    path or the device root. *)
Definition planSet (rootPath : string) (dirs : list string) : Prop :=
  NoDup dirs /\ ~ In rootPath dirs /\ ~ In "/" dirs.

Lemma NoDup_setAdd k s : NoDup s -> NoDup (setAdd k s).
Proof.
  intros H. unfold setAdd. destruct (setHas k s) eqn:E; [exact H|].
  apply NoDup_app; [exact H | repeat constructor; intros [] |].
  intros x Hx [<- | []]. apply setHas_In in Hx. congruence.
Qed.

Lemma climb_planSet fuel rootPath cur acc acc' :
  climb fuel rootPath cur acc = Some acc' ->
  planSet rootPath acc -> planSet rootPath acc'.
Proof.
  revert cur acc. induction fuel as [|fuel IH]; intros cur acc E H;
    rewrite climb_eq in E;
    destruct (String.eqb cur rootPath) eqn:E1;
    destruct (String.eqb cur "/") eqn:E2; cbn [negb andb] in E;
    try (inversion E; subst; exact H); try discriminate.
  apply IH in E; [exact E|].
  apply String.eqb_neq in E1, E2. destruct H as (Hn & Hr & Hs).
  split; [now apply NoDup_setAdd|].
  split; intros Hin; apply setAdd_In in Hin as [Hin | Hin];
    auto; congruence.
Qed.

Lemma collectDirectories_planSet rootPath files acc acc' :
  collectDirectories rootPath files acc = Some acc' ->
  planSet rootPath acc -> planSet rootPath acc'.
Proof.
  revert acc. induction files as [|f rest IH]; intros acc E H.
  - simpl in E. inversion E; subst. exact H.
  - cbn [collectDirectories] in E.
    destruct (addFileDirs rootPath acc f) as [s|] eqn:Ea; [|discriminate].
    apply IH in E; [exact E|].
    unfold addFileDirs in Ea.
    destruct (negb (String.eqb (dirname (join rootPath f)) ".")
              && negb (String.eqb (dirname (join rootPath f)) rootPath)).
    + eapply climb_planSet; eauto.
    + inversion Ea; subst. exact H.
Qed.

Lemma NoDup_insertByDepth d l :
  NoDup l -> ~ In d l -> NoDup (insertByDepth d l).
Proof.
  induction l as [|y l IH]; simpl; intros Hl Hd.
  - repeat constructor. intros [].
  - inversion Hl; subst. destruct (Nat.leb (depth y) (depth d)).
    + constructor; [|apply IH; tauto].
      rewrite insertByDepth_In. intros [-> | Hin]; tauto.
    + constructor; [simpl; tauto | exact Hl].
Qed.

Lemma NoDup_sortByDepth dirs acc :
  NoDup dirs -> NoDup acc -> (forall x, In x dirs -> ~ In x acc) ->
  NoDup (fold_left (fun acc d => insertByDepth d acc) dirs acc).
Proof.
  revert acc. induction dirs as [|d dirs IH]; intros acc Hd Ha Hdis;
    [exact Ha|].
  inversion Hd; subst. simpl. apply IH; [assumption | |].
  - apply NoDup_insertByDepth; [exact Ha | apply Hdis; now left].
  - intros x Hx Hin. apply insertByDepth_In in Hin as [-> | Hin];
      [contradiction|]. apply (Hdis x); [now right | exact Hin].
Qed.

(** An absolute path in normal form, other than the device root. *)
Definition normalDir (d : string) : Prop :=
  exists l, good l /\ l <> [] /\ d = mkAbs l.

Lemma climb_normal fuel rootPath l acc acc' :
  good l ->
  climb fuel rootPath (mkAbs l) acc = Some acc' ->
  Forall normalDir acc -> Forall normalDir acc'.
Proof.
  revert l acc. induction fuel as [|fuel IH]; intros l acc Hl E H;
    rewrite climb_eq in E;
    destruct (negb (String.eqb (mkAbs l) rootPath)
              && negb (String.eqb (mkAbs l) "/")) eqn:Eg;
    try (inversion E; subst; exact H); try discriminate.
  destruct l as [|s l0 _] using rev_ind.
  - change (String.eqb (mkAbs []) "/") with true in Eg.
    now rewrite andb_false_r in Eg.
  - apply Forall_app in Hl as [Hl0 Hs].
    inversion Hs as [|? ? Hs' _]; subst.
    pose proof (dirname_mkAbs l0 s "" Hl0 Hs' (or_introl eq_refl)) as Hd.
    rewrite append_nil_r in Hd. rewrite Hd in E.
    apply (IH l0) in E; [exact E | exact Hl0 |].
    apply (proj2 (Forall_forall _ _)). intros x Hx.
    apply setAdd_In in Hx as [Hx | Hx].
    + exact (proj1 (Forall_forall _ _) H x Hx).
    + subst x. exists (l0 ++ [s]). split; [apply good_app; auto|].
      split; [destruct l0; discriminate | reflexivity].
Qed.

Lemma addFileDirs_normal rootPath acc f acc' :
  startsWith "/" rootPath = true ->
  addFileDirs rootPath acc f = Some acc' ->
  Forall normalDir acc -> Forall normalDir acc'.
Proof.
  intros Habs E H.
  destruct (join_abs rootPath f Habs) as (l & Hl & Hjoin).
  assert (Ht : exists t, (t = "" \/ t = "/") /\ join rootPath f = mkAbs l +++ t).
  { destruct Hjoin as [Ej | [_ Ej]].
    - exists "". rewrite append_nil_r. auto.
    - exists "/". auto. }
  destruct Ht as (t & Ht & Ejoin).
  unfold addFileDirs in E. rewrite Ejoin in E.
  destruct l as [|s l0 _] using rev_ind.
  - rewrite dirname_root in E by assumption.
    destruct (negb (String.eqb "/" ".") && negb (String.eqb "/" rootPath));
      [|inversion E; subst; exact H].
    rewrite climb_eq, String.eqb_refl, andb_false_r in E.
    inversion E; subst; exact H.
  - apply Forall_app in Hl as [Hl0 Hs].
    inversion Hs as [|? ? Hs' _]; subst.
    rewrite dirname_mkAbs in E by assumption.
    destruct (negb (String.eqb (mkAbs l0) ".")
              && negb (String.eqb (mkAbs l0) rootPath));
      [|inversion E; subst; exact H].
    exact (climb_normal _ _ l0 _ _ Hl0 E H).
Qed.

Lemma collectDirectories_normal rootPath files acc acc' :
  startsWith "/" rootPath = true ->
  collectDirectories rootPath files acc = Some acc' ->
  Forall normalDir acc -> Forall normalDir acc'.
Proof.
  intros Habs. revert acc. induction files as [|f rest IH]; intros acc E H.
  - simpl in E. inversion E; subst. exact H.
  - cbn [collectDirectories] in E.
    destruct (addFileDirs rootPath acc f) as [s|] eqn:Ea; [|discriminate].
    apply IH in E; [exact E|].
    eapply addFileDirs_normal; eauto.
Qed.

(** The directory plan lists every directory once; no entry is ["/"],
    and no entry is the root path as the setting spells it.  Below an
    absolute root path every entry is an absolute path in normal form;
    so when the root path is in normal form itself, such as [/app],
    no entry names the root directory.  A root path spelled with a
    trailing slash, [/app/], differs from every entry, and its
    directory [/app] is part of the plan. *)
Theorem directory_plan_skips_the_roots
    (rootPath : string) (files plan : list string) :
  sortedDirectories rootPath files = Some plan ->
  NoDup plan /\ ~ In rootPath plan /\ ~ In "/" plan
  /\ (startsWith "/" rootPath = true ->
      (forall d, In d plan -> normalDir d)
      /\ (forall ps, good ps -> rootPath = mkAbs ps ->
            forall d, In d plan -> segments d <> ps)).
Proof.
  unfold sortedDirectories. intros E.
  destruct (collectDirectories rootPath files []) as [dirs|] eqn:Ec;
    [|discriminate].
  inversion E; subst plan. clear E.
  pose proof Ec as Hnormal.
  apply collectDirectories_planSet in Ec;
    [|split; [constructor | split; intros []]].
  destruct Ec as (Hn & Hr & Hs).
  destruct (sortByDepth_spec dirs [] (SSorted_nil _)) as [_ Hin].
  unfold sortByDepth.
  assert (Hroot : ~ In rootPath
                      (fold_left (fun acc d => insertByDepth d acc) dirs [])).
  { intros H. apply Hin in H as [H | []]. contradiction. }
  split; [|split; [|split]].
  - apply NoDup_sortByDepth; [exact Hn | constructor | intros ? ? []].
  - exact Hroot.
  - intros H. apply Hin in H as [H | []]. contradiction.
  - intros Habs.
    assert (Hall : forall d,
              In d (fold_left (fun acc d => insertByDepth d acc) dirs []) ->
              normalDir d).
    { intros d Hd. apply Hin in Hd as [Hd | []].
      apply (collectDirectories_normal _ _ _ _ Habs) in Hnormal;
        [|constructor].
      rewrite Forall_forall in Hnormal. auto. }
    split; [exact Hall|].
    intros ps Hps -> d Hd Hseg.
    destruct (Hall d Hd) as (l & Hl & _ & ->).
    rewrite segments_mkAbs in Hseg by assumption. subst l.
    contradiction.
Qed.

(** Under [/app/] the plan holds the directory [/app]; under [/app]
    no entry names it. *)
Lemma directory_plan_skips_the_roots_witness :
  (NoDup ["/app"; "/app/lib"; "/app/lib/drivers"]
   /\ ~ In "/app/" ["/app"; "/app/lib"; "/app/lib/drivers"]
   /\ ~ In "/" ["/app"; "/app/lib"; "/app/lib/drivers"])
  /\ (forall d, In d ["/app/lib"; "/app/lib/drivers"] ->
        segments d <> ["app"]).
Proof.
  split.
  - destruct (directory_plan_skips_the_roots "/app/"
                ["lib/drivers/led.py"; "lib/util.py"; "main.py"]
                ["/app"; "/app/lib"; "/app/lib/drivers"] eq_refl)
      as (H1 & H2 & H3 & _).
    repeat split; assumption.
  - destruct (directory_plan_skips_the_roots "/app"
                ["lib/drivers/led.py"; "lib/util.py"; "main.py"]
                ["/app/lib"; "/app/lib/drivers"] eq_refl)
      as (_ & _ & _ & H).
    destruct (H eq_refl) as [_ Hdirs].
    apply (Hdirs ["app"]); [|reflexivity].
    repeat constructor.
Defined.

(** ** Listings and the tree cache *)

(** A listing that the cache can answer is answered from the cache:
    with a cached tree less than 30 seconds old that has entries for
    the path, [lsTyped] resolves to them and nothing else happens, the
    tool is not run. *)
Theorem lsTyped_answers_from_fresh_cache
    (p : string) (env : Env) (st : St) (store : list TreeNode)
    (e : Entry) (r : list Entry) :
  globalFileTreeCache st = Some store ->
  (clock env (history st) - lastTreeUpdate st < TREE_CACHE_DURATION)%Z ->
  getEntriesFromCache (Some store) p = Some (e :: r) ->
  lsTyped p env st = (st, Resolve (e :: r)).
Proof.
  intros Hc Hage Hentries.
  unfold lsTyped, isCacheValid, bind, getEnv, getState, now, ret.
  rewrite Hc. apply Z.ltb_lt in Hage. rewrite Hage.
  rewrite Hc, Hentries. reflexivity.
Qed.

Lemma lsTyped_answers_from_fresh_cache_witness :
  lsTyped "/" (board "/dev/ttyUSB0" (fun _ => ExecErr "" ""))
    staleCache
  = (staleCache, Resolve [{| e_name := "main.py"; e_isDir := false |}]).
Proof.
  apply (lsTyped_answers_from_fresh_cache "/" _ staleCache
           [{| tn_name := ""; tn_isDir := true; tn_children := [1];
               tn_fullPath := "/" |};
            {| tn_name := "main.py"; tn_isDir := false; tn_children := [];
               tn_fullPath := "/main.py" |}]).
  - reflexivity.
  - reflexivity.
  - reflexivity.
Defined.

(** The tree cache holds a tree. *)
Definition hasTree (st : St) : Prop := globalFileTreeCache st <> None.

Lemma ensures_modify (P : St -> Prop) (f : St -> St) (Q : unit -> St -> Prop) :
  (forall st, P st -> Q tt (f st)) -> ensures P (modify f) Q.
Proof. intros H env st HP. cbn. auto. Qed.

Lemma ensures_keeps {A} (Q : St -> Prop) (m : M A) :
  keeps sameCache m ->
  (forall a b, sameCache a b -> Q a -> Q b) ->
  ensures Q m (fun _ => Q).
Proof.
  intros Hk HQ env st HP. specialize (Hk env st).
  destruct (m env st) as [st' [a|e|]]; cbn in *; eauto.
Qed.

Lemma hasTree_sameCache a b : sameCache a b -> hasTree a -> hasTree b.
Proof. intros [E _] H. unfold hasTree in *. now rewrite E. Qed.

Lemma populate_hasTree :
  ensures anyState populateFileTreeCache (fun _ => hasTree).
Proof.
  unfold populateFileTreeCache.
  repeat (apply ensures_then; intros ?).
  apply ensures_modify. intros st _. discriminate.
Qed.

Lemma isCacheValid_hasTree :
  ensures anyState isCacheValid (fun b st => b = true -> hasTree st).
Proof.
  intros env st _. unfold isCacheValid, bind, getState, now, ret.
  destruct (globalFileTreeCache st) eqn:E; cbn.
  - intros _. unfold hasTree. now rewrite E.
  - discriminate.
Qed.

(** Whenever [lsTyped] resolves, the tree cache holds a tree. *)
Theorem lsTyped_leaves_a_cached_tree
    (p : string) (env : Env) (st st' : St) (entries : list Entry) :
  lsTyped p env st = (st', Resolve entries) ->
  globalFileTreeCache st' <> None.
Proof.
  assert (H : ensures anyState (lsTyped p) (fun _ => hasTree)).
  { unfold lsTyped.
    eapply ensures_bind; [apply ensures_any | intros envv].
    eapply ensures_bind;
      [eapply ensures_pre; [|apply isCacheValid_hasTree]; auto | intros valid].
    eapply ensures_bind with (Q1 := fun _ => hasTree).
    - destruct valid.
      + apply ensures_ret. auto.
      + eapply ensures_pre; [|apply populate_hasTree]. exact (fun _ _ => I).
    - intros _. apply ensures_keeps; [|apply hasTree_sameCache].
      frames. }
  intros E. specialize (H env st I). now rewrite E in H.
Qed.

Lemma lsTyped_leaves_a_cached_tree_witness :
  globalFileTreeCache (fst (lsTyped "/" autoBoard initialState)) <> None.
Proof.
  apply (lsTyped_leaves_a_cached_tree "/" autoBoard initialState _
           [{| e_name := "lib"; e_isDir := true |};
            {| e_name := "main.py"; e_isDir := false |}]).
  vm_compute. reflexivity.
Defined.

(** ** The runner: the tool path and the busy flag *)

Lemma nonEmpty_append_r (a b : string) : nonEmpty b = true -> nonEmpty (a +++ b) = true.
Proof. destruct a; [auto | reflexivity]. Qed.

Lemma findCandidate_caches candidates env st st' p :
  findCandidate candidates env st = (st', Resolve p) ->
  mpremotePathCache st' = Some p /\ In p candidates.
Proof.
  revert st. induction candidates as [|c rest IH]; intros st E.
  - discriminate E.
  - cbn [findCandidate] in E. unfold bind at 1 in E.
    destruct (probe env (history st) c).
    + unfold bind, modify, ret in E. inversion E; subst.
      split; [reflexivity | now left].
    + apply IH in E as [E1 E2]. split; [exact E1 | now right].
Qed.

(** Once [getMpremotePath] has found the tool, every later call
    answers with the same path from the cache: no probe is run and the
    state is left as it is, whatever the environment has become. *)
Theorem getMpremotePath_is_cached (env env' : Env) (st st' : St) (p : string) :
  getMpremotePath env st = (st', Resolve p) ->
  getMpremotePath env' st' = (st', Resolve p).
Proof.
  intros E.
  assert (H : mpremotePathCache st' = Some p /\ nonEmpty p = true).
  { unfold getMpremotePath, bind at 1, getState in E. cbv beta iota in E.
    assert (Hfind : findCandidate ["mpremote"; homedir env +++ "/.local/bin/mpremote"]
                      env st = (st', Resolve p) ->
                    mpremotePathCache st' = Some p /\ nonEmpty p = true).
    { intros Ef. apply findCandidate_caches in Ef as [Ec Hin].
      split; [exact Ec|].
      destruct Hin as [<- | [<- | []]]; [reflexivity|].
      now apply nonEmpty_append_r. }
    destruct (mpremotePathCache st) as [q|] eqn:Eq.
    - destruct (nonEmpty q) eqn:En.
      + unfold ret in E. inversion E; subst. auto.
      + unfold bind, getEnv in E. auto.
    - unfold bind, getEnv in E. auto. }
  destruct H as [Hc Hn].
  unfold getMpremotePath, bind, getState. now rewrite Hc, Hn.
Qed.

Lemma getMpremotePath_is_cached_witness :
  getMpremotePath deadBoard
    (fst (getMpremotePath obligingBoard initialState))
  = (fst (getMpremotePath obligingBoard initialState), Resolve "mpremote").
Proof.
  apply (getMpremotePath_is_cached obligingBoard deadBoard initialState).
  reflexivity.
Defined.

(** The runner frees the port on every path: from a state where no
    port is busy, a run of the tool, retried or not, settles, and it
    leaves no port marked busy. *)
Theorem runMpremote_frees_the_port
    (args : list string) (retryOnFailure : bool) (env : Env) (st : St) :
  idle st = true ->
  idle (fst (runMpremote args retryOnFailure env st)) = true
  /\ snd (runMpremote args retryOnFailure env st) <> Pending.
Proof. intros H. now apply safe_runMpremote. Qed.

Lemma runMpremote_frees_the_port_witness :
  idle (fst (runMpremote ["connect"; "/dev/ttyUSB0"; "fs"; "tree"] true
               deadBoard initialState)) = true
  /\ snd (runMpremote ["connect"; "/dev/ttyUSB0"; "fs"; "tree"] true
            deadBoard initialState) <> Pending.
Proof. apply runMpremote_frees_the_port. reflexivity. Defined.

(** ** Checks that never throw *)

(** The runs of one call of the runner: the given command and nothing
    else, at most three times, once when retries are off. *)
Lemma runMpremote_runs args retry env st :
  idle st = true ->
  exists evs,
    history (fst (runMpremote args retry env st)) = history st ++ evs
    /\ List.length (runsOf evs) <= (if retry then 3 else 1)
    /\ Forall (fun a => a = args) (runsOf evs).
Proof.
  intros Hi.
  destruct (runMpremote args retry env st) as [st' r] eqn:E.
  apply runMpremote_trace in E; auto.
  destruct E as (_ & probes & evs & Hh & HF & Hcase).
  exists (probes ++ evs). cbn [fst]. split; [exact Hh|].
  rewrite runsOf_app, (runsOf_probes _ HF). cbn [app].
  destruct Hcase as [[-> ->] | Htrace].
  - simpl. split; [destruct retry; lia | constructor].
  - pose proof (retryTrace_facts _ _ _ _ _ Htrace (Nat.le_0_l _))
      as (_ & H2 & H3 & _).
    split; [destruct retry; lia | exact H3].
Qed.

(** With a port selected, [fileExistsSha256] never throws and runs the
    checksum command at most once: it resolves to [true] exactly when
    that run succeeds with an output that is not blank and mentions
    neither "no such file" nor "file not found", and to [false]
    otherwise, whatever the error. *)
Theorem fileExistsSha256_never_throws (p : string) (env : Env) (st : St) :
  noConcretePort (configuredConnect env) = false ->
  idle st = true ->
  let command := ["connect"; configuredConnect env; "fs"; "sha256sum";
                  pathArgOf p] in
  let run := runMpremote command false env st in
  exists b evs,
    Checks.fileExistsSha256 p env st = (fst run, Resolve b)
    /\ (b = true <->
        exists out,
          snd run = Resolve out
          /\ nonEmpty (trim (stdout out)) = true
          /\ includes "no such file" (trim (stdout out)) = false
          /\ includes "file not found" (trim (stdout out)) = false)
    /\ history (fst run) = history st ++ evs
    /\ List.length (runsOf evs) <= 1
    /\ Forall (fun a => a = command) (runsOf evs).
Proof.
  intros Hport Hi command run.
  destruct (safe_runMpremote command false env st Hi) as [_ Hsettled].
  destruct (runMpremote_runs command false env st Hi) as (evs & Hh & Hn & Hc).
  fold run in Hsettled, Hh.
  unfold Checks.fileExistsSha256. unfold bind at 1, getEnv.
  cbv beta iota zeta. rewrite Hport. unfold tryCatch, bind.
  fold command. fold run.
  destruct run as [st' [out|message|]]; cbn [fst snd] in *.
  - destruct (nonEmpty (trim (stdout out))) eqn:E1;
      destruct (includes "no such file" (trim (stdout out))) eqn:E2;
      destruct (includes "file not found" (trim (stdout out))) eqn:E3;
      cbn [andb negb]; unfold ret;
      (eexists _, evs; split; [reflexivity|]; split; [|auto]);
      (split; [try discriminate; intros _; exists out; auto
              | intros (o & Ho & H1 & H2 & H3); inversion Ho; subst;
                congruence]).
  - exists false, evs. split.
    + destruct (_ || _); [reflexivity|]. destruct (_ || _); reflexivity.
    + split; [|auto]. split; [discriminate|].
      intros (o & Ho & _). discriminate.
  - congruence.
Qed.

Lemma fileExistsSha256_never_throws_witness :
  exists st', Checks.fileExistsSha256 "/boot.py" deadBoard initialState
              = (st', Resolve false).
Proof.
  destruct (fileExistsSha256_never_throws "/boot.py" deadBoard initialState
              eq_refl eq_refl) as (b & evs & Hrun & Htrue & _).
  eexists. rewrite Hrun. f_equal. f_equal.
  destruct b; [|reflexivity].
  destruct Htrue as [Htrue _]. destruct (Htrue eq_refl) as (out & Ho & _).
  vm_compute in Ho. discriminate Ho.
Defined.

(** [reset] never throws: without a selected port it does nothing at
    all, and with one a failure of the reset command is dropped. *)
Theorem reset_never_throws (env : Env) (st : St) :
  idle st = true ->
  exists st',
    Checks.reset env st = (st', Resolve tt)
    /\ idle st' = true
    /\ (noConcretePort (configuredConnect env) = true -> st' = st).
Proof.
  intros Hi. unfold Checks.reset. unfold bind at 1, getEnv.
  cbv beta iota zeta.
  destruct (noConcretePort (configuredConnect env)) eqn:Hport.
  - exists st. repeat split; auto.
  - destruct (safe_runMpremote ["connect"; configuredConnect env; "reset"]
                true env st Hi) as [Hidle Hsettled].
    unfold tryCatch, bind, ret.
    destruct (runMpremote ["connect"; configuredConnect env; "reset"] true
                env st) as [st' [out|message|]]; cbn [fst snd] in *.
    + exists st'. repeat split; auto. discriminate.
    + exists st'. repeat split; auto. discriminate.
    + congruence.
Qed.

Lemma reset_never_throws_witness :
  exists st', Checks.reset deadBoard initialState = (st', Resolve tt).
Proof.
  destruct (reset_never_throws deadBoard initialState eq_refl)
    as (st' & H & _).
  exists st'. exact H.
Defined.

(** [healthCheck] never throws and runs the tool at most once: it
    reports the port as healthy exactly when that one run of the tree
    listing succeeds, and a response time only then. *)
Theorem healthCheck_never_throws (port : option string) (env : Env) (st : St) :
  idle st = true ->
  let connect := match port with
                 | Some p => if nonEmpty p then p else configuredConnect env
                 | None => configuredConnect env
                 end in
  let run := runMpremote ["connect"; connect; "fs"; "tree"] false env st in
  exists st' health evs,
    Checks.healthCheck port env st = (st', Resolve health)
    /\ idle st' = true
    /\ Checks.hc_port health = connect
    /\ (Checks.healthy health = true <-> exists out, snd run = Resolve out)
    /\ (Checks.healthy health = false -> Checks.responseTime health = None)
    /\ history st' = history st ++ evs
    /\ List.length (runsOf evs) <= 1.
Proof.
  intros Hi connect run.
  destruct (safe_runMpremote ["connect"; connect; "fs"; "tree"] false env st Hi)
    as [Hidle Hsettled].
  destruct (runMpremote_runs ["connect"; connect; "fs"; "tree"] false env st Hi)
    as (evs & Hh & Hn & _).
  fold run in Hidle, Hsettled, Hh.
  unfold Checks.healthCheck. unfold bind at 1, now. unfold bind at 1, getEnv.
  cbv beta iota zeta. fold connect. unfold tryCatch. unfold bind at 1.
  fold run.
  destruct run as [st1 [out|message|]]; cbn [fst snd] in *.
  - unfold bind at 1, now.
    destruct (steady_markHealthy connect env st1) as (st2 & [] & E & Hq & Hk).
    unfold bind at 1. rewrite E. unfold ret.
    exists st2, {| Checks.healthy := true; Checks.hc_port := connect;
                   Checks.responseTime :=
                     Some (clock env (history st1) - clock env (history st))%Z |},
      evs.
    destruct Hq as [Hq _]. cbn.
    repeat split; auto; try discriminate; try congruence. eauto.
  - destruct (steady_markUnhealthy connect env st1) as (st2 & [] & E & Hq & Hk).
    unfold bind at 1. rewrite E. unfold ret.
    exists st2, {| Checks.healthy := false; Checks.hc_port := connect;
                   Checks.responseTime := None |}, evs.
    destruct Hq as [Hq _]. cbn.
    repeat split; auto; try discriminate; try congruence.
    intros [o Ho]. discriminate.
  - congruence.
Qed.

Lemma healthCheck_never_throws_witness :
  exists st' health,
    Checks.healthCheck None deadBoard initialState = (st', Resolve health).
Proof.
  destruct (healthCheck_never_throws None deadBoard initialState eq_refl)
    as (st' & health & evs & H & _).
  exists st', health. exact H.
Defined.

(** ** Serial ports *)

(** A device as the port picker can show it. *)
Definition presentable (d : Ports.Device) : Prop :=
  nonEmpty (Ports.d_port d) = true
  /\ includes "None" (Ports.d_port d) = false
  /\ nonEmpty (Ports.d_name d) = true
  /\ includes "None" (Ports.d_name d) = false.

Lemma deviceOfLine_presentable line :
  Forall presentable (Ports.deviceOfLine line).
Proof.
  unfold Ports.deviceOfLine.
  destruct (Nat.leb 2 (List.length (splitWs line))); [|constructor].
  destruct (nonEmpty (nth 0 (splitWs line) "")) eqn:E1; [|constructor].
  destruct (includes "None" (nth 0 (splitWs line) "")) eqn:E2; [constructor|].
  cbn [andb negb]. repeat constructor; cbn [Ports.d_port Ports.d_name]; auto.
  - destruct (nonEmpty _ && negb _) eqn:E; [|reflexivity].
    now apply andb_prop in E as [E _].
  - destruct (nonEmpty _ && negb _) eqn:E; [|reflexivity].
    apply andb_prop in E as [_ E]. now apply negb_true_iff in E.
Qed.

Lemma Forall_flat_map {A B} (P : B -> Prop) (f : A -> list B) l :
  (forall x, Forall P (f x)) -> Forall P (flat_map f l).
Proof.
  intros H. induction l as [|x l IH]; simpl; [constructor|].
  apply Forall_app. split; auto.
Qed.

(** [listSerialPorts] never throws.  Every device it returns has a
    port and a name, neither of them empty nor holding the tool's
    placeholder "None"; an empty answer always comes with a warning
    to the user. *)
Theorem listSerialPorts_never_throws (env : Env) (st : St) :
  idle st = true ->
  exists st' devices,
    Ports.listSerialPorts env st = (st', Resolve devices)
    /\ idle st' = true
    /\ Forall presentable devices
    /\ (devices = [] ->
        exists evs message,
          history st' = history st ++ evs ++ [EvWarning message]).
Proof.
  intros Hi.
  destruct (safe_runMpremote ["connect"; "list"] true env st Hi)
    as [Hidle Hsettled].
  destruct (runMpremote_runs ["connect"; "list"] true env st Hi)
    as (evs & Hh & _).
  unfold Ports.listSerialPorts, tryCatch. unfold bind at 1.
  destruct (runMpremote ["connect"; "list"] true env st)
    as [st1 [out|message|]]; cbn [fst snd] in *.
  - set (devices := flat_map Ports.deviceOfLine
                      (filter nonEmpty (map trim (splitLines (stdout out))))).
    assert (Hd : Forall presentable devices)
      by (apply Forall_flat_map, deviceOfLine_presentable).
    destruct devices as [|d ds] eqn:Ed.
    + unfold bind, log, ret. eexists _, []. split; [reflexivity|].
      cbn [idle activeConnections withHistory history].
      repeat split; auto.
      intros _. exists evs, Ports.noDevicesWarning. now rewrite Hh, app_assoc.
    + unfold bind, ret. exists st1, (d :: ds).
      repeat split; auto. discriminate.
  - unfold bind, log, ret. eexists _, []. split; [reflexivity|].
    cbn [idle activeConnections withHistory history].
    repeat split; auto.
    intros _. exists evs, (Ports.portsErrorWarning message).
    now rewrite Hh, app_assoc.
  - congruence.
Qed.

Lemma listSerialPorts_never_throws_witness :
  exists st',
    Ports.listSerialPorts
      (board "auto" (fun _ =>
         ExecOk ("/dev/ttyUSB0 None 10c4:ea60 Silicon Labs CP2102" +++ newline
                 +++ "/dev/ttyS0 None 0000:0000 None None" +++ newline) ""))
      initialState
    = (st', Resolve [{| Ports.d_port := "/dev/ttyUSB0";
                        Ports.d_name := "Silicon Labs CP2102" |};
                     {| Ports.d_port := "/dev/ttyS0";
                        Ports.d_name := "Serial Port" |}]).
Proof.
  destruct (listSerialPorts_never_throws
              (board "auto" (fun _ =>
                 ExecOk ("/dev/ttyUSB0 None 10c4:ea60 Silicon Labs CP2102" +++ newline
                         +++ "/dev/ttyS0 None 0000:0000 None None" +++ newline) ""))
              initialState eq_refl) as (st' & devices & H & _).
  exists st'. rewrite H. f_equal. f_equal.
  vm_compute in H. inversion H. reflexivity.
Defined.

(** ** Wiping a directory *)






(** ** The listing with sizes *)

Lemma stackedPath_absolute stack name :
  startsWith "/" (Sizes.stackedPath stack name) = true.
Proof.
  unfold Sizes.stackedPath.
  set (fullPath := match stack with
                   | [] => name
                   | _ :: _ => String.concat "/" stack +++ "/" +++ name
                   end).
  destruct (startsWith "/" fullPath) eqn:E; [exact E|].
  apply (prefix_append "/" fullPath).
Qed.

(** Every path of a listing starts with a slash. *)
Definition absoluteListing (l : Sizes.Listing) : Prop :=
  (forall p size, In (p, size) (Sizes.files l) -> startsWith "/" p = true)
  /\ (forall d, In d (Sizes.directories l) -> startsWith "/" d = true).

Lemma listingStep_absolute acc line :
  absoluteListing acc -> absoluteListing (Sizes.listingStep acc line).
Proof.
  intros [Hf Hd]. unfold Sizes.listingStep.
  destruct (negb (nonEmpty (trim line)) || includes "tree" line
            || String.eqb line ":/"); [split; assumption|].
  destruct (Sizes.indentOf line 0) as [level rest].
  destruct (Sizes.fileRe (trim rest)) as [[digits group2]|].
  - split; cbn [Sizes.files Sizes.directories]; [|exact Hd].
    intros p size Hin. apply In_mapSet in Hin as [[-> _] | Hin]; [|eauto].
    apply stackedPath_absolute.
  - destruct (nonEmpty (trim (trim rest))); [|split; assumption].
    split; cbn [Sizes.files Sizes.directories]; [exact Hf|].
    intros d Hin. apply setAdd_In in Hin as [Hin | ->]; [eauto|].
    apply stackedPath_absolute.
Qed.

Lemma parseListing_absolute treeOutput :
  absoluteListing (Sizes.parseListing treeOutput).
Proof.
  unfold Sizes.parseListing.
  assert (G : forall lines acc,
             absoluteListing acc ->
             absoluteListing (fold_left Sizes.listingStep lines acc)).
  { induction lines as [|l lines IH]; intros acc H; [exact H|].
    simpl. apply IH. now apply listingStep_absolute. }
  apply G. split; [intros ? ? [] | intros ? []].
Qed.

(** Whatever the tool prints, the files and the directories that
    [getBoardFilesAndSizes] returns all have paths that start with a
    slash. *)
Theorem getBoardFilesAndSizes_paths_are_absolute
    (rootPath : string) (env : Env) (st st' : St)
    (files : list (string * Z)) (directories : list string) :
  Sizes.getBoardFilesAndSizes rootPath env st
  = (st', Resolve (files, directories)) ->
  (forall p size, In (p, size) files -> startsWith "/" p = true)
  /\ (forall d, In d directories -> startsWith "/" d = true).
Proof.
  unfold Sizes.getBoardFilesAndSizes. unfold bind at 1, getEnv.
  cbv beta iota zeta.
  destruct (noConcretePort (configuredConnect env)); [discriminate|].
  unfold tryCatch, bind.
  destruct (runMpremote _ true env st) as [st1 [out|message|]];
    try discriminate.
  unfold ret. intros E. inversion E; subst.
  apply parseListing_absolute.
Qed.

Lemma getBoardFilesAndSizes_paths_are_absolute_witness :
  startsWith "/" "/lib/utils.py" = true.
Proof.
  refine (proj1 (getBoardFilesAndSizes_paths_are_absolute "/"
            (board "/dev/ttyUSB0" (fun _ =>
               ExecOk ("├── [       139]  boot.py" +++ newline
                       +++ "└── lib" +++ newline
                       +++ "    └── [      1234]  utils.py" +++ newline) ""))
            initialState _
            [("/boot.py", 139%Z); ("/lib/utils.py", 1234%Z)] ["/lib"] _)
          "/lib/utils.py" 1234%Z _).
  - vm_compute. reflexivity.
  - right. now left.
Defined.

(** ** Tree lines *)

(** An indentation unit of the tree output: a vertical bar with three
    spaces, or four spaces. *)
Definition indentUnit (u : string) : Prop := u = boxPipe \/ u = fourSpaces.

(** The marker in front of a name. *)
Definition branchMarker (m : string) : Prop := m = boxTee \/ m = boxElbow.

Lemma nonEmpty_revString (s : string) : nonEmpty (revString s) = nonEmpty s.
Proof.
  unfold revString. destruct s as [|c r]; [reflexivity|].
  cbn [list_ascii_of_string rev].
  destruct (rev (list_ascii_of_string r)); reflexivity.
Qed.

(** The bytes beyond the ASCII range that occur in the encoding of a
    white space character. *)
Definition spaceBytes : list nat :=
  [128; 129; 130; 131; 132; 133; 134; 135; 136; 137; 138; 154; 159; 160;
   168; 169; 175; 187; 191; 194; 225; 226; 227; 239].

(** A byte that is part of no white space character. *)
Definition inkByte (c : ascii) : bool :=
  negb (isSpace c) && negb (existsb (Nat.eqb (nat_of_ascii c)) spaceBytes).

Lemma inkByte_neq (c : ascii) (k : nat) :
  inkByte c = true -> In k spaceBytes -> Nat.eqb (nat_of_ascii c) k = false.
Proof.
  unfold inkByte. intros H Hk. apply andb_prop in H as [_ H].
  apply negb_true_iff in H.
  destruct (Nat.eqb (nat_of_ascii c) k) eqn:E; [|reflexivity].
  rewrite <- H. symmetry. apply existsb_exists. eauto.
Qed.

Lemma inkByte_isSpace (c : ascii) : inkByte c = true -> isSpace c = false.
Proof.
  unfold inkByte. intros H. apply andb_prop in H as [H _].
  now apply negb_true_iff in H.
Qed.

(** Solves [In k spaceBytes] for a numeral [k]. *)
Ltac listed := unfold spaceBytes; simpl; tauto.

Lemma isSpace2_ink (a b : ascii) :
  inkByte a = true \/ inkByte b = true -> isSpace2 a b = false.
Proof.
  unfold isSpace2. intros [H | H].
  - rewrite (inkByte_neq a 194 H) by listed. reflexivity.
  - rewrite (inkByte_neq b 160 H) by listed. apply andb_false_r.
Qed.

Lemma isSpace3_ink (a b c : ascii) :
  inkByte a = true \/ inkByte b = true \/ inkByte c = true ->
  isSpace3 a b c = false.
Proof.
  unfold isSpace3. cbv zeta. intros [H | [H | H]].
  - rewrite (inkByte_neq a 225 H), (inkByte_neq a 226 H),
      (inkByte_neq a 227 H), (inkByte_neq a 239 H) by listed.
    reflexivity.
  - rewrite (inkByte_neq b 154 H), (inkByte_neq b 128 H),
      (inkByte_neq b 129 H), (inkByte_neq b 187 H) by listed.
    now rewrite !andb_false_r.
  - assert (Hz : Nat.leb 128 (nat_of_ascii c) && Nat.leb (nat_of_ascii c) 138
                 = false).
    { destruct (Nat.leb 128 (nat_of_ascii c)) eqn:E1; [|reflexivity].
      destruct (Nat.leb (nat_of_ascii c) 138) eqn:E2; [|reflexivity].
      apply Nat.leb_le in E1, E2. exfalso.
      assert (Hin : In (nat_of_ascii c) spaceBytes)
        by (unfold spaceBytes; simpl; lia).
      pose proof (inkByte_neq c _ H Hin) as Hn.
      now rewrite Nat.eqb_refl in Hn. }
    rewrite Hz.
    rewrite (inkByte_neq c 128 H), (inkByte_neq c 168 H),
      (inkByte_neq c 169 H), (inkByte_neq c 175 H), (inkByte_neq c 159 H),
      (inkByte_neq c 191 H) by listed.
    now rewrite !andb_false_r.
Qed.

(** A string that holds a byte of a character other than white
    space. *)
Fixpoint inked (s : string) : bool :=
  match s with
  | EmptyString => false
  | String c r => inkByte c || inked r
  end.

(** What the two scans of [trim] have in common: white space is taken
    off in front, one character at a time. *)
Lemma trim_scan (scan : string -> string) (sp2 : ascii -> ascii -> bool)
    (sp3 : ascii -> ascii -> ascii -> bool) :
  (forall a r1,
     scan (String a r1)
     = if isSpace a then scan r1
       else match r1 with
            | String b r2 =>
                if sp2 a b then scan r2
                else match r2 with
                     | String c r3 =>
                         if sp3 a b c then scan r3 else String a r1
                     | EmptyString => String a r1
                     end
            | EmptyString => String a r1
            end) ->
  (forall a b, inkByte a = true \/ inkByte b = true -> sp2 a b = false) ->
  (forall a b c, inkByte a = true \/ inkByte b = true \/ inkByte c = true ->
     sp3 a b c = false) ->
  forall s, inked s = true ->
    nonEmpty (scan s) = true /\ inked (scan s) = true.
Proof.
  intros Hscan H2 H3.
  assert (G : forall n s, String.length s <= n -> inked s = true ->
            nonEmpty (scan s) = true /\ inked (scan s) = true).
  { induction n as [|n IH]; intros s Hlen Hink.
    - destruct s; [discriminate | simpl in Hlen; lia].
    - destruct s as [|a r1]; [discriminate|]. rewrite Hscan.
      cbn [inked] in Hink. simpl in Hlen.
      destruct (isSpace a) eqn:Ea.
      + destruct (inkByte a) eqn:Ia.
        * apply inkByte_isSpace in Ia. congruence.
        * apply IH; [lia | exact Hink].
      + destruct r1 as [|b r2].
        * split; [reflexivity | exact Hink].
        * cbn [inked] in Hink. simpl in Hlen.
          destruct (sp2 a b) eqn:E2.
          -- destruct (inkByte a) eqn:Ia;
               [rewrite H2 in E2 by auto; discriminate|].
             destruct (inkByte b) eqn:Ib;
               [rewrite H2 in E2 by auto; discriminate|].
             apply IH; [lia | exact Hink].
          -- destruct r2 as [|c r3].
             ++ split; [reflexivity | exact Hink].
             ++ cbn [inked] in Hink. simpl in Hlen.
                destruct (sp3 a b c) eqn:E3.
                ** destruct (inkByte a) eqn:Ia;
                     [rewrite H3 in E3 by auto; discriminate|].
                   destruct (inkByte b) eqn:Ib;
                     [rewrite H3 in E3 by auto; discriminate|].
                   destruct (inkByte c) eqn:Ic;
                     [rewrite H3 in E3 by auto; discriminate|].
                   apply IH; [lia | exact Hink].
                ** split; [reflexivity | exact Hink]. }
  intros s. apply (G (String.length s)). lia.
Qed.

Lemma trimStart_inked (s : string) :
  inked s = true -> nonEmpty (trimStart s) = true /\ inked (trimStart s) = true.
Proof.
  apply (trim_scan trimStart isSpace2 isSpace3).
  - intros a r1. destruct r1 as [|b [|c r3]]; reflexivity.
  - apply isSpace2_ink.
  - apply isSpace3_ink.
Qed.

Lemma trimStartReversed_inked (s : string) :
  inked s = true ->
  nonEmpty (trimStartReversed s) = true /\ inked (trimStartReversed s) = true.
Proof.
  apply (trim_scan trimStartReversed (fun a b => isSpace2 b a)
           (fun a b c => isSpace3 c b a)).
  - intros a r1. destruct r1 as [|b [|c r3]]; reflexivity.
  - intros a b H. apply isSpace2_ink. tauto.
  - intros a b c H. apply isSpace3_ink. tauto.
Qed.

Lemma inked_list (s : string) :
  inked s = existsb inkByte (list_ascii_of_string s).
Proof. induction s as [|c r IH]; [reflexivity|]. cbn. now rewrite IH. Qed.

Lemma inked_revString (s : string) : inked (revString s) = inked s.
Proof.
  rewrite !inked_list. unfold revString.
  rewrite list_ascii_of_string_of_list_ascii.
  apply eq_true_iff_eq. rewrite !existsb_exists.
  split; intros (x & Hx & H); exists x; split; auto;
    [now apply in_rev | now apply in_rev in Hx].
Qed.

Lemma trim_inked (s : string) : inked s = true -> nonEmpty (trim s) = true.
Proof.
  intros H. unfold trim, trimEnd. rewrite nonEmpty_revString.
  apply trimStartReversed_inked. rewrite inked_revString.
  now apply trimStart_inked.
Qed.

Lemma inked_append (a b : string) : inked (a +++ b) = inked a || inked b.
Proof.
  induction a as [|c r IH]; [reflexivity|].
  cbn. rewrite IH. now rewrite orb_assoc.
Qed.

Lemma parseTreeLineFrom_eq fuel line remaining level :
  parseTreeLineFrom (S fuel) line remaining level
  = if nonEmpty remaining then
      if startsWith boxTee remaining || startsWith boxElbow remaining then
        Some (level, trim (slice (String.length boxTee) remaining))
      else if startsWith boxPipe remaining then
        parseTreeLineFrom fuel line
          (slice (String.length boxPipe) remaining) (S level)
      else if startsWith fourSpaces remaining then
        parseTreeLineFrom fuel line (slice 4 remaining) (S level)
      else
        let stripped := trim line in
        if nonEmpty stripped && negb (String.eqb stripped line) then
          let indent := codeUnits line - codeUnits stripped in
          Some (indent / 4, stripped)
        else None
    else None.
Proof. reflexivity. Qed.

Lemma marker_round (m r : string) :
  branchMarker m ->
  nonEmpty (m +++ r) = true
  /\ startsWith boxTee (m +++ r) || startsWith boxElbow (m +++ r) = true
  /\ slice (String.length boxTee) (m +++ r) = r.
Proof.
  intros [-> | ->].
  - split; [reflexivity|]. split.
    + unfold startsWith at 1. now rewrite prefix_append.
    + apply slice_append.
  - split; [reflexivity|]. split.
    + unfold startsWith at 2. rewrite prefix_append. apply orb_true_r.
    + apply (slice_append boxElbow r).
Qed.

Lemma unit_round fuel line u r level :
  indentUnit u ->
  parseTreeLineFrom (S fuel) line (u +++ r) level
  = parseTreeLineFrom fuel line r (S level).
Proof.
  intros [-> | ->]; rewrite parseTreeLineFrom_eq.
  - replace (nonEmpty (boxPipe +++ r)) with true by reflexivity.
    replace (startsWith boxTee (boxPipe +++ r)) with false by reflexivity.
    replace (startsWith boxElbow (boxPipe +++ r)) with false by reflexivity.
    cbn [orb]. unfold startsWith. rewrite prefix_append.
    now rewrite slice_append.
  - replace (nonEmpty (fourSpaces +++ r)) with true by reflexivity.
    replace (startsWith boxTee (fourSpaces +++ r)) with false by reflexivity.
    replace (startsWith boxElbow (fourSpaces +++ r)) with false by reflexivity.
    replace (startsWith boxPipe (fourSpaces +++ r)) with false by reflexivity.
    cbn [orb]. unfold startsWith. rewrite prefix_append.
    now rewrite (slice_append fourSpaces r : slice 4 (fourSpaces +++ r) = r).
Qed.

Lemma concat_units_cons (u : string) (us : list string) :
  String.concat "" (u :: us) = u +++ String.concat "" us.
Proof.
  destruct us; cbn [String.concat]; [now rewrite append_nil_r | reflexivity].
Qed.

Lemma parseTreeLineFrom_units fuel line units marker rest level :
  Forall indentUnit units -> branchMarker marker ->
  List.length units < fuel ->
  parseTreeLineFrom fuel line (String.concat "" units +++ marker +++ rest) level
  = Some (level + List.length units, trim rest).
Proof.
  intros Hu Hm. revert fuel level.
  induction Hu as [|u units Hunit Hunits IH]; intros fuel level Hfuel.
  - destruct fuel as [|fuel]; [inversion Hfuel|].
    cbn [String.concat String.append List.length].
    rewrite Nat.add_0_r, parseTreeLineFrom_eq.
    destruct (marker_round marker rest Hm) as (H1 & H2 & H3).
    now rewrite H1, H2, H3.
  - destruct fuel as [|fuel]; [inversion Hfuel|].
    assert (Hf : List.length units < fuel) by (simpl in Hfuel; lia).
    rewrite concat_units_cons, append_assoc.
    rewrite unit_round by assumption.
    rewrite IH by assumption. cbn [List.length]. f_equal. f_equal. lia.
Qed.

(** A line of the tree output, made of indentation units, a branch
    marker and a name, is read as the number of the units and the
    trimmed name. *)
Theorem parseTreeLine_reads_level_and_name
    (units : list string) (marker rest : string) :
  Forall indentUnit units -> branchMarker marker ->
  parseTreeLine (String.concat "" units +++ marker +++ rest)
  = Some (List.length units, trim rest).
Proof.
  intros Hu Hm. unfold parseTreeLine.
  set (line := String.concat "" units +++ marker +++ rest).
  assert (Hink : inked line = true).
  { subst line. rewrite !inked_append.
    destruct Hm as [-> | ->]; cbn; now rewrite !orb_true_r. }
  rewrite (trim_inked _ Hink). cbn [negb].
  apply (parseTreeLineFrom_units (S (String.length line)) line units marker
           rest 0 Hu Hm).
  assert (Hlen : forall us, Forall indentUnit us ->
            List.length us <= String.length (String.concat "" us)).
  { induction 1 as [|u us H1 H2 IH]; [simpl; lia|].
    rewrite concat_units_cons, length_append. destruct H1 as [-> | ->]; simpl in *; lia. }
  subst line. rewrite length_append. specialize (Hlen units Hu). lia.
Qed.

(** A nested line, and a line whose name is followed by a no-break
    space (U+00A0), which the trim of the runtime strips as well. *)
Lemma parseTreeLine_reads_level_and_name_witness :
  parseTreeLine "│       └── utils.py" = Some (2, "utils.py")
  /\ parseTreeLine "├── a " = Some (0, "a").
Proof.
  split.
  - apply (parseTreeLine_reads_level_and_name [boxPipe; fourSpaces] boxElbow
             " utils.py").
    + constructor; [now left|]. constructor; [now right|]. constructor.
    + now right.
  - apply (parseTreeLine_reads_level_and_name [] boxTee " a ").
    + constructor.
    + now left.
Defined.

(** ** File or directory, by the name *)

Lemma prefix_dot_cons (c : ascii) (r : string) :
  String.prefix "." (String c r) = isDot c.
Proof.
  cbn [String.prefix]. unfold isDot.
  destruct (Ascii.eqb_spec c ".") as [->|Hne].
  - destruct (ascii_dec "." "."); [apply prefix_nil | congruence].
  - destruct (ascii_dec "." c); [congruence | reflexivity].
Qed.

Lemma splitOn_no_dot (s : string) :
  includes "." s = false -> splitOn isDot s = [s].
Proof.
  induction s as [|c r IH]; intros H; [reflexivity|].
  rewrite includes_cons, prefix_dot_cons in H.
  destruct (isDot c) eqn:Ec; [discriminate|].
  rewrite splitOn_other_char by assumption. now rewrite IH.
Qed.

Lemma includes_dot_append (a b : string) : includes "." (a +++ "." +++ b) = true.
Proof.
  induction a as [|c r IH].
  - change ("" +++ "." +++ b) with (String "." b).
    now rewrite includes_cons, prefix_dot_cons.
  - change (String c r +++ "." +++ b) with (String c (r +++ "." +++ b)).
    rewrite includes_cons, IH. now destruct (String.prefix _ _).
Qed.

Lemma lookAhead_only_confirms next : lookAhead next <> Some false.
Proof.
  induction next as [|l rest IH]; [discriminate|].
  cbn [lookAhead].
  destruct (negb (nonEmpty (trim l)) || includes "tree" (trim l)
            || String.eqb (trim l) ":"); [discriminate|].
  destruct (parseTreeLine (trim l)) as [[level nm]|]; [|exact IH].
  destruct (Nat.ltb 0 level); discriminate.
Qed.

(** A name whose last extension is, up to the case of its letters, one
    of the known file extensions is taken for a file, whatever lines
    follow it in the listing. *)
Theorem known_extension_means_file
    (base ext : string) (allLines : list string) (currentIndex : nat) :
  includes "." ext = false ->
  In (toLowerCase ext) fileExtensions ->
  determineIsDirectory (base +++ "." +++ ext) allLines currentIndex = false.
Proof.
  intros Hext Hknown. unfold determineIsDirectory.
  rewrite includes_dot_append.
  change (base +++ "." +++ ext) with (base +++ String "." ext).
  rewrite splitOn_app_sep by reflexivity.
  rewrite (splitOn_no_dot ext Hext).
  rewrite last_app_nonempty by discriminate. cbn [last].
  rewrite length_app. cbn [List.length].
  assert (Hlen : Nat.leb 2 (List.length (splitOn isDot base) + 1) = true).
  { apply Nat.leb_le. pose proof (splitOn_nonempty isDot base) as Hne.
    destruct (splitOn isDot base); [contradiction | simpl; lia]. }
  rewrite Hlen. apply setHas_In in Hknown. now rewrite Hknown.
Qed.

Lemma known_extension_means_file_witness :
  determineIsDirectory "Boot.PY" ["│   └── child"] 0 = false.
Proof.
  apply (known_extension_means_file "Boot" "PY").
  - reflexivity.
  - simpl. tauto.
Defined.

(** A name without a dot, other than the few special file names and
    ["tree"], is taken for a directory, whatever lines follow it: a
    file without extension is listed as a folder. *)
Theorem plain_name_means_directory
    (name : string) (allLines : list string) (currentIndex : nat) :
  name <> "" ->
  includes "." name = false ->
  ~ In name specialFiles ->
  name <> "tree" ->
  determineIsDirectory name allLines currentIndex = true.
Proof.
  intros Hne Hdot Hspecial Htree. unfold determineIsDirectory.
  rewrite Hdot.
  destruct (setHas name specialFiles) eqn:Es;
    [apply setHas_In in Es; contradiction|].
  pose proof (lookAhead_only_confirms
                (firstn 9 (skipn (S currentIndex) allLines))) as Hl.
  destruct (lookAhead _) as [[|]|]; [reflexivity | congruence |].
  apply String.eqb_neq in Htree. rewrite Htree.
  destruct name as [|c r]; [contradiction|].
  rewrite includes_cons in Hdot. unfold startsWith.
  destruct (String.prefix "." (String c r)); [discriminate | reflexivity].
Qed.

Lemma plain_name_means_directory_witness :
  determineIsDirectory "data" [] 0 = true.
Proof.
  apply plain_name_means_directory.
  - discriminate.
  - reflexivity.
  - simpl. intuition discriminate.
  - discriminate.
Defined.

(** ** The tree statistics and the saved paths *)

(** When the saved [tree-paths.json] is fresh, [listTreeStats] answers
    from it for every root: the tool is not run (the history stays as
    it is), the [root] argument plays no part, and every size is
    reported as 0. *)
Theorem listTreeStats_answers_from_saved_paths
    (root : string) (env : Env) (st : St) (cachedData : list ParsedLine) :
  noConcretePort (configuredConnect env) = false ->
  freshTreePaths env (history st) = Some cachedData ->
  exists st' stats,
    listTreeStats root env st = (st', Resolve stats)
    /\ history st' = history st
    /\ map ts_path stats = map pl_fullPath cachedData
    /\ Forall (fun s => ts_size s = 0%Z) stats.
Proof.
  intros Hport Hfresh.
  unfold listTreeStats. unfold bind at 1, getEnv. cbv beta iota zeta.
  rewrite Hport.
  destruct (steady_getConnection (configuredConnect env) env st)
    as (st1 & b & E1 & [Hh _] & _).
  unfold bind at 1. rewrite E1.
  unfold tryCatch, bind, getState. rewrite Hh, Hfresh. unfold ret.
  eexists _, _. split; [reflexivity|]. split; [exact Hh|].
  split.
  - rewrite map_map. reflexivity.
  - apply Forall_forall. intros s Hs. apply in_map_iff in Hs as (x & <- & _).
    reflexivity.
Qed.

Lemma listTreeStats_answers_from_saved_paths_witness :
  exists st',
    listTreeStats "/lib"
      {| connectSetting := "/dev/ttyUSB0";
         homedir := "/home/user";
         probe := fun _ _ => true;
         tool := fun _ _ => ExecErr "Command failed" "";
         clock := fun _ => 0%Z;
         localAccess := fun _ _ => true;
         freshTreePaths := fun _ =>
           Some [{| pl_fullPath := "/main.py"; pl_name := "main.py";
                    pl_isDir := false; pl_depth := 0 |}] |}
      initialState
    = (st', Resolve [{| ts_path := "/main.py"; ts_isDir := false;
                        ts_size := 0%Z |}]).
Proof.
  destruct (listTreeStats_answers_from_saved_paths "/lib"
              {| connectSetting := "/dev/ttyUSB0";
                 homedir := "/home/user";
                 probe := fun _ _ => true;
                 tool := fun _ _ => ExecErr "Command failed" "";
                 clock := fun _ => 0%Z;
                 localAccess := fun _ _ => true;
                 freshTreePaths := fun _ =>
                   Some [{| pl_fullPath := "/main.py"; pl_name := "main.py";
                            pl_isDir := false; pl_depth := 0 |}] |}
              initialState
              [{| pl_fullPath := "/main.py"; pl_name := "main.py";
                  pl_isDir := false; pl_depth := 0 |}]
              eq_refl eq_refl) as (st' & stats & H & _).
  exists st'. rewrite H. f_equal. f_equal.
  vm_compute in H. now inversion H.
Defined.

(** ** Missing directories stop the baseline upload *)







(** ** The cached tree: what the root lists *)

(** A parsed line that belongs to the root: its path has one segment
    at most. *)
Definition topLevel (item : ParsedLine) : bool :=
  Nat.leb (List.length (pathParts (pl_fullPath item))) 1.

Definition entryOf (item : ParsedLine) : Entry :=
  {| e_name := pl_name item; e_isDir := pl_isDir item |}.

Definition entryAt (store : list TreeNode) (id : nat) : list Entry :=
  match nth_error store id with
  | Some c => [{| e_name := tn_name c; e_isDir := tn_isDir c |}]
  | None => []
  end.

Lemma good_pathParts p : good (pathParts p).
Proof.
  unfold pathParts, good. apply Forall_forall. intros s Hs.
  apply filter_In in Hs as [Hin Hne].
  pose proof (splitOn_parts_noSlash p) as Hall.
  rewrite Forall_forall in Hall. unfold goodSeg. now rewrite Hne, Hall.
Qed.

Lemma parentPath_below_root p :
  Nat.ltb 1 (List.length (pathParts p)) = true ->
  "/" +++ String.concat "/" (removelast (pathParts p)) <> "/".
Proof.
  intros Hlen E. apply Nat.ltb_lt in Hlen.
  inversion E as [E'].
  apply concat_good_empty in E'; [|apply good_removelast, good_pathParts].
  destruct (pathParts p) as [|a [|b l]]; simpl in *; try lia. discriminate.
Qed.

Lemma length_updateNth {A} n (f : A -> A) l :
  List.length (updateNth n f l) = List.length l.
Proof.
  revert n. induction l as [|x l IH]; intros [|n]; simpl; auto.
Qed.

Lemma entryAt_updateNth store parent child id :
  entryAt (updateNth parent (addChild child) store) id = entryAt store id.
Proof.
  unfold entryAt. revert parent id.
  induction store as [|x store IH]; intros [|parent] [|id]; simpl; auto.
Qed.

Lemma entryAt_old store node id :
  id < List.length store -> entryAt (store ++ [node]) id = entryAt store id.
Proof. intros H. unfold entryAt. now rewrite nth_error_app1. Qed.

Lemma entryAt_new store node :
  entryAt (store ++ [node]) (List.length store)
  = [{| e_name := tn_name node; e_isDir := tn_isDir node |}].
Proof.
  unfold entryAt. rewrite nth_error_app2 by lia.
  now rewrite Nat.sub_diag.
Qed.

Lemma flat_map_ext_in {A B} (f g : A -> list B) l :
  (forall x, In x l -> f x = g x) -> flat_map f l = flat_map g l.
Proof.
  induction l as [|x l IH]; intros H; [reflexivity|].
  simpl. rewrite H by now left. rewrite IH; [reflexivity|].
  intros y Hy. apply H. now right.
Qed.

(** The store and the node map while the tree is built: the root is
    the first node and the node map finds it under ["/"]; every other
    key leads to a later node; the root lists the top-level lines
    seen so far. *)
Definition rooted (acc : list TreeNode * list (string * nat))
    (seen : list ParsedLine) : Prop :=
  (exists root rest,
     fst acc = root :: rest
     /\ Forall (fun id => id < List.length (fst acc)) (tn_children root)
     /\ flat_map (entryAt (fst acc)) (tn_children root)
        = map entryOf (filter topLevel seen))
  /\ mapGet "/" (snd acc) = Some 0
  /\ (forall k v, k <> "/" -> mapGet k (snd acc) = Some v -> 1 <= v).

Lemma rooted_step acc seen item :
  pl_fullPath item <> "/" ->
  rooted acc seen -> rooted (buildTreeStep acc item) (seen ++ [item]).
Proof.
  intros Hpath ((root & rest & Hstore & Hids & Hlist) & Hmap & Hkeys).
  destruct acc as [store nodeMap]. cbn [fst snd] in *.
  unfold rooted, buildTreeStep.
  set (parts := pathParts (pl_fullPath item)).
  assert (Htop : topLevel item = negb (Nat.ltb 1 (List.length parts))).
  { unfold topLevel. fold parts.
    destruct (Nat.ltb_spec 1 (List.length parts));
      [apply Nat.leb_gt | apply Nat.leb_le]; lia. }
  rewrite filter_app, map_app. cbn [filter]. rewrite Htop.
  set (newNode := {| tn_name := pl_name item; tn_isDir := pl_isDir item;
                     tn_children := []; tn_fullPath := pl_fullPath item |}).
  assert (Hnew : forall m,
            (m = nodeMap \/ m = mapSet (pl_fullPath item) (List.length store) nodeMap) ->
            mapGet "/" m = Some 0
            /\ (forall k v, k <> "/" -> mapGet k m = Some v -> 1 <= v)).
  { intros m [-> | ->]; [split; assumption|]. split.
    - rewrite mapGet_mapSet_other by congruence. exact Hmap.
    - intros k v Hk Hg.
      destruct (String.eqb k (pl_fullPath item)) eqn:Ek.
      + apply String.eqb_eq in Ek. subst k. rewrite mapGet_mapSet in Hg.
        injection Hg as <-. rewrite Hstore. simpl. lia.
      + apply String.eqb_neq in Ek.
        rewrite mapGet_mapSet_other in Hg by assumption. eauto. }
  assert (Hmaps : forall m0,
            (if pl_isDir item
             then mapSet (pl_fullPath item) (List.length store) nodeMap
             else nodeMap) = m0 ->
            mapGet "/" m0 = Some 0
            /\ (forall k v, k <> "/" -> mapGet k m0 = Some v -> 1 <= v)).
  { intros m0 <-. apply Hnew. destruct (pl_isDir item); auto. }
  destruct (Nat.ltb 1 (List.length parts)) eqn:Eb; cbn [negb].
  - (* below a directory: the root keeps its children *)
    rewrite app_nil_r.
    pose proof (parentPath_below_root _ Eb) as Hparent. fold parts in Hparent.
    destruct (mapGet ("/" +++ String.concat "/" (removelast parts)) nodeMap)
      as [parent|] eqn:Eg.
    + pose proof (Hkeys _ _ Hparent Eg) as Hpos.
      cbn [fst snd]. split; [|now apply Hmaps].
      destruct parent as [|parent]; [lia|].
      exists root, (updateNth parent (addChild (List.length store)) rest ++ [newNode]).
      rewrite Hstore. cbn [updateNth app]. split; [reflexivity|].
      split.
      * eapply Forall_impl; [|exact Hids]. intros id Hid.
        rewrite Hstore in Hid. simpl in *.
        rewrite length_app, length_updateNth. simpl. lia.
      * rewrite <- Hlist. apply flat_map_ext_in. intros id Hid.
        rewrite Forall_forall in Hids. specialize (Hids id Hid).
        change (root :: updateNth parent (addChild (List.length (root :: rest))) rest
                ++ [newNode])
          with (updateNth (S parent) (addChild (List.length (root :: rest)))
                  (root :: rest) ++ [newNode]).
        rewrite entryAt_old by (now rewrite length_updateNth, <- Hstore).
        rewrite entryAt_updateNth. now rewrite Hstore.
    + cbn [fst snd]. split; [|split; assumption].
      exists root, rest. auto.
  - (* a top-level line: the root gets one more child *)
    rewrite Hmap. cbn [fst snd]. split; [|now apply Hmaps].
    rewrite Hstore. cbn [updateNth app].
    exists (addChild (List.length (root :: rest)) root), (rest ++ [newNode]).
    split; [reflexivity|]. cbn [addChild tn_children].
    split.
    + apply Forall_app. split.
      * eapply Forall_impl; [|exact Hids]. intros id Hid.
        rewrite Hstore in Hid. simpl in *. rewrite length_app. simpl. lia.
      * constructor; [|constructor]. simpl. rewrite length_app. simpl. lia.
    + rewrite flat_map_app. cbn [flat_map]. rewrite app_nil_r.
      change (addChild (List.length (root :: rest)) root :: rest ++ [newNode])
        with (updateNth 0 (addChild (List.length (root :: rest))) (root :: rest)
              ++ [newNode]).
      f_equal.
      * rewrite <- Hlist. apply flat_map_ext_in. intros id Hid.
        rewrite Forall_forall in Hids. specialize (Hids id Hid).
        rewrite entryAt_old by (now rewrite length_updateNth, <- Hstore).
        rewrite entryAt_updateNth. now rewrite Hstore.
      * rewrite <- (length_updateNth 0 (addChild (List.length (root :: rest)))
                     (root :: rest)) at 2.
        now rewrite entryAt_new.
Qed.

Lemma rooted_fold items acc seen :
  Forall (fun item => pl_fullPath item <> "/") items ->
  rooted acc seen ->
  rooted (fold_left buildTreeStep items acc) (seen ++ items).
Proof.
  intros Hitems. revert acc seen.
  induction Hitems as [|item items Hitem Hrest IH]; intros acc seen H.
  - now rewrite app_nil_r.
  - simpl. replace (seen ++ item :: items) with ((seen ++ [item]) ++ items)
      by (now rewrite <- app_assoc).
    apply IH. now apply rooted_step.
Qed.

(** Building the tree and asking the cache for the root gives back
    the top-level lines, in the order of the listing, as long as no
    line has the root itself as its path. *)
Theorem cached_root_lists_the_top_level_lines (parsedLines : list ParsedLine) :
  Forall (fun item => pl_fullPath item <> "/") parsedLines ->
  getEntriesFromCache (Some (buildTreeFromParsedLines parsedLines)) "/"
  = Some (map entryOf (filter topLevel parsedLines)).
Proof.
  intros Hitems. unfold buildTreeFromParsedLines.
  set (root := {| tn_name := ""; tn_isDir := true; tn_children := [];
                  tn_fullPath := "/" |}).
  assert (H0 : rooted ([root], [("/", 0)]) []).
  { split; [|split].
    - exists root, []. repeat split; constructor.
    - reflexivity.
    - intros k v Hk Hg. cbn [snd mapGet] in Hg.
      destruct (String.eqb "/" k) eqn:E; [|discriminate].
      apply String.eqb_eq in E. congruence. }
  pose proof (rooted_fold parsedLines _ [] Hitems H0)
    as ((r & rest & Hstore & _ & Hlist) & _).
  cbn [app] in Hlist. unfold getEntriesFromCache. rewrite Hstore.
  cbn [nth_error]. rewrite String.eqb_refl. unfold entriesOf.
  rewrite <- Hlist, Hstore. reflexivity.
Qed.

Lemma cached_root_lists_the_top_level_lines_witness :
  getEntriesFromCache
    (Some (buildTreeFromParsedLines
             (parseTreeLines
                ("├── lib" +++ newline +++ "│   └── utils.py" +++ newline
                 +++ "└── main.py" +++ newline))))
    "/"
  = Some [{| e_name := "lib"; e_isDir := true |};
          {| e_name := "main.py"; e_isDir := false |}].
Proof.
  apply (cached_root_lists_the_top_level_lines
           (parseTreeLines
              ("├── lib" +++ newline +++ "│   └── utils.py" +++ newline
               +++ "└── main.py" +++ newline))).
  vm_compute. repeat constructor; discriminate.
Defined.

(** ** The diff check: local-only directories *)

(** A device path is flagged as a local-only directory exactly when
    it is the device path of a local directory and the board listing
    has no directory of that path. *)
Theorem local_only_directories_are_those_the_board_lacks
    (rootPath : string) (localDirectories boardDirectories : list string)
    (d : string) :
  In d (localOnlyDirs rootPath localDirectories boardDirectories)
  <-> (exists localDir,
         In localDir localDirectories /\ d = toDevicePath localDir rootPath)
      /\ ~ In d boardDirectories.
Proof.
  unfold localOnlyDirs.
  assert (G : forall l acc,
             In d (fold_left
                     (fun acc localDir =>
                        if negb (setHas (toDevicePath localDir rootPath)
                                   boardDirectories)
                        then setAdd (toDevicePath localDir rootPath) acc
                        else acc) l acc)
             <-> In d acc
                 \/ ((exists localDir,
                        In localDir l /\ d = toDevicePath localDir rootPath)
                     /\ ~ In d boardDirectories)).
  { induction l as [|x l IH]; intros acc; simpl.
    - split; [auto | intros [H | [(y & [] & _) _]]; exact H].
    - rewrite IH. clear IH.
      destruct (setHas (toDevicePath x rootPath) boardDirectories) eqn:Eh;
        cbn [negb].
      + apply setHas_In in Eh. split.
        * intros [H | [(y & Hy & ->) Hn]]; auto.
          right. split; eauto.
        * intros [H | [(y & [<- | Hy] & ->) Hn]]; auto; [contradiction|].
          right. split; eauto.
      + assert (Hn : ~ In (toDevicePath x rootPath) boardDirectories).
        { intros H. apply setHas_In in H. congruence. }
        rewrite setAdd_In. split.
        * intros [[H | ->] | [(y & Hy & ->) Hn']]; auto.
          -- right. split; eauto.
          -- right. split; eauto.
        * intros [H | [(y & [<- | Hy] & ->) Hn']]; auto.
          right. split; eauto. }
  rewrite G. simpl. tauto.
Qed.

(** ** The parsed tree: paths *)

(** The directory stack and the result of [parseTreeLines] hold
    absolute paths only. *)
Definition absoluteLines (acc : list ParsedLine * list string) : Prop :=
  Forall (fun item => startsWith "/" (pl_fullPath item) = true
                      /\ endsWith ("/" +++ pl_name item) (pl_fullPath item)
                         = true) (fst acc)
  /\ Forall (fun dir => startsWith "/" dir = true) (snd acc).

Lemma revString_append (a b : string) :
  revString (a +++ b) = revString b +++ revString a.
Proof.
  unfold revString. rewrite list_of_append, rev_app_distr.
  generalize (rev (list_ascii_of_string b)) as x.
  generalize (rev (list_ascii_of_string a)) as y.
  intros y x. induction x as [|c x IH]; [reflexivity|].
  simpl. now rewrite IH.
Qed.

Lemma endsWith_append (a b : string) : endsWith b (a +++ b) = true.
Proof. unfold endsWith. rewrite revString_append. apply prefix_append. Qed.

Lemma startsWith_slash_append (a b : string) :
  startsWith "/" a = true -> startsWith "/" (a +++ b) = true.
Proof.
  destruct a as [|c r]; [discriminate|].
  cbn [String.append]. now rewrite !startsWith_slash_cons.
Qed.

Lemma last_In {A} (l : list A) (d : A) : l <> [] -> In (last l d) l.
Proof.
  induction l as [|x l IH]; [congruence|]. intros _.
  destruct l as [|y l]; [now left|]. right. apply IH. discriminate.
Qed.

Lemma parseTreeStep_absolute lines acc line :
  absoluteLines acc -> absoluteLines (parseTreeStep lines acc line).
Proof.
  intros [Hr Hs]. destruct acc as [result dirStack]. cbn [fst snd] in *.
  unfold parseTreeStep.
  destruct (negb (nonEmpty (trim line)) || includes "tree" line
            || String.eqb line ":/" || String.eqb line ":");
    [split; assumption|].
  destruct (parseTreeLine line) as [[level name]|]; [|split; assumption].
  set (stack := firstn level dirStack).
  assert (Hstack : Forall (fun dir => startsWith "/" dir = true) stack).
  { apply Forall_forall. intros x Hx. rewrite Forall_forall in Hs.
    apply Hs. subst stack. clear - Hx. revert level Hx.
    induction dirStack as [|y l IH]; intros [|n] Hx; simpl in *; try tauto.
    destruct Hx as [-> | Hx]; eauto. }
  set (fullPath := match stack with
                   | [] => "/" +++ name
                   | _ :: _ => last stack "" +++ "/" +++ name
                   end).
  assert (Hfull : startsWith "/" fullPath = true
                  /\ endsWith ("/" +++ name) fullPath = true).
  { subst fullPath. destruct stack as [|s0 stack'] eqn:Es.
    - split; [apply (prefix_append "/" name)
             | apply (endsWith_append "" ("/" +++ name))].
    - split; [|apply endsWith_append].
      apply startsWith_slash_append.
      rewrite Forall_forall in Hstack. apply Hstack.
      apply last_In. discriminate. }
  cbn [fst snd]. split.
  - apply Forall_app. split; [exact Hr|]. repeat constructor; apply Hfull.
  - destruct (determineIsDirectory name lines (indexOf line lines));
      [|exact Hstack].
    apply Forall_app. split; [exact Hstack|]. repeat constructor. apply Hfull.
Qed.

(** Whatever the tool prints, every entry that [parseTreeLines] reads
    has an absolute path, and the path ends with a slash and the name
    of the entry. *)
Theorem parsed_tree_paths_are_absolute (treeOutput : string) :
  Forall (fun item => startsWith "/" (pl_fullPath item) = true
                      /\ endsWith ("/" +++ pl_name item) (pl_fullPath item)
                         = true)
    (parseTreeLines treeOutput).
Proof.
  unfold parseTreeLines.
  set (lines := filter (fun line => nonEmpty (trim line)) (splitLines treeOutput)).
  assert (G : forall ls acc,
             absoluteLines acc ->
             absoluteLines (fold_left (parseTreeStep lines) ls acc)).
  { induction ls as [|l ls IH]; intros acc H; [exact H|].
    simpl. apply IH. now apply parseTreeStep_absolute. }
  apply (G lines ([], [])). split; constructor.
Qed.

(** ** Deletion is confirmed by the board *)

(** [follows st st']: the history only grew, and an idle state stayed
    idle. *)
Definition follows (st st' : St) : Prop :=
  (idle st = true -> idle st' = true)
  /\ exists evs, history st' = history st ++ evs.

#[global] Instance follows_threaded : Threaded follows.
Proof.
  split.
  - intros st. split; [auto | exists []; now rewrite app_nil_r].
  - intros a b c [H1 (e1 & E1)] [H2 (e2 & E2)]. split; [auto|].
    exists (e1 ++ e2). now rewrite E2, E1, app_assoc.
Qed.

Lemma follows_of_safe {A} (m : M A) :
  safe m -> keeps (extends (fun _ => True)) m -> keeps follows m.
Proof.
  intros Hs Hk env st. split.
  - intros Hi. now apply Hs.
  - destruct (Hk env st) as (evs & E & _). eauto.
Qed.

Lemma follows_quiet {A} (m : M A) : safe m -> keeps quiet m -> keeps follows m.
Proof.
  intros Hs Hq. apply follows_of_safe; [exact Hs|].
  eapply keeps_weaken; [apply quiet_extends | exact Hq].
Qed.

Lemma follows_run args retry : keeps follows (runMpremote args retry).
Proof.
  apply follows_of_safe; [apply safe_runMpremote|].
  apply runner_shape; intros; exact I.
Qed.

Lemma follows_getConnection port : keeps follows (getConnection port).
Proof. apply follows_quiet; auto with frames. Qed.

Lemma follows_markUnhealthy port : keeps follows (markUnhealthy port).
Proof. apply follows_quiet; auto with frames. Qed.

Lemma follows_clear : keeps follows clearFileTreeCache.
Proof. apply follows_of_safe; [apply safe_clear | apply shape_clear]. Qed.

#[global] Hint Resolve follows_run follows_getConnection
  follows_markUnhealthy follows_clear : frames.

(** The loop over the listed lines inside [deleteDirectoryRecursive],
    by name. *)
Definition walkItems (fuel : nat) (p connect : string)
  : list string -> M unit :=
  fix items (ls : list string) : M unit :=
    match ls with
    | [] => ret tt
    | line :: rest =>
        match lsItem p line with
        | Some (itemPath, true) =>
            deleteDirectoryRecursive fuel itemPath connect ;;;
            items rest
        | Some (itemPath, false) =>
            attempt (runMpremote ["connect"; connect; "fs"; "rm"; itemPath]
                       true) ;;;
            items rest
        | None => items rest
        end
    end.

Lemma deleteDirectoryRecursive_eq fuel p connect :
  deleteDirectoryRecursive (S fuel) p connect
  = (out <- runMpremote ["connect"; connect; "fs"; "ls"; p] true ;;
     walkItems fuel p connect
       (filter (fun line => nonEmpty (trim line)) (splitLines (stdout out))) ;;;
     runMpremote ["connect"; connect; "fs"; "rmdir"; p] true ;;;
     ret tt).
Proof. reflexivity. Qed.

Lemma follows_walkItems fuel p connect lines :
  (forall q, keeps follows (deleteDirectoryRecursive fuel q connect)) ->
  keeps follows (walkItems fuel p connect lines).
Proof.
  intros IH. induction lines as [|line rest IHl]; [simpl; frames|].
  cbn [walkItems]. destruct (lsItem p line) as [[itemPath [|]]|].
  - refine (keeps_bind _ _ _ _ (fun _ => _)); [apply IH | exact IHl].
  - refine (keeps_bind _ _ _ _ (fun _ => _)); [|exact IHl].
    unfold attempt. frames.
  - exact IHl.
Qed.

Lemma follows_deleteDirectoryRecursive fuel p connect :
  keeps follows (deleteDirectoryRecursive fuel p connect).
Proof.
  revert p. induction fuel as [|fuel IH]; intros p.
  - simpl. frames.
  - rewrite deleteDirectoryRecursive_eq.
    refine (keeps_bind _ _ _ _ (fun out => _)); [auto with frames|].
    refine (keeps_bind _ _ _ _ (fun _ => _)); [|frames].
    now apply follows_walkItems.
Qed.

Lemma follows_getFileInfo p : keeps follows (getFileInfo p).
Proof. unfold getFileInfo. frames. Qed.

(** A command that removes [p]: the plain or the recursive remove of
    the path, or the [rmdir] that ends the manual walk. *)
Definition removalOf (p : string) (args : list string) : Prop :=
  commandOf args = ["fs"; "rm"; pathArgOf p]
  \/ commandOf args = ["fs"; "rm"; "-r"; pathArgOf p]
  \/ commandOf args = ["fs"; "rmdir"; p].

Lemma deleteDirectoryRecursive_resolved fuel p connect env st st' :
  idle st = true ->
  deleteDirectoryRecursive fuel p connect env st = (st', Resolve tt) ->
  exists evs out err,
    history st' = history st ++ evs
    /\ lastRun evs
       = Some (["connect"; connect; "fs"; "rmdir"; p], ExecOk out err).
Proof.
  intros Hi E. destruct fuel as [|fuel]; [discriminate E|].
  rewrite deleteDirectoryRecursive_eq in E. unfold bind at 1 in E.
  pose proof (follows_run ["connect"; connect; "fs"; "ls"; p] true env st)
    as [Hi1 (evs1 & Hh1)].
  destruct (runMpremote ["connect"; connect; "fs"; "ls"; p] true env st)
    as [st1 [out|e|]]; try discriminate. cbn [fst] in *.
  unfold bind at 1 in E.
  set (walk := walkItems fuel p connect
                 (filter (fun line => nonEmpty (trim line))
                    (splitLines (stdout out)))) in E.
  assert (Hwalk : follows st1 (fst (walk env st1)))
    by (apply follows_walkItems; intros q;
        apply follows_deleteDirectoryRecursive).
  destruct Hwalk as [Hi2 (evs2 & Hh2)].
  destruct (walk env st1) as [st2 [[]|e|]]; try discriminate. cbn [fst] in *.
  unfold bind at 1 in E.
  destruct (runMpremote ["connect"; connect; "fs"; "rmdir"; p] true env st2)
    as [st3 [out3|e|]] eqn:E3; try discriminate.
  apply runMpremote_outcome in E3; auto.
  destruct E3 as (_ & evs3 & Hh3 & Hl3).
  unfold ret in E. inversion E; subst.
  exists (evs1 ++ evs2 ++ evs3), (stdout out3), (stderr out3). split.
  - rewrite Hh3, Hh2, Hh1. now rewrite <- !app_assoc.
  - now rewrite !lastRun_app, Hl3.
Qed.

(** [deleteAny] reports success only on the word of the board: when it
    resolves, the last run of the tool was a removal of the path, and
    that run succeeded. *)
Theorem deleteAny_resolves_after_a_confirmed_removal
    (fuel : nat) (p : string) (env : Env) (st st' : St) :
  idle st = true ->
  deleteAny fuel p env st = (st', Resolve tt) ->
  exists evs args out err,
    history st' = history st ++ evs
    /\ lastRun evs = Some (args, ExecOk out err)
    /\ removalOf p args.
Proof.
  intros Hi E. enter_in deleteAny E.
  destruct (noConcretePort _); [discriminate|].
  set (connect := configuredConnect env) in *.
  unfold bind at 1 in E.
  destruct (steady_getConnection connect env st)
    as (st1 & b & E1 & [Hh1 _] & Hi1).
  rewrite E1 in E. cbv iota beta in E. specialize (Hi1 Hi).
  assert (Hfallback : forall s evsB e r,
            idle s = true -> history s = history st ++ evsB ->
            (let errorMessage := toLowerCase (errorText e) in
             if dirNotEmptyError errorMessage then
               tryCatch
                 (deleteDirectoryRecursive fuel p connect ;;; clearFileTreeCache)
                 (fun recursiveError =>
                    markUnhealthy connect ;;;
                    throw ("Failed to delete directory " +++ p +++ ": "
                           +++ errorText recursiveError))
             else markUnhealthy connect ;;; throw e) env s = (st', Resolve r) ->
            exists evs args out err,
              history st' = history st ++ evs
              /\ lastRun evs = Some (args, ExecOk out err)
              /\ removalOf p args).
  { intros s evsB e r His Hhs Eh. cbv zeta in Eh.
    destruct (dirNotEmptyError _).
    - unfold tryCatch, bind at 1 in Eh.
      destruct (deleteDirectoryRecursive fuel p connect env s)
        as [s1 [[]|e1|]] eqn:Ed.
      + apply deleteDirectoryRecursive_resolved in Ed; auto.
        destruct Ed as (evs & out & err & Hh & Hl).
        unfold clearFileTreeCache, modify in Eh. inversion Eh; subst.
        exists (evsB ++ evs), ["connect"; connect; "fs"; "rmdir"; p], out, err.
        cbn [history withTreeCache]. split.
        * rewrite Hh, Hhs. now rewrite <- app_assoc.
        * split; [now rewrite lastRun_app, Hl|]. right. right. reflexivity.
      + unfold bind in Eh.
        destruct (markUnhealthy connect env s1) as [s2 [[]|e2|]]; discriminate.
      + discriminate.
    - unfold bind in Eh.
      destruct (markUnhealthy connect env s) as [s2 [[]|e2|]]; discriminate. }
  unfold tryCatch in E. unfold bind at 1 in E.
  pose proof (follows_getFileInfo p env st1) as [Hi2 (evs2 & Hh2)].
  destruct (getFileInfo p env st1) as [st2 [fileInfo|e|]]; cbn [fst] in *.
  - specialize (Hi2 Hi1). unfold bind at 1 in E.
    match type of E with
    | context [runMpremote ?a true env st2] =>
        set (args := a) in E;
        assert (Hargs : removalOf p args)
          by (subst args;
              destruct (match fileInfo with
                        | Some fi => fi_isDir fi
                        | None => false
                        end); [right; left | left]; reflexivity)
    end.
    pose proof (follows_run args true env st2) as [Hi3 (evs3 & Hh3)].
    destruct (runMpremote args true env st2) as [st3 [out|e|]] eqn:E3;
      cbn [fst] in *.
    + apply runMpremote_outcome in E3; auto.
      destruct E3 as (_ & evs3' & Hh3' & Hl3).
      unfold clearFileTreeCache, modify in E. inversion E; subst.
      exists (evs2 ++ evs3'), args, (stdout out), (stderr out).
      cbn [history withTreeCache]. split.
      * rewrite Hh3', Hh2, Hh1. now rewrite <- app_assoc.
      * split; [now rewrite lastRun_app, Hl3 | exact Hargs].
    + eapply (Hfallback st3 (evs2 ++ evs3)); eauto.
      rewrite Hh3, Hh2, Hh1. now rewrite <- app_assoc.
    + discriminate.
  - eapply (Hfallback st2 evs2); eauto. now rewrite Hh2, Hh1.
  - discriminate.
Qed.

Lemma deleteAny_resolves_after_a_confirmed_removal_witness :
  exists evs args out err,
    history (fst (deleteAny 5 "/lib" (libBoard ["b.py"; "a.py"]) initialState))
    = history initialState ++ evs
    /\ lastRun evs = Some (args, ExecOk out err)
    /\ removalOf "/lib" args.
Proof.
  apply (deleteAny_resolves_after_a_confirmed_removal 5 "/lib"
           (libBoard ["b.py"; "a.py"]) initialState).
  - reflexivity.
  - vm_compute. reflexivity.
Defined.

(** ** The connection manager: when a connection is reused *)

Lemma getConnection_entry port env st :
  exists reuse busy,
    getConnection port env st
    = (withConnections
         (connSet port
            {| lastUsed := clock env (history st);
               isHealthy := true;
               operationInProgress := busy |}
            (activeConnections st)) st,
       Resolve reuse).
Proof.
  unfold getConnection, bind, now, getState, modify, ret.
  destruct (connGet port (activeConnections st)) as [c|].
  - destruct ((clock env (history st) - lastUsed c <? CONNECTION_TIMEOUT)%Z)
      eqn:Et; cbn [andb].
    + destruct (isHealthy c) eqn:Eh.
      * exists true, (operationInProgress c). reflexivity.
      * exists false, false. reflexivity.
    + exists false, false. reflexivity.
  - exists false, false. reflexivity.
Qed.

Lemma getConnection_known port env st entry :
  connGet port (activeConnections st) = Some entry ->
  snd (getConnection port env st)
  = Resolve ((clock env (history st) - lastUsed entry <? CONNECTION_TIMEOUT)%Z
             && isHealthy entry).
Proof.
  intros H. unfold getConnection, bind, now, getState, modify, ret.
  rewrite H.
  now destruct ((clock env (history st) - lastUsed entry <? CONNECTION_TIMEOUT)%Z
                && isHealthy entry).
Qed.

(** After a call of [getConnection] for a port, the next call for the
    same port reuses the connection exactly when less than 30 seconds
    have passed on the clock; once [markUnhealthy] has come in
    between, it never does. *)
Theorem connection_is_reused_within_the_timeout
    (port : string) (env env' : Env) (st : St) :
  let st1 := fst (getConnection port env st) in
  let t := clock env (history st) in
  let t' := clock env' (history st1) in
  (snd (getConnection port env' st1) = Resolve true
   <-> (t' - t < CONNECTION_TIMEOUT)%Z)
  /\ snd (getConnection port env'
            (fst (markUnhealthy port env st1)))
     = Resolve false.
Proof.
  intros st1 t t'. subst st1 t t'.
  destruct (getConnection_entry port env st) as (reuse & busy & E).
  rewrite E. cbn [fst]. clear E.
  set (entry := {| lastUsed := clock env (history st); isHealthy := true;
                   operationInProgress := busy |}).
  set (st1 := withConnections (connSet port entry (activeConnections st)) st).
  assert (Hget : connGet port (activeConnections st1) = Some entry)
    by apply mapGet_mapSet.
  split.
  - rewrite (getConnection_known port env' st1 entry Hget).
    cbn [lastUsed isHealthy entry]. rewrite andb_true_r.
    destruct (clock env' (history st1) - clock env (history st)
              <? CONNECTION_TIMEOUT)%Z eqn:Et.
    + apply Z.ltb_lt in Et. split; auto.
    + apply Z.ltb_ge in Et. split; [discriminate | lia].
  - unfold markUnhealthy, updateConn, bind, getState, modify.
    rewrite Hget. cbn [fst].
    erewrite getConnection_known
      by (cbn [activeConnections withConnections]; apply mapGet_mapSet).
    cbn [isHealthy]. now rewrite andb_false_r.
Qed.

(** ** The listing with sizes: a file line *)

(** White space only. *)
Fixpoint blank (s : string) : bool :=
  match s with
  | EmptyString => true
  | String c r => isSpace c && blank r
  end.

Fixpoint allDigits (s : string) : bool :=
  match s with
  | EmptyString => true
  | String c r => Sizes.isDigit c && allDigits r
  end.

Lemma trimStart_blank (lead body : string) :
  blank lead = true -> trimStart (lead +++ body) = trimStart body.
Proof.
  induction lead as [|c r IH]; intros H; [reflexivity|].
  cbn [blank] in H. apply andb_prop in H as [Hc Hr].
  cbn [String.append trimStart]. rewrite Hc. auto.
Qed.

Lemma revString_length (s : string) :
  String.length (revString s) = String.length s.
Proof.
  unfold revString.
  assert (H : forall l, String.length (string_of_list_ascii l) = List.length l)
    by (induction l; simpl; congruence).
  rewrite H, length_rev. clear H.
  induction s; simpl; congruence.
Qed.

Lemma revString_involutive (s : string) : revString (revString s) = s.
Proof.
  unfold revString. rewrite list_ascii_of_string_of_list_ascii, rev_involutive.
  apply string_of_list_ascii_of_string.
Qed.

(** A byte of the ASCII range. *)
Definition plain (c : ascii) : bool := Nat.ltb (nat_of_ascii c) 128.

Lemma plain_neq (c : ascii) (k : nat) :
  plain c = true -> 128 <= k -> Nat.eqb (nat_of_ascii c) k = false.
Proof.
  unfold plain. intros H Hk. apply Nat.ltb_lt in H. apply Nat.eqb_neq. lia.
Qed.

Lemma isSpace_plain (c : ascii) : isSpace c = true -> plain c = true.
Proof.
  unfold isSpace, plain. cbv zeta. intros H. apply Nat.ltb_lt.
  repeat (apply orb_prop in H as [H | H]); apply Nat.eqb_eq in H; lia.
Qed.

Lemma isSpace2_plain (a b : ascii) :
  plain a = true \/ plain b = true -> isSpace2 a b = false.
Proof.
  unfold isSpace2. intros [H | H].
  - rewrite (plain_neq a 194 H) by lia. reflexivity.
  - rewrite (plain_neq b 160 H) by lia. apply andb_false_r.
Qed.

Lemma isSpace3_plain (a b c : ascii) :
  plain a = true \/ plain b = true \/ plain c = true ->
  isSpace3 a b c = false.
Proof.
  unfold isSpace3. cbv zeta. intros [H | [H | H]].
  - rewrite (plain_neq a 225 H), (plain_neq a 226 H), (plain_neq a 227 H),
      (plain_neq a 239 H) by lia.
    reflexivity.
  - rewrite (plain_neq b 154 H), (plain_neq b 128 H), (plain_neq b 129 H),
      (plain_neq b 187 H) by lia.
    now rewrite !andb_false_r.
  - assert (Hz : Nat.leb 128 (nat_of_ascii c) = false)
      by (unfold plain in H; apply Nat.ltb_lt in H; apply Nat.leb_gt; lia).
    rewrite Hz.
    rewrite (plain_neq c 128 H), (plain_neq c 168 H), (plain_neq c 169 H),
      (plain_neq c 175 H), (plain_neq c 159 H), (plain_neq c 191 H) by lia.
    now rewrite !andb_false_r.
Qed.

(** The first byte of a string is of the ASCII range, if there is
    one. *)
Definition plainHead (s : string) : bool :=
  match s with
  | EmptyString => true
  | String c _ => plain c
  end.

(** What the two scans of [trim] have in common. *)
Section Scan.
Variable scan : string -> string.
Variable sp2 : ascii -> ascii -> bool.
Variable sp3 : ascii -> ascii -> ascii -> bool.
Hypothesis scan_nil : scan "" = "".
Hypothesis scan_eq : forall a r1,
  scan (String a r1)
  = if isSpace a then scan r1
    else match r1 with
         | String b r2 =>
             if sp2 a b then scan r2
             else match r2 with
                  | String c r3 => if sp3 a b c then scan r3 else String a r1
                  | EmptyString => String a r1
                  end
         | EmptyString => String a r1
         end.
Hypothesis sp2_plain : forall a b,
  plain a = true \/ plain b = true -> sp2 a b = false.
Hypothesis sp3_plain : forall a b c,
  plain a = true \/ plain b = true \/ plain c = true -> sp3 a b c = false.

Lemma scan_length (s : string) : String.length (scan s) <= String.length s.
Proof.
  assert (G : forall n s, String.length s <= n ->
            String.length (scan s) <= String.length s).
  { induction n as [|n IH]; intros t Hlen.
    - destruct t; [|simpl in Hlen; lia]. rewrite scan_nil. simpl. lia.
    - destruct t as [|a r1].
      + rewrite scan_nil. simpl. lia.
      + rewrite scan_eq. simpl in Hlen.
        destruct (isSpace a).
        * specialize (IH r1). simpl. lia.
        * destruct r1 as [|b r2]; [lia|]. simpl in Hlen.
          destruct (sp2 a b).
          -- specialize (IH r2). simpl. lia.
          -- destruct r2 as [|c r3]; [lia|]. simpl in Hlen.
             destruct (sp3 a b c); [|lia].
             specialize (IH r3). simpl. lia. }
  apply (G (String.length s)). lia.
Qed.

(** A scan that takes nothing off. *)
Lemma scan_fixed (a : ascii) (r1 : string) :
  String.length (scan (String a r1)) = String.length (String a r1) ->
  isSpace a = false
  /\ match r1 with
     | String b r2 =>
         sp2 a b = false
         /\ match r2 with
            | String c r3 => sp3 a b c = false
            | EmptyString => True
            end
     | EmptyString => True
     end.
Proof.
  rewrite scan_eq. intros H.
  destruct (isSpace a).
  { pose proof (scan_length r1). simpl in H. lia. }
  split; [reflexivity|].
  destruct r1 as [|b r2]; [exact I|].
  destruct (sp2 a b).
  { pose proof (scan_length r2). simpl in H. lia. }
  split; [reflexivity|].
  destruct r2 as [|c r3]; [exact I|].
  destruct (sp3 a b c); [|reflexivity].
  pose proof (scan_length r3). simpl in H. lia.
Qed.

Lemma scan_same (s : string) :
  String.length (scan s) = String.length s -> scan s = s.
Proof.
  destruct s as [|a r1]; intros H.
  - exact scan_nil.
  - destruct (scan_fixed a r1 H) as [Ha Hr]. rewrite scan_eq, Ha.
    destruct r1 as [|b r2]; [reflexivity|]. destruct Hr as [Hb Hr].
    rewrite Hb. destruct r2 as [|c r3]; [reflexivity|]. now rewrite Hr.
Qed.

(** A string that the scan leaves as it is, is left as it is in front
    of a byte of the ASCII range. *)
Lemma scan_append (s rest : string) :
  s <> "" -> scan s = s -> plainHead rest = true ->
  scan (s +++ rest) = s +++ rest.
Proof.
  destruct s as [|a r1]; [contradiction|]. intros _ H Hrest.
  assert (Hlen : String.length (scan (String a r1))
                 = String.length (String a r1)) by now rewrite H.
  destruct (scan_fixed a r1 Hlen) as [Ha Hr].
  cbn [String.append]. rewrite scan_eq, Ha.
  destruct r1 as [|b r2].
  - cbn [String.append]. destruct rest as [|x rest]; [reflexivity|].
    cbn [plainHead] in Hrest. rewrite sp2_plain by auto.
    destruct rest as [|y rest]; [reflexivity|].
    now rewrite sp3_plain by auto.
  - destruct Hr as [Hb Hr]. cbn [String.append]. rewrite Hb.
    destruct r2 as [|c r3].
    + cbn [String.append]. destruct rest as [|x rest]; [reflexivity|].
      cbn [plainHead] in Hrest. now rewrite sp3_plain by auto.
    + cbn [String.append]. now rewrite Hr.
Qed.

(** The scan stops at a byte of the ASCII range that is not white
    space. *)
Lemma scan_head (c : ascii) (r : string) :
  plain c = true -> isSpace c = false -> scan (String c r) = String c r.
Proof.
  intros Hp Hc. rewrite scan_eq, Hc.
  destruct r as [|b r2]; [reflexivity|]. rewrite sp2_plain by auto.
  destruct r2 as [|d r3]; [reflexivity|]. now rewrite sp3_plain by auto.
Qed.

End Scan.

Lemma trimStart_eq (a : ascii) (r1 : string) :
  trimStart (String a r1)
  = if isSpace a then trimStart r1
    else match r1 with
         | String b r2 =>
             if isSpace2 a b then trimStart r2
             else match r2 with
                  | String c r3 =>
                      if isSpace3 a b c then trimStart r3 else String a r1
                  | EmptyString => String a r1
                  end
         | EmptyString => String a r1
         end.
Proof. destruct r1 as [|b [|c r3]]; reflexivity. Qed.

Lemma trimStartReversed_eq (a : ascii) (r1 : string) :
  trimStartReversed (String a r1)
  = if isSpace a then trimStartReversed r1
    else match r1 with
         | String b r2 =>
             if isSpace2 b a then trimStartReversed r2
             else match r2 with
                  | String c r3 =>
                      if isSpace3 c b a then trimStartReversed r3
                      else String a r1
                  | EmptyString => String a r1
                  end
         | EmptyString => String a r1
         end.
Proof. destruct r1 as [|b [|c r3]]; reflexivity. Qed.

Lemma trimStart_length (s : string) :
  String.length (trimStart s) <= String.length s.
Proof. apply (scan_length trimStart isSpace2 isSpace3 eq_refl trimStart_eq). Qed.

Lemma trimStartReversed_length (s : string) :
  String.length (trimStartReversed s) <= String.length s.
Proof.
  apply (scan_length trimStartReversed (fun a b => isSpace2 b a)
           (fun a b c => isSpace3 c b a) eq_refl trimStartReversed_eq).
Qed.

Lemma trimEnd_length (s : string) :
  String.length (trimEnd s) <= String.length s.
Proof.
  unfold trimEnd. rewrite revString_length.
  pose proof (trimStartReversed_length (revString s)) as H.
  now rewrite revString_length in H.
Qed.

(** A string that [trim] leaves as it is, is left as it is by both
    halves of [trim]. *)
Lemma trim_fixed (s : string) :
  trim s = s -> trimStart s = s /\ trimEnd s = s.
Proof.
  intros H. unfold trim in H.
  assert (Hs : trimStart s = s).
  { apply (scan_same trimStart isSpace2 isSpace3 eq_refl trimStart_eq).
    pose proof (trimStart_length s). pose proof (trimEnd_length (trimStart s)).
    rewrite H in *. lia. }
  split; [exact Hs|]. now rewrite Hs in H.
Qed.

Lemma trimStart_head (c : ascii) (r : string) :
  plain c = true -> isSpace c = false -> trimStart (String c r) = String c r.
Proof.
  apply (scan_head trimStart isSpace2 isSpace3 trimStart_eq).
  - apply isSpace2_plain.
  - apply isSpace3_plain.
Qed.

Lemma blank_append (a b : string) : blank (a +++ b) = blank a && blank b.
Proof.
  induction a as [|c r IH]; [reflexivity|].
  cbn [String.append blank]. now rewrite IH, andb_assoc.
Qed.

Lemma blank_revString (s : string) : blank (revString s) = blank s.
Proof.
  induction s as [|c r IH]; [reflexivity|].
  change (String c r) with (String c "" +++ r) at 1.
  rewrite revString_append, blank_append, IH.
  change (revString (String c "")) with (String c "").
  cbn [blank]. rewrite andb_true_r. apply andb_comm.
Qed.

(** After white space of the ASCII range, a name that [trimEnd] leaves
    as it is stays as it is. *)
Lemma trimEnd_after_gap (front gap name : string) :
  gap <> "" -> blank gap = true -> name <> "" -> trimEnd name = name ->
  trimEnd (front +++ gap +++ name) = front +++ gap +++ name.
Proof.
  intros Hgne Hgap Hnne Hname. unfold trimEnd in *.
  assert (Erev : revString (front +++ gap +++ name)
                 = revString name +++ revString gap +++ revString front)
    by (now rewrite !revString_append, append_assoc).
  rewrite Erev.
  assert (Hr : trimStartReversed (revString name) = revString name).
  { apply (f_equal revString) in Hname.
    now rewrite revString_involutive in Hname. }
  assert (Hhead : plainHead (revString gap +++ revString front) = true).
  { pose proof (blank_revString gap) as Hb. rewrite Hgap in Hb.
    destruct (revString gap) as [|x g] eqn:Eg.
    - exfalso. apply Hgne. rewrite <- (revString_involutive gap), Eg.
      reflexivity.
    - cbn [blank] in Hb. apply andb_prop in Hb as [Hx _].
      cbn [String.append plainHead]. now apply isSpace_plain. }
  rewrite (scan_append trimStartReversed (fun a b => isSpace2 b a)
             (fun a b c => isSpace3 c b a) eq_refl trimStartReversed_eq).
  - rewrite <- Erev. apply revString_involutive.
  - intros a b H. apply isSpace2_plain. tauto.
  - intros a b c H. apply isSpace3_plain. tauto.
  - intros E. apply Hnne. rewrite <- (revString_involutive name), E.
    reflexivity.
  - exact Hr.
  - exact Hhead.
Qed.

Lemma spanDigits_digits (digits rest : string) :
  allDigits digits = true ->
  (match rest with String c _ => Sizes.isDigit c | EmptyString => false end)
  = false ->
  Sizes.spanDigits (digits +++ rest) = (digits, rest).
Proof.
  intros Hd Hr. induction digits as [|c r IH].
  - cbn [String.append]. destruct rest as [|c r]; [reflexivity|].
    cbn [Sizes.spanDigits]. now rewrite Hr.
  - cbn [allDigits] in Hd. apply andb_prop in Hd as [Hc Hd].
    cbn [String.append Sizes.spanDigits]. rewrite Hc, (IH Hd). reflexivity.
Qed.

Lemma digit_not_space (c : ascii) : Sizes.isDigit c = true -> isSpace c = false.
Proof.
  unfold Sizes.isDigit, isSpace. intros H. apply andb_prop in H as [H1 H2].
  apply Nat.leb_le in H1, H2.
  repeat match goal with
         | |- _ || _ = false => apply orb_false_iff; split
         end; apply Nat.eqb_neq; lia.
Qed.

(** A file entry as the tool prints it, after the indentation: its
    size in brackets and its name. *)
Definition fileEntry (pad digits gap name : string) : string :=
  "[" +++ pad +++ digits +++ "]" +++ gap +++ name.

Lemma digit_plain (c : ascii) : Sizes.isDigit c = true -> plain c = true.
Proof.
  unfold Sizes.isDigit, plain. cbv zeta. intros H.
  apply andb_prop in H as [_ H]. apply Nat.leb_le in H. apply Nat.ltb_lt. lia.
Qed.

Lemma fileRe_fileEntry pad digits gap name :
  blank pad = true -> digits <> "" -> allDigits digits = true ->
  gap <> "" -> blank gap = true ->
  name <> "" -> trim name = name -> Sizes.noLineTerminator name = true ->
  Sizes.fileRe (fileEntry pad digits gap name) = Some (digits, name).
Proof.
  intros Hpad Hdne Hd Hgne Hgap Hnne Hname Hterm.
  destruct (trim_fixed name Hname) as [Hstart _].
  unfold fileEntry, Sizes.fileRe. cbn [String.append].
  replace (Ascii.eqb "[" "[") with true by reflexivity.
  rewrite trimStart_blank by assumption.
  assert (Hfirst : trimStart (digits +++ String "]" (gap +++ name))
                   = digits +++ String "]" (gap +++ name)).
  { destruct digits as [|c r]; [contradiction|].
    cbn [allDigits] in Hd. apply andb_prop in Hd as [Hc _].
    cbn [String.append].
    apply trimStart_head; [now apply digit_plain | now apply digit_not_space]. }
  rewrite Hfirst, spanDigits_digits by (auto; reflexivity).
  assert (Hdn : nonEmpty digits = true)
    by (destruct digits; [contradiction | reflexivity]).
  rewrite Hdn.
  rewrite (trimStart_head "]" (gap +++ name)) by reflexivity.
  replace (Ascii.eqb "]" "]") with true by reflexivity.
  rewrite trimStart_blank by assumption. rewrite Hstart.
  assert (Hlen : Nat.ltb (String.length name) (String.length (gap +++ name))
                 = true).
  { apply Nat.ltb_lt. rewrite length_append.
    destruct gap; [contradiction | simpl; lia]. }
  rewrite Hlen, Hterm.
  destruct name; [contradiction | reflexivity].
Qed.

Lemma indentOf_eq remaining level :
  Sizes.indentOf remaining level
  = if startsWith boxTee remaining || startsWith boxElbow remaining
    then (level, slice (String.length boxTee) remaining)
    else
      match remaining with
      | String _ (String _ (String _ (String _ rest4))) =>
          if startsWith boxPipe remaining then
            match rest4 with
            | String _ (String _ rest6) => Sizes.indentOf rest6 (S level)
            | _ => (level, remaining)
            end
          else if startsWith fourSpaces remaining
               then Sizes.indentOf rest4 (S level)
          else (level, remaining)
      | _ => (level, remaining)
      end.
Proof. destruct remaining; reflexivity. Qed.

Lemma indentOf_unit u r level :
  indentUnit u -> Sizes.indentOf (u +++ r) level = Sizes.indentOf r (S level).
Proof.
  intros [-> | ->]; rewrite indentOf_eq.
  - replace (startsWith boxTee (boxPipe +++ r)) with false by reflexivity.
    replace (startsWith boxElbow (boxPipe +++ r)) with false by reflexivity.
    replace (startsWith boxPipe (boxPipe +++ r)) with true
      by (symmetry; apply prefix_append).
    reflexivity.
  - replace (startsWith boxTee (fourSpaces +++ r)) with false by reflexivity.
    replace (startsWith boxElbow (fourSpaces +++ r)) with false by reflexivity.
    replace (startsWith boxPipe (fourSpaces +++ r)) with false by reflexivity.
    replace (startsWith fourSpaces (fourSpaces +++ r)) with true
      by (symmetry; apply prefix_append).
    reflexivity.
Qed.

Lemma indentOf_marker m r level :
  branchMarker m -> Sizes.indentOf (m +++ r) level = (level, r).
Proof.
  intros Hm. rewrite indentOf_eq.
  destruct (marker_round m r Hm) as (_ & H2 & H3). now rewrite H2, H3.
Qed.

Lemma indentOf_units units marker rest level :
  Forall indentUnit units -> branchMarker marker ->
  Sizes.indentOf (String.concat "" units +++ marker +++ rest) level
  = (level + List.length units, rest).
Proof.
  intros Hu Hm. revert level.
  induction Hu as [|u units Hunit Hunits IH]; intros level.
  - cbn [String.concat String.append List.length].
    rewrite Nat.add_0_r. now apply indentOf_marker.
  - rewrite concat_units_cons, append_assoc, indentOf_unit by assumption.
    rewrite IH. cbn [List.length]. f_equal. lia.
Qed.

Lemma marker_length m : branchMarker m -> String.length m = 9.
Proof. intros [-> | ->]; reflexivity. Qed.

Lemma marker_inked m : branchMarker m -> inked m = true.
Proof. intros [-> | ->]; reflexivity. Qed.

(** A line of the sized listing: indentation units, a branch marker,
    white space, and an entry. *)
Definition sizedLine (units : list string) (marker lead entry : string)
  : string :=
  String.concat "" units +++ marker +++ lead +++ entry.

Lemma sizedLine_passes units marker lead entry :
  branchMarker marker ->
  nonEmpty (trim (sizedLine units marker lead entry)) = true
  /\ String.eqb (sizedLine units marker lead entry) ":/" = false.
Proof.
  intros Hm. unfold sizedLine. split.
  - apply trim_inked. rewrite !inked_append, (marker_inked marker Hm).
    now rewrite orb_true_r.
  - apply String.eqb_neq. intros E. apply (f_equal String.length) in E.
    rewrite !length_append, (marker_length marker Hm) in E. simpl in E. lia.
Qed.

(** A file line of the sized listing that does not contain the text
    ["tree"] is recorded as a file: under the directories of its
    level, with a leading slash, with the size that stands between
    the brackets; the directories stay as they are.  The white space
    of the line is of the ASCII range, the name neither begins nor
    ends with white space of any kind, and the size has at most 15
    digits, which is where the number of the runtime is exact. *)
Theorem sized_file_line_is_recorded
    (acc : Sizes.Listing) (units : list string)
    (marker lead pad digits gap name : string) :
  Forall indentUnit units -> branchMarker marker -> blank lead = true ->
  blank pad = true -> digits <> "" -> allDigits digits = true ->
  String.length digits <= 15 ->
  gap <> "" -> blank gap = true ->
  name <> "" -> trim name = name -> Sizes.noLineTerminator name = true ->
  let line := sizedLine units marker lead (fileEntry pad digits gap name) in
  includes "tree" line = false ->
  Sizes.listingStep acc line
  = {| Sizes.files :=
         mapSet (Sizes.stackedPath
                   (firstn (List.length units) (Sizes.pathStack acc)) name)
           (parseIntOr0 digits) (Sizes.files acc);
       Sizes.directories := Sizes.directories acc;
       Sizes.pathStack := firstn (List.length units) (Sizes.pathStack acc) |}.
Proof.
  intros Hu Hm Hlead Hpad Hdne Hd _ Hgne Hgap Hnne Hname Hterm line Htree.
  destruct (sizedLine_passes units marker lead
              (fileEntry pad digits gap name) Hm) as [Hink Hroot].
  fold line in Hink, Hroot.
  unfold Sizes.listingStep. rewrite Hink, Htree, Hroot. cbn [negb orb].
  unfold line, sizedLine. rewrite indentOf_units by assumption.
  cbn [Nat.add].
  assert (Htrim : trim (lead +++ fileEntry pad digits gap name)
                  = fileEntry pad digits gap name).
  { unfold trim. rewrite trimStart_blank by assumption.
    destruct (trim_fixed name Hname) as [_ Hend].
    replace (trimStart (fileEntry pad digits gap name))
      with (fileEntry pad digits gap name)
      by (symmetry; apply (trimStart_head "["); reflexivity).
    unfold fileEntry.
    replace ("[" +++ pad +++ digits +++ "]" +++ gap +++ name)
      with (("[" +++ pad +++ digits +++ "]") +++ gap +++ name)
      by (now rewrite !append_assoc).
    now apply trimEnd_after_gap. }
  rewrite Htrim, fileRe_fileEntry by assumption.
  now rewrite Hname.
Qed.

Lemma sized_file_line_is_recorded_witness :
  Sizes.listingStep
    {| Sizes.files := []; Sizes.directories := ["/lib"];
       Sizes.pathStack := ["lib"] |}
    "│   └── [      1234]  utils.py"
  = {| Sizes.files := [("/lib/utils.py", 1234%Z)];
       Sizes.directories := ["/lib"];
       Sizes.pathStack := ["lib"] |}.
Proof.
  apply (sized_file_line_is_recorded
           {| Sizes.files := []; Sizes.directories := ["/lib"];
              Sizes.pathStack := ["lib"] |}
           [boxPipe] boxElbow " " "      " "1234" "  " "utils.py");
    try reflexivity; try discriminate.
  - constructor; [now left | constructor].
  - now right.
  - simpl. lia.
Defined.

(** ** The diff check: when a file counts as changed *)

Section DiffChanged.
Variable matcher : string -> bool -> bool.
Variable rootPath : string.
Variable localStat : string -> option Z.

(** The size that the comparison reads for a manifest key: the
    stat'ed size, [-1] when the stat fails, and, through [|| -1],
    [-1] as well when the size is 0. *)
Definition comparedSize (localRel : string) : Z :=
  orMinusOne (Some (match localStat localRel with
                    | Some n => n
                    | None => (-1)%Z
                    end)).

Lemma filtered_entries boardFiles p size :
  In (p, size) (filteredBoardFiles matcher rootPath boardFiles) ->
  In (p, size) boardFiles.
Proof.
  unfold filteredBoardFiles.
  assert (G : forall l acc,
             (forall q s, In (q, s) acc -> In (q, s) boardFiles) ->
             (forall q s, In (q, s) l -> In (q, s) boardFiles) ->
             forall q s,
               In (q, s)
                 (fold_left
                    (fun acc (e : string * Z) =>
                       let (boardPath, size) := e in
                       if negb (matcher (relFromDevice boardPath rootPath) false)
                       then mapSet boardPath size acc else acc) l acc) ->
               In (q, s) boardFiles).
  { induction l as [|[bp sz] l IH]; intros acc Hacc Hl q s; simpl; [eauto|].
    apply IH; [|intros; apply Hl; now right].
    intros q' s' Hin.
    destruct (matcher (relFromDevice bp rootPath) false); simpl in Hin; [eauto|].
    apply In_mapSet in Hin as [[-> ->] | Hin]; [|eauto].
    apply Hl. now left. }
  apply G; [intros q s [] | auto].
Qed.

Lemma localFileSizes_get localFiles localRel :
  In localRel localFiles ->
  mapGet localRel (localFileSizes localStat localFiles)
  = Some (match localStat localRel with Some n => n | None => (-1)%Z end).
Proof.
  intros Hin. unfold localFileSizes.
  set (sizeOf := fun rel => match localStat rel with
                            | Some n => n
                            | None => (-1)%Z
                            end).
  assert (G : forall l acc,
             (mapGet localRel acc = Some (sizeOf localRel) \/ In localRel l) ->
             mapGet localRel
               (fold_left (fun acc rel => mapSet rel (sizeOf rel) acc) l acc)
             = Some (sizeOf localRel)).
  { induction l as [|x l IH]; intros acc H; simpl.
    - destruct H as [H | []]. exact H.
    - apply IH. destruct H as [H | [-> | H]]; [| |now right]; left.
      + destruct (String.eqb localRel x) eqn:E.
        * apply String.eqb_eq in E. subst x. apply mapGet_mapSet.
        * apply String.eqb_neq in E. now rewrite mapGet_mapSet_other.
      + apply mapGet_mapSet. }
  apply G. now right.
Qed.

Lemma compareFiles_diffs byRel sizes localFiles p :
  In p (fst (compareFiles rootPath byRel sizes localFiles))
  <-> exists l bf,
        In l localFiles /\ mapGet l byRel = Some bf /\ bf_path bf = p
        /\ orMinusOne (mapGet l sizes) <> bf_size bf.
Proof.
  unfold compareFiles.
  set (step := fun (acc : list string * list string) localRel =>
                 let (diffs, localOnly) := acc in
                 match mapGet localRel byRel with
                 | Some bf =>
                     if negb (orMinusOne (mapGet localRel sizes) =? bf_size bf)%Z
                     then (setAdd (bf_path bf) diffs, localOnly)
                     else (diffs, localOnly)
                 | None =>
                     (diffs, setAdd (toDevicePath localRel rootPath) localOnly)
                 end).
  assert (G : forall l acc,
             In p (fst (fold_left step l acc))
             <-> In p (fst acc)
                 \/ exists x bf,
                      In x l /\ mapGet x byRel = Some bf /\ bf_path bf = p
                      /\ orMinusOne (mapGet x sizes) <> bf_size bf).
  { induction l as [|x l IH]; intros [diffs localOnly]; simpl.
    - split; [auto | intros [H | (y & bf & [] & _)]; exact H].
    - rewrite IH. clear IH.
      destruct (mapGet x byRel) as [bf|] eqn:Eg.
      + destruct (orMinusOne (mapGet x sizes) =? bf_size bf)%Z eqn:Es;
          cbn [negb fst].
        * apply Z.eqb_eq in Es. split.
          -- intros [H | (y & b & Hy & H)]; auto. right. exists y, b. auto.
          -- intros [H | (y & b & [<- | Hy] & Hg & Hp & Hne)]; auto.
             ++ rewrite Eg in Hg. inversion Hg; subst. contradiction.
             ++ right. exists y, b. auto.
        * apply Z.eqb_neq in Es. rewrite setAdd_In. split.
          -- intros [[H | ->] | (y & b & Hy & H)]; auto.
             ++ right. exists x, bf. auto.
             ++ right. exists y, b. auto.
          -- intros [H | (y & b & [<- | Hy] & Hg & Hp & Hne)]; auto.
             ++ rewrite Eg in Hg. inversion Hg; subst. auto.
             ++ right. exists y, b. auto.
      + cbn [fst]. split.
        * intros [H | (y & b & Hy & H)]; auto. right. exists y, b. auto.
        * intros [H | (y & b & [<- | Hy] & Hg & Hp & Hne)]; auto.
          -- rewrite Eg in Hg. discriminate.
          -- right. exists y, b. auto. }
  rewrite G. simpl. split; [intros [[] | H]; exact H | auto].
Qed.

End DiffChanged.

(** A file that the manifest has and of which the board holds exactly
    one copy that the ignore matcher keeps is flagged as changed
    exactly when the size the comparison reads for the local file
    differs from the size on the board. *)
Theorem changed_means_the_sizes_differ
    (matcher : string -> bool -> bool) (rootPath : string)
    (localStat : string -> option Z)
    (localFiles localDirectories : list string)
    (boardFiles : list (string * Z)) (boardDirectories : list string)
    (p : string) (boardSize : Z) :
  let localRel := relFromDevice p rootPath in
  In localRel localFiles ->
  In (p, boardSize) boardFiles ->
  matcher localRel false = false ->
  (forall q size, In (q, size) boardFiles ->
     relFromDevice q rootPath = localRel -> q = p /\ size = boardSize) ->
  In p (diffSet (checkDiffs matcher rootPath localStat localFiles
                   localDirectories boardFiles boardDirectories))
  <-> comparedSize localStat localRel <> boardSize.
Proof.
  intros localRel Hlocal Hboard Hkept Huniq.
  set (byRel := boardFileByRelPath rootPath
                  (filteredBoardFiles matcher rootPath boardFiles)).
  assert (Hdiff : forall q,
            In q (diffSet (checkDiffs matcher rootPath localStat localFiles
                             localDirectories boardFiles boardDirectories))
            <-> In q (fst (compareFiles rootPath byRel
                             (localFileSizes localStat localFiles) localFiles))).
  { intros q. unfold checkDiffs. fold byRel.
    now destruct (compareFiles rootPath byRel
                    (localFileSizes localStat localFiles) localFiles). }
  assert (Hentry : forall bf, mapGet localRel byRel = Some bf ->
            bf_path bf = p /\ bf_size bf = boardSize).
  { intros bf Hg. apply mapGet_In, byRel_entries in Hg as [E Hin].
    apply filtered_entries in Hin. apply Huniq; auto. }
  assert (Hhave : exists bf, mapGet localRel byRel = Some bf).
  { destruct (mapGet localRel byRel) as [bf|] eqn:Eg; [eauto|].
    exfalso. apply mapGet_None_keys in Eg. apply Eg.
    apply byRel_complete, filtered_complete.
    split; [eauto | exact Hkept]. }
  rewrite Hdiff, compareFiles_diffs. unfold comparedSize. split.
  - intros (l & bf & Hl & Hg & Hp & Hne).
    assert (El : l = localRel).
    { apply mapGet_In, byRel_entries in Hg as [E _]. now rewrite E, Hp. }
    subst l. destruct (Hentry bf Hg) as [_ Hs].
    rewrite (localFileSizes_get localStat localFiles localRel Hlocal) in Hne.
    now rewrite <- Hs.
  - intros Hne. destruct Hhave as [bf Hg]. destruct (Hentry bf Hg) as [Hp Hs].
    exists localRel, bf. repeat split; auto.
    rewrite (localFileSizes_get localStat localFiles localRel Hlocal).
    now rewrite Hs.
Qed.

Lemma changed_means_the_sizes_differ_witness :
  In "/lib/a.py"
    (diffSet (checkDiffs (fun _ _ => false) "/"
                (statOf [("main.py", 10%Z); ("lib/a.py", 5%Z)])
                ["main.py"; "lib/a.py"] ["lib"]
                [("/main.py", 10%Z); ("/lib/a.py", 7%Z)] ["/lib"]))
  <-> comparedSize (statOf [("main.py", 10%Z); ("lib/a.py", 5%Z)]) "lib/a.py"
      <> 7%Z.
Proof.
  apply (changed_means_the_sizes_differ (fun _ _ => false) "/"
           (statOf [("main.py", 10%Z); ("lib/a.py", 5%Z)])
           ["main.py"; "lib/a.py"] ["lib"]
           [("/main.py", 10%Z); ("/lib/a.py", 7%Z)] ["/lib"] "/lib/a.py" 7%Z).
  - right. now left.
  - right. now left.
  - reflexivity.
  - intros q size [H | [H | []]] E; inversion H; subst.
    + discriminate E.
    + auto.
Defined.
